(** * Building syntax trees from the clang AST: a model of BuildTree.cpp

    The development follows clang/lib/Tooling/Syntax/BuildTree.cpp.  Token
    pointers are positions in the expanded-token array, syntax nodes live in
    a heap indexed by allocation order, and every [assert],
    [llvm_unreachable] and [report_fatal_error] of the source is an explicit
    [Abort] result. *)

From stdpp Require Import base decidable option list gmap strings.

Set Default Proof Using "Type".
Set Warnings "-register-all".
Set Warnings "-automation".
Set Warnings "-default".

(** ** Aborting computations *)

Inductive Failure : Type :=
| AssertionFailure (msg : string)
| Unreachable (msg : string)
| FatalError (msg : string)
| InvalidAccess (msg : string).

Inductive Result (A : Type) : Type :=
| Ok (a : A)
| Abort (f : Failure).
Arguments Ok {A} a.
Arguments Abort {A} f.

#[global] Instance Result_ret : MRet Result := fun A a => Ok a.
#[global] Instance Result_bind : MBind Result := fun A B k r =>
  match r with
  | Ok a => k a
  | Abort f => Abort f
  end.

Definition assertR (cond : bool) (msg : string) : Result unit :=
  if cond then Ok tt else Abort (AssertionFailure msg).

Definition isOk {A} (r : Result A) : bool :=
  match r with Ok _ => true | Abort _ => false end.

(** ** Source locations and tokens *)

(** A [SourceLocation] is its raw encoding; the encoding 0 is the invalid
    location. *)
Notation SourceLocation := nat (only parsing).

Definition Loc_isValid (L : SourceLocation) : bool := negb (L =? 0).
Definition Loc_isInvalid (L : SourceLocation) : bool := L =? 0.
Definition InvalidLoc : SourceLocation := 0.

Record SourceRange : Type := mkSourceRange {
  getBegin : SourceLocation;
  getEnd : SourceLocation
}.

Definition Range_isValid (R : SourceRange) : bool :=
  Loc_isValid (getBegin R) && Loc_isValid (getEnd R).
Definition Range_isInvalid (R : SourceRange) : bool := negb (Range_isValid R).
Definition InvalidRange : SourceRange := mkSourceRange InvalidLoc InvalidLoc.

Inductive TokenKind : Type :=
| tok_eof | tok_semi | tok_coloncolon | tok_arrow | tok_period
| tok_kw_template | tok_kw_extern | tok_kw_this
| tok_identifier | tok_numeric_constant
| tok_l_paren | tok_r_paren | tok_l_brace | tok_r_brace
| tok_comma | tok_equal | tok_plus | tok_plusplus | tok_star
| tok_kw_int | tok_kw_return | tok_unknown.

#[global] Instance TokenKind_eq_dec : EqDecision TokenKind.
Proof. solve_decision. Defined.

Record Token : Type := mkToken {
  Token_kind : TokenKind;
  Token_location : SourceLocation
}.

(** A pointer into the expanded-token array is the position it points at. *)
Notation TokenPtr := nat (only parsing).

(** [ArrayRef<syntax::Token>]: a pointer to the first token and a length,
    as in llvm::ArrayRef. *)
Record ArrayRef : Type := mkArrayRef {
  ArrayRef_Data : TokenPtr;
  ArrayRef_Length : nat
}.

Definition ArrayRef_begin (R : ArrayRef) : TokenPtr := ArrayRef_Data R.
Definition ArrayRef_end (R : ArrayRef) : TokenPtr :=
  ArrayRef_Data R + ArrayRef_Length R.
Definition ArrayRef_empty (R : ArrayRef) : bool := ArrayRef_Length R =? 0.
Definition ArrayRef_size (R : ArrayRef) : nat := ArrayRef_Length R.

(** [llvm::makeArrayRef(begin, end)]: the length is the difference of the
    two pointers as a [size_t] of 64 bits, which wraps around when [end]
    is before [begin].  For such a range [end()], the sum of the pointer
    and the length, is outside every buffer: the language leaves the
    pointer undefined, and [ArrayRef_end] keeps the sum as it is. *)
Definition makeArrayRef (b e : TokenPtr) : ArrayRef :=
  mkArrayRef b (if e <? b then 2 ^ 64 - (b - e) else e - b).

(** The conversion of one token [*T] to an [ArrayRef] of length 1. *)
Definition oneToken (T : TokenPtr) : ArrayRef := mkArrayRef T 1.

(** [drop_back()] asserts that there is an element to drop. *)
Definition ArrayRef_drop_back (R : ArrayRef) : Result ArrayRef :=
  if 1 <=? ArrayRef_Length R
  then Ok (mkArrayRef (ArrayRef_Data R) (ArrayRef_Length R - 1))
  else Abort (AssertionFailure "Dropping more elements than exist").

#[global] Instance ArrayRef_eq_dec : EqDecision ArrayRef.
Proof. solve_decision. Defined.

(** The parts of [syntax::Arena] the builder reads: the expanded tokens of
    the token buffer, whether a range of expanded tokens has a spelled
    counterpart ([TokenBuffer::spelledForExpanded(..).hasValue()]), and the
    source manager's order on locations. *)
Record Arena : Type := mkArena {
  expandedTokens : list Token;
  spelledForExpanded : ArrayRef -> bool;
  isBeforeInTranslationUnit : SourceLocation -> SourceLocation -> bool
}.

(** Reading the kind of the token a pointer points at; reading outside the
    array has no defined behaviour in the source and aborts here. *)
Definition kindAt (A : Arena) (p : TokenPtr) : Result TokenKind :=
  match expandedTokens A !! p with
  | Some T => Ok (Token_kind T)
  | None => Abort (InvalidAccess "token pointer outside of the expanded tokens")
  end.

(** [Tokens.back().kind()] *)
Definition backKind (A : Arena) (Tokens : ArrayRef) : Result TokenKind :=
  if ArrayRef_empty Tokens
  then Abort (InvalidAccess "back() of an empty ArrayRef")
  else kindAt A (ArrayRef_end Tokens - 1).

(** [Tokens.front().kind()] *)
Definition frontKind (A : Arena) (Tokens : ArrayRef) : Result TokenKind :=
  if ArrayRef_empty Tokens
  then Abort (InvalidAccess "front() of an empty ArrayRef")
  else kindAt A (ArrayRef_begin Tokens).

(** ** Syntax nodes *)

Inductive NodeKind : Type :=
| NK_Leaf | NK_TranslationUnit
| NK_UnknownExpression | NK_UnknownStatement | NK_UnknownDeclaration
| NK_BinaryOperatorExpression
| NK_PrefixUnaryOperatorExpression | NK_PostfixUnaryOperatorExpression
| NK_ParenExpression | NK_ThisExpression | NK_MemberExpression
| NK_IdExpression | NK_UnqualifiedId
| NK_IntegerLiteralExpression | NK_CharacterLiteralExpression
| NK_FloatingLiteralExpression | NK_StringLiteralExpression
| NK_BoolLiteralExpression | NK_CxxNullPtrExpression
| NK_IntegerUserDefinedLiteralExpression
| NK_FloatUserDefinedLiteralExpression
| NK_CharUserDefinedLiteralExpression
| NK_StringUserDefinedLiteralExpression
| NK_NestedNameSpecifier
| NK_GlobalNameSpecifier | NK_DecltypeNameSpecifier
| NK_IdentifierNameSpecifier | NK_SimpleTemplateNameSpecifier
| NK_ExpressionStatement | NK_CompoundStatement | NK_DeclarationStatement
| NK_EmptyStatement | NK_SwitchStatement | NK_CaseStatement
| NK_DefaultStatement | NK_IfStatement | NK_ForStatement
| NK_WhileStatement | NK_ContinueStatement | NK_BreakStatement
| NK_ReturnStatement | NK_RangeBasedForStatement
| NK_SimpleDeclaration | NK_SimpleDeclarator
| NK_TemplateDeclaration | NK_ExplicitTemplateInstantiation
| NK_NamespaceDefinition | NK_NamespaceAliasDefinition
| NK_UsingNamespaceDirective | NK_UsingDeclaration
| NK_TypeAliasDeclaration | NK_EmptyDeclaration
| NK_StaticAssertDeclaration | NK_LinkageSpecificationDeclaration
| NK_ParenDeclarator | NK_ArraySubscript | NK_ParametersAndQualifiers
| NK_TrailingReturnType | NK_MemberPointer.

#[global] Instance NodeKind_eq_dec : EqDecision NodeKind.
Proof. solve_decision. Defined.

Inductive NodeRole : Type :=
| Detached | Unknown
| OpenParen | CloseParen | IntroducerKeyword | LiteralToken
| ArrowToken | ExternKeyword | TemplateKeyword | BodyStatement
| List_element | List_delimiter
| CaseStatement_value
| IfStatement_thenStatement | IfStatement_elseKeyword
| IfStatement_elseStatement
| OperatorExpression_operatorToken
| UnaryOperatorExpression_operand
| BinaryOperatorExpression_leftHandSide
| BinaryOperatorExpression_rightHandSide
| ReturnStatement_value
| ExpressionStatement_expression
| CompoundStatement_statement
| StaticAssertDeclaration_condition | StaticAssertDeclaration_message
| SimpleDeclaration_declarator
| TemplateDeclaration_declaration
| ExplicitTemplateInstantiation_declaration
| ArraySubscript_sizeExpression
| TrailingReturnType_declarator
| ParametersAndQualifiers_parameter
| ParametersAndQualifiers_trailingReturn
| IdExpression_id | IdExpression_qualifier
| ParenExpression_subExpression
| MemberExpression_object | MemberExpression_accessToken
| MemberExpression_member.

#[global] Instance NodeRole_eq_dec : EqDecision NodeRole.
Proof. solve_decision. Defined.

(** ** Classification of overloaded operator calls *)

Inductive OverloadedOperatorKind : Type :=
| OO_None
| OO_New | OO_Delete | OO_Array_New | OO_Array_Delete
| OO_Plus | OO_Minus | OO_Star | OO_Slash | OO_Percent | OO_Caret
| OO_Amp | OO_Pipe | OO_Tilde | OO_Exclaim | OO_Equal | OO_Less
| OO_Greater | OO_PlusEqual | OO_MinusEqual | OO_StarEqual
| OO_SlashEqual | OO_PercentEqual | OO_CaretEqual | OO_AmpEqual
| OO_PipeEqual | OO_LessLess | OO_GreaterGreater | OO_LessLessEqual
| OO_GreaterGreaterEqual | OO_EqualEqual | OO_ExclaimEqual
| OO_LessEqual | OO_GreaterEqual | OO_Spaceship | OO_AmpAmp
| OO_PipePipe | OO_PlusPlus | OO_MinusMinus | OO_Comma | OO_ArrowStar
| OO_Arrow | OO_Call | OO_Subscript | OO_Conditional | OO_Coawait
| NUM_OVERLOADED_OPERATORS.

#[global] Instance OverloadedOperatorKind_eq_dec :
  EqDecision OverloadedOperatorKind.
Proof. solve_decision. Defined.

(** [getOperatorNodeKind(E)] reads [E.getOperator()] and [E.getNumArgs()]. *)
Definition getOperatorNodeKind (Operator : OverloadedOperatorKind)
    (NumArgs : nat) : Result NodeKind :=
  match Operator with
  (* Comparison *)
  | OO_EqualEqual | OO_ExclaimEqual | OO_Greater | OO_GreaterEqual
  | OO_Less | OO_LessEqual | OO_Spaceship
  (* Assignment *)
  | OO_Equal | OO_SlashEqual | OO_PercentEqual | OO_CaretEqual
  | OO_PipeEqual | OO_LessLessEqual | OO_GreaterGreaterEqual
  | OO_PlusEqual | OO_MinusEqual | OO_StarEqual | OO_AmpEqual
  (* Binary computation *)
  | OO_Slash | OO_Percent | OO_Caret | OO_Pipe | OO_LessLess
  | OO_GreaterGreater | OO_AmpAmp | OO_PipePipe | OO_ArrowStar
  | OO_Comma =>
      Ok NK_BinaryOperatorExpression
  | OO_Tilde | OO_Exclaim =>
      Ok NK_PrefixUnaryOperatorExpression
  (* Prefix/Postfix increment/decrement *)
  | OO_PlusPlus | OO_MinusMinus =>
      match NumArgs with
      | 1 => Ok NK_PrefixUnaryOperatorExpression
      | 2 => Ok NK_PostfixUnaryOperatorExpression
      | _ => Abort (Unreachable "Invalid number of arguments for operator")
      end
  (* Operators that can be unary or binary *)
  | OO_Plus | OO_Minus | OO_Star | OO_Amp =>
      match NumArgs with
      | 1 => Ok NK_PrefixUnaryOperatorExpression
      | 2 => Ok NK_BinaryOperatorExpression
      | _ => Abort (Unreachable "Invalid number of arguments for operator")
      end
  (* Not yet supported by SyntaxTree *)
  | OO_New | OO_Delete | OO_Array_New | OO_Array_Delete | OO_Coawait
  | OO_Call | OO_Subscript | OO_Arrow =>
      Ok NK_UnknownExpression
  | OO_Conditional | NUM_OVERLOADED_OPERATORS | OO_None =>
      Abort (Unreachable "Not an overloadable operator")
  end.

(** ** Classification of nested name specifiers *)

(** The type classes [getNameSpecifierKind] tells apart with [isa]. *)
Inductive TypeClass : Type :=
| TC_Decltype
| TC_TemplateSpecialization
| TC_DependentTemplateSpecialization
| TC_Other.

Inductive SpecifierKind : Type :=
| SK_Identifier | SK_Namespace | SK_NamespaceAlias
| SK_TypeSpec | SK_TypeSpecWithTemplate | SK_Global | SK_Super.

#[global] Instance SpecifierKind_eq_dec : EqDecision SpecifierKind.
Proof. solve_decision. Defined.

(** A [NestedNameSpecifier] as its accessors show it: [getKind()] and
    [getAsType()], the latter null unless the specifier stores a type. *)
Record NestedNameSpecifier : Type := mkNestedNameSpecifier {
  NNS_getKind : SpecifierKind;
  NNS_getAsType : option TypeClass
}.

Definition getNameSpecifierKind (NNS : NestedNameSpecifier)
    : Result NodeKind :=
  match NNS_getKind NNS with
  | SK_Global => Ok NK_GlobalNameSpecifier
  | SK_Namespace | SK_NamespaceAlias | SK_Identifier =>
      Ok NK_IdentifierNameSpecifier
  | SK_TypeSpecWithTemplate => Ok NK_SimpleTemplateNameSpecifier
  | SK_TypeSpec =>
      match NNS_getAsType NNS with
      | None => Abort (AssertionFailure "NNSType")
      | Some TC_Decltype => Ok NK_DecltypeNameSpecifier
      | Some TC_TemplateSpecialization
      | Some TC_DependentTemplateSpecialization =>
          Ok NK_SimpleTemplateNameSpecifier
      | Some TC_Other => Ok NK_IdentifierNameSpecifier
      end
  | SK_Super =>
      Abort (FatalError "We don't yet support the __super specifier")
  end.

(** ** The node heap *)

(** Syntax nodes are allocated in the arena and mutated through pointers; a
    [NodePtr] is the position of the node in the heap, in allocation
    order. *)
Notation NodePtr := nat (only parsing).

Inductive NodeBody : Type :=
| LeafBody (Tok : TokenPtr)
| TreeBody (Children : list NodePtr).

Record Node : Type := mkNode {
  Node_kind : NodeKind;
  Node_role : NodeRole;
  Node_Original : bool;
  Node_CanModify : bool;
  Node_body : NodeBody
}.

Notation Heap := (list Node).

Definition setRole_node (R : NodeRole) (N : Node) : Node :=
  mkNode (Node_kind N) R (Node_Original N) (Node_CanModify N) (Node_body N).

Definition setFlags_node (Orig CanMod : bool) (N : Node) : Node :=
  mkNode (Node_kind N) (Node_role N) Orig CanMod (Node_body N).

(** Modelled from the spec: [Tree::prependChildLowLevel] is defined outside
    of BuildTree.cpp; the fold "prepends it as a child of newNode". *)
Definition prependChildLowLevel_node (C : NodePtr) (N : Node) : Node :=
  match Node_body N with
  | TreeBody Cs =>
      mkNode (Node_kind N) (Node_role N) (Node_Original N) (Node_CanModify N)
             (TreeBody (C :: Cs))
  | LeafBody _ => N
  end.

(** Modelled from the spec: the constructors of [syntax::Leaf] and of the
    tree nodes are defined outside of BuildTree.cpp; the initial value of
    the role is [Detached], and the two flags are unset until the forest
    sets them.  [newLeaf T] is [new (allocator) syntax::Leaf(&T)] and
    [newTree K] is [new (allocator) syntax::K]. *)
Definition newLeaf (T : TokenPtr) : Node :=
  mkNode NK_Leaf Detached false false (LeafBody T).
Definition newTree (K : NodeKind) : Node :=
  mkNode K Detached false false (TreeBody []).

Definition role (H : Heap) (p : NodePtr) : Result NodeRole :=
  match H !! p with
  | Some N => Ok (Node_role N)
  | None => Abort (InvalidAccess "dangling node pointer")
  end.

(** [Node->firstChild()], for a [syntax::Tree *]. *)
Definition firstChild (H : Heap) (p : NodePtr) : Result (option NodePtr) :=
  match H !! p with
  | Some N =>
      match Node_body N with
      | TreeBody Cs => Ok (head Cs)
      | LeafBody _ => Abort (InvalidAccess "a leaf used as a syntax::Tree")
      end
  | None => Abort (InvalidAccess "dangling node pointer")
  end.

(** ** The pending forest *)

(** [std::map<const syntax::Token *, syntax::Node *>]: the entries in
    increasing key order.  An iterator is a position in this list and
    [Trees.end()] is its length. *)
Notation Forest := (list (TokenPtr * NodePtr)).

Fixpoint lower_bound (Trees : Forest) (k : TokenPtr) : nat :=
  match Trees with
  | [] => 0
  | (k', _) :: rest => if k' <? k then S (lower_bound rest k) else 0
  end.

(** [Trees.insert({k, v})] leaves the map alone when the key is taken. *)
Fixpoint map_insert (k : TokenPtr) (v : NodePtr) (Trees : Forest) : Forest :=
  match Trees with
  | [] => [(k, v)]
  | (k', v') :: rest =>
      if k <? k' then (k, v) :: Trees
      else if k =? k' then Trees
      else (k', v') :: map_insert k v rest
  end.

(** [Trees.erase(b, e)] *)
Definition map_erase (b e : nat) (Trees : Forest) : Forest :=
  take b Trees ++ drop e Trees.

(** The entries at the iterator positions [[b, e)]. *)
Definition map_range (b e : nat) (Trees : Forest) : Forest :=
  take (e - b) (drop b Trees).

(** [It == Trees.end() || It->first == k] *)
Definition atEndOrKey (Trees : Forest) (It : nat) (k : TokenPtr) : bool :=
  match Trees !! It with
  | None => true
  | Some (k', _) => k' =? k
  end.

(** The constructor [Forest(Arena &)]: one leaf per expanded token, the
    final eof token left out. *)
Fixpoint Forest_leaves (A : Arena) (first count : nat) : Heap :=
  match count with
  | 0 => []
  | S c =>
      setFlags_node true (spelledForExpanded A (oneToken first))
                    (newLeaf first)
      :: Forest_leaves A (S first) c
  end.

Definition Forest_new (A : Arena) : Result (Heap * Forest) :=
  _ ← assertR (negb (length (expandedTokens A) =? 0))
              "!A.tokenBuffer().expandedTokens().empty()";
  k ← kindAt A (length (expandedTokens A) - 1);
  _ ← assertR (bool_decide (k = tok_eof))
              "A.tokenBuffer().expandedTokens().back().kind() == tok::eof";
  let n := length (expandedTokens A) - 1 in
  Ok (Forest_leaves A 0 n, (fun i => (i, i)) <$> seq 0 n).

Definition Forest_assignRole (Range : ArrayRef) (Role : NodeRole)
    (H : Heap) (Trees : Forest) : Result Heap :=
  _ ← assertR (negb (ArrayRef_empty Range)) "!Range.empty()";
  let It := lower_bound Trees (ArrayRef_begin Range) in
  match Trees !! It with
  | None => Abort (AssertionFailure "no node found")
  | Some (k, N) =>
      _ ← assertR (k =? ArrayRef_begin Range)
                  "no child with the specified range";
      _ ← assertR (atEndOrKey Trees (S It) (ArrayRef_end Range))
                  "no child with the specified range";
      r ← role H N;
      _ ← assertR (bool_decide (r = Detached))
                  "re-assigning role for a child";
      Ok (alter (setRole_node Role) N H)
  end.

(** The loop of [foldChildren], over the covered entries from the last to
    the first. *)
Fixpoint attachChildren (Cs : list NodePtr) (Node : NodePtr) (H : Heap)
    : Result Heap :=
  match Cs with
  | [] => Ok H
  | C :: rest =>
      r ← role H C;
      let H1 := if bool_decide (r = Detached)
                then alter (setRole_node Unknown) C H else H in
      attachChildren rest Node (alter (prependChildLowLevel_node C) Node H1)
  end.

Definition Forest_foldChildren (A : Arena) (Tokens : ArrayRef)
    (Node : NodePtr) (H : Heap) (Trees : Forest) : Result (Heap * Forest) :=
  fc ← firstChild H Node;
  _ ← assertR (bool_decide (fc = None)) "node already has children";
  let FirstToken := ArrayRef_begin Tokens in
  let BeginChildren := lower_bound Trees FirstToken in
  _ ← assertR (atEndOrKey Trees BeginChildren FirstToken)
              "fold crosses boundaries of existing subtrees";
  let EndChildren := lower_bound Trees (ArrayRef_end Tokens) in
  _ ← assertR (atEndOrKey Trees EndChildren (ArrayRef_end Tokens))
              "fold crosses boundaries of existing subtrees";
  H1 ← attachChildren
         (reverse (snd <$> map_range BeginChildren EndChildren Trees)) Node H;
  let H2 := alter (setFlags_node true (spelledForExpanded A Tokens)) Node H1 in
  Ok (H2, map_insert FirstToken Node
            (map_erase BeginChildren EndChildren Trees)).

Definition Forest_finalize (Trees : Forest) : Result (NodePtr * Forest) :=
  _ ← assertR (length Trees =? 1) "Trees.size() == 1";
  match Trees with
  | (_, Root) :: _ => Ok (Root, [])
  | [] => Abort (InvalidAccess "begin() of an empty map")
  end.

(** ** The AST, as far as the builder reads it *)

(** The AST is read-only input.  A node is given by its identity (the
    pointer value) and the results of the accessors BuildTree.cpp calls. *)

Inductive StmtClass : Type :=
| SC_CompoundStmt | SC_DeclStmt | SC_OtherStmt
| SC_Expr.

#[global] Instance StmtClass_eq_dec : EqDecision StmtClass.
Proof. solve_decision. Defined.

(** [Stmt_implicitSub] is the sub-expression of an implicit node (an
    implicit cast and the like), which [IgnoreImplicit] looks through;
    [Stmt_decls] are the declarations of a [DeclStmt]. *)
Inductive Stmt : Type := mkStmt {
  Stmt_ptr : nat;
  Stmt_class : StmtClass;
  Stmt_getSourceRange : SourceRange;
  Stmt_implicitSub : option Stmt;
  Stmt_decls : list nat
}.

Definition isa_CompoundStmt (S : Stmt) : bool :=
  bool_decide (Stmt_class S = SC_CompoundStmt).
Definition isa_DeclStmt (S : Stmt) : bool :=
  bool_decide (Stmt_class S = SC_DeclStmt).
Definition isa_Expr (S : Stmt) : bool :=
  bool_decide (Stmt_class S = SC_Expr).

Fixpoint IgnoreImplicit (E : Stmt) : Stmt :=
  match E with
  | mkStmt _ _ _ (Some Sub) _ => IgnoreImplicit Sub
  | mkStmt _ _ _ None _ => E
  end.

Definition isImplicitExpr (E : Stmt) : bool :=
  negb (Stmt_ptr (IgnoreImplicit E) =? Stmt_ptr E).

(** [llvm::PointerUnion<Stmt *, Decl *>]; the null pointer is [None]. *)
Inductive ASTKey : Type :=
| StmtKey (p : nat)
| DeclKey (p : nat).

#[global] Instance ASTKey_eq_dec : EqDecision ASTKey.
Proof. solve_decision. Defined.

#[global] Instance ASTKey_countable : Countable ASTKey.
Proof.
  refine (inj_countable'
            (fun k => match k with StmtKey p => inl p | DeclKey p => inr p end)
            (fun s => match s with inl p => StmtKey p | inr p => DeclKey p end)
            _).
  by intros [].
Defined.

Definition ASTPtr : Type := option ASTKey.
Definition ofStmt (S : Stmt) : ASTPtr := Some (StmtKey (Stmt_ptr S)).

(** A [NestedNameSpecifierLoc] is the pair of a qualifier pointer and a data
    pointer; it converts to [true] when the qualifier is not null. *)
Record NestedNameSpecifierLoc : Type := mkNestedNameSpecifierLoc {
  NNSLoc_Qualifier : nat;
  NNSLoc_Data : nat;
  NNSLoc_getBeginLoc : SourceLocation
}.

Definition NNSLoc_hasQualifier (Q : NestedNameSpecifierLoc) : bool :=
  negb (NNSLoc_Qualifier Q =? 0).
Definition NNSLoc_key (Q : NestedNameSpecifierLoc) : nat * nat :=
  (NNSLoc_Qualifier Q, NNSLoc_Data Q).
Definition NoQualifier : NestedNameSpecifierLoc :=
  mkNestedNameSpecifierLoc 0 0 InvalidLoc.

(** Type locations, by the cases [GetStartLoc] tells apart.  Every case
    carries the end of [getSourceRange()]. *)
Inductive PointerLikeKind : Type :=
| PK_Pointer | PK_MemberPointer | PK_BlockPointer | PK_Reference
| PK_ObjCObjectPointer.

Inductive TypeLoc : Type :=
| ParenTypeLoc (LParenLoc : SourceLocation) (Inner : TypeLoc)
               (RangeEnd : SourceLocation)
| PointerLikeTypeLoc (K : PointerLikeKind) (LocalBegin : SourceLocation)
                     (Pointee : TypeLoc) (RangeEnd : SourceLocation)
| FunctionProtoTypeLoc (hasTrailingReturn : bool) (Next : option TypeLoc)
                       (RangeEnd : SourceLocation)
| OtherTypeLoc (Next : option TypeLoc) (RangeEnd : SourceLocation).

Definition TypeLoc_getEnd (T : TypeLoc) : SourceLocation :=
  match T with
  | ParenTypeLoc _ _ e | PointerLikeTypeLoc _ _ _ e
  | FunctionProtoTypeLoc _ _ e | OtherTypeLoc _ e => e
  end.

Inductive DeclKind : Type :=
| DK_Namespace | DK_Var | DK_ParmVar | DK_Function | DK_Field
| DK_Typedef | DK_TypeAlias | DK_CXXRecord | DK_Enum
| DK_Empty | DK_StaticAssert | DK_Other.

#[global] Instance DeclKind_eq_dec : EqDecision DeclKind.
Proof. solve_decision. Defined.

Definition isa_NamespaceDecl (k : DeclKind) : bool :=
  match k with DK_Namespace => true | _ => false end.
Definition isa_TagDecl (k : DeclKind) : bool :=
  match k with DK_CXXRecord | DK_Enum => true | _ => false end.
Definition isa_VarDecl (k : DeclKind) : bool :=
  match k with DK_Var | DK_ParmVar => true | _ => false end.
Definition isa_DeclaratorDecl (k : DeclKind) : bool :=
  match k with
  | DK_Var | DK_ParmVar | DK_Function | DK_Field => true
  | _ => false
  end.
Definition isa_TypedefNameDecl (k : DeclKind) : bool :=
  match k with DK_Typedef | DK_TypeAlias => true | _ => false end.

(** A declaration with its next sibling in the declaration context.
    [Decl_TypeDecl_getBeginLoc] is read for tag declarations only; the
    fields from [Decl_TypeLoc] on are read for declarator and typedef-name
    declarations only. *)
Inductive Decl : Type := mkDecl {
  Decl_ptr : nat;
  Decl_kind : DeclKind;
  Decl_getSourceRange : SourceRange;
  Decl_getNextDeclInContext : option Decl;
  Decl_TypeDecl_getBeginLoc : SourceLocation;
  Decl_TypeLoc : TypeLoc;
  Decl_isAnonymous : bool;
  Decl_getQualifierLoc : NestedNameSpecifierLoc;
  Decl_getLocation : SourceLocation;
  Decl_getInit : option Stmt;
  Decl_isCXXForRangeDecl : bool
}.

Definition Decl_getBeginLoc (D : Decl) : SourceLocation :=
  getBegin (Decl_getSourceRange D).
Definition Decl_getEndLoc (D : Decl) : SourceLocation :=
  getEnd (Decl_getSourceRange D).
Definition ofDecl (D : Decl) : ASTPtr := Some (DeclKey (Decl_ptr D)).

(** ** GetStartLoc and getDeclaratorRange *)

Fixpoint GetStartLoc_Visit (T : TypeLoc) : SourceLocation :=
  match T with
  | ParenTypeLoc LParenLoc Inner _ =>
      let L := GetStartLoc_Visit Inner in
      if Loc_isValid L then L else LParenLoc
  | PointerLikeTypeLoc _ LocalBegin Pointee _ =>
      (* HandlePointer *)
      let L := GetStartLoc_Visit Pointee in
      if Loc_isValid L then L else LocalBegin
  | FunctionProtoTypeLoc hasTrailingReturn Next _ =>
      if hasTrailingReturn then InvalidLoc
      else match Next with
           | None => InvalidLoc
           | Some N => GetStartLoc_Visit N
           end
  | OtherTypeLoc Next _ =>
      (* VisitTypeLoc *)
      match Next with
      | None => InvalidLoc
      | Some N => GetStartLoc_Visit N
      end
  end.

Definition getDeclaratorRange (A : Arena) (T : TypeLoc)
    (Name : SourceLocation) (Initializer : SourceRange)
    : Result SourceRange :=
  let Start := GetStartLoc_Visit T in
  let End := TypeLoc_getEnd T in
  _ ← assertR (Loc_isValid End) "End.isValid()";
  let Start1 :=
    if Loc_isValid Name && Loc_isInvalid Start then Name else Start in
  let End1 :=
    if Loc_isValid Name && isBeforeInTranslationUnit A End Name
    then Name else End in
  if Range_isValid Initializer then
    let InitializerEnd := getEnd Initializer in
    _ ← assertR (isBeforeInTranslationUnit A End1 InitializerEnd
                 || (End1 =? InitializerEnd))
                "SM.isBeforeInTranslationUnit(End, InitializerEnd) || End == InitializerEnd";
    Ok (mkSourceRange Start1 InitializerEnd)
  else Ok (mkSourceRange Start1 End1).

(** ** The tree builder *)

Record ASTToSyntaxMapping : Type := mkMapping {
  Nodes : gmap ASTKey NodePtr;
  NNSNodes : gmap (nat * nat) NodePtr
}.

(** [TB_Heap] holds the nodes allocated from the arena's allocator. *)
Record TreeBuilder : Type := mkTreeBuilder {
  TB_Arena : Arena;
  TB_Heap : Heap;
  LocationToToken : gmap nat TokenPtr;
  Pending : Forest;
  DeclsWithoutSemicolons : gset nat;
  Mapping : ASTToSyntaxMapping
}.

Definition withHeap (H : Heap) (B : TreeBuilder) : TreeBuilder :=
  mkTreeBuilder (TB_Arena B) H (LocationToToken B) (Pending B)
                (DeclsWithoutSemicolons B) (Mapping B).
Definition withForest (H : Heap) (F : Forest) (B : TreeBuilder)
    : TreeBuilder :=
  mkTreeBuilder (TB_Arena B) H (LocationToToken B) F
                (DeclsWithoutSemicolons B) (Mapping B).
Definition withMapping (Mp : ASTToSyntaxMapping) (B : TreeBuilder)
    : TreeBuilder :=
  mkTreeBuilder (TB_Arena B) (TB_Heap B) (LocationToToken B) (Pending B)
                (DeclsWithoutSemicolons B) Mp.
Definition withDeclsWithoutSemicolons (Ds : gset nat) (B : TreeBuilder)
    : TreeBuilder :=
  mkTreeBuilder (TB_Arena B) (TB_Heap B) (LocationToToken B) (Pending B)
                Ds (Mapping B).

(** Methods that change the builder are computations over its state. *)
Definition M (A : Type) : Type := TreeBuilder -> Result (A * TreeBuilder).

#[global] Instance M_ret : MRet M := fun A a B => Ok (a, B).
#[global] Instance M_bind : MBind M := fun A A' k m B =>
  match m B with
  | Ok (a, B1) => k a B1
  | Abort f => Abort f
  end.

Definition liftR {A} (r : Result A) : M A := fun B =>
  match r with
  | Ok a => Ok (a, B)
  | Abort f => Abort f
  end.
Definition readB {A} (f : TreeBuilder -> Result A) : M A :=
  fun B => liftR (f B) B.
Definition assertM (cond : bool) (msg : string) : M unit :=
  liftR (assertR cond msg).

(** The constructor: [DenseMap::insert] keeps the first token of a
    location. *)
Fixpoint buildLocationToToken (Ts : list Token) (first : TokenPtr)
    (m : gmap nat TokenPtr) : gmap nat TokenPtr :=
  match Ts with
  | [] => m
  | T :: rest =>
      let m1 := match m !! Token_location T with
                | Some _ => m
                | None => <[Token_location T := first]> m
                end in
      buildLocationToToken rest (S first) m1
  end.

Definition TreeBuilder_new (A : Arena) : Result TreeBuilder :=
  let L := buildLocationToToken (expandedTokens A) 0 ∅ in
  HF ← Forest_new A;
  Ok (mkTreeBuilder A HF.1 L HF.2 ∅ (mkMapping ∅ ∅)).

(** [new (allocator()) syntax::K] *)
Definition allocate (K : NodeKind) : M NodePtr := fun B =>
  Ok (length (TB_Heap B), withHeap (TB_Heap B ++ [newTree K]) B).

Definition Mapping_add (From : ASTPtr) (To : NodePtr) : M unit := fun B =>
  match From with
  | None => Abort (AssertionFailure "!From.isNull()")
  | Some K =>
      match Nodes (Mapping B) !! K with
      | Some _ => Abort (AssertionFailure "mapping added twice")
      | None =>
          Ok (tt, withMapping (mkMapping (<[K := To]> (Nodes (Mapping B)))
                                         (NNSNodes (Mapping B))) B)
      end
  end.

Definition Mapping_addNNS (From : NestedNameSpecifierLoc) (To : NodePtr)
    : M unit := fun B =>
  if NNSLoc_hasQualifier From then
    match NNSNodes (Mapping B) !! NNSLoc_key From with
    | Some _ => Abort (AssertionFailure "mapping added twice")
    | None =>
        Ok (tt, withMapping (mkMapping (Nodes (Mapping B))
                               (<[NNSLoc_key From := To]>
                                  (NNSNodes (Mapping B)))) B)
    end
  else Abort (AssertionFailure "From.hasQualifier()").

Definition Mapping_find (B : TreeBuilder) (P : ASTPtr) : option NodePtr :=
  match P with
  | None => None
  | Some K => Nodes (Mapping B) !! K
  end.

Definition Mapping_findNNS (B : TreeBuilder) (P : NestedNameSpecifierLoc)
    : option NodePtr :=
  NNSNodes (Mapping B) !! NNSLoc_key P.

Definition Pending_foldChildren (Tokens : ArrayRef) (New : NodePtr)
    : M unit := fun B =>
  match Forest_foldChildren (TB_Arena B) Tokens New (TB_Heap B) (Pending B)
  with
  | Ok (H, F) => Ok (tt, withForest H F B)
  | Abort f => Abort f
  end.

Definition Pending_assignRole (Range : ArrayRef) (Role : NodeRole)
    : M unit := fun B =>
  match Forest_assignRole Range Role (TB_Heap B) (Pending B) with
  | Ok H => Ok (tt, withHeap H B)
  | Abort f => Abort f
  end.

(** [foldNode(Range, New, ASTPtr From)] *)
Definition foldNode (Range : ArrayRef) (New : NodePtr) (From : ASTPtr)
    : M unit :=
  _ ← Pending_foldChildren Range New;
  match From with
  | Some _ => Mapping_add From New
  | None => mret tt
  end.

(** [foldNode(Range, New, TypeLoc L)] *)
Definition foldNode_TypeLoc (Range : ArrayRef) (New : NodePtr) : M unit :=
  foldNode Range New None.

(** [foldNode(Range, New, NestedNameSpecifierLoc From)] *)
Definition foldNode_NNS (Range : ArrayRef) (New : NodePtr)
    (From : NestedNameSpecifierLoc) : M unit :=
  _ ← Pending_foldChildren Range New;
  if NNSLoc_hasQualifier From then Mapping_addNNS From New else mret tt.

Definition noticeDeclWithoutSemicolon (D : nat) : M unit := fun B =>
  Ok (tt, withDeclsWithoutSemicolons ({[D]} ∪ DeclsWithoutSemicolons B) B).

(** [findToken(L)]: null for an invalid location. *)
Definition findToken (B : TreeBuilder) (L : SourceLocation)
    : Result (option TokenPtr) :=
  if Loc_isInvalid L then Ok None
  else match LocationToToken B !! L with
       | Some T => Ok (Some T)
       | None => Abort (AssertionFailure "It != LocationToToken.end()")
       end.

(** [getRange(First, Last)] *)
Definition getRange2 (B : TreeBuilder) (First Last : SourceLocation)
    : Result ArrayRef :=
  _ ← assertR (Loc_isValid First) "First.isValid()";
  _ ← assertR (Loc_isValid Last) "Last.isValid()";
  _ ← assertR ((First =? Last)
               || isBeforeInTranslationUnit (TB_Arena B) First Last)
              "First == Last || isBeforeInTranslationUnit(First, Last)";
  f ← findToken B First;
  l ← findToken B Last;
  match f, l with
  | Some f, Some l => Ok (makeArrayRef f (S l))
  | _, _ => Abort (InvalidAccess "null token pointer")
  end.

(** [getRange(SourceRange)] *)
Definition getRange (B : TreeBuilder) (Range : SourceRange)
    : Result ArrayRef :=
  _ ← assertR (Range_isValid Range) "Range.isValid()";
  getRange2 B (getBegin Range) (getEnd Range).

Definition withTrailingSemicolon (B : TreeBuilder) (Tokens : ArrayRef)
    : Result ArrayRef :=
  _ ← assertR (negb (ArrayRef_empty Tokens)) "!Tokens.empty()";
  back ← backKind (TB_Arena B) Tokens;
  _ ← assertR (negb (bool_decide (back = tok_eof)))
              "Tokens.back().kind() != tok::eof";
  (* We never consume 'eof', so looking at the next token is ok. *)
  if bool_decide (back = tok_semi) then Ok Tokens
  else
    next ← kindAt (TB_Arena B) (ArrayRef_end Tokens);
    if bool_decide (next = tok_semi)
    then Ok (makeArrayRef (ArrayRef_begin Tokens) (ArrayRef_end Tokens + 1))
    else Ok Tokens.

Definition maybeAppendSemicolon (B : TreeBuilder) (Tokens : ArrayRef)
    (D : Decl) : Result ArrayRef :=
  if isa_NamespaceDecl (Decl_kind D) then Ok Tokens
  else if bool_decide (Decl_ptr D ∈ DeclsWithoutSemicolons B) then Ok Tokens
  else withTrailingSemicolon B Tokens.

Definition getDeclarationRange (B : TreeBuilder) (D : Decl)
    : Result ArrayRef :=
  Tokens ← (if isa_TagDecl (Decl_kind D)
            then getRange2 B (Decl_TypeDecl_getBeginLoc D) (Decl_getEndLoc D)
            else getRange B (Decl_getSourceRange D));
  maybeAppendSemicolon B Tokens D.

Definition getExprRange (B : TreeBuilder) (E : Stmt) : Result ArrayRef :=
  getRange B (Stmt_getSourceRange E).

Definition getStmtRange (B : TreeBuilder) (S : Stmt) : Result ArrayRef :=
  Tokens ← getRange B (Stmt_getSourceRange S);
  if isa_CompoundStmt S then Ok Tokens
  else
    back ← backKind (TB_Arena B) Tokens;
    if bool_decide (back = tok_semi) then Ok Tokens
    else withTrailingSemicolon B Tokens.

(** [isResponsibleForCreatingDeclaration<T>(D)]; [isa_T] is the test
    [dyn_cast<T>] performs on the next sibling. *)
Definition isResponsibleForCreatingDeclaration (isa_T : DeclKind -> bool)
    (D : Decl) : bool :=
  match Decl_getNextDeclInContext D with
  | None => true
  | Some Next =>
      if negb (isa_T (Decl_kind Next)) then true
      else if negb (Decl_getBeginLoc Next =? Decl_getBeginLoc D) then true
      else false
  end.

(** *** Assigning roles *)

Definition setRole (N : NodePtr) (R : NodeRole) : M unit := fun B =>
  match role (TB_Heap B) N with
  | Ok r =>
      if bool_decide (r = Detached)
      then Ok (tt, withHeap (alter (setRole_node R) N (TB_Heap B)) B)
      else Abort (AssertionFailure "N->role() == NodeRole::Detached")
  | Abort f => Abort f
  end.

(** [markChildToken(const syntax::Token *T, NodeRole R)] *)
Definition markChildToken (T : option TokenPtr) (R : NodeRole) : M unit :=
  match T with
  | None => mret tt
  | Some T => Pending_assignRole (oneToken T) R
  end.

(** [markChildToken(SourceLocation Loc, NodeRole Role)] *)
Definition markChildToken_Loc (Loc : SourceLocation) (Role : NodeRole)
    : M unit :=
  if Loc_isInvalid Loc then mret tt
  else
    T ← readB (fun B => findToken B Loc);
    match T with
    | Some T => Pending_assignRole (oneToken T) Role
    | None => liftR (Abort (InvalidAccess "null token pointer"))
    end.

(** [markChild(syntax::Node *N, NodeRole R)] *)
Definition markChild (N : NodePtr) (R : NodeRole) : M unit := setRole N R.

(** [markChild(ASTPtr N, NodeRole R)] *)
Definition markChild_AST (N : ASTPtr) (R : NodeRole) : M unit :=
  SN ← readB (fun B => Ok (Mapping_find B N));
  match SN with
  | Some SN => setRole SN R
  | None => liftR (Abort (AssertionFailure "SN != nullptr"))
  end.

(** [markChild(NestedNameSpecifierLoc NNSLoc, NodeRole R)] *)
Definition markChild_NNS (NNSLoc : NestedNameSpecifierLoc) (R : NodeRole)
    : M unit :=
  SN ← readB (fun B => Ok (Mapping_findNNS B NNSLoc));
  match SN with
  | Some SN => setRole SN R
  | None => liftR (Abort (AssertionFailure "SN != nullptr"))
  end.

Definition markExprChild (Child : option Stmt) (Role : NodeRole) : M unit :=
  match Child with
  | None => mret tt
  | Some Child =>
      let Child := IgnoreImplicit Child in
      ChildNode ← readB (fun B => Ok (Mapping_find B (ofStmt Child)));
      match ChildNode with
      | Some ChildNode => setRole ChildNode Role
      | None => liftR (Abort (AssertionFailure "ChildNode != nullptr"))
      end
  end.

Definition markStmtChild (Child : option Stmt) (Role : NodeRole) : M unit :=
  match Child with
  | None => mret tt
  | Some Child =>
      ChildNode ←
        (if isa_Expr Child then
           (* An expression in a statement position: consume the trailing
              semicolon and form an ExpressionStatement node. *)
           _ ← markExprChild (Some Child) ExpressionStatement_expression;
           ChildNode ← allocate NK_ExpressionStatement;
           Range ← readB (fun B => getStmtRange B Child);
           _ ← Pending_foldChildren Range ChildNode;
           mret (Some ChildNode)
         else readB (fun B => Ok (Mapping_find B (ofStmt Child))));
      match ChildNode with
      | Some ChildNode => setRole ChildNode Role
      | None => liftR (Abort (AssertionFailure "ChildNode != nullptr"))
      end
  end.

(** *** Finishing the tree *)

Definition kindOf (H : Heap) (p : NodePtr) : Result NodeKind :=
  match H !! p with
  | Some N => Ok (Node_kind N)
  | None => Abort (InvalidAccess "dangling node pointer")
  end.

(** [finalize()].  The closing [TU->assertInvariantsRecursive()] is a
    read-only debugging check of Tree.cpp and has no counterpart here. *)
Definition finalize : M NodePtr :=
  A ← readB (fun B => Ok (TB_Arena B));
  _ ← assertM (negb (length (expandedTokens A) =? 0)) "!Tokens.empty()";
  k ← liftR (kindAt A (length (expandedTokens A) - 1));
  _ ← assertM (bool_decide (k = tok_eof)) "Tokens.back().kind() == tok::eof";
  (* Build the root of the tree, consuming all the children. *)
  Range ← liftR (ArrayRef_drop_back
                   (mkArrayRef 0 (length (expandedTokens A))));
  TU ← allocate NK_TranslationUnit;
  _ ← Pending_foldChildren Range TU;
  Root ← (fun B =>
            match Forest_finalize (Pending B) with
            | Ok (Root, F) => Ok (Root, withForest (TB_Heap B) F B)
            | Abort f => Abort f
            end);
  K ← readB (fun B => kindOf (TB_Heap B) Root);
  _ ← assertM (bool_decide (K = NK_TranslationUnit))
              "cast<Ty>() argument of incompatible type!";
  mret Root.

(** ** The visitor *)

Record MemberExpr : Type := mkMemberExpr {
  ME_Stmt : Stmt;
  ME_isImplicitAccess : bool;
  ME_getQualifierLoc : NestedNameSpecifierLoc;
  ME_getTemplateKeywordLoc : SourceLocation;
  ME_getMemberLoc : SourceLocation;
  ME_getBase : Stmt;
  ME_getOperatorLoc : SourceLocation
}.

Record CXXThisExpr : Type := mkCXXThisExpr {
  TE_Stmt : Stmt;
  TE_isImplicit : bool;
  TE_getLocation : SourceLocation
}.

Record CXXOperatorCallExpr : Type := mkCXXOperatorCallExpr {
  OCE_Stmt : Stmt;
  OCE_getOperator : OverloadedOperatorKind;
  OCE_arguments : list Stmt;
  OCE_getOperatorLoc : SourceLocation
}.

Definition OCE_getNumArgs (S : CXXOperatorCallExpr) : nat :=
  length (OCE_arguments S).

(** [S->getArg(I)] asserts that the index is in range. *)
Definition OCE_getArg (S : CXXOperatorCallExpr) (I : nat) : M Stmt :=
  match OCE_arguments S !! I with
  | Some E => mret E
  | None => liftR (Abort (AssertionFailure "Arg access out of range!"))
  end.

Definition getOperatorNodeKind_of (S : CXXOperatorCallExpr)
    : Result NodeKind :=
  getOperatorNodeKind (OCE_getOperator S) (OCE_getNumArgs S).

Definition WalkUpFromExpr (E : Stmt) : M bool :=
  _ ← assertM (negb (isImplicitExpr E)) "should be handled by TraverseStmt";
  Range ← readB (fun B => getExprRange B E);
  N ← allocate NK_UnknownExpression;
  _ ← foldNode Range N (ofStmt E);
  mret true.

(** Modelled from the spec: [RecursiveASTVisitor::WalkUpFromCXXOperatorCallExpr]
    is defined outside of BuildTree.cpp; an expression whose kind is not
    specifically handled "is folded as UnknownExpression", which is what
    the walk up through the base classes to [WalkUpFromExpr] does. *)
Definition RAV_WalkUpFromCXXOperatorCallExpr (S : CXXOperatorCallExpr)
    : M bool :=
  WalkUpFromExpr (OCE_Stmt S).

Definition buildIdExpression (QualifierLoc : NestedNameSpecifierLoc)
    (TemplateKeywordLoc : SourceLocation) (UnqualifiedIdLoc : SourceRange)
    (From : ASTPtr) : M NodePtr :=
  _ ← (if NNSLoc_hasQualifier QualifierLoc then
         _ ← markChild_NNS QualifierLoc IdExpression_qualifier;
         if Loc_isValid TemplateKeywordLoc
         then markChildToken_Loc TemplateKeywordLoc TemplateKeyword
         else mret tt
       else mret tt);
  TheUnqualifiedId ← allocate NK_UnqualifiedId;
  Range ← readB (fun B => getRange B UnqualifiedIdLoc);
  _ ← foldNode Range TheUnqualifiedId None;
  _ ← markChild TheUnqualifiedId IdExpression_id;
  let IdExpressionBeginLoc :=
    if NNSLoc_hasQualifier QualifierLoc
    then NNSLoc_getBeginLoc QualifierLoc
    else getBegin UnqualifiedIdLoc in
  TheIdExpression ← allocate NK_IdExpression;
  Range ← readB (fun B => getRange2 B IdExpressionBeginLoc
                                    (getEnd UnqualifiedIdLoc));
  _ ← foldNode Range TheIdExpression From;
  mret TheIdExpression.

Definition WalkUpFromMemberExpr (S : MemberExpr) : M bool :=
  let UnqualifiedIdLoc :=
    mkSourceRange (ME_getMemberLoc S)
                  (getEnd (Stmt_getSourceRange (ME_Stmt S))) in
  if ME_isImplicitAccess S then
    _ ← buildIdExpression (ME_getQualifierLoc S)
                          (ME_getTemplateKeywordLoc S) UnqualifiedIdLoc
                          (ofStmt (ME_Stmt S));
    mret true
  else
    TheIdExpression ← buildIdExpression (ME_getQualifierLoc S)
                         (ME_getTemplateKeywordLoc S) UnqualifiedIdLoc None;
    _ ← markChild TheIdExpression MemberExpression_member;
    _ ← markExprChild (Some (ME_getBase S)) MemberExpression_object;
    _ ← markChildToken_Loc (ME_getOperatorLoc S)
                           MemberExpression_accessToken;
    Range ← readB (fun B => getExprRange B (ME_Stmt S));
    N ← allocate NK_MemberExpression;
    _ ← foldNode Range N (ofStmt (ME_Stmt S));
    mret true.

Definition WalkUpFromCXXThisExpr (S : CXXThisExpr) : M bool :=
  if negb (TE_isImplicit S) then
    _ ← markChildToken_Loc (TE_getLocation S) IntroducerKeyword;
    Range ← readB (fun B => getExprRange B (TE_Stmt S));
    N ← allocate NK_ThisExpression;
    _ ← foldNode Range N (ofStmt (TE_Stmt S));
    mret true
  else mret true.

Definition WalkUpFromCXXOperatorCallExpr (S : CXXOperatorCallExpr)
    : M bool :=
  K ← liftR (getOperatorNodeKind_of S);
  match K with
  | NK_BinaryOperatorExpression =>
      Arg0 ← OCE_getArg S 0;
      _ ← markExprChild (Some Arg0) BinaryOperatorExpression_leftHandSide;
      _ ← markChildToken_Loc (OCE_getOperatorLoc S)
                             OperatorExpression_operatorToken;
      Arg1 ← OCE_getArg S 1;
      _ ← markExprChild (Some Arg1) BinaryOperatorExpression_rightHandSide;
      Range ← readB (fun B => getExprRange B (OCE_Stmt S));
      N ← allocate NK_BinaryOperatorExpression;
      _ ← foldNode Range N (ofStmt (OCE_Stmt S));
      mret true
  | NK_PrefixUnaryOperatorExpression =>
      _ ← markChildToken_Loc (OCE_getOperatorLoc S)
                             OperatorExpression_operatorToken;
      Arg0 ← OCE_getArg S 0;
      _ ← markExprChild (Some Arg0) UnaryOperatorExpression_operand;
      Range ← readB (fun B => getExprRange B (OCE_Stmt S));
      N ← allocate NK_PrefixUnaryOperatorExpression;
      _ ← foldNode Range N (ofStmt (OCE_Stmt S));
      mret true
  | NK_PostfixUnaryOperatorExpression =>
      _ ← markChildToken_Loc (OCE_getOperatorLoc S)
                             OperatorExpression_operatorToken;
      Arg0 ← OCE_getArg S 0;
      _ ← markExprChild (Some Arg0) UnaryOperatorExpression_operand;
      Range ← readB (fun B => getExprRange B (OCE_Stmt S));
      N ← allocate NK_PostfixUnaryOperatorExpression;
      _ ← foldNode Range N (ofStmt (OCE_Stmt S));
      mret true
  | NK_UnknownExpression => RAV_WalkUpFromCXXOperatorCallExpr S
  | _ =>
      liftR (Abort (Unreachable
                      "getOperatorNodeKind() does not return this value"))
  end.

Definition getQualifiedNameStart (D : Decl) : SourceLocation :=
  if Decl_isAnonymous D then InvalidLoc
  else if isa_DeclaratorDecl (Decl_kind D)
          && NNSLoc_hasQualifier (Decl_getQualifierLoc D)
       then NNSLoc_getBeginLoc (Decl_getQualifierLoc D)
       else Decl_getLocation D.

Definition getInitializerRange (D : Decl) : SourceRange :=
  if isa_VarDecl (Decl_kind D) then
    match Decl_getInit D with
    | Some Init =>
        (* Initializers in range-based-for are not part of the declarator *)
        if negb (Decl_isCXXForRangeDecl D) then Stmt_getSourceRange Init
        else InvalidRange
    | None => InvalidRange
    end
  else InvalidRange.

(** [processDeclaratorAndDeclaration<T>(D)] *)
Definition processDeclaratorAndDeclaration (isa_T : DeclKind -> bool)
    (D : Decl) : M bool :=
  let Initializer := getInitializerRange D in
  Range ← readB (fun B => getDeclaratorRange (TB_Arena B) (Decl_TypeLoc D)
                            (getQualifiedNameStart D) Initializer);
  (* There doesn't have to be a declarator. *)
  _ ← (if Loc_isValid (getBegin Range) then
         N ← allocate NK_SimpleDeclarator;
         Tokens ← readB (fun B => getRange B Range);
         _ ← foldNode Tokens N None;
         markChild N SimpleDeclaration_declarator
       else mret tt);
  _ ← (if isResponsibleForCreatingDeclaration isa_T D then
         Tokens ← readB (fun B => getDeclarationRange B D);
         N ← allocate NK_SimpleDeclaration;
         foldNode Tokens N (ofDecl D)
       else mret tt);
  mret true.

Definition WalkUpFromDeclaratorDecl (DD : Decl) : M bool :=
  processDeclaratorAndDeclaration isa_DeclaratorDecl DD.

Definition WalkUpFromTypedefNameDecl (TD : Decl) : M bool :=
  processDeclaratorAndDeclaration isa_TypedefNameDecl TD.

Section Traversal.

(** [RecursiveASTVisitor::TraverseStmt], the traversal of the base class:
    it walks the children of a statement and calls the handlers. *)
Variable RAV_TraverseStmt : option Stmt -> M bool.

Fixpoint noticeDecls (Ds : list nat) : M unit :=
  match Ds with
  | [] => mret tt
  | D :: rest => _ ← noticeDeclWithoutSemicolon D; noticeDecls rest
  end.

Definition TraverseStmt (S : option Stmt) : M bool :=
  match S with
  | Some S' =>
      if isa_DeclStmt S' then
        (* We want to consume the semicolon, make sure SimpleDeclaration
           does not. *)
        _ ← noticeDecls (Stmt_decls S');
        RAV_TraverseStmt S
      else if isa_Expr S' then
        RAV_TraverseStmt (Some (IgnoreImplicit S'))
      else RAV_TraverseStmt S
  | None => RAV_TraverseStmt S
  end.

(** The loop of [TraverseCXXOperatorCallExpr] over [S->arguments()];
    [false] when a traversal asked to stop. *)
Fixpoint traverseArguments (S : CXXOperatorCallExpr) (Args : list Stmt)
    : M bool :=
  match Args with
  | [] => mret true
  | child :: rest =>
      if Range_isInvalid (Stmt_getSourceRange child) then
        K ← liftR (getOperatorNodeKind_of S);
        _ ← assertM (bool_decide (K = NK_PostfixUnaryOperatorExpression))
                    "getOperatorNodeKind(*S) == PostfixUnaryOperatorExpression";
        traverseArguments S rest
      else
        Continue ← TraverseStmt (Some child);
        match Continue with
        | true => traverseArguments S rest
        | false => mret false
        end
  end.

Definition TraverseCXXOperatorCallExpr (S : CXXOperatorCallExpr)
    : M bool :=
  Continue ← traverseArguments S (OCE_arguments S);
  match Continue with
  | true => WalkUpFromCXXOperatorCallExpr S
  | false => mret false
  end.

End Traversal.

(** * Specifications *)

(** ** Tables of the specification *)

Definition toOption {A} (r : Result A) : option A :=
  match r with Ok a => Some a | Abort _ => None end.

Definition isComparisonOperator (Op : OverloadedOperatorKind) : bool :=
  bool_decide (Op ∈ [OO_EqualEqual; OO_ExclaimEqual; OO_Less; OO_Greater;
                     OO_LessEqual; OO_GreaterEqual; OO_Spaceship]).

Definition isAssignmentOperator (Op : OverloadedOperatorKind) : bool :=
  bool_decide (Op ∈ [OO_Equal; OO_PlusEqual; OO_MinusEqual; OO_StarEqual;
                     OO_SlashEqual; OO_PercentEqual; OO_CaretEqual;
                     OO_AmpEqual; OO_PipeEqual; OO_LessLessEqual;
                     OO_GreaterGreaterEqual]).

(** The classification table of operator calls, row by row; [None] where
    the table has no entry. *)
Definition operatorTable (Op : OverloadedOperatorKind) (NumArgs : nat)
    : option NodeKind :=
  if isComparisonOperator Op || isAssignmentOperator Op
     || bool_decide (Op ∈ [OO_Slash; OO_Percent; OO_Caret; OO_Pipe;
                           OO_LessLess; OO_GreaterGreater; OO_AmpAmp;
                           OO_PipePipe; OO_ArrowStar; OO_Comma])
  then Some NK_BinaryOperatorExpression
  else if bool_decide (Op ∈ [OO_Tilde; OO_Exclaim])
  then Some NK_PrefixUnaryOperatorExpression
  else if bool_decide (Op ∈ [OO_PlusPlus; OO_MinusMinus])
  then (if NumArgs =? 1 then Some NK_PrefixUnaryOperatorExpression
        else if NumArgs =? 2 then Some NK_PostfixUnaryOperatorExpression
        else None)
  else if bool_decide (Op ∈ [OO_Plus; OO_Minus; OO_Star; OO_Amp])
  then (if NumArgs =? 1 then Some NK_PrefixUnaryOperatorExpression
        else if NumArgs =? 2 then Some NK_BinaryOperatorExpression
        else None)
  else if bool_decide (Op ∈ [OO_New; OO_Delete; OO_Array_New;
                             OO_Array_Delete; OO_Coawait; OO_Call;
                             OO_Subscript; OO_Arrow])
  then Some NK_UnknownExpression
  else None.

(** A specifier stores a type exactly when it is a type specifier. *)
Definition NNS_wellFormed (NNS : NestedNameSpecifier) : bool :=
  match NNS_getKind NNS with
  | SK_TypeSpec | SK_TypeSpecWithTemplate => bool_decide (is_Some (NNS_getAsType NNS))
  | _ => bool_decide (NNS_getAsType NNS = None)
  end.

Definition isDecltypeSpecifier (NNS : NestedNameSpecifier) : bool :=
  match NNS_getKind NNS, NNS_getAsType NNS with
  | SK_TypeSpec, Some TC_Decltype => true
  | _, _ => false
  end.

Definition isTemplateSpecializationSpecifier (NNS : NestedNameSpecifier)
    : bool :=
  match NNS_getKind NNS, NNS_getAsType NNS with
  | SK_TypeSpecWithTemplate, _ => true
  | SK_TypeSpec, Some TC_TemplateSpecialization => true
  | SK_TypeSpec, Some TC_DependentTemplateSpecialization => true
  | _, _ => false
  end.

(** The classification of name specifiers in the words of the
    specification. *)
Definition specifierTable (NNS : NestedNameSpecifier) : NodeKind :=
  if bool_decide (NNS_getKind NNS = SK_Global) then NK_GlobalNameSpecifier
  else if isDecltypeSpecifier NNS then NK_DecltypeNameSpecifier
  else if isTemplateSpecializationSpecifier NNS
  then NK_SimpleTemplateNameSpecifier
  else NK_IdentifierNameSpecifier.


(** The range [Tokens] with the token after it. *)
Definition appendOne (Tokens : ArrayRef) : ArrayRef :=
  mkArrayRef (ArrayRef_Data Tokens) (ArrayRef_Length Tokens + 1).

(** The arguments of an operator call that are written in the source. *)
Fixpoint writtenArguments (Args : list Stmt) : list Stmt :=
  match Args with
  | [] => []
  | child :: rest =>
      if Range_isValid (Stmt_getSourceRange child)
      then child :: writtenArguments rest
      else writtenArguments rest
  end.

(** Traversing statements one after the other, until a traversal asks to
    stop. *)
Fixpoint traverseEach (RAV_TraverseStmt : option Stmt -> M bool)
    (Ss : list Stmt) : M bool :=
  match Ss with
  | [] => mret true
  | child :: rest =>
      Continue ← TraverseStmt RAV_TraverseStmt (Some child);
      match Continue with
      | true => traverseEach RAV_TraverseStmt rest
      | false => mret false
      end
  end.

(** A postfix operator call with the operand [Operand]: the operand is
    traversed, the operator token and the operand get their roles, and the
    tokens of the call are folded into a postfix unary operator
    expression. *)
Definition postfixOperatorCall (RAV_TraverseStmt : option Stmt -> M bool)
    (Call : Stmt) (OperatorLoc : SourceLocation) (Operand : Stmt) : M bool :=
  Continue ← TraverseStmt RAV_TraverseStmt (Some Operand);
  match Continue with
  | true =>
      _ ← markChildToken_Loc OperatorLoc OperatorExpression_operatorToken;
      _ ← markExprChild (Some Operand) UnaryOperatorExpression_operand;
      Range ← readB (fun B => getExprRange B Call);
      N ← allocate NK_PostfixUnaryOperatorExpression;
      _ ← foldNode Range N (ofStmt Call);
      mret true
  | false => mret false
  end.

(** The declarators that share one declaration with [D], from [D] on: the
    next siblings as long as they are of the class [T] and begin where [D]
    begins. *)
Fixpoint declaratorChain (isa_T : DeclKind -> bool) (D : Decl) : list Decl :=
  D :: match D with
       | mkDecl _ _ R (Some Next) _ _ _ _ _ _ _ =>
           if isa_T (Decl_kind Next)
              && (Decl_getBeginLoc Next =? getBegin R)
           then declaratorChain isa_T Next
           else []
       | mkDecl _ _ _ None _ _ _ _ _ _ _ => []
       end.

(** The kinds of the nodes [processDeclaratorAndDeclaration] adds. *)
Definition declaratorKinds (hasDeclarator responsible : bool)
    : list NodeKind :=
  (if hasDeclarator then [NK_SimpleDeclarator] else [])
  ++ (if responsible then [NK_SimpleDeclaration] else []).

(** ** Concrete inputs *)

(** A token stream with the given kinds, the token at position [i] at the
    location [10 * (i + 1)]; every token is spelled in the source and the
    order of the translation unit is the order of the encodings. *)
Definition exampleTokens (Ks : list TokenKind) : list Token :=
  imap (fun i k => mkToken k (10 * S i)) Ks.

Definition exampleArena (Ks : list TokenKind) : Arena :=
  mkArena (exampleTokens Ks) (fun _ => true) Nat.ltb.

Definition emptyBuilder (A : Arena) : TreeBuilder :=
  mkTreeBuilder A [] ∅ [] ∅ (mkMapping ∅ ∅).

Definition exampleBuilder (Ks : list TokenKind) : TreeBuilder :=
  match TreeBuilder_new (exampleArena Ks) with
  | Ok B => B
  | Abort _ => emptyBuilder (exampleArena Ks)
  end.

Definition exampleTypeLoc (End : SourceLocation) : TypeLoc :=
  OtherTypeLoc None End.

(** A declaration of the given kind and range, without siblings; its name is
    at [Name]. *)
Definition exampleDecl (Ptr : nat) (K : DeclKind) (R : SourceRange)
    (Name : SourceLocation) (Next : option Decl) : Decl :=
  mkDecl Ptr K R Next InvalidLoc (exampleTypeLoc (getBegin R)) false
         NoQualifier Name None false.

Definition exampleStmt (Ptr : nat) (C : StmtClass) (R : SourceRange) : Stmt :=
  mkStmt Ptr C R None [].

(** ** The calls a visitor makes, and the invariant of the forest *)

(** The tokens under a node, from left to right.  The recursion through the
    heap is bounded by [fuel]; the number of nodes of the heap is always
    enough in a heap where children are allocated before their parent. *)
Fixpoint leavesOf (fuel : nat) (H : Heap) (p : NodePtr)
    : option (list TokenPtr) :=
  match fuel with
  | 0 => None
  | S f =>
      match H !! p with
      | None => None
      | Some N =>
          match Node_body N with
          | LeafBody T => Some [T]
          | TreeBody Cs => (fun Ls => concat Ls) <$> mapM (leavesOf f H) Cs
          end
      end
  end.

Definition leaves (H : Heap) (p : NodePtr) : option (list TokenPtr) :=
  leavesOf (length H) H p.

(** Children are allocated before their parent. *)
Definition childrenFirst (H : Heap) : Prop :=
  forall (p : NodePtr) (N : Node) (Cs : list NodePtr),
    H !! p = Some N -> Node_body N = TreeBody Cs -> Forall (fun c => c < p) Cs.

(** The entries of [Trees] cover the tokens from [s] up to [n]: each entry
    is keyed at the first token it covers and covers a non-empty run of
    tokens that ends where the next entry starts. *)
Fixpoint partitions (H : Heap) (Trees : Forest) (s n : TokenPtr) : Prop :=
  match Trees with
  | [] => s = n
  | (k, p) :: rest =>
      k = s /\
      exists e : TokenPtr,
        s < e /\ leaves H p = Some (seq s (e - s)) /\ partitions H rest e n
  end.

(** The role a covered entry has after a fold. *)
Definition unknownIfDetached (R : NodeRole) : NodeRole :=
  if bool_decide (R = Detached) then Unknown else R.

(** The token range [Tokens] coincides with the entries [Covered] of the
    forest [Before ++ Covered ++ After]: the entries before it start at
    earlier tokens, the covered entries start at the first token of the
    range and within it, and the entries after it start where it ends. *)
Definition coincides (Tokens : ArrayRef) (Before Covered After : Forest)
    : Prop :=
  Forall (fun e => e.1 < ArrayRef_begin Tokens) Before
  /\ head (Covered.*1) = Some (ArrayRef_begin Tokens)
  /\ Forall (fun e => e.1 < ArrayRef_end Tokens) Covered
  /\ Forall (fun e => ArrayRef_end Tokens <= e.1) After
  /\ (After = [] \/ head (After.*1) = Some (ArrayRef_end Tokens)).

(** What a visitor does to the builder: it allocates nodes and calls the
    public methods of [TreeBuilder].  Every fold of the visitor is a fold
    into a node it has just allocated, [foldNode(Range, new (allocator())
    syntax::K, From)]. *)
Inductive BuilderCall : Type :=
| CallFoldNode (Range : ArrayRef) (K : NodeKind) (From : ASTPtr)
| CallFoldNodeNNS (Range : ArrayRef) (K : NodeKind)
                  (From : NestedNameSpecifierLoc)
| CallAllocate (K : NodeKind)
| CallMarkChildToken (T : option TokenPtr) (R : NodeRole)
| CallMarkChildTokenLoc (Loc : SourceLocation) (R : NodeRole)
| CallMarkChild (N : NodePtr) (R : NodeRole)
| CallMarkChildAST (N : ASTPtr) (R : NodeRole)
| CallMarkChildNNS (N : NestedNameSpecifierLoc) (R : NodeRole)
| CallMarkStmtChild (Child : option Stmt) (R : NodeRole)
| CallMarkExprChild (Child : option Stmt) (R : NodeRole)
| CallNoticeDeclWithoutSemicolon (D : nat).

Definition runCall (c : BuilderCall) : M unit :=
  match c with
  | CallFoldNode Range K From => New ← allocate K; foldNode Range New From
  | CallFoldNodeNNS Range K From =>
      New ← allocate K; foldNode_NNS Range New From
  | CallAllocate K => _ ← allocate K; mret tt
  | CallMarkChildToken T R => markChildToken T R
  | CallMarkChildTokenLoc Loc R => markChildToken_Loc Loc R
  | CallMarkChild N R => markChild N R
  | CallMarkChildAST N R => markChild_AST N R
  | CallMarkChildNNS N R => markChild_NNS N R
  | CallMarkStmtChild Child R => markStmtChild Child R
  | CallMarkExprChild Child R => markExprChild Child R
  | CallNoticeDeclWithoutSemicolon D => noticeDeclWithoutSemicolon D
  end.

Fixpoint runCalls (cs : list BuilderCall) : M unit :=
  match cs with
  | [] => mret tt
  | c :: rest => _ ← runCall c; runCalls rest
  end.

(** The range a call folds, if it folds one. *)
Definition foldedRange (c : BuilderCall) (B : TreeBuilder)
    : option ArrayRef :=
  match c with
  | CallFoldNode Range _ _ | CallFoldNodeNNS Range _ _ => Some Range
  | CallMarkStmtChild (Some Child) _ =>
      if isa_Expr Child then toOption (getStmtRange B Child) else None
  | _ => None
  end.

(** The fold of a call starts at the first token of a pending entry, as a
    fold of the tokens of an AST node does once its children are folded. *)
Definition startsAtEntry (c : BuilderCall) (B : TreeBuilder) : Prop :=
  match foldedRange c B with
  | Some Range => ArrayRef_begin Range ∈ (Pending B).*1
  | None => True
  end.

Fixpoint foldsStartAtEntries (cs : list BuilderCall) (B : TreeBuilder)
    : Prop :=
  match cs with
  | [] => True
  | c :: rest =>
      startsAtEntry c B /\
      forall B' : TreeBuilder,
        runCall c B = Ok (tt, B') -> foldsStartAtEntries rest B'
  end.

(** [buildSyntaxTree]: the calls of the traversal, then [finalize]. *)
Definition buildSyntaxTree (A : Arena) (Traversal : list BuilderCall)
    : Result (NodePtr * TreeBuilder) :=
  B ← TreeBuilder_new A;
  match runCalls Traversal B with
  | Ok (_, B1) => finalize B1
  | Abort f => Abort f
  end.

(** The node at [q] after the loop of [foldChildren] has attached the
    entries [Cs], taken from the last to the first, to the node at [New]. *)
Definition afterAttach (Cs : list NodePtr) (New q : NodePtr) (N : Node)
    : Node :=
  mkNode (Node_kind N)
         (if bool_decide (q ∈ Cs) then unknownIfDetached (Node_role N)
          else Node_role N)
         (Node_Original N) (Node_CanModify N)
         (if bool_decide (q = New)
          then match Node_body N with
               | TreeBody Ch => TreeBody (reverse Cs ++ Ch)
               | LeafBody T => LeafBody T
               end
          else Node_body N).

(** The invariant of the forest over the tokens [[0, n)]. *)
Definition heapInv (H : Heap) (Trees : Forest) (n : nat) : Prop :=
  childrenFirst H /\ partitions H Trees 0 n.

Definition builderInv (A : Arena) (B : TreeBuilder) : Prop :=
  TB_Arena B = A
  /\ heapInv (TB_Heap B) (Pending B) (length (expandedTokens A) - 1).

(** A step that leaves the input, the forest and the shape of every node as
    they are. *)
Definition quiet (B B' : TreeBuilder) : Prop :=
  TB_Arena B' = TB_Arena B
  /\ LocationToToken B' = LocationToToken B
  /\ Pending B' = Pending B
  /\ forall q, Node_body <$> TB_Heap B' !! q = Node_body <$> TB_Heap B !! q.

(** A role that has been assigned stays. *)
Definition rolesPersist (H H' : Heap) : Prop :=
  forall (q : NodePtr) (Nd : Node),
    H !! q = Some Nd -> Node_role Nd ≠ Detached ->
    Node_role <$> H' !! q = Some (Node_role Nd).

(** What the builder keeps from [B] to [B']: the input, the kinds of the
    nodes, to which nodes of the kinds [Ks] are added in this order, the
    roles that are assigned, the mapping and the recorded declarations. *)
Definition grows (Ks : list NodeKind) (B B' : TreeBuilder) : Prop :=
  TB_Arena B' = TB_Arena B
  /\ LocationToToken B' = LocationToToken B
  /\ Node_kind <$> TB_Heap B' = (Node_kind <$> TB_Heap B) ++ Ks
  /\ rolesPersist (TB_Heap B) (TB_Heap B')
  /\ Nodes (Mapping B) ⊆ Nodes (Mapping B')
  /\ DeclsWithoutSemicolons B ⊆ DeclsWithoutSemicolons B'.

(** The role of the node at [p]. *)
Definition roleIs (B : TreeBuilder) (p : NodePtr) (R : NodeRole) : Prop :=
  Node_role <$> TB_Heap B !! p = Some R.

(** The kind of the node at [p]. *)
Definition kindIs (B : TreeBuilder) (p : NodePtr) (K : NodeKind) : Prop :=
  Node_kind <$> TB_Heap B !! p = Some K.

(** ** The folds of the handlers *)

(** The pending entries a fold of [Range] takes as the children of the new
    node: the entries from the first one that does not start before the
    range up to the first one that does not start before the end of the
    range. *)
Definition coveredEntries (Range : ArrayRef) (Trees : Forest) : Forest :=
  map_range (lower_bound Trees (ArrayRef_begin Range))
            (lower_bound Trees (ArrayRef_end Range)) Trees.

(** The forest after a fold of [Range] into the node at [New]: the covered
    entries are erased and [New] is entered at the first token of the
    range. *)
Definition forestAfterFold (Range : ArrayRef) (New : NodePtr)
    (Trees : Forest) : Forest :=
  map_insert (ArrayRef_begin Range) New
    (map_erase (lower_bound Trees (ArrayRef_begin Range))
               (lower_bound Trees (ArrayRef_end Range)) Trees).

(** From [B1] to [B'] a node of the kind [K] is allocated and the tokens
    [Range] are folded into it: [foldChildren], run on the heap of [B1]
    with the new node at its end and on the forest of [B1], gives the heap
    and the forest of [B']. *)
Definition foldsInto (K : NodeKind) (Range : ArrayRef)
    (B1 B' : TreeBuilder) : Prop :=
  Forest_foldChildren (TB_Arena B1) Range (length (TB_Heap B1))
    (TB_Heap B1 ++ [newTree K]) (Pending B1)
  = Ok (TB_Heap B', Pending B').

(** The node at [p] has the children [Cs], from left to right. *)
Definition childrenAre (B : TreeBuilder) (p : NodePtr)
    (Cs : list NodePtr) : Prop :=
  Node_body <$> TB_Heap B !! p = Some (TreeBody Cs).

(** The forest holds the node [p] as the entry of the token [k]: it is the
    entry [lower_bound] finds for [k], the one a role is assigned to and a
    fold begins with at [k]. *)
Definition pendingAt (Trees : Forest) (k : TokenPtr) (p : NodePtr) : Prop :=
  Trees !! lower_bound Trees k = Some (k, p).

(** What [buildIdExpression] folds, from [B] to [Bid]: the tokens [IdTokens]
    of the unqualified id into a new unqualified-id node, which then gets
    the role of the id of an id-expression, and the tokens [Tokens], from
    the begin of the qualifier (of the unqualified id where there is no
    qualifier) to the end of the unqualified id, into a new id-expression
    node.  Where [Tokens] is not empty, the id-expression is the entry of
    its first token in the forest of [Bid]. *)
Definition idExpressionFolded (QualifierLoc : NestedNameSpecifierLoc)
    (UnqualifiedIdLoc : SourceRange) (IdTokens Tokens : ArrayRef)
    (B Bid : TreeBuilder) : Prop :=
  let TheUnqualifiedId := length (TB_Heap B) in
  let TheIdExpression := length (TB_Heap B) + 1 in
  getRange B UnqualifiedIdLoc = Ok IdTokens
  /\ getRange2 B (if NNSLoc_hasQualifier QualifierLoc
                  then NNSLoc_getBeginLoc QualifierLoc
                  else getBegin UnqualifiedIdLoc)
                 (getEnd UnqualifiedIdLoc) = Ok Tokens
  /\ (exists B0 B1 B2 : TreeBuilder,
        quiet B B0
        /\ foldsInto NK_UnqualifiedId IdTokens B0 B1
        /\ quiet B1 B2
        /\ roleIs B2 TheUnqualifiedId IdExpression_id
        /\ foldsInto NK_IdExpression Tokens B2 Bid)
  /\ childrenAre Bid TheUnqualifiedId (coveredEntries IdTokens (Pending B)).*2
  /\ childrenAre Bid TheIdExpression
       (coveredEntries Tokens
          (forestAfterFold IdTokens TheUnqualifiedId (Pending B))).*2
  /\ Pending Bid
     = forestAfterFold Tokens TheIdExpression
         (forestAfterFold IdTokens TheUnqualifiedId (Pending B))
  /\ (ArrayRef_begin Tokens < ArrayRef_end Tokens ->
      pendingAt (Pending Bid) (ArrayRef_begin Tokens) TheIdExpression).

(** ** Concrete runs *)

(** The builder after a computation, or the builder as it was when the
    computation aborts. *)
Definition stateAfter {A} (m : M A) (B : TreeBuilder) : TreeBuilder :=
  match m B with
  | Ok (_, B') => B'
  | Abort _ => B
  end.

(** A decision procedure for [foldsStartAtEntries]. *)
Definition startsAtEntry_check (c : BuilderCall) (B : TreeBuilder) : bool :=
  match foldedRange c B with
  | Some Range => bool_decide (ArrayRef_begin Range ∈ (Pending B).*1)
  | None => true
  end.

Fixpoint foldsStartAtEntries_check (cs : list BuilderCall) (B : TreeBuilder)
    : bool :=
  match cs with
  | [] => true
  | c :: rest =>
      startsAtEntry_check c B
      && match runCall c B with
         | Ok (_, B') => foldsStartAtEntries_check rest B'
         | Abort _ => true
         end
  end.

(** [int a, b;] *)
Definition declTokens : list TokenKind :=
  [tok_kw_int; tok_identifier; tok_comma; tok_identifier; tok_semi; tok_eof].

Definition declB : Decl :=
  exampleDecl 2 DK_Var (mkSourceRange 10 40) 40 None.
Definition declA : Decl :=
  exampleDecl 1 DK_Var (mkSourceRange 10 20) 20 (Some declB).

(** The calls of the two declarator handlers on [int a, b;]. *)
Definition declTraversal : list BuilderCall :=
  [CallFoldNode (mkArrayRef 1 1) NK_SimpleDeclarator None;
   CallMarkChild 5 SimpleDeclaration_declarator;
   CallFoldNode (mkArrayRef 3 1) NK_SimpleDeclarator None;
   CallMarkChild 6 SimpleDeclaration_declarator;
   CallFoldNode (mkArrayRef 0 5) NK_SimpleDeclaration (ofDecl declB)].

(** The traversal of the base class on a reference to a declaration: the
    handler folds an id-expression. *)
Definition traverseDeclRef (S : option Stmt) : M bool :=
  match S with
  | Some E =>
      _ ← buildIdExpression NoQualifier InvalidLoc (Stmt_getSourceRange E)
                            (ofStmt E);
      mret true
  | None => mret true
  end.

(** [a + b;] with both operands folded. *)
Definition sumTokens : list TokenKind :=
  [tok_identifier; tok_plus; tok_identifier; tok_semi; tok_eof].
Definition sumLeft : Stmt := exampleStmt 1 SC_Expr (mkSourceRange 10 10).
Definition sumRight : Stmt := exampleStmt 2 SC_Expr (mkSourceRange 30 30).
Definition sumCall : CXXOperatorCallExpr :=
  mkCXXOperatorCallExpr (exampleStmt 3 SC_Expr (mkSourceRange 10 30))
                        OO_Plus [sumLeft; sumRight] 20.
Definition sumBuilder : TreeBuilder :=
  stateAfter (_ ← traverseDeclRef (Some sumLeft);
              traverseDeclRef (Some sumRight))
             (exampleBuilder sumTokens).

(** [a++;], the second argument being the placeholder. *)
Definition incTokens : list TokenKind :=
  [tok_identifier; tok_plusplus; tok_semi; tok_eof].
Definition incOperand : Stmt := exampleStmt 1 SC_Expr (mkSourceRange 10 10).
Definition incPlaceholder : Stmt := exampleStmt 2 SC_Expr InvalidRange.
Definition incCall : CXXOperatorCallExpr :=
  mkCXXOperatorCallExpr (exampleStmt 3 SC_Expr (mkSourceRange 10 20))
                        OO_PlusPlus [incOperand; incPlaceholder] 20.

(** [a.b;] with the base folded, and the same member with implicit access,
    [b;]. *)
Definition memberTokens : list TokenKind :=
  [tok_identifier; tok_period; tok_identifier; tok_semi; tok_eof].
Definition memberBase : Stmt := exampleStmt 1 SC_Expr (mkSourceRange 10 10).
Definition memberExpr : MemberExpr :=
  mkMemberExpr (exampleStmt 2 SC_Expr (mkSourceRange 10 30)) false
               NoQualifier InvalidLoc 30 memberBase 20.
Definition memberBuilder : TreeBuilder :=
  stateAfter (traverseDeclRef (Some memberBase)) (exampleBuilder memberTokens).
Definition implicitMemberExpr : MemberExpr :=
  mkMemberExpr (exampleStmt 2 SC_Expr (mkSourceRange 10 10)) true
               NoQualifier InvalidLoc 10
               (exampleStmt 1 SC_Expr InvalidRange) InvalidLoc.

(** [this;] *)
Definition thisTokens : list TokenKind := [tok_kw_this; tok_semi; tok_eof].
Definition thisExpr : CXXThisExpr :=
  mkCXXThisExpr (exampleStmt 1 SC_Expr (mkSourceRange 10 10)) false 10.
Definition implicitThisExpr : CXXThisExpr :=
  mkCXXThisExpr (exampleStmt 1 SC_Expr InvalidRange) true InvalidLoc.

(** [;;]: two empty declarations. *)
Definition emptyDeclTokens : list TokenKind := [tok_semi; tok_semi; tok_eof].
Definition emptyDecl : Decl :=
  exampleDecl 1 DK_Empty (mkSourceRange 10 10) 10 None.

(** * More of the visitor *)

Record UnaryOperator : Type := mkUnaryOperator {
  UO_Stmt : Stmt;
  UO_getOperatorLoc : SourceLocation;
  UO_getSubExpr : Stmt;
  UO_isPostfix : bool
}.

Record BinaryOperator : Type := mkBinaryOperator {
  BO_Stmt : Stmt;
  BO_getLHS : Stmt;
  BO_getOperatorLoc : SourceLocation;
  BO_getRHS : Stmt
}.

Record CompoundStmt : Type := mkCompoundStmt {
  CS_Stmt : Stmt;
  CS_getLBracLoc : SourceLocation;
  CS_body : list Stmt;
  CS_getRBracLoc : SourceLocation
}.


Definition WalkUpFromUnaryOperator (S : UnaryOperator) : M bool :=
  _ ← markChildToken_Loc (UO_getOperatorLoc S)
                         OperatorExpression_operatorToken;
  _ ← markExprChild (Some (UO_getSubExpr S)) UnaryOperatorExpression_operand;
  if UO_isPostfix S then
    Range ← readB (fun B => getExprRange B (UO_Stmt S));
    N ← allocate NK_PostfixUnaryOperatorExpression;
    _ ← foldNode Range N (ofStmt (UO_Stmt S));
    mret true
  else
    Range ← readB (fun B => getExprRange B (UO_Stmt S));
    N ← allocate NK_PrefixUnaryOperatorExpression;
    _ ← foldNode Range N (ofStmt (UO_Stmt S));
    mret true.

Definition WalkUpFromBinaryOperator (S : BinaryOperator) : M bool :=
  _ ← markExprChild (Some (BO_getLHS S))
                    BinaryOperatorExpression_leftHandSide;
  _ ← markChildToken_Loc (BO_getOperatorLoc S)
                         OperatorExpression_operatorToken;
  _ ← markExprChild (Some (BO_getRHS S))
                    BinaryOperatorExpression_rightHandSide;
  Range ← readB (fun B => getExprRange B (BO_Stmt S));
  N ← allocate NK_BinaryOperatorExpression;
  _ ← foldNode Range N (ofStmt (BO_Stmt S));
  mret true.

(** The loop of [WalkUpFromCompoundStmt] over [S->body()]. *)
Fixpoint markStmtChildren (Children : list Stmt) (Role : NodeRole) : M unit :=
  match Children with
  | [] => mret tt
  | Child :: rest =>
      _ ← markStmtChild (Some Child) Role;
      markStmtChildren rest Role
  end.

Definition WalkUpFromCompoundStmt (S : CompoundStmt) : M bool :=
  _ ← markChildToken_Loc (CS_getLBracLoc S) OpenParen;
  _ ← markStmtChildren (CS_body S) CompoundStatement_statement;
  _ ← markChildToken_Loc (CS_getRBracLoc S) CloseParen;
  Range ← readB (fun B => getStmtRange B (CS_Stmt S));
  N ← allocate NK_CompoundStatement;
  _ ← foldNode Range N (ofStmt (CS_Stmt S));
  mret true.

(** Some statements are not yet handled by syntax trees. *)
Definition WalkUpFromStmt (S : Stmt) : M bool :=
  Range ← readB (fun B => getStmtRange B S);
  N ← allocate NK_UnknownStatement;
  _ ← foldNode Range N (ofStmt S);
  mret true.


Definition WalkUpFromNamespaceDecl (S : Decl) : M bool :=
  Tokens ← readB (fun B => getDeclarationRange B S);
  front ← readB (fun B => frontKind (TB_Arena B) Tokens);
  if bool_decide (front = tok_coloncolon) then
    (* Handle nested namespace definitions. Those start at '::' token. *)
    mret true
  else
    N ← allocate NK_NamespaceDefinition;
    _ ← foldNode Tokens N (ofDecl S);
    mret true.

Definition WalkUpFromTranslationUnitDecl : M bool :=
  (* The declaration for translation unit is built by finalize(). *)
  mret true.

Section MoreTraversal.

(** [RecursiveASTVisitor::TraverseStmt] and [RecursiveASTVisitor::TraverseDecl],
    the traversals of the base class. *)
Variable RAV_TraverseStmt : option Stmt -> M bool.
Variable RAV_TraverseDecl : option Decl -> M bool.



End MoreTraversal.

Record IfStmt : Type := mkIfStmt {
  If_Stmt : Stmt;
  If_getIfLoc : SourceLocation;
  If_getThen : option Stmt;
  If_getElseLoc : SourceLocation;
  If_getElse : option Stmt
}.

Definition WalkUpFromIfStmt (S : IfStmt) : M bool :=
  _ ← markChildToken_Loc (If_getIfLoc S) IntroducerKeyword;
  _ ← markStmtChild (If_getThen S) IfStatement_thenStatement;
  _ ← markChildToken_Loc (If_getElseLoc S) IfStatement_elseKeyword;
  _ ← markStmtChild (If_getElse S) IfStatement_elseStatement;
  Range ← readB (fun B => getStmtRange B (If_Stmt S));
  N ← allocate NK_IfStatement;
  _ ← foldNode Range N (ofStmt (If_Stmt S));
  mret true.

(** [assert(TemplateKW && TemplateKW->kind() == tok::kw_template)] *)
Definition assertTemplateKW (TemplateKW : option TokenPtr) : M unit :=
  match TemplateKW with
  | Some T =>
      k ← readB (fun B => kindAt (TB_Arena B) T);
      assertM (bool_decide (k = tok_kw_template))
              "TemplateKW && TemplateKW->kind() == tok::kw_template"
  | None =>
      liftR (Abort (AssertionFailure
                      "TemplateKW && TemplateKW->kind() == tok::kw_template"))
  end.

(** [foldTemplateDeclaration]; the range [TemplatedDeclaration] is not
    read. *)
Definition foldTemplateDeclaration (Range : ArrayRef)
    (TemplateKW : option TokenPtr) (TemplatedDeclaration : ArrayRef)
    (From : ASTPtr) : M NodePtr :=
  _ ← assertTemplateKW TemplateKW;
  _ ← markChildToken TemplateKW IntroducerKeyword;
  N ← allocate NK_TemplateDeclaration;
  _ ← foldNode Range N From;
  _ ← markChild N TemplateDeclaration_declaration;
  mret N.

Definition foldExplicitTemplateInstantiation (Range : ArrayRef)
    (ExternKW TemplateKW : option TokenPtr) (InnerDeclaration : NodePtr)
    (From : ASTPtr) : M unit :=
  _ ← match ExternKW with
      | Some T =>
          k ← readB (fun B => kindAt (TB_Arena B) T);
          assertM (bool_decide (k = tok_kw_extern))
                  "!ExternKW || ExternKW->kind() == tok::kw_extern"
      | None => mret tt
      end;
  _ ← assertTemplateKW TemplateKW;
  _ ← markChildToken ExternKW ExternKeyword;
  _ ← markChildToken TemplateKW IntroducerKeyword;
  _ ← markChild InnerDeclaration ExplicitTemplateInstantiation_declaration;
  N ← allocate NK_ExplicitTemplateInstantiation;
  foldNode Range N From.

(** A [FunctionProtoTypeLoc] as [BuildTrailingReturn] reads it: whether the
    type has a trailing return type, the type location of the returned type
    and where its source range begins. *)
Record FunctionProtoTypeLocInfo : Type := mkFunctionProtoTypeLocInfo {
  FPT_hasTrailingReturn : bool;
  FPT_getReturnLoc : TypeLoc;
  FPT_ReturnBeginLoc : SourceLocation
}.

Definition BuildTrailingReturn (L : FunctionProtoTypeLocInfo) : M NodePtr :=
  _ ← assertM (FPT_hasTrailingReturn L)
              "L.getTypePtr()->hasTrailingReturn()";
  let ReturnedType := FPT_getReturnLoc L in
  (* Build node for the declarator, if any. *)
  ReturnDeclaratorRange ←
    readB (fun B => getDeclaratorRange (TB_Arena B) ReturnedType
                      InvalidLoc InvalidRange);
  ReturnDeclarator ←
    (if Range_isValid ReturnDeclaratorRange then
       N ← allocate NK_SimpleDeclarator;
       Range ← readB (fun B => getRange B ReturnDeclaratorRange);
       _ ← foldNode Range N None;
       mret (Some N)
     else mret None);
  (* Build node for trailing return type. *)
  Return ← readB (fun B => getRange B
                   (mkSourceRange (FPT_ReturnBeginLoc L)
                                  (TypeLoc_getEnd ReturnedType)));
  _ ← liftR (if ArrayRef_begin Return =? 0
             then Abort (InvalidAccess
                           "token pointer outside of the expanded tokens")
             else Ok tt);
  let Arrow := ArrayRef_begin Return - 1 in
  k ← readB (fun B => kindAt (TB_Arena B) Arrow);
  _ ← assertM (bool_decide (k = tok_arrow)) "Arrow->kind() == tok::arrow";
  let Tokens := makeArrayRef Arrow (ArrayRef_end Return) in
  _ ← markChildToken (Some Arrow) ArrowToken;
  _ ← match ReturnDeclarator with
      | Some D => markChild D TrailingReturnType_declarator
      | None => mret tt
      end;
  R ← allocate NK_TrailingReturnType;
  _ ← foldNode_TypeLoc Tokens R;
  mret R.

(** ** Invariants and tables for the whole builder *)

(** The kinds of the nodes a call allocates. *)
Definition callKinds (c : BuilderCall) : list NodeKind :=
  match c with
  | CallFoldNode _ K _ | CallFoldNodeNNS _ K _ | CallAllocate K => [K]
  | CallMarkStmtChild (Some Child) _ =>
      if isa_Expr Child then [NK_ExpressionStatement] else []
  | _ => []
  end.

(** A node that can be a child: it is in the heap, has been given a role,
    and is marked as original. *)
Definition attached (H : Heap) (c : NodePtr) : Prop :=
  exists Nc : Node,
    H !! c = Some Nc /\ Node_role Nc ≠ Detached /\ Node_Original Nc = true.

(** The pending entries point at original nodes, and the children of every
    node are attached. *)
Definition treeInv (H : Heap) (Trees : Forest) : Prop :=
  (forall (k : TokenPtr) (p : NodePtr),
      (k, p) ∈ Trees ->
      exists N : Node, H !! p = Some N /\ Node_Original N = true)
  /\ (forall (p : NodePtr) (N : Node) (Cs : list NodePtr) (c : NodePtr),
        H !! p = Some N -> Node_body N = TreeBody Cs -> c ∈ Cs ->
        attached H c).

Definition builderTreeInv (B : TreeBuilder) : Prop :=
  treeInv (TB_Heap B) (Pending B).

(** A computation keeps the property [I] of the builder when it
    succeeds. *)
Definition preserves {X} (I : TreeBuilder -> Prop) (m : M X) : Prop :=
  forall (B : TreeBuilder) (x : X) (B' : TreeBuilder),
    I B -> m B = Ok (x, B') -> I B'.

(** The kinds of the nodes [markStmtChild] adds for the statements
    [Children]: an expression statement for every expression. *)
Definition wrappedKinds (Children : list Stmt) : list NodeKind :=
  concat ((fun c : Stmt =>
             if isa_Expr c then [NK_ExpressionStatement] else [])
            <$> Children).

(** The operator call [S] as a built-in operator with the same operands. *)
Definition asBinaryOperator (S : CXXOperatorCallExpr) (Lhs Rhs : Stmt)
    : BinaryOperator :=
  mkBinaryOperator (OCE_Stmt S) Lhs (OCE_getOperatorLoc S) Rhs.

Definition asUnaryOperator (S : CXXOperatorCallExpr) (Operand : Stmt)
    (Postfix : bool) : UnaryOperator :=
  mkUnaryOperator (OCE_Stmt S) (OCE_getOperatorLoc S) Operand Postfix.

(** The node [markStmtChild] gives the role to when it is called for the
    statement [C] in the state [B]: the expression statement it allocates
    for an expression, and the node the statement is mapped to otherwise. *)
Definition stmtNode (B : TreeBuilder) (C : Stmt) : option NodePtr :=
  if isa_Expr C then Some (length (TB_Heap B))
  else Mapping_find B (ofStmt C).

(** The fold of a handler.  From [B], by steps that leave the forest and
    the shape of the nodes as they are (the roles it assigns), then the
    fold of [Range] into a new node of the kind [K], then steps of the
    same kind again (the entry of the mapping), the handler gets to [B'].
    In [B'] the new node is the node after the nodes of [B], its children
    are the entries of the forest of [B] that [Range] covers, among them
    every entry that starts within the range, and in the forest the new
    node has taken their place. *)
Definition foldedByHandler (K : NodeKind) (Range : ArrayRef)
    (B B' : TreeBuilder) : Prop :=
  (exists B1 B2 : TreeBuilder,
      quiet B B1 /\ foldsInto K Range B1 B2 /\ quiet B2 B')
  /\ kindIs B' (length (TB_Heap B)) K
  /\ childrenAre B' (length (TB_Heap B))
                 (coveredEntries Range (Pending B)).*2
  /\ Pending B' = forestAfterFold Range (length (TB_Heap B)) (Pending B)
  /\ forall (k : TokenPtr) (p : NodePtr),
       pendingAt (Pending B) k p ->
       ArrayRef_begin Range <= k < ArrayRef_end Range ->
       p ∈ (coveredEntries Range (Pending B)).*2.

(** The nodes recorded for name specifiers in [B0] are still recorded in
    [B]. *)
Definition keepsNNS (B0 B : TreeBuilder) : Prop :=
  NNSNodes (Mapping B0) ⊆ NNSNodes (Mapping B).

(** ** More concrete inputs *)

(** [a + b;] with the three tokens of the sum folded, and with all four
    tokens folded. *)
Definition foldedSumBuilder : TreeBuilder :=
  stateAfter (runCall (CallFoldNode (mkArrayRef 0 3)
                         NK_BinaryOperatorExpression None))
             (exampleBuilder sumTokens).

(** [a + b;] with one more node allocated. *)
Definition allocatedBuilder : TreeBuilder :=
  stateAfter (allocate NK_UnknownExpression) (exampleBuilder sumTokens).

(** An implicit cast around the left operand of [a + b;]. *)
Definition implicitCast : Stmt :=
  mkStmt 9 SC_Expr (mkSourceRange 10 10) (Some sumLeft) [].

(** [namespace a::b {}]; the keyword [namespace] is a token of a kind the
    builder does not tell apart. *)
Definition namespaceTokens : list TokenKind :=
  [tok_unknown; tok_identifier; tok_coloncolon; tok_identifier;
   tok_l_brace; tok_r_brace; tok_eof].
Definition namespaceDecl (Begin : SourceLocation) : Decl :=
  exampleDecl 1 DK_Namespace (mkSourceRange Begin 60) 20 None.

(** [{ a; }] with the expression folded. *)
Definition compoundTokens : list TokenKind :=
  [tok_l_brace; tok_identifier; tok_semi; tok_r_brace; tok_eof].
Definition compoundExpr : Stmt := exampleStmt 1 SC_Expr (mkSourceRange 20 20).
Definition compoundStmt : CompoundStmt :=
  mkCompoundStmt (exampleStmt 2 SC_CompoundStmt (mkSourceRange 10 40)) 10
                 [compoundExpr] 40.
Definition compoundBuilder : TreeBuilder :=
  stateAfter (traverseDeclRef (Some compoundExpr))
             (exampleBuilder compoundTokens).

(** [for (x) ;] and [if (x) ;]: a statement with a keyword, a
    parenthesised part and an empty statement as its body.  The traversal
    of the base class folds a statement as an unknown statement. *)
Definition loopTokens : list TokenKind :=
  [tok_unknown; tok_l_paren; tok_identifier; tok_r_paren; tok_semi;
   tok_eof].
Definition loopBody : Stmt := exampleStmt 1 SC_OtherStmt (mkSourceRange 50 50).
Definition loopStmt : Stmt := exampleStmt 2 SC_OtherStmt (mkSourceRange 10 50).
Definition ifStmt : IfStmt :=
  mkIfStmt loopStmt 10 (Some loopBody) InvalidLoc None.
Definition traverseUnknownStmt (S : option Stmt) : M bool :=
  match S with
  | Some S' => WalkUpFromStmt S'
  | None => mret true
  end.
Definition loopBuilder : TreeBuilder :=
  stateAfter (traverseUnknownStmt (Some loopBody)) (exampleBuilder loopTokens).

(** [template <> int a;] and [extern template int a;], the latter with the
    inner declaration folded. *)
Definition templateTokens : list TokenKind :=
  [tok_kw_template; tok_unknown; tok_unknown; tok_kw_int; tok_identifier;
   tok_semi; tok_eof].
Definition instantiationTokens : list TokenKind :=
  [tok_kw_extern; tok_kw_template; tok_kw_int; tok_identifier; tok_semi;
   tok_eof].
Definition instantiationBuilder : TreeBuilder :=
  stateAfter (runCall (CallFoldNode (mkArrayRef 2 3) NK_SimpleDeclaration
                         None))
             (exampleBuilder instantiationTokens).

(** [auto f() -> int;] *)
Definition trailingTokens : list TokenKind :=
  [tok_unknown; tok_identifier; tok_l_paren; tok_r_paren; tok_arrow;
   tok_kw_int; tok_semi; tok_eof].
Definition trailingReturn : FunctionProtoTypeLocInfo :=
  mkFunctionProtoTypeLocInfo true (OtherTypeLoc None 60) 60.

(** * Parsing range selectors: a model of Parsing.cpp

    The second part follows clang/lib/Tooling/Transformer/Parsing.cpp.  An
    [llvm::StringRef] is the list of its characters, a [std::string] is a
    [string], and [.str()] converts the one to the other. *)

Notation ascii := Ascii.ascii (only parsing).
Import Ascii.AsciiSyntax.
Delimit Scope char_scope with char.
Notation StringRef := (list ascii).

Definition str (S : StringRef) : string := String.string_of_list_ascii S.

(** [StringRef::drop_while], [take_while] and [take_until] *)
Fixpoint drop_while (F : ascii -> bool) (S : StringRef) : StringRef :=
  match S with
  | [] => []
  | c :: rest => if F c then drop_while F rest else S
  end.

Fixpoint take_while (F : ascii -> bool) (S : StringRef) : StringRef :=
  match S with
  | [] => []
  | c :: rest => if F c then c :: take_while F rest else []
  end.

Definition take_until (F : ascii -> bool) (S : StringRef) : StringRef :=
  take_while (fun c => negb (F c)) S.

(** [StringRef::drop_front(N)] asserts that [N] is within the size, which
    holds wherever [advance] is called below. *)
Definition drop_front (N : nat) (S : StringRef) : StringRef := drop N S.

(** [StringRef::substr(Start, N)] *)
Definition substr (Start N : nat) (S : StringRef) : StringRef :=
  take N (drop Start S).

(** [c >= 0] for a [char], where [char] is signed as on the x86 targets:
    the character is a 7-bit character. *)
Definition nonNegative (c : ascii) : bool := Ascii.nat_of_ascii c <? 128.

(** The character classes of clang/Basic/CharInfo.h, which is not among
    the sources; they are parameters of the parser. *)
Class CharInfo : Type := {
  isWhitespace : ascii -> bool;
  isIdentifierBody : ascii -> bool
}.

(** The selectors of clang/Tooling/Transformer/RangeSelector.h that the
    tables of the parser name; the header is not among the sources, and
    the selectors are parameters of the parser. *)
Class RangeSelectors (RangeSelector : Type) : Type := {
  name : string -> RangeSelector;
  node : string -> RangeSelector;
  statement : string -> RangeSelector;
  statements : string -> RangeSelector;
  member : string -> RangeSelector;
  callArgs : string -> RangeSelector;
  elseBranch : string -> RangeSelector;
  initListElements : string -> RangeSelector;
  before : RangeSelector -> RangeSelector;
  after : RangeSelector -> RangeSelector;
  expansion : RangeSelector -> RangeSelector;
  encloseNodes : string -> string -> RangeSelector;
  enclose : RangeSelector -> RangeSelector -> RangeSelector;
  between : RangeSelector -> RangeSelector -> RangeSelector
}.

Record ParseState : Type := mkParseState {
  (* The remaining input to be processed. *)
  ParseState_Input : StringRef;
  (* The original input. *)
  ParseState_OriginalInput : StringRef
}.

Record ParseProgress (ResultType : Type) : Type := mkParseProgress {
  Progress_State : ParseState;
  Progress_Value : ResultType
}.
Arguments mkParseProgress {ResultType} _ _.
Arguments Progress_State {ResultType} _.
Arguments Progress_Value {ResultType} _.

Record ParseError : Type := mkParseError {
  ParseError_Pos : nat;
  ParseError_ErrorMsg : string;
  ParseError_Excerpt : string
}.

(** [llvm::Expected<T>]: a value or a parse error. *)
Inductive Expected (T : Type) : Type :=
| HasValue (v : T)
| HasError (e : ParseError).
Arguments HasValue {T} v.
Arguments HasError {T} e.

Definition ExpectedProgress (T : Type) : Type := Expected (ParseProgress T).

(** A parsing function.  [parseRangeSelectorImpl] calls itself through
    [parseSingle] and [parsePair]; its model recurses on a bound on the
    depth of the calls, and [None] is the answer of a call that has reached
    the bound. *)
Definition ParseFunction (T : Type) : Type :=
  ParseState -> option (ExpectedProgress T).

Definition makeParseProgress {ResultType} (State : ParseState)
    (Result : ResultType) : ParseProgress ResultType :=
  mkParseProgress State Result.

Definition makeParseError {T} (S : ParseState) (ErrorMsg : string)
    : Expected T :=
  let Pos := length (ParseState_OriginalInput S)
             - length (ParseState_Input S) in
  HasError (mkParseError Pos ErrorMsg
                         (str (substr Pos 20 (ParseState_OriginalInput S)))).

(** Returns a new [ParseState] that advances [S] by [N] characters. *)
Definition advance (S : ParseState) (N : nat) : ParseState :=
  mkParseState (drop_front N (ParseState_Input S))
               (ParseState_OriginalInput S).

Section Parser.

Context {CI : CharInfo}.
Context {RangeSelector : Type} {RS : RangeSelectors RangeSelector}.

Definition getUnaryStringSelectors : gmap string (string -> RangeSelector) :=
  list_to_map [("name", name); ("node", node); ("statement", statement);
               ("statements", statements); ("member", member);
               ("callArgs", callArgs); ("elseBranch", elseBranch);
               ("initListElements", initListElements)].

Definition getUnaryRangeSelectors
    : gmap string (RangeSelector -> RangeSelector) :=
  list_to_map [("before", before); ("after", after);
               ("expansion", expansion)].

Definition getBinaryStringSelectors
    : gmap string (string -> string -> RangeSelector) :=
  list_to_map [("encloseNodes", encloseNodes)].

Definition getBinaryRangeSelectors
    : gmap string (RangeSelector -> RangeSelector -> RangeSelector) :=
  list_to_map [("enclose", enclose); ("between", between)].

Definition findOptional {Element} (Map : gmap string Element)
    (Key : string) : option Element :=
  Map !! Key.

Definition consumeWhitespace (S : StringRef) : StringRef :=
  drop_while (fun c => nonNegative c && isWhitespace c) S.

(** Parses a single expected character [c] from [State], skipping
    preceding whitespace. *)
Definition parseChar (c : ascii) (State : ParseState)
    : ExpectedProgress unit :=
  let State := mkParseState (consumeWhitespace (ParseState_Input State))
                            (ParseState_OriginalInput State) in
  match ParseState_Input State with
  | front :: _ =>
      if negb (Ascii.eqb front c)
      then makeParseError State
             ("expected char not found: " +:+ String c EmptyString)
      else HasValue (makeParseProgress (advance State 1) tt)
  | [] =>
      makeParseError State
        ("expected char not found: " +:+ String c EmptyString)
  end.

(** Parses an identifier "token" -- handles preceding whitespace. *)
Definition parseId (State : ParseState) : ExpectedProgress string :=
  let State := mkParseState (consumeWhitespace (ParseState_Input State))
                            (ParseState_OriginalInput State) in
  let Id := take_while (fun c => nonNegative c && isIdentifierBody c)
                       (ParseState_Input State) in
  if length Id =? 0 then makeParseError State "failed to parse name"
  else HasValue (makeParseProgress (advance State (length Id)) (str Id)).

(** The double quote. *)
Definition quoteChar : ascii := Ascii.ascii_of_nat 34.

(** Node ids are written as strings; escaping is not supported. *)
Definition parseStringId (State : ParseState) : ExpectedProgress string :=
  let State := mkParseState (consumeWhitespace (ParseState_Input State))
                            (ParseState_OriginalInput State) in
  match ParseState_Input State with
  | [] => makeParseError State "unexpected end of input"
  | front :: rest =>
      if negb (Ascii.eqb front quoteChar) then
        makeParseError State
          "expecting string, but encountered other character or end of input"
      else
        (* consume_front has dropped the quote *)
        let State := mkParseState rest (ParseState_OriginalInput State) in
        let Id := take_until (fun c => Ascii.eqb c quoteChar)
                             (ParseState_Input State) in
        if length (ParseState_Input State) =? length Id
        then makeParseError State "unterminated string"
        else
          (* Advance past the trailing quote as well. *)
          HasValue (makeParseProgress (advance State (length Id + 1))
                                      (str Id))
  end.

(** Parses a single element surrounded by parens. *)
Definition parseSingle {T} (ParseElement : ParseFunction T)
    (Op : T -> RangeSelector) (State : ParseState)
    : option (ExpectedProgress RangeSelector) :=
  match parseChar "("%char State with
  | HasError e => Some (HasError e)
  | HasValue P =>
      match ParseElement (Progress_State P) with
      | None => None
      | Some (HasError e) => Some (HasError e)
      | Some (HasValue E) =>
          match parseChar ")"%char (Progress_State E) with
          | HasError e => Some (HasError e)
          | HasValue P' =>
              Some (HasValue (makeParseProgress (Progress_State P')
                                                (Op (Progress_Value E))))
          end
      end
  end.

(** Parses a pair of elements surrounded by parens and separated by
    comma. *)
Definition parsePair {T} (ParseElement : ParseFunction T)
    (Op : T -> T -> RangeSelector) (State : ParseState)
    : option (ExpectedProgress RangeSelector) :=
  match parseChar "("%char State with
  | HasError e => Some (HasError e)
  | HasValue P =>
      match ParseElement (Progress_State P) with
      | None => None
      | Some (HasError e) => Some (HasError e)
      | Some (HasValue Left) =>
          match parseChar ","%char (Progress_State Left) with
          | HasError e => Some (HasError e)
          | HasValue P' =>
              match ParseElement (Progress_State P') with
              | None => None
              | Some (HasError e) => Some (HasError e)
              | Some (HasValue Right) =>
                  match parseChar ")"%char (Progress_State Right) with
                  | HasError e => Some (HasError e)
                  | HasValue P'' =>
                      Some (HasValue
                              (makeParseProgress (Progress_State P'')
                                 (Op (Progress_Value Left)
                                     (Progress_Value Right))))
                  end
              end
          end
      end
  end.

(** [parseRangeSelectorImpl], with the bound [depth] on the depth of its
    calls of itself. *)
Fixpoint parseRangeSelectorImpl (depth : nat) (State : ParseState)
    : option (ExpectedProgress RangeSelector) :=
  match depth with
  | 0 => None
  | S depth' =>
      match parseId State with
      | HasError e => Some (HasError e)
      | HasValue Id =>
          let OpName := Progress_Value Id in
          match findOptional getUnaryStringSelectors OpName with
          | Some Op =>
              parseSingle (fun S => Some (parseStringId S)) Op
                          (Progress_State Id)
          | None =>
          match findOptional getUnaryRangeSelectors OpName with
          | Some Op =>
              parseSingle (parseRangeSelectorImpl depth') Op
                          (Progress_State Id)
          | None =>
          match findOptional getBinaryStringSelectors OpName with
          | Some Op =>
              parsePair (fun S => Some (parseStringId S)) Op
                        (Progress_State Id)
          | None =>
          match findOptional getBinaryRangeSelectors OpName with
          | Some Op =>
              parsePair (parseRangeSelectorImpl depth') Op
                        (Progress_State Id)
          | None =>
              Some (makeParseError State
                      ("unknown selector name: " +:+ OpName))
          end end end end
      end
  end.

(** [transformer::parseRangeSelector]: every call of
    [parseRangeSelectorImpl] consumes a character before it calls itself,
    so the length of the input bounds the depth. *)
Definition parseRangeSelector (Input : StringRef)
    : option (Expected RangeSelector) :=
  let State := mkParseState Input Input in
  match parseRangeSelectorImpl (S (length Input)) State with
  | None => None
  | Some (HasError e) => Some (HasError e)
  | Some (HasValue Result) =>
      let State := Progress_State Result in
      (* Discard any potentially trailing whitespace. *)
      let State := mkParseState (consumeWhitespace (ParseState_Input State))
                                (ParseState_OriginalInput State) in
      match ParseState_Input State with
      | [] => Some (HasValue (Progress_Value Result))
      | _ :: _ =>
          Some (makeParseError State "unexpected input after selector")
      end
  end.

End Parser.

(** ** Specifications and concrete inputs for the parser *)

Definition chars (s : string) : StringRef := String.list_ascii_of_string s.

Section ParserSpecs.

Context {CI : CharInfo}.

(** The characters [consumeWhitespace] skips and [parseId] takes. *)
Definition skipped (c : ascii) : bool := nonNegative c && isWhitespace c.
Definition identifierChar (c : ascii) : bool :=
  nonNegative c && isIdentifierBody c.

Definition whitespaceOnly (w : StringRef) : bool := forallb skipped w.
Definition identifierOnly (s : StringRef) : bool := forallb identifierChar s.

(** The input does not start with a character of the class [F]. *)
Definition startsWithout (F : ascii -> bool) (S : StringRef) : bool :=
  match S with
  | [] => true
  | c :: _ => negb (F c)
  end.

End ParserSpecs.

(** The position of the remaining input in the original input. *)
Definition positionOf (S : ParseState) : nat :=
  length (ParseState_OriginalInput S) - length (ParseState_Input S).

(** The error [makeParseError] builds at the position [Pos] of the input
    [Original]. *)
Definition errorAt (Original : StringRef) (Pos : nat) (Msg : string)
    : ParseError :=
  mkParseError Pos Msg (str (take 20 (drop Pos Original))).

(** The remaining input is a part of the original input. *)
Definition wellPositioned (S : ParseState) : Prop :=
  ParseState_Input S `suffix_of` ParseState_OriginalInput S.

(** The selector expressions the parser accepts, as syntax. *)
Inductive SelectorExpr : Type :=
| UnaryString (Op : string) (Id : string)
| UnaryRange (Op : string) (Arg : SelectorExpr)
| BinaryString (Op : string) (L R : string)
| BinaryRange (Op : string) (L R : SelectorExpr).

(** A node id between double quotes. *)
Definition quoted (Id : string) : StringRef :=
  quoteChar :: chars Id ++ [quoteChar].

(** The text of a selector expression, with the layout [w] in front of
    every token. *)
Fixpoint print (w : StringRef) (e : SelectorExpr) : StringRef :=
  match e with
  | UnaryString Op Id =>
      w ++ chars Op ++ w ++ "("%char :: w ++ quoted Id ++ w ++ [")"%char]
  | UnaryRange Op Arg =>
      w ++ chars Op ++ w ++ "("%char :: print w Arg ++ w ++ [")"%char]
  | BinaryString Op L R =>
      w ++ chars Op ++ w ++ "("%char :: w ++ quoted L
        ++ w ++ ","%char :: w ++ quoted R ++ w ++ [")"%char]
  | BinaryRange Op L R =>
      w ++ chars Op ++ w ++ "("%char :: print w L
        ++ w ++ ","%char :: print w R ++ w ++ [")"%char]
  end.

(** The node ids of the expression hold no double quote. *)
Fixpoint unquotedIds (e : SelectorExpr) : bool :=
  match e with
  | UnaryString _ Id => forallb (fun c => negb (Ascii.eqb c quoteChar)) (chars Id)
  | UnaryRange _ Arg => unquotedIds Arg
  | BinaryString _ L R =>
      forallb (fun c => negb (Ascii.eqb c quoteChar)) (chars L)
      && forallb (fun c => negb (Ascii.eqb c quoteChar)) (chars R)
  | BinaryRange _ L R => unquotedIds L && unquotedIds R
  end.

Section Denotation.

Context {CI : CharInfo}.
Context {RangeSelector : Type} {RS : RangeSelectors RangeSelector}.

(** The selector an expression stands for: the operator of the table of its
    shape, applied to the arguments. *)
Fixpoint denote (e : SelectorExpr) : option RangeSelector :=
  match e with
  | UnaryString Op Id =>
      f ← getUnaryStringSelectors !! Op; Some (f Id)
  | UnaryRange Op Arg =>
      f ← getUnaryRangeSelectors !! Op; a ← denote Arg; Some (f a)
  | BinaryString Op L R =>
      f ← getBinaryStringSelectors !! Op; Some (f L R)
  | BinaryRange Op L R =>
      f ← getBinaryRangeSelectors !! Op;
      l ← denote L; r ← denote R; Some (f l r)
  end.

End Denotation.

(** The letters of the selector names. *)
Definition isLetter (c : ascii) : bool :=
  let n := Ascii.nat_of_ascii c in
  ((65 <=? n) && (n <=? 90)) || ((97 <=? n) && (n <=? 122)).

(** The requirements of the parser on the character classes: letters are
    identifier characters, and among the 7-bit characters no identifier
    character, paren, comma or double quote is whitespace and the opening
    paren is no identifier character. *)
Record CharInfoAgrees (CI : CharInfo) : Prop := {
  letters_identifier :
    forall c : ascii, isLetter c = true -> isIdentifierBody c = true;
  identifier_not_whitespace :
    forall c : ascii, identifierChar c = true -> skipped c = false;
  punctuation_not_whitespace :
    forall c : ascii,
      c ∈ ["("%char; ")"%char; ","%char; quoteChar] -> skipped c = false;
  paren_not_identifier : identifierChar "("%char = false
}.

(** Character classes for concrete inputs: blank, tab, line feed, vertical
    tab, form feed and carriage return are whitespace; letters, digits and
    the underscore are identifier characters. *)
Definition exampleCharInfo : CharInfo :=
  {| isWhitespace := fun c =>
       let n := Ascii.nat_of_ascii c in
       (n =? 32) || ((9 <=? n) && (n <=? 13));
     isIdentifierBody := fun c =>
       let n := Ascii.nat_of_ascii c in
       isLetter c || ((48 <=? n) && (n <=? 57)) || (n =? 95) |}.

(** The selectors as the syntax of their application. *)
Definition exampleSelectors : RangeSelectors SelectorExpr :=
  {| name := UnaryString "name";
     node := UnaryString "node";
     statement := UnaryString "statement";
     statements := UnaryString "statements";
     member := UnaryString "member";
     callArgs := UnaryString "callArgs";
     elseBranch := UnaryString "elseBranch";
     initListElements := UnaryString "initListElements";
     before := UnaryRange "before";
     after := UnaryRange "after";
     expansion := UnaryRange "expansion";
     encloseNodes := BinaryString "encloseNodes";
     enclose := BinaryRange "enclose";
     between := BinaryRange "between" |}.

(** The parser on concrete inputs. *)
Definition exampleParse (Input : string)
    : option (Expected SelectorExpr) :=
  parseRangeSelector (CI := exampleCharInfo) (RS := exampleSelectors)
                     (chars Input).

(** The parser has consumed a part of the remaining input that is not
    empty, and has left the original input as it was. *)
Definition advances (State State' : ParseState) : Prop :=
  ParseState_OriginalInput State' = ParseState_OriginalInput State
  /\ exists consumed : StringRef,
       consumed ≠ []
       /\ ParseState_Input State = consumed ++ ParseState_Input State'.

(** The names of the four tables. *)
Definition selectorNames : list string :=
  ["name"; "node"; "statement"; "statements"; "member"; "callArgs";
   "elseBranch"; "initListElements"; "before"; "after"; "expansion";
   "encloseNodes"; "enclose"; "between"].
(** ** Operator calls and name specifiers *)

Lemma getOperatorNodeKind_table (Op : OverloadedOperatorKind)
    (NumArgs : nat) :
  toOption (getOperatorNodeKind Op NumArgs) = operatorTable Op NumArgs.
Proof.
  destruct Op; try reflexivity;
    destruct NumArgs as [|[|[|n]]]; reflexivity.
Qed.

(** C9: on a well-formed specifier, [getNameSpecifierKind] aborts with the
    fatal error "We don't yet support the __super specifier" for the
    [__super] specifier, and for every other kind returns, without error,
    the global kind for the [::] root, the decltype kind for a decltype
    specifier, the simple-template kind for a template specialization and
    the identifier kind otherwise. *)
Theorem getNameSpecifierKind_spec (NNS : NestedNameSpecifier) :
  NNS_wellFormed NNS = true ->
  getNameSpecifierKind NNS =
    if bool_decide (NNS_getKind NNS = SK_Super)
    then Abort (FatalError "We don't yet support the __super specifier")
    else Ok (specifierTable NNS).
Proof.
  destruct NNS as [k t]; unfold NNS_wellFormed; simpl.
  destruct k; destruct t as [[]|]; simpl; intros Hwf;
    try reflexivity; try discriminate.
Qed.

Lemma getNameSpecifierKind_spec_witness :
  getNameSpecifierKind (mkNestedNameSpecifier SK_Super None)
    = Abort (FatalError "We don't yet support the __super specifier")
  /\ getNameSpecifierKind
       (mkNestedNameSpecifier SK_TypeSpec
                              (Some TC_DependentTemplateSpecialization))
     = Ok NK_SimpleTemplateNameSpecifier.
Proof.
  split.
  - apply (getNameSpecifierKind_spec (mkNestedNameSpecifier SK_Super None)).
    reflexivity.
  - apply (getNameSpecifierKind_spec
             (mkNestedNameSpecifier SK_TypeSpec
                (Some TC_DependentTemplateSpecialization))).
    reflexivity.
Defined.

(** ** Statement and declaration ranges *)

(** Where [end] is not before [begin], the range holds the tokens from
    [begin] up to [end]. *)
Lemma makeArrayRef_le (b e : TokenPtr) :
  b <= e -> makeArrayRef b e = mkArrayRef b (e - b).
Proof.
  intros Hle. unfold makeArrayRef.
  by rewrite (proj2 (Nat.ltb_ge e b) Hle).
Qed.

Lemma makeArrayRef_appendOne (Tokens : ArrayRef) :
  makeArrayRef (ArrayRef_begin Tokens) (ArrayRef_end Tokens + 1)
  = appendOne Tokens.
Proof.
  unfold ArrayRef_begin, ArrayRef_end. rewrite makeArrayRef_le by lia.
  unfold appendOne. f_equal. lia.
Qed.

Lemma withTrailingSemicolon_eq (B : TreeBuilder) (Tokens : ArrayRef)
    (back next : TokenKind) :
  ArrayRef_empty Tokens = false ->
  kindAt (TB_Arena B) (ArrayRef_end Tokens - 1) = Ok back ->
  back ≠ tok_eof ->
  kindAt (TB_Arena B) (ArrayRef_end Tokens) = Ok next ->
  withTrailingSemicolon B Tokens =
    Ok (if bool_decide (next = tok_semi) && negb (bool_decide (back = tok_semi))
        then appendOne Tokens else Tokens).
Proof.
  intros Hne Hback Heof Hnext.
  unfold withTrailingSemicolon, backKind.
  rewrite Hne. simpl. rewrite Hback. simpl.
  rewrite (bool_decide_eq_false_2 _ Heof). simpl.
  rewrite Hnext. simpl.
  destruct (bool_decide (back = tok_semi)); simpl.
  - by rewrite andb_false_r.
  - rewrite andb_true_r.
    destruct (bool_decide (next = tok_semi)); [|done].
    by rewrite makeArrayRef_appendOne.
Qed.

Lemma appendOne_ne (Tokens : ArrayRef) : appendOne Tokens ≠ Tokens.
Proof. destruct Tokens as [d l]. unfold appendOne. simpl. intros [=]. lia. Qed.

(** C3: when the tokens of a statement's source range are [Tokens], a
    compound statement has exactly the range [Tokens], and any other
    statement has [Tokens] extended by one token when the token after
    [Tokens] is a semicolon and [Tokens] does not end in a semicolon, and
    [Tokens] itself otherwise. *)
Theorem getStmtRange_spec (B : TreeBuilder) (S : Stmt) (Tokens : ArrayRef)
    (back next : TokenKind) :
  getRange B (Stmt_getSourceRange S) = Ok Tokens ->
  ArrayRef_empty Tokens = false ->
  kindAt (TB_Arena B) (ArrayRef_end Tokens - 1) = Ok back ->
  back ≠ tok_eof ->
  kindAt (TB_Arena B) (ArrayRef_end Tokens) = Ok next ->
  getStmtRange B S =
    Ok (if isa_CompoundStmt S then Tokens
        else if bool_decide (next = tok_semi)
                && negb (bool_decide (back = tok_semi))
             then appendOne Tokens else Tokens).
Proof.
  intros HR Hne Hback Heof Hnext.
  unfold getStmtRange. rewrite HR. simpl.
  destruct (isa_CompoundStmt S); [done|].
  unfold backKind. rewrite Hne, Hback. simpl.
  destruct (bool_decide (back = tok_semi)) eqn:Hsemi.
  - by rewrite andb_false_r.
  - rewrite (withTrailingSemicolon_eq B Tokens back next) by done.
    by rewrite Hsemi.
Qed.

(** The statement [return ;] of [return ; eof] gets its semicolon, the
    compound statement [{ }] of [{ } ; eof] does not take the one after
    it. *)
Lemma getStmtRange_spec_witness :
  getStmtRange (exampleBuilder [tok_kw_return; tok_semi; tok_eof])
               (exampleStmt 1 SC_OtherStmt (mkSourceRange 10 10))
    = Ok (mkArrayRef 0 2)
  /\ getStmtRange (exampleBuilder [tok_l_brace; tok_r_brace; tok_semi; tok_eof])
               (exampleStmt 1 SC_CompoundStmt (mkSourceRange 10 20))
    = Ok (mkArrayRef 0 2).
Proof.
  split.
  - apply (getStmtRange_spec
             (exampleBuilder [tok_kw_return; tok_semi; tok_eof])
             (exampleStmt 1 SC_OtherStmt (mkSourceRange 10 10))
             (mkArrayRef 0 1) tok_kw_return tok_semi);
      first [reflexivity | discriminate].
  - apply (getStmtRange_spec
             (exampleBuilder [tok_l_brace; tok_r_brace; tok_semi; tok_eof])
             (exampleStmt 1 SC_CompoundStmt (mkSourceRange 10 20))
             (mkArrayRef 0 2) tok_r_brace tok_semi);
      first [reflexivity | discriminate].
Defined.

Lemma noticeDecls_eq (Ds : list nat) (B : TreeBuilder) :
  noticeDecls Ds B =
    Ok (tt, withDeclsWithoutSemicolons
              (list_to_set Ds ∪ DeclsWithoutSemicolons B) B).
Proof.
  revert B. induction Ds as [|D Ds IH]; intros B; simpl.
  - unfold mret, M_ret. f_equal. f_equal.
    destruct B; unfold withDeclsWithoutSemicolons; simpl. f_equal.
    set_solver.
  - unfold mbind, M_bind, noticeDeclWithoutSemicolon. rewrite IH.
    f_equal. f_equal. unfold withDeclsWithoutSemicolons; simpl. f_equal.
    set_solver.
Qed.

(** C4, as the code has it: the declaration range [maybeAppendSemicolon]
    computes from the declaration's own tokens takes the token after them
    exactly when that token is a semicolon, the declaration's tokens do not
    already end in a semicolon, the declaration is not a namespace and it
    is not recorded as a declaration without semicolon; otherwise the range
    is unchanged.  [TraverseStmt] records every declaration of a
    declaration statement before the traversal of the base class, which
    calls the handlers, starts, so none of them takes the semicolon. *)
Theorem maybeAppendSemicolon_spec :
  (forall (B : TreeBuilder) (Tokens : ArrayRef) (D : Decl)
          (back next : TokenKind),
      ArrayRef_empty Tokens = false ->
      kindAt (TB_Arena B) (ArrayRef_end Tokens - 1) = Ok back ->
      back ≠ tok_eof ->
      kindAt (TB_Arena B) (ArrayRef_end Tokens) = Ok next ->
      (maybeAppendSemicolon B Tokens D = Ok (appendOne Tokens) <->
         next = tok_semi /\ back ≠ tok_semi
         /\ isa_NamespaceDecl (Decl_kind D) = false
         /\ Decl_ptr D ∉ DeclsWithoutSemicolons B)
      /\ (maybeAppendSemicolon B Tokens D = Ok (appendOne Tokens)
          \/ maybeAppendSemicolon B Tokens D = Ok Tokens))
  /\ (forall (RAV_TraverseStmt : option Stmt -> M bool) (S : Stmt)
             (B : TreeBuilder),
        isa_DeclStmt S = true ->
        exists B' : TreeBuilder,
          TraverseStmt RAV_TraverseStmt (Some S) B
            = RAV_TraverseStmt (Some S) B'
          /\ TB_Heap B' = TB_Heap B /\ Pending B' = Pending B
          /\ Mapping B' = Mapping B
          /\ forall (D : Decl) (Tokens : ArrayRef),
               Decl_ptr D ∈ Stmt_decls S ->
               maybeAppendSemicolon B' Tokens D = Ok Tokens).
Proof.
  split.
  - intros B Tokens D back next Hne Hback Heof Hnext.
    unfold maybeAppendSemicolon.
    destruct (isa_NamespaceDecl (Decl_kind D)).
    { split; [|by right]. split.
      - intros [=E]. by destruct (appendOne_ne Tokens).
      - intros (_ & _ & ? & _). done. }
    destruct (decide (Decl_ptr D ∈ DeclsWithoutSemicolons B)) as [Hin|Hin].
    { rewrite (bool_decide_eq_true_2 _ Hin).
      split; [|by right]. split.
      - intros [=E]. by destruct (appendOne_ne Tokens).
      - intros (_ & _ & _ & ?). done. }
    rewrite (bool_decide_eq_false_2 _ Hin).
    rewrite (withTrailingSemicolon_eq B Tokens back next) by done.
    destruct (decide (next = tok_semi)) as [Hn|Hn];
      destruct (decide (back = tok_semi)) as [Hb|Hb].
    + rewrite (bool_decide_eq_true_2 _ Hn), (bool_decide_eq_true_2 _ Hb).
      simpl. split; [|by right]. split.
      * intros [=E]. by destruct (appendOne_ne Tokens).
      * intros (_ & ? & _). done.
    + rewrite (bool_decide_eq_true_2 _ Hn), (bool_decide_eq_false_2 _ Hb).
      simpl. split; [|by left]. done.
    + rewrite (bool_decide_eq_false_2 _ Hn). simpl.
      split; [|by right]. split.
      * intros [=E]. by destruct (appendOne_ne Tokens).
      * intros (? & _). done.
    + rewrite (bool_decide_eq_false_2 _ Hn). simpl.
      split; [|by right]. split.
      * intros [=E]. by destruct (appendOne_ne Tokens).
      * intros (? & _). done.
  - intros RAV S B HDS.
    exists (withDeclsWithoutSemicolons
              (list_to_set (Stmt_decls S) ∪ DeclsWithoutSemicolons B) B).
    split.
    { unfold TraverseStmt. rewrite HDS.
      unfold mbind at 1. unfold M_bind. by rewrite noticeDecls_eq. }
    repeat split; try done.
    intros D Tokens HD. unfold maybeAppendSemicolon.
    destruct (isa_NamespaceDecl (Decl_kind D)); [done|].
    rewrite bool_decide_eq_true_2; [done|].
    simpl. apply elem_of_union_l. by apply elem_of_list_to_set.
Qed.

(** In [int x ; eof] the declaration [int x] takes its semicolon; inside a
    declaration statement it does not. *)
Lemma maybeAppendSemicolon_spec_witness :
  maybeAppendSemicolon
      (exampleBuilder [tok_kw_int; tok_identifier; tok_semi; tok_eof])
      (mkArrayRef 0 2)
      (exampleDecl 1 DK_Var (mkSourceRange 10 20) 20 None)
    = Ok (mkArrayRef 0 3)
  /\ exists B' : TreeBuilder,
       TraverseStmt (fun _ => mret true)
         (Some (mkStmt 2 SC_DeclStmt (mkSourceRange 10 20) None [1]))
         (exampleBuilder [tok_kw_int; tok_identifier; tok_semi; tok_eof])
       = Ok (true, B')
       /\ maybeAppendSemicolon B' (mkArrayRef 0 2)
            (exampleDecl 1 DK_Var (mkSourceRange 10 20) 20 None)
          = Ok (mkArrayRef 0 2).
Proof.
  destruct maybeAppendSemicolon_spec as [Hrange Hstmt]. split.
  - apply (Hrange
             (exampleBuilder [tok_kw_int; tok_identifier; tok_semi; tok_eof])
             (mkArrayRef 0 2)
             (exampleDecl 1 DK_Var (mkSourceRange 10 20) 20 None)
             tok_identifier tok_semi);
      try reflexivity; try discriminate.
    repeat split; try reflexivity; try discriminate;
      try (vm_compute; set_solver).
  - destruct (Hstmt (fun _ => mret true)
                (mkStmt 2 SC_DeclStmt (mkSourceRange 10 20) None [1])
                (exampleBuilder [tok_kw_int; tok_identifier; tok_semi; tok_eof])
                eq_refl)
      as (B' & Hrun & _ & _ & _ & Hkeep).
    exists B'. split; [exact Hrun|].
    apply Hkeep. simpl. set_solver.
Defined.

(** Without the guard on the last token of the declaration the rule fails
    on [; ; eof]: the first empty declaration is followed by a semicolon,
    is no namespace and is not recorded, and its range is its own token. *)
Lemma maybeAppendSemicolon_after_semicolon :
  getRange (exampleBuilder emptyDeclTokens) (Decl_getSourceRange emptyDecl)
    = Ok (mkArrayRef 0 1)
  /\ kindAt (TB_Arena (exampleBuilder emptyDeclTokens))
            (ArrayRef_end (mkArrayRef 0 1)) = Ok tok_semi
  /\ isa_NamespaceDecl (Decl_kind emptyDecl) = false
  /\ Decl_ptr emptyDecl ∉ DeclsWithoutSemicolons
                            (exampleBuilder emptyDeclTokens)
  /\ getDeclarationRange (exampleBuilder emptyDeclTokens) emptyDecl
     = Ok (mkArrayRef 0 1)
  /\ ~ (maybeAppendSemicolon (exampleBuilder emptyDeclTokens)
                             (mkArrayRef 0 1) emptyDecl
          = Ok (appendOne (mkArrayRef 0 1))
        <-> kindAt (TB_Arena (exampleBuilder emptyDeclTokens))
                   (ArrayRef_end (mkArrayRef 0 1)) = Ok tok_semi
            /\ isa_NamespaceDecl (Decl_kind emptyDecl) = false
            /\ Decl_ptr emptyDecl
               ∉ DeclsWithoutSemicolons (exampleBuilder emptyDeclTokens)).
Proof.
  assert (Hnot : Decl_ptr emptyDecl
                 ∉ DeclsWithoutSemicolons (exampleBuilder emptyDeclTokens)).
  { vm_compute. set_solver. }
  split_and!; try reflexivity; [exact Hnot|].
  intros [_ H].
  assert (Hc : maybeAppendSemicolon (exampleBuilder emptyDeclTokens)
                 (mkArrayRef 0 1) emptyDecl
               = Ok (appendOne (mkArrayRef 0 1))).
  { apply H. split_and!; try reflexivity. exact Hnot. }
  vm_compute in Hc. discriminate.
Qed.

(** ** The pending forest *)

Section HeapLemmas.

Lemma mapM_ext_Forall {A B} (f g : A -> option B) (l : list A) :
  Forall (fun x => f x = g x) l -> mapM f l = mapM g l.
Proof.
  induction 1 as [|x l Hx _ IH]; [done|].
  simpl. rewrite Hx. destruct (g x); [|done]. simpl. by rewrite IH.
Qed.

(** The tokens under [p] depend on the bodies of the nodes up to [p]
    only, and any fuel above [p] will do. *)
Lemma leavesOf_frame (H H' : Heap) :
  childrenFirst H ->
  forall (f f' : nat) (p : NodePtr),
    p < f -> p < f' ->
    (forall q, q <= p -> Node_body <$> H !! q = Node_body <$> H' !! q) ->
    leavesOf f H p = leavesOf f' H' p.
Proof.
  intros Hcf f. induction f as [|f IH]; intros f' p Hf Hf' Hsame; [lia|].
  destruct f' as [|f']; [lia|]. simpl.
  pose proof (Hsame p (Nat.le_refl p)) as Hp.
  destruct (H !! p) as [N|] eqn:EN; destruct (H' !! p) as [N'|] eqn:EN';
    rewrite ?EN, ?EN' in Hp; simpl in Hp; try done.
  injection Hp as Hp. rewrite <- Hp.
  destruct (Node_body N) as [T|Cs] eqn:EB; [done|].
  f_equal. apply mapM_ext_Forall.
  pose proof (Hcf p N Cs EN EB) as Hlt.
  eapply Forall_impl; [exact Hlt|].
  intros c Hc. simpl in Hc. apply IH; [lia|lia|].
  intros q Hq. apply Hsame. lia.
Qed.

Lemma leaves_preserved (H H' : Heap) (p : NodePtr) :
  childrenFirst H -> p < length H -> length H <= length H' ->
  (forall q, q <= p -> Node_body <$> H !! q = Node_body <$> H' !! q) ->
  leaves H' p = leaves H p.
Proof.
  intros Hcf Hp Hlen Hsame. unfold leaves. symmetry.
  apply leavesOf_frame; [done|lia|lia|done].
Qed.

Lemma leaves_Some_lt (H : Heap) (p : NodePtr) (ls : list TokenPtr) :
  leaves H p = Some ls -> p < length H.
Proof.
  unfold leaves. destruct (length H) as [|f] eqn:E; [done|]. simpl.
  destruct (H !! p) as [N|] eqn:EN; [|done]. intros _.
  apply lookup_lt_Some in EN. lia.
Qed.

Lemma partitions_frame (H H' : Heap) (Trees : Forest) (s n : TokenPtr) :
  (forall p, p ∈ Trees.*2 -> leaves H' p = leaves H p) ->
  partitions H Trees s n -> partitions H' Trees s n.
Proof.
  revert s. induction Trees as [|[k p] rest IH]; intros s Hsame; [done|].
  simpl. intros [-> (e & He & Hl & Hrest)]. split; [done|].
  exists e. split; [done|]. split.
  - rewrite Hsame; [done|]. simpl. apply list_elem_of_here.
  - apply IH; [|done]. intros q Hq. apply Hsame. simpl.
    by apply list_elem_of_further.
Qed.

Lemma partitions_ptr_lt (H : Heap) (Trees : Forest) (s n : TokenPtr) :
  partitions H Trees s n -> Forall (fun p => p < length H) Trees.*2.
Proof.
  revert s. induction Trees as [|[k p] rest IH]; intros s; simpl.
  - intros _. constructor.
  - intros [_ (e & _ & Hl & Hrest)]. constructor.
    + by eapply leaves_Some_lt.
    + by eapply IH.
Qed.

Lemma partitions_le (H : Heap) (Trees : Forest) (s n : TokenPtr) :
  partitions H Trees s n -> s <= n.
Proof.
  revert s. induction Trees as [|[k p] rest IH]; intros s; simpl.
  - intros ->. lia.
  - intros [_ (e & He & _ & Hrest)]. apply IH in Hrest. lia.
Qed.

Lemma partitions_keys (H : Heap) (Trees : Forest) (s n : TokenPtr) :
  partitions H Trees s n -> Forall (fun e => s <= e.1 < n) Trees.
Proof.
  revert s. induction Trees as [|[k p] rest IH]; intros s; simpl.
  - intros _. constructor.
  - intros [-> (e & He & _ & Hrest)]. constructor.
    + simpl. apply partitions_le in Hrest. lia.
    + eapply Forall_impl; [by eapply IH|]. simpl. intros x Hx. lia.
Qed.

Lemma partitions_app (H : Heap) (l1 l2 : Forest) (s m n : TokenPtr) :
  partitions H l1 s m -> partitions H l2 m n -> partitions H (l1 ++ l2) s n.
Proof.
  revert s. induction l1 as [|[k p] rest IH]; intros s; simpl.
  - by intros ->.
  - intros [-> (e & He & Hl & Hrest)] H2. split; [done|].
    exists e. repeat split; try done. by apply IH.
Qed.

(** The tokens under the entries of a partition are the tokens it
    covers. *)
Lemma partitions_leaves (H : Heap) (Trees : Forest) (s n : TokenPtr) :
  partitions H Trees s n ->
  exists Ls, mapM (leaves H) Trees.*2 = Some Ls
             /\ concat Ls = seq s (n - s).
Proof.
  revert s. induction Trees as [|[k p] rest IH]; intros s; simpl.
  - intros ->. exists []. split; [done|]. by rewrite Nat.sub_diag.
  - intros [-> (e & He & Hl & Hrest)].
    pose proof (partitions_le _ _ _ _ Hrest) as Hle.
    destruct (IH e Hrest) as (Ls & HLs & Hc).
    exists (seq s (e - s) :: Ls). rewrite Hl. simpl.
    change (list_fmap (nat * nat)%type nat snd rest) with (rest.*2).
    rewrite HLs. simpl.
    split; [done|]. rewrite Hc.
    replace (n - s) with ((e - s) + (n - e)) by lia.
    rewrite seq_app. do 2 f_equal. lia.
Qed.

End HeapLemmas.

Section MapLemmas.

Lemma lower_bound_app (l1 l2 : Forest) (k : TokenPtr) :
  Forall (fun e => e.1 < k) l1 ->
  lower_bound (l1 ++ l2) k = length l1 + lower_bound l2 k.
Proof.
  induction 1 as [|[k' p] l1 Hk _ IH]; [done|]. simpl in *.
  destruct (Nat.ltb_spec k' k); [|lia]. by rewrite IH.
Qed.

Lemma lower_bound_ge (l : Forest) (k : TokenPtr) :
  Forall (fun e => k <= e.1) l -> lower_bound l k = 0.
Proof.
  destruct 1 as [|[k' p] l Hk _]; [done|]. simpl in *.
  destruct (Nat.ltb_spec k' k); [lia|done].
Qed.

Lemma lower_bound_all (l : Forest) (k : TokenPtr) :
  Forall (fun e => e.1 < k) l -> lower_bound l k = length l.
Proof.
  intros Hl. rewrite <- (app_nil_r l) at 1.
  rewrite lower_bound_app by done. simpl. lia.
Qed.

Lemma map_insert_app (l1 l2 : Forest) (k : TokenPtr) (v : NodePtr) :
  Forall (fun e => e.1 < k) l1 ->
  map_insert k v (l1 ++ l2) = l1 ++ map_insert k v l2.
Proof.
  induction 1 as [|[k' p] l1 Hk _ IH]; [done|]. simpl in *.
  destruct (Nat.ltb_spec k k'); [lia|].
  destruct (Nat.eqb_spec k k'); [lia|]. by rewrite IH.
Qed.

Lemma map_insert_before (l : Forest) (k : TokenPtr) (v : NodePtr) :
  Forall (fun e => k < e.1) l -> map_insert k v l = (k, v) :: l.
Proof.
  destruct 1 as [|[k' p] l Hk _]; [done|]. simpl in *.
  by destruct (Nat.ltb_spec k k'); [|lia].
Qed.

Lemma map_erase_app (l1 l2 l3 : Forest) :
  map_erase (length l1) (length l1 + length l2) (l1 ++ l2 ++ l3)
    = l1 ++ l3.
Proof.
  unfold map_erase. rewrite take_app_length.
  rewrite app_assoc, drop_app_length'; [done|].
  by rewrite length_app.
Qed.

Lemma map_range_app (l1 l2 l3 : Forest) :
  map_range (length l1) (length l1 + length l2) (l1 ++ l2 ++ l3) = l2.
Proof.
  unfold map_range. rewrite drop_app_length.
  replace (length l1 + length l2 - length l1) with (length l2) by lia.
  by rewrite take_app_length.
Qed.

End MapLemmas.

Section FoldLemmas.

Lemma unknownIfDetached_idemp (R : NodeRole) :
  unknownIfDetached (unknownIfDetached R) = unknownIfDetached R.
Proof. unfold unknownIfDetached. by repeat case_bool_decide. Qed.

Lemma unknownIfDetached_not (R : NodeRole) :
  R ≠ Detached -> unknownIfDetached R = R.
Proof. intros. unfold unknownIfDetached. by case_bool_decide. Qed.

Ltac node_cases :=
  repeat case_bool_decide;
  rewrite ?elem_of_cons, ?elem_of_nil in *;
  simplify_eq; try done; try naive_solver.

Lemma afterAttach_nil (New q : NodePtr) (N : Node) :
  afterAttach [] New q N = N.
Proof.
  destruct N as [k r o c b]. unfold afterAttach.
  cbn [Node_kind Node_role Node_Original Node_CanModify Node_body].
  f_equal; node_cases. by destruct b.
Qed.

Lemma afterAttach_cons (C : NodePtr) (rest : list NodePtr)
    (New q : NodePtr) (N : Node) :
  afterAttach rest New q (afterAttach [C] New q N)
    = afterAttach (C :: rest) New q N.
Proof.
  destruct N as [k r o c b]. unfold afterAttach.
  cbn [Node_kind Node_role Node_Original Node_CanModify Node_body].
  f_equal.
  - pose proof (unknownIfDetached_idemp r). node_cases.
  - node_cases. destruct b; [done|].
    rewrite (reverse_cons rest C). by rewrite <- !app_assoc.
Qed.

(** One round of the loop. *)
Lemma attach_step (C New : NodePtr) (H : Heap) (NC : Node) (q : NodePtr) :
  H !! C = Some NC ->
  alter (prependChildLowLevel_node C) New
        (if bool_decide (Node_role NC = Detached)
         then alter (setRole_node Unknown) C H else H) !! q
    = afterAttach [C] New q <$> H !! q.
Proof.
  intros HC.
  set (H1 := if bool_decide (Node_role NC = Detached)
             then alter (setRole_node Unknown) C H else H).
  assert (H1q : H1 !! q =
                (fun N => mkNode (Node_kind N)
                            (if bool_decide (q = C)
                             then unknownIfDetached (Node_role N)
                             else Node_role N)
                            (Node_Original N) (Node_CanModify N)
                            (Node_body N)) <$> H !! q).
  { unfold H1. destruct (decide (q = C)) as [->|Hne].
    - rewrite HC. case_bool_decide as Hd.
      + rewrite list_lookup_alter_eq, HC.
        cbn [fmap option_fmap option_map]. f_equal.
        destruct NC as [k r o c b]. unfold setRole_node, unknownIfDetached.
        cbn [Node_kind Node_role Node_Original Node_CanModify Node_body]
          in *.
        f_equal. node_cases.
      + rewrite HC. cbn [fmap option_fmap option_map]. f_equal.
        destruct NC as [k r o c b]. unfold unknownIfDetached.
        cbn [Node_kind Node_role Node_Original Node_CanModify Node_body]
          in *.
        f_equal. node_cases.
    - assert ((if bool_decide (Node_role NC = Detached)
               then alter (setRole_node Unknown) C H else H) !! q
              = H !! q) as ->.
      { case_bool_decide; [|done]. by rewrite list_lookup_alter_ne. }
      destruct (H !! q) as [[k r o c b]|]; [|done].
      cbn [fmap option_fmap option_map]. f_equal.
      cbn [Node_kind Node_role Node_Original Node_CanModify Node_body].
      f_equal. node_cases. }
  destruct (decide (q = New)) as [->|Hne].
  - rewrite list_lookup_alter_eq, H1q.
    destruct (H !! New) as [[k r o c b]|]; [|done].
    cbn [fmap option_fmap option_map]. f_equal.
    unfold afterAttach, prependChildLowLevel_node.
    cbn [Node_kind Node_role Node_Original Node_CanModify Node_body].
    destruct b; f_equal; node_cases.
  - rewrite list_lookup_alter_ne by done. rewrite H1q.
    destruct (H !! q) as [[k r o c b]|]; [|done].
    cbn [fmap option_fmap option_map]. f_equal.
    unfold afterAttach.
    cbn [Node_kind Node_role Node_Original Node_CanModify Node_body].
    f_equal; node_cases.
Qed.

Lemma attachChildren_spec (Cs : list NodePtr) (New : NodePtr) (H : Heap) :
  Forall (fun C => is_Some (H !! C)) Cs ->
  exists H1 : Heap,
    attachChildren Cs New H = Ok H1
    /\ forall q, H1 !! q = afterAttach Cs New q <$> H !! q.
Proof.
  revert H. induction Cs as [|C rest IH]; intros H HCs.
  - exists H. split; [done|]. intros q.
    destruct (H !! q) as [N|]; [|done].
    cbn [fmap option_fmap option_map]. by rewrite afterAttach_nil.
  - apply Forall_cons in HCs as [[NC HC] Hrest].
    cbn [attachChildren]. unfold role. rewrite HC.
    cbn [mbind Result_bind].
    destruct (IH (alter (prependChildLowLevel_node C) New
                    (if bool_decide (Node_role NC = Detached)
                     then alter (setRole_node Unknown) C H else H)))
      as (H3 & Hrun & H3q).
    { eapply Forall_impl; [exact Hrest|]. intros q [Nq Hq].
      cbn beta. rewrite (attach_step C New H NC q HC), Hq. by eexists. }
    exists H3. split; [exact Hrun|]. intros q.
    rewrite H3q, (attach_step C New H NC q HC).
    destruct (H !! q) as [N|]; [|done].
    cbn [fmap option_fmap option_map]. by rewrite afterAttach_cons.
Qed.

End FoldLemmas.

Section FoldChildren.

Lemma foldChildren_run (A : Arena) (Tokens : ArrayRef) (New : NodePtr)
    (H : Heap) (Before Covered After : Forest) (N0 : Node) :
  H !! New = Some N0 ->
  Node_body N0 = TreeBody [] ->
  Forall (fun C => is_Some (H !! C)) Covered.*2 ->
  coincides Tokens Before Covered After ->
  exists H1 : Heap,
    Forest_foldChildren A Tokens New H (Before ++ Covered ++ After)
      = Ok (alter (setFlags_node true (spelledForExpanded A Tokens)) New H1,
            Before ++ (ArrayRef_begin Tokens, New) :: After)
    /\ forall q, H1 !! q = afterAttach (reverse Covered.*2) New q <$> H !! q.
Proof.
  intros HNew Hbody Hsome (HB & Hhead & HC & HA & HAhead).
  destruct Covered as [|[k0 p0] Cov]; [done|].
  simpl in Hhead. injection Hhead as ->.
  assert (Hlt : ArrayRef_begin Tokens < ArrayRef_end Tokens).
  { by apply Forall_cons in HC as [HC0 _]. }
  assert (HB' : Forall (fun e => e.1 < ArrayRef_end Tokens) Before).
  { eapply Forall_impl; [exact HB|]. intros e He. simpl in He. lia. }
  assert (Hbegin : lower_bound (Before ++ ((ArrayRef_begin Tokens, p0) :: Cov)
                                 ++ After) (ArrayRef_begin Tokens)
                   = length Before).
  { rewrite lower_bound_app by done. cbn [app lower_bound].
    rewrite Nat.ltb_irrefl. lia. }
  assert (Hend : lower_bound (Before ++ ((ArrayRef_begin Tokens, p0) :: Cov)
                               ++ After) (ArrayRef_end Tokens)
                 = length Before
                   + length ((ArrayRef_begin Tokens, p0) :: Cov)).
  { rewrite lower_bound_app by done. rewrite lower_bound_app by done.
    rewrite lower_bound_ge by done. lia. }
  destruct (attachChildren_spec
              (reverse ((ArrayRef_begin Tokens, p0) :: Cov).*2) New H)
    as (H1 & Hrun & H1q).
  { by apply Forall_reverse. }
  exists H1. split; [|intros q; by rewrite H1q].
  unfold Forest_foldChildren, firstChild.
  rewrite HNew, Hbody. cbn [head mbind Result_bind].
  rewrite bool_decide_eq_true_2 by done.
  cbn [assertR mbind Result_bind].
  rewrite Hbegin, Hend.
  assert (Hat1 : atEndOrKey (Before ++ ((ArrayRef_begin Tokens, p0) :: Cov)
                               ++ After)
                   (length Before) (ArrayRef_begin Tokens) = true).
  { unfold atEndOrKey. rewrite lookup_app_r by lia.
    rewrite Nat.sub_diag. cbn. apply Nat.eqb_refl. }
  assert (Hat2 : atEndOrKey (Before ++ ((ArrayRef_begin Tokens, p0) :: Cov)
                               ++ After)
                   (length Before
                    + length ((ArrayRef_begin Tokens, p0) :: Cov))
                   (ArrayRef_end Tokens) = true).
  { unfold atEndOrKey. rewrite app_assoc.
    rewrite lookup_app_r by (rewrite length_app; lia).
    rewrite length_app.
    replace (length Before + length ((ArrayRef_begin Tokens, p0) :: Cov)
             - (length Before
                + length ((ArrayRef_begin Tokens, p0) :: Cov)))
      with 0 by lia.
    destruct HAhead as [->|HAh]; [done|].
    destruct After as [|[ka pa] After']; [done|].
    simpl in HAh. injection HAh as ->. cbn. apply Nat.eqb_refl. }
  rewrite Hat1, Hat2. cbn [assertR mbind Result_bind].
  rewrite map_range_app, Hrun. cbn [mbind Result_bind].
  rewrite map_erase_app. do 2 f_equal.
  rewrite map_insert_app by done. f_equal.
  apply map_insert_before.
  eapply Forall_impl; [exact HA|]. intros e He. simpl in He. lia.
Qed.

End FoldChildren.

(** C6: folding the token range [Tokens] into the childless tree node at
    [New], when [Tokens] coincides with the entries [Covered] of the
    forest, succeeds; [New] gets the covered entries as its children in
    token order, its original flag set and its can-modify flag set to
    whether [Tokens] has a spelled counterpart; every covered entry with the
    role [Detached] gets the role [Unknown] and is otherwise unchanged; no
    other node changes; and the covered entries are replaced in the forest
    by [New], keyed at the first token of the range. *)
Theorem foldChildren_spec (A : Arena) (Tokens : ArrayRef) (New : NodePtr)
    (H : Heap) (Before Covered After : Forest) (N0 : Node) :
  H !! New = Some N0 ->
  Node_body N0 = TreeBody [] ->
  New ∉ Covered.*2 ->
  Forall (fun C => is_Some (H !! C)) Covered.*2 ->
  coincides Tokens Before Covered After ->
  exists H' : Heap,
    Forest_foldChildren A Tokens New H (Before ++ Covered ++ After)
      = Ok (H', Before ++ (ArrayRef_begin Tokens, New) :: After)
    /\ H' !! New
       = Some (mkNode (Node_kind N0) (Node_role N0) true
                      (spelledForExpanded A Tokens) (TreeBody Covered.*2))
    /\ (forall (C : NodePtr) (N : Node),
          C ∈ Covered.*2 -> H !! C = Some N ->
          H' !! C = Some (setRole_node (unknownIfDetached (Node_role N)) N))
    /\ (forall q : NodePtr,
          q ≠ New -> q ∉ Covered.*2 -> H' !! q = H !! q).
Proof.
  intros HNew Hbody Hfresh Hsome Hco.
  destruct (foldChildren_run A Tokens New H Before Covered After N0)
    as (H1 & Hrun & H1q); try done.
  eexists. split; [exact Hrun|]. repeat split.
  - rewrite list_lookup_alter_eq, H1q, HNew.
    cbn [fmap option_fmap option_map]. f_equal.
    unfold afterAttach, setFlags_node.
    cbn [Node_kind Node_role Node_Original Node_CanModify Node_body].
    rewrite Hbody, reverse_involutive, app_nil_r.
    rewrite (bool_decide_eq_true_2 (New = New)) by done.
    by rewrite (bool_decide_eq_false_2 (New ∈ reverse Covered.*2))
      by (by rewrite elem_of_reverse).
  - intros C N HC HN.
    assert (C ≠ New) by (by intros ->).
    rewrite list_lookup_alter_ne by done. rewrite H1q, HN.
    cbn [fmap option_fmap option_map]. f_equal.
    unfold afterAttach, setRole_node.
    rewrite (bool_decide_eq_true_2 (C ∈ reverse Covered.*2))
      by (by rewrite elem_of_reverse).
    by rewrite (bool_decide_eq_false_2 (C = New)).
  - intros q Hq Hnin.
    rewrite list_lookup_alter_ne by done. rewrite H1q.
    destruct (H !! q) as [[k r o c b]|]; [|done].
    cbn [fmap option_fmap option_map]. f_equal.
    unfold afterAttach.
    cbn [Node_kind Node_role Node_Original Node_CanModify Node_body].
    rewrite (bool_decide_eq_false_2 (q ∈ reverse Covered.*2))
      by (by rewrite elem_of_reverse).
    by rewrite (bool_decide_eq_false_2 (q = New)).
Qed.

(** ** Running the builder *)

Section Inversion.

Lemma bind_Ok {A A'} (m : M A) (k : A -> M A') (B : TreeBuilder)
    (r : A' * TreeBuilder) :
  (m ≫= k) B = Ok r ->
  exists (a : A) (B1 : TreeBuilder), m B = Ok (a, B1) /\ k a B1 = Ok r.
Proof.
  unfold mbind, M_bind. destruct (m B) as [[a B1]|f]; [|done]. eauto.
Qed.

Lemma bind_run {A A'} (m : M A) (k : A -> M A') (B B1 : TreeBuilder)
    (a : A) :
  m B = Ok (a, B1) -> (m ≫= k) B = k a B1.
Proof. unfold mbind, M_bind. by intros ->. Qed.

Lemma bindR_Ok {A A'} (m : Result A) (k : A -> Result A') (r : A') :
  m ≫= k = Ok r -> exists a : A, m = Ok a /\ k a = Ok r.
Proof. destruct m as [a|f]; [|done]. simpl. eauto. Qed.

Lemma mret_Ok {A} (a a' : A) (B B' : TreeBuilder) :
  mret (M := M) a B = Ok (a', B') -> a' = a /\ B' = B.
Proof. unfold mret, M_ret. by intros [= -> ->]. Qed.

Lemma liftR_Ok {A} (r : Result A) (a : A) (B B' : TreeBuilder) :
  liftR r B = Ok (a, B') -> r = Ok a /\ B' = B.
Proof. unfold liftR. destruct r; [|done]. by intros [= -> ->]. Qed.

Lemma readB_Ok {A} (f : TreeBuilder -> Result A) (a : A)
    (B B' : TreeBuilder) :
  readB f B = Ok (a, B') -> f B = Ok a /\ B' = B.
Proof. unfold readB. apply liftR_Ok. Qed.

Lemma assertR_Ok (c : bool) (msg : string) (u : unit) :
  assertR c msg = Ok u -> c = true.
Proof. by destruct c. Qed.

Lemma assertM_Ok (c : bool) (msg : string) (u : unit)
    (B B' : TreeBuilder) :
  assertM c msg B = Ok (u, B') -> c = true /\ B' = B.
Proof.
  unfold assertM. intros [H ->]%liftR_Ok. by apply assertR_Ok in H.
Qed.

Lemma allocate_Ok (K : NodeKind) (p : NodePtr) (B B' : TreeBuilder) :
  allocate K B = Ok (p, B') ->
  p = length (TB_Heap B) /\ B' = withHeap (TB_Heap B ++ [newTree K]) B.
Proof. unfold allocate. by intros [= <- <-]. Qed.

Lemma setRole_Ok (N : NodePtr) (R : NodeRole) (u : unit)
    (B B' : TreeBuilder) :
  setRole N R B = Ok (u, B') ->
  exists Nd : Node,
    TB_Heap B !! N = Some Nd /\ Node_role Nd = Detached
    /\ B' = withHeap (alter (setRole_node R) N (TB_Heap B)) B.
Proof.
  unfold setRole, role. destruct (TB_Heap B !! N) as [Nd|]; [|done].
  case_bool_decide; [|done]. intros [= <-]. eauto.
Qed.

Lemma Forest_assignRole_Ok (Range : ArrayRef) (R : NodeRole) (H H' : Heap)
    (Trees : Forest) :
  Forest_assignRole Range R H Trees = Ok H' ->
  exists (N : NodePtr) (Nd : Node),
    (ArrayRef_begin Range, N) ∈ Trees
    /\ H !! N = Some Nd /\ Node_role Nd = Detached
    /\ H' = alter (setRole_node R) N H.
Proof.
  unfold Forest_assignRole.
  intros (_ & _ & Hrun)%bindR_Ok.
  destruct (Trees !! lower_bound Trees (ArrayRef_begin Range))
    as [[k N]|] eqn:EIt; [|done].
  apply bindR_Ok in Hrun as (_ & Hk%assertR_Ok & Hrun).
  apply bindR_Ok in Hrun as (_ & _ & Hrun).
  apply bindR_Ok in Hrun as (r & Hr & Hrun).
  apply bindR_Ok in Hrun as (_ & Hd%assertR_Ok & Hrun).
  unfold role in Hr. destruct (H !! N) as [Nd|] eqn:EN; [|done].
  injection Hr as <-. apply bool_decide_eq_true in Hd.
  injection Hrun as <-. apply Nat.eqb_eq in Hk as ->.
  exists N, Nd. repeat split; try done.
  by eapply list_elem_of_lookup_2.
Qed.

Lemma Pending_assignRole_Ok (Range : ArrayRef) (R : NodeRole) (u : unit)
    (B B' : TreeBuilder) :
  Pending_assignRole Range R B = Ok (u, B') ->
  exists (N : NodePtr) (Nd : Node),
    (ArrayRef_begin Range, N) ∈ Pending B
    /\ TB_Heap B !! N = Some Nd /\ Node_role Nd = Detached
    /\ B' = withHeap (alter (setRole_node R) N (TB_Heap B)) B.
Proof.
  unfold Pending_assignRole.
  destruct (Forest_assignRole Range R (TB_Heap B) (Pending B))
    as [H'|] eqn:E; [|done].
  intros [= <-]. apply Forest_assignRole_Ok in E as (N & Nd & ? & ? & ? & ->).
  eauto 10.
Qed.

Lemma Pending_foldChildren_Ok (Tokens : ArrayRef) (New : NodePtr)
    (u : unit) (B B' : TreeBuilder) :
  Pending_foldChildren Tokens New B = Ok (u, B') ->
  exists (H' : Heap) (F' : Forest),
    Forest_foldChildren (TB_Arena B) Tokens New (TB_Heap B) (Pending B)
      = Ok (H', F')
    /\ B' = withForest H' F' B.
Proof.
  unfold Pending_foldChildren.
  destruct (Forest_foldChildren _ _ _ _ _) as [[H' F']|]; [|done].
  intros [= <-]. eauto.
Qed.

Lemma Mapping_add_Ok (From : ASTPtr) (To : NodePtr) (u : unit)
    (B B' : TreeBuilder) :
  Mapping_add From To B = Ok (u, B') ->
  exists K : ASTKey,
    From = Some K /\ Nodes (Mapping B) !! K = None
    /\ B' = withMapping (mkMapping (<[K := To]> (Nodes (Mapping B)))
                                   (NNSNodes (Mapping B))) B.
Proof.
  unfold Mapping_add. destruct From as [K|]; [|done].
  destruct (Nodes (Mapping B) !! K) eqn:E; [done|].
  intros [= <-]. eauto.
Qed.

Lemma Mapping_addNNS_Ok (From : NestedNameSpecifierLoc) (To : NodePtr)
    (u : unit) (B B' : TreeBuilder) :
  Mapping_addNNS From To B = Ok (u, B') ->
  B' = withMapping (mkMapping (Nodes (Mapping B))
                      (<[NNSLoc_key From := To]> (NNSNodes (Mapping B)))) B.
Proof.
  unfold Mapping_addNNS. destruct (NNSLoc_hasQualifier From); [|done].
  destruct (NNSNodes (Mapping B) !! NNSLoc_key From); [done|].
  by intros [= <-].
Qed.

(** A successful run of the loop of [foldChildren] has found every entry
    in the heap. *)
Lemma attachChildren_Ok (Cs : list NodePtr) (New : NodePtr) (H H1 : Heap) :
  attachChildren Cs New H = Ok H1 ->
  forall q, H1 !! q = afterAttach Cs New q <$> H !! q.
Proof.
  intros Hrun.
  assert (HCs : Forall (fun C => is_Some (H !! C)) Cs).
  { clear -Hrun. revert H Hrun.
    induction Cs as [|C rest IH]; intros H Hrun; [constructor|].
    cbn [attachChildren] in Hrun. unfold role in Hrun.
    destruct (H !! C) as [NC|] eqn:HC; [|done].
    cbn [mbind Result_bind] in Hrun. constructor; [by eexists|].
    apply IH in Hrun. eapply Forall_impl; [exact Hrun|].
    intros q [Nq Hq]. cbn beta.
    rewrite (attach_step C New H NC q HC) in Hq.
    destruct (H !! q); [by eexists|done]. }
  destruct (attachChildren_spec Cs New H HCs) as (H1' & Hrun' & Hq).
  rewrite Hrun in Hrun'. by injection Hrun' as <-.
Qed.

Lemma Forest_foldChildren_Ok (A : Arena) (Tokens : ArrayRef)
    (New : NodePtr) (H H' : Heap) (Trees Trees' : Forest) :
  Forest_foldChildren A Tokens New H Trees = Ok (H', Trees') ->
  let b := lower_bound Trees (ArrayRef_begin Tokens) in
  let e := lower_bound Trees (ArrayRef_end Tokens) in
  let Cs := reverse (map_range b e Trees).*2 in
  (exists N0, H !! New = Some N0 /\ Node_body N0 = TreeBody [])
  /\ atEndOrKey Trees b (ArrayRef_begin Tokens) = true
  /\ atEndOrKey Trees e (ArrayRef_end Tokens) = true
  /\ Trees' = map_insert (ArrayRef_begin Tokens) New (map_erase b e Trees)
  /\ exists H1,
       H' = alter (setFlags_node true (spelledForExpanded A Tokens)) New H1
       /\ forall q, H1 !! q = afterAttach Cs New q <$> H !! q.
Proof.
  unfold Forest_foldChildren. intros Hrun.
  apply bindR_Ok in Hrun as (fc & Hfc & Hrun).
  apply bindR_Ok in Hrun as (_ & Hnone%assertR_Ok & Hrun).
  apply bindR_Ok in Hrun as (_ & Hat1%assertR_Ok & Hrun).
  apply bindR_Ok in Hrun as (_ & Hat2%assertR_Ok & Hrun).
  apply bindR_Ok in Hrun as (H1 & Hatt & Hrun).
  injection Hrun as <- <-.
  apply bool_decide_eq_true in Hnone. subst fc.
  unfold firstChild in Hfc. destruct (H !! New) as [N0|] eqn:EN; [|done].
  destruct (Node_body N0) as [|Ch] eqn:EB; [done|].
  destruct Ch; [|done].
  cbn zeta. repeat split; try done; [by eexists|].
  exists H1. split; [done|]. by apply attachChildren_Ok.
Qed.

End Inversion.

(** ** The forest partitions the tokens *)

Section Invariant.

Lemma length_eq_lookup {X} (l l' : list X) :
  (forall q, is_Some (l' !! q) <-> is_Some (l !! q)) ->
  length l' = length l.
Proof.
  intros Hq.
  destruct (Nat.lt_trichotomy (length l') (length l)) as [Hlt|[Heq|Hgt]];
    [|done|].
  - destruct (proj2 (Hq (length l'))) as [x Hx].
    { by apply lookup_lt_is_Some_2. }
    apply lookup_lt_Some in Hx. lia.
  - destruct (proj1 (Hq (length l))) as [x Hx].
    { by apply lookup_lt_is_Some_2. }
    apply lookup_lt_Some in Hx. lia.
Qed.

Lemma partitions_frame_lt (H H' : Heap) (Trees : Forest) (s n : nat)
    (New : nat) :
  childrenFirst H -> length H <= length H' ->
  (forall q, q < New -> Node_body <$> H !! q = Node_body <$> H' !! q) ->
  Forall (fun p => p < New) Trees.*2 ->
  partitions H Trees s n -> partitions H' Trees s n.
Proof.
  intros Hcf Hlen Hsame Hlt Hpart.
  pose proof (partitions_ptr_lt _ _ _ _ Hpart) as Hptr.
  eapply partitions_frame; [|exact Hpart].
  intros p Hp. rewrite Forall_forall in Hlt, Hptr.
  apply leaves_preserved; [done|by apply Hptr|done|].
  intros q Hq. apply Hsame. specialize (Hlt p Hp). lia.
Qed.

Lemma heapInv_sameBodies (H H' : Heap) (Trees : Forest) (n : nat) :
  heapInv H Trees n ->
  (forall q, Node_body <$> H' !! q = Node_body <$> H !! q) ->
  heapInv H' Trees n.
Proof.
  intros [Hcf Hpart] Hsame.
  assert (Hlen : length H' = length H).
  { apply length_eq_lookup. intros q. specialize (Hsame q).
    destruct (H' !! q), (H !! q); simpl in Hsame; try done;
      split; intros _; by eexists. }
  split.
  - intros p N' Cs HN' HB. specialize (Hsame p). rewrite HN' in Hsame.
    destruct (H !! p) as [N|] eqn:EN; [|done]. simpl in Hsame.
    injection Hsame as Hsame. apply (Hcf p N Cs EN). congruence.
  - apply (partitions_frame_lt H H' Trees 0 n (length H)); try done.
    + lia.
    + by apply (partitions_ptr_lt _ _ _ _ Hpart).
Qed.

Lemma heapInv_setRole (H : Heap) (Trees : Forest) (n : nat) (R : NodeRole)
    (N : NodePtr) :
  heapInv H Trees n -> heapInv (alter (setRole_node R) N H) Trees n.
Proof.
  intros Hinv. eapply heapInv_sameBodies; [exact Hinv|]. intros q.
  destruct (decide (N = q)) as [->|Hne].
  - rewrite list_lookup_alter_eq. by destruct (H !! q) as [[]|].
  - by rewrite list_lookup_alter_ne.
Qed.

Lemma heapInv_allocate (H : Heap) (Trees : Forest) (n : nat)
    (K : NodeKind) :
  heapInv H Trees n -> heapInv (H ++ [newTree K]) Trees n.
Proof.
  intros [Hcf Hpart]. split.
  - intros p N Cs HN HB.
    destruct (decide (p < length H)) as [Hlt|Hge].
    + rewrite lookup_app_l in HN by done. by apply (Hcf p N Cs).
    + rewrite lookup_app_r in HN by lia.
      destruct (p - length H) as [|i]; [|done].
      injection HN as <-. injection HB as <-. constructor.
  - apply (partitions_frame_lt H _ Trees 0 n (length H)); try done.
    + rewrite length_app. lia.
    + intros q Hq. by rewrite lookup_app_l.
    + by apply (partitions_ptr_lt _ _ _ _ Hpart).
Qed.

Lemma partitions_split_key (H : Heap) (Trees : Forest) (s n b : nat) :
  partitions H Trees s n -> b ∈ Trees.*1 ->
  exists (Before : Forest) (p : NodePtr) (Rest : Forest),
    Trees = Before ++ (b, p) :: Rest
    /\ Forall (fun e => e.1 < b) Before
    /\ partitions H Before s b
    /\ partitions H ((b, p) :: Rest) b n.
Proof.
  revert s. induction Trees as [|[k p0] rest IH]; intros s Hpart Hb.
  - by apply elem_of_nil in Hb.
  - destruct Hpart as [-> (e & He & Hl & Hrest)].
    destruct (decide (b = s)) as [->|Hne].
    + exists [], p0, rest. split_and!; try done.
      split; [done|]. exists e. eauto.
    + simpl in Hb. apply elem_of_cons in Hb as [?|Hb]; [done|].
      destruct (IH e Hrest Hb) as (Bf & p & Rs & -> & HBf & HpB & HpR).
      assert (e <= b).
      { apply partitions_keys in Hrest. rewrite Forall_forall in Hrest.
        assert (Hin : (b, p) ∈ Bf ++ (b, p) :: Rs).
        { apply elem_of_app. right. apply list_elem_of_here. }
        specialize (Hrest _ Hin). simpl in Hrest. lia. }
      exists ((s, p0) :: Bf), p, Rs. split_and!; try done.
      * constructor; [simpl; lia|done].
      * split; [done|]. exists e. eauto.
Qed.

Lemma partitions_split_end (H : Heap) (L : Forest) (s n e : nat) :
  partitions H L s n ->
  exists (Cov Aft : Forest) (m : nat),
    L = Cov ++ Aft
    /\ Forall (fun x => x.1 < e) Cov
    /\ Forall (fun x => e <= x.1) Aft
    /\ partitions H Cov s m
    /\ partitions H Aft m n.
Proof.
  revert s. induction L as [|[k p] rest IH]; intros s Hpart.
  - exists [], [], s. by split_and!.
  - destruct (decide (s < e)) as [Hlt|Hge].
    + destruct Hpart as [-> (e0 & He0 & Hl & Hrest)].
      destruct (IH e0 Hrest) as (Cov & Aft & m & -> & HC & HA & HpC & HpA).
      exists ((s, p) :: Cov), Aft, m. split_and!; try done.
      * by constructor.
      * split; [done|]. exists e0. eauto.
    + exists [], ((k, p) :: rest), s. split_and!; try done.
      apply partitions_keys in Hpart.
      eapply Forall_impl; [exact Hpart|]. intros x Hx. simpl in Hx. lia.
Qed.

End Invariant.

Section FoldInvariant.

Lemma ArrayRef_begin_le_end (Tokens : ArrayRef) :
  ArrayRef_begin Tokens <= ArrayRef_end Tokens.
Proof. unfold ArrayRef_begin, ArrayRef_end. lia. Qed.

(** A fold into a node allocated after every pending entry, over a range
    that starts at the first token of an entry, keeps the invariant. *)
Lemma heapInv_foldChildren (A : Arena) (Tokens : ArrayRef) (New : NodePtr)
    (H H' : Heap) (Trees Trees' : Forest) (n : nat) :
  heapInv H Trees n ->
  Forall (fun p => p < New) Trees.*2 ->
  ArrayRef_begin Tokens ∈ Trees.*1 ->
  Forest_foldChildren A Tokens New H Trees = Ok (H', Trees') ->
  heapInv H' Trees' n /\ length H' = length H.
Proof.
  intros [Hcf Hpart] Hlt Hb Hrun.
  apply Forest_foldChildren_Ok in Hrun. cbv zeta in Hrun.
  destruct Hrun as ((N0 & HN0 & HB0) & _ & _ & -> & H1 & -> & H1q).
  pose proof (ArrayRef_begin_le_end Tokens) as Hle.
  set (b := ArrayRef_begin Tokens) in *.
  set (e := ArrayRef_end Tokens) in *.
  destruct (partitions_split_key H Trees 0 n b Hpart Hb)
    as (Before & p & Rest & -> & HBf & HpB & HpR).
  destruct (partitions_split_end H ((b, p) :: Rest) b n e HpR)
    as (Cov & Aft & m & HCA & HC & HA & HpC & HpA).
  rewrite HCA in *.
  assert (Hlb : lower_bound (Before ++ Cov ++ Aft) b = length Before).
  { rewrite lower_bound_app by done. rewrite <- HCA.
    cbn [lower_bound]. rewrite Nat.ltb_irrefl. lia. }
  assert (Hle' : lower_bound (Before ++ Cov ++ Aft) e
                 = length Before + length Cov).
  { rewrite lower_bound_app.
    - rewrite lower_bound_app by done. rewrite lower_bound_ge by done. lia.
    - eapply Forall_impl; [exact HBf|]. intros x Hx. simpl in Hx. lia. }
  rewrite Hlb, Hle' in *. rewrite map_range_app in H1q.
  rewrite map_erase_app.
  set (H' := alter (setFlags_node true (spelledForExpanded A Tokens))
                   New H1).
  assert (Hlen : length H' = length H).
  { unfold H'. rewrite length_alter. apply length_eq_lookup.
    intros q. rewrite H1q. destruct (H !! q); [|done].
    split; intros _; by eexists. }
  assert (Hqne : forall q, q ≠ New ->
                   Node_body <$> H' !! q = Node_body <$> H !! q).
  { intros q Hq. unfold H'. rewrite list_lookup_alter_ne by done.
    rewrite H1q. destruct (H !! q) as [[k r o c bd]|]; [|done].
    cbn [fmap option_fmap option_map]. f_equal.
    unfold afterAttach.
    cbn [Node_kind Node_role Node_Original Node_CanModify Node_body].
    by rewrite (bool_decide_eq_false_2 (q = New)). }
  assert (HqNew : Node_body <$> H' !! New = Some (TreeBody Cov.*2)).
  { unfold H'. rewrite list_lookup_alter_eq, H1q, HN0.
    cbn [fmap option_fmap option_map]. f_equal.
    unfold afterAttach, setFlags_node.
    cbn [Node_kind Node_role Node_Original Node_CanModify Node_body].
    rewrite HB0, (bool_decide_eq_true_2 (New = New)) by done.
    by rewrite reverse_involutive, app_nil_r. }
  assert (HNewlt : New < length H) by (by eapply lookup_lt_Some).
  split; [|done].
  destruct Cov as [|[k0 p0] Cov'].
  - (* the range is empty: the forest is unchanged *)
    cbn [app] in *. subst Aft.
    rewrite map_insert_app by done. cbn [map_insert].
    rewrite Nat.ltb_irrefl, Nat.eqb_refl.
    eapply heapInv_sameBodies; [by split|].
    intros q. destruct (decide (q = New)) as [->|Hq]; [|by apply Hqne].
    rewrite HqNew, HN0. cbn [fmap option_fmap option_map]. by rewrite HB0.
  - cbn [app] in HCA. injection HCA as <- <- ->.
    assert (Hbe : b < e) by (by apply Forall_cons in HC as [? _]).
    rewrite map_insert_app by done.
    rewrite map_insert_before.
    2:{ eapply Forall_impl; [exact HA|]. intros x Hx. simpl in Hx. lia. }
    assert (HltCov : Forall (fun c => c < New) ((b, p) :: Cov').*2).
    { rewrite !fmap_app in Hlt. apply Forall_app in Hlt as [_ Hlt].
      by apply Forall_app in Hlt as [Hlt _]. }
    split.
    + intros q N' Cs HN' HB'.
      destruct (decide (q = New)) as [->|Hq].
      * rewrite HN' in HqNew. cbn [fmap option_fmap option_map] in HqNew.
        injection HqNew as HqNew. rewrite HB' in HqNew.
        by injection HqNew as ->.
      * specialize (Hqne q Hq). rewrite HN' in Hqne.
        destruct (H !! q) as [N|] eqn:EN; [|done].
        cbn [fmap option_fmap option_map] in Hqne.
        injection Hqne as Hqne. apply (Hcf q N Cs EN). congruence.
    + assert (Hframe : forall L s' n', Forall (fun c => c < New) L.*2 ->
                partitions H L s' n' -> partitions H' L s' n').
      { intros L s' n' HL. apply (partitions_frame_lt H H' L s' n' New);
          [done|lia| |done].
        intros q Hq. symmetry. apply Hqne. lia. }
      rewrite !fmap_app in Hlt. apply Forall_app in Hlt as [HltB HltR].
      apply Forall_app in HltR as [_ HltA].
      apply (partitions_app H' Before _ 0 b n); [by apply Hframe|].
      split; [done|]. exists m.
      assert (Hbm : b < m).
      { destruct HpC as [_ (e0 & He0 & _ & Hr)].
        apply partitions_le in Hr. lia. }
      split_and!; [done| |by apply Hframe].
      destruct (partitions_leaves H _ b m HpC) as (Ls & HLs & Hcat).
      unfold leaves. rewrite Hlen.
      destruct (length H) as [|f] eqn:EL; [lia|].
      cbn [leavesOf].
      destruct (H' !! New) as [N'|] eqn:EN'; [|done].
      cbn [fmap option_fmap option_map] in HqNew.
      injection HqNew as ->.
      rewrite (mapM_ext_Forall _ (leaves H)).
      * change (p :: list_fmap (nat * nat)%type nat snd Cov')
          with (((b, p) :: Cov').*2).
        rewrite HLs. cbn [fmap option_fmap option_map]. by rewrite Hcat.
      * eapply Forall_impl; [exact HltCov|]. intros c Hc. cbn beta in Hc.
        unfold leaves. symmetry.
        apply leavesOf_frame; [done|lia|lia|].
        intros q Hq. symmetry. apply Hqne. lia.
Qed.

End FoldInvariant.

(** ** The calls of a visitor keep the invariant *)

Section Quiet.

Lemma quiet_refl (B : TreeBuilder) : quiet B B.
Proof. by split_and!. Qed.

Lemma quiet_trans (B1 B2 B3 : TreeBuilder) :
  quiet B1 B2 -> quiet B2 B3 -> quiet B1 B3.
Proof.
  intros (? & ? & ? & H12) (? & ? & ? & H23).
  split_and!; try congruence; intros q; by rewrite H23, H12.
Qed.

Lemma quiet_builderInv (A : Arena) (B B' : TreeBuilder) :
  quiet B B' -> builderInv A B -> builderInv A B'.
Proof.
  intros (HA & _ & HP & Hq) [HA' Hinv]. split; [congruence|].
  rewrite HP. by eapply heapInv_sameBodies.
Qed.

Lemma quiet_alter_role (B : TreeBuilder) (N : NodePtr) (R : NodeRole) :
  quiet B (withHeap (alter (setRole_node R) N (TB_Heap B)) B).
Proof.
  split_and!; try done. intros q. cbn [TB_Heap withHeap].
  destruct (decide (N = q)) as [->|Hne].
  - rewrite list_lookup_alter_eq. by destruct (TB_Heap B !! q) as [[]|].
  - by rewrite list_lookup_alter_ne.
Qed.

Lemma setRole_quiet (N : NodePtr) (R : NodeRole) (u : unit)
    (B B' : TreeBuilder) :
  setRole N R B = Ok (u, B') -> quiet B B'.
Proof.
  intros (Nd & _ & _ & ->)%setRole_Ok. apply quiet_alter_role.
Qed.

Lemma Pending_assignRole_quiet (Range : ArrayRef) (R : NodeRole)
    (u : unit) (B B' : TreeBuilder) :
  Pending_assignRole Range R B = Ok (u, B') -> quiet B B'.
Proof.
  intros (N & Nd & _ & _ & _ & ->)%Pending_assignRole_Ok.
  apply quiet_alter_role.
Qed.

Lemma markChildToken_quiet (T : option TokenPtr) (R : NodeRole) (u : unit)
    (B B' : TreeBuilder) :
  markChildToken T R B = Ok (u, B') -> quiet B B'.
Proof.
  destruct T as [T|]; simpl.
  - apply Pending_assignRole_quiet.
  - intros [_ ->]%mret_Ok. apply quiet_refl.
Qed.

Lemma markChildToken_Loc_quiet (Loc : SourceLocation) (R : NodeRole)
    (u : unit) (B B' : TreeBuilder) :
  markChildToken_Loc Loc R B = Ok (u, B') -> quiet B B'.
Proof.
  unfold markChildToken_Loc. destruct (Loc_isInvalid Loc).
  - intros [_ ->]%mret_Ok. apply quiet_refl.
  - intros (T & B1 & [_ ->]%readB_Ok & Hrun)%bind_Ok.
    destruct T as [T|].
    + by eapply Pending_assignRole_quiet.
    + by apply liftR_Ok in Hrun as [? _].
Qed.

Lemma markChild_AST_quiet (N : ASTPtr) (R : NodeRole) (u : unit)
    (B B' : TreeBuilder) :
  markChild_AST N R B = Ok (u, B') -> quiet B B'.
Proof.
  unfold markChild_AST.
  intros (SN & B1 & [_ ->]%readB_Ok & Hrun)%bind_Ok.
  destruct SN as [SN|].
  - by eapply setRole_quiet.
  - by apply liftR_Ok in Hrun as [? _].
Qed.

Lemma markChild_NNS_quiet (N : NestedNameSpecifierLoc) (R : NodeRole)
    (u : unit) (B B' : TreeBuilder) :
  markChild_NNS N R B = Ok (u, B') -> quiet B B'.
Proof.
  unfold markChild_NNS.
  intros (SN & B1 & [_ ->]%readB_Ok & Hrun)%bind_Ok.
  destruct SN as [SN|].
  - by eapply setRole_quiet.
  - by apply liftR_Ok in Hrun as [? _].
Qed.

Lemma markExprChild_quiet (Child : option Stmt) (R : NodeRole) (u : unit)
    (B B' : TreeBuilder) :
  markExprChild Child R B = Ok (u, B') -> quiet B B'.
Proof.
  unfold markExprChild. destruct Child as [Child|].
  - intros (SN & B1 & [_ ->]%readB_Ok & Hrun)%bind_Ok.
    destruct SN as [SN|].
    + by eapply setRole_quiet.
    + by apply liftR_Ok in Hrun as [? _].
  - intros [_ ->]%mret_Ok. apply quiet_refl.
Qed.

Lemma Mapping_add_quiet (From : ASTPtr) (To : NodePtr) (u : unit)
    (B B' : TreeBuilder) :
  Mapping_add From To B = Ok (u, B') -> quiet B B'.
Proof. intros (K & _ & _ & ->)%Mapping_add_Ok. by split_and!. Qed.

Lemma Mapping_addNNS_quiet (From : NestedNameSpecifierLoc) (To : NodePtr)
    (u : unit) (B B' : TreeBuilder) :
  Mapping_addNNS From To B = Ok (u, B') -> quiet B B'.
Proof. intros ->%Mapping_addNNS_Ok. by split_and!. Qed.

Lemma getStmtRange_input (B B' : TreeBuilder) (S : Stmt) :
  TB_Arena B' = TB_Arena B -> LocationToToken B' = LocationToToken B ->
  getStmtRange B' S = getStmtRange B S.
Proof.
  intros HA HL.
  unfold getStmtRange, getRange, getRange2, findToken,
    withTrailingSemicolon.
  by rewrite HA, HL.
Qed.

End Quiet.

Section Calls.

Lemma allocate_builderInv (A : Arena) (K : NodeKind) (p : NodePtr)
    (B B' : TreeBuilder) :
  builderInv A B -> allocate K B = Ok (p, B') ->
  builderInv A B' /\ p = length (TB_Heap B)
  /\ TB_Arena B' = TB_Arena B /\ LocationToToken B' = LocationToToken B
  /\ Pending B' = Pending B
  /\ TB_Heap B' = TB_Heap B ++ [newTree K].
Proof.
  intros [HA Hinv] [-> ->]%allocate_Ok. split_and!; try done.
  split; [done|]. by apply heapInv_allocate.
Qed.

(** Folding into a node that has just been allocated. *)
Lemma fold_fresh_builderInv (A : Arena) (Tokens : ArrayRef) (K : NodeKind)
    (u : unit) (B B1 B2 : TreeBuilder) (New : NodePtr) :
  builderInv A B ->
  ArrayRef_begin Tokens ∈ (Pending B).*1 ->
  allocate K B = Ok (New, B1) ->
  Pending_foldChildren Tokens New B1 = Ok (u, B2) ->
  builderInv A B2.
Proof.
  intros Hinv Hb Halloc Hfold.
  pose proof Hinv as [HA [Hcf Hpart]].
  destruct (allocate_builderInv A K New B B1 Hinv Halloc)
    as ([HA1 Hinv1] & -> & HA1' & HL1 & HP1 & HH1).
  apply Pending_foldChildren_Ok in Hfold as (H' & F' & Hfold & ->).
  rewrite HP1 in *.
  destruct (heapInv_foldChildren _ _ _ _ _ _ _ _ Hinv1
              (partitions_ptr_lt _ _ _ _ Hpart) Hb Hfold) as [Hinv2 _].
  by split.
Qed.

Lemma runCall_builderInv (A : Arena) (c : BuilderCall)
    (B B' : TreeBuilder) :
  builderInv A B -> startsAtEntry c B ->
  runCall c B = Ok (tt, B') -> builderInv A B'.
Proof.
  intros Hinv Hstart Hrun. destruct c; cbn [runCall] in Hrun.
  - (* foldNode *)
    apply bind_Ok in Hrun as (New & B1 & Halloc & Hrun).
    unfold foldNode in Hrun.
    apply bind_Ok in Hrun as (u & B2 & Hfold & Hrun).
    assert (Hinv2 : builderInv A B2)
      by exact (fold_fresh_builderInv A Range K u B B1 B2 New
                  Hinv Hstart Halloc Hfold).
    destruct From.
    + eapply quiet_builderInv; [|exact Hinv2].
      by eapply Mapping_add_quiet.
    + by apply mret_Ok in Hrun as [_ ->].
  - (* foldNode for a nested name specifier *)
    apply bind_Ok in Hrun as (New & B1 & Halloc & Hrun).
    unfold foldNode_NNS in Hrun.
    apply bind_Ok in Hrun as (u & B2 & Hfold & Hrun).
    assert (Hinv2 : builderInv A B2)
      by exact (fold_fresh_builderInv A Range K u B B1 B2 New
                  Hinv Hstart Halloc Hfold).
    destruct (NNSLoc_hasQualifier From).
    + eapply quiet_builderInv; [|exact Hinv2].
      by eapply Mapping_addNNS_quiet.
    + by apply mret_Ok in Hrun as [_ ->].
  - (* allocate *)
    apply bind_Ok in Hrun as (New & B1 & Halloc & Hrun).
    apply mret_Ok in Hrun as [_ ->].
    by destruct (allocate_builderInv A K New B B1 Hinv Halloc) as [? _].
  - eapply quiet_builderInv; [|exact Hinv]. by eapply markChildToken_quiet.
  - eapply quiet_builderInv; [|exact Hinv].
    by eapply markChildToken_Loc_quiet.
  - eapply quiet_builderInv; [|exact Hinv]. by eapply setRole_quiet.
  - eapply quiet_builderInv; [|exact Hinv]. by eapply markChild_AST_quiet.
  - eapply quiet_builderInv; [|exact Hinv]. by eapply markChild_NNS_quiet.
  - (* markStmtChild *)
    unfold markStmtChild in Hrun. destruct Child as [Child|].
    2:{ by apply mret_Ok in Hrun as [_ ->]. }
    apply bind_Ok in Hrun as (ChildNode & B4 & Hnode & Hrun).
    assert (Hinv4 : builderInv A B4).
    { unfold startsAtEntry, foldedRange in Hstart.
      destruct (isa_Expr Child).
      - apply bind_Ok in Hnode as (u1 & B1 & Hmark & Hnode).
        apply bind_Ok in Hnode as (New & B2 & Halloc & Hnode).
        apply bind_Ok in Hnode as (Range & B2' & [HR ->]%readB_Ok & Hnode).
        apply bind_Ok in Hnode as (u2 & B3 & Hfold & Hnode).
        apply mret_Ok in Hnode as [_ ->].
        pose proof (markExprChild_quiet _ _ _ _ _ Hmark) as Hq1.
        pose proof (quiet_builderInv A _ _ Hq1 Hinv) as Hinv1.
        destruct Hq1 as (HA1 & HL1 & HP1 & _).
        destruct (allocate_builderInv A _ _ _ _ Hinv1 Halloc)
          as (_ & _ & HA2 & HL2 & _ & _).
        rewrite (getStmtRange_input B B2 Child) in HR by congruence.
        rewrite HR in Hstart. cbn [toOption] in Hstart.
        eapply (fold_fresh_builderInv A Range); [exact Hinv1| |done|done].
        by rewrite HP1.
      - by apply readB_Ok in Hnode as [_ ->]. }
    destruct ChildNode as [ChildNode|].
    + eapply quiet_builderInv; [|exact Hinv4]. by eapply setRole_quiet.
    + by apply liftR_Ok in Hrun as [? _].
  - eapply quiet_builderInv; [|exact Hinv]. by eapply markExprChild_quiet.
  - unfold noticeDeclWithoutSemicolon in Hrun. injection Hrun as <-.
    eapply quiet_builderInv; [|exact Hinv]. by split_and!.
Qed.

Lemma runCalls_builderInv (A : Arena) (cs : list BuilderCall)
    (B B' : TreeBuilder) :
  builderInv A B -> foldsStartAtEntries cs B ->
  runCalls cs B = Ok (tt, B') -> builderInv A B'.
Proof.
  revert B. induction cs as [|c rest IH]; intros B Hinv Hstart Hrun.
  - by apply mret_Ok in Hrun as [_ ->].
  - cbn [runCalls] in Hrun.
    apply bind_Ok in Hrun as ([] & B1 & Hc & Hrun).
    destruct Hstart as [Hstart Hrest].
    apply (IH B1); [|by apply Hrest|done].
    by eapply runCall_builderInv.
Qed.

End Calls.

(** ** Building the tree *)

Section Build.

Lemma Forest_leaves_length (A : Arena) (s c : nat) :
  length (Forest_leaves A s c) = c.
Proof.
  revert s. induction c as [|c IH]; intros s; simpl; [done|].
  by rewrite IH.
Qed.

Lemma Forest_leaves_lookup (A : Arena) (s c i : nat) :
  i < c ->
  Forest_leaves A s c !! i
    = Some (setFlags_node true (spelledForExpanded A (oneToken (s + i)))
                          (newLeaf (s + i))).
Proof.
  revert s i. induction c as [|c IH]; intros s i Hi; [lia|].
  destruct i as [|i]; simpl.
  - by rewrite Nat.add_0_r.
  - rewrite IH by lia. by replace (S s + i) with (s + S i) by lia.
Qed.

Lemma Forest_leaves_childrenFirst (A : Arena) (n : nat) :
  childrenFirst (Forest_leaves A 0 n).
Proof.
  intros p N Cs HN HB.
  assert (Hp : p < n).
  { apply lookup_lt_Some in HN. by rewrite Forest_leaves_length in HN. }
  rewrite Forest_leaves_lookup in HN by done. by injection HN as <-.
Qed.

Lemma Forest_leaves_partitions (A : Arena) (n s c : nat) :
  s + c <= n ->
  partitions (Forest_leaves A 0 n) ((fun i => (i, i)) <$> seq s c)
             s (s + c).
Proof.
  revert s. induction c as [|c IH]; intros s Hle; simpl; [lia|].
  split; [done|]. exists (S s). split_and!; [lia| |].
  - unfold leaves. rewrite Forest_leaves_length.
    destruct n as [|f]; [lia|]. cbn [leavesOf].
    rewrite Forest_leaves_lookup by lia. simpl.
    by replace (S s - s) with 1 by lia.
  - replace (s + S c) with (S s + c) by lia. apply IH. lia.
Qed.

Lemma eof_nonempty (A : Arena) :
  kindAt A (length (expandedTokens A) - 1) = Ok tok_eof ->
  (length (expandedTokens A) =? 0) = false.
Proof.
  unfold kindAt. intros Hk. apply Nat.eqb_neq. intros Hz.
  rewrite Hz in Hk. simpl in Hk.
  destruct (expandedTokens A); [done|]. done.
Qed.

Lemma TreeBuilder_new_Ok (A : Arena) :
  kindAt A (length (expandedTokens A) - 1) = Ok tok_eof ->
  exists B0 : TreeBuilder, TreeBuilder_new A = Ok B0 /\ builderInv A B0.
Proof.
  intros Hk. pose proof (eof_nonempty A Hk) as Hne.
  unfold TreeBuilder_new, Forest_new. rewrite Hne, Hk.
  cbn [negb assertR mbind Result_bind].
  rewrite bool_decide_eq_true_2 by done.
  cbn [assertR mbind Result_bind fst snd].
  eexists. split; [done|]. split; [done|].
  cbn [TB_Heap Pending]. split.
  - apply Forest_leaves_childrenFirst.
  - apply (Forest_leaves_partitions A _ 0). lia.
Qed.

(** The fold of [finalize], into a translation unit allocated for it. *)
Lemma final_fold (A : Arena) (H : Heap) (Trees : Forest) (n : nat)
    (K : NodeKind) :
  heapInv H Trees n ->
  exists H1 : Heap,
    Forest_foldChildren A (mkArrayRef 0 n) (length H) (H ++ [newTree K])
                        Trees
      = Ok (H1, [(0, length H)])
    /\ leaves H1 (length H) = Some (seq 0 n)
    /\ kindOf H1 (length H) = Ok K.
Proof.
  intros Hinv. pose proof Hinv as [Hcf Hpart].
  pose proof (heapInv_allocate H Trees n K Hinv) as Hinv1.
  assert (HNew : (H ++ [newTree K]) !! length H = Some (newTree K)).
  { rewrite lookup_app_r by lia. by rewrite Nat.sub_diag. }
  destruct Trees as [|[k p] rest].
  - simpl in Hpart. subst n.
    unfold Forest_foldChildren, firstChild. rewrite HNew.
    cbn. eexists. split; [done|]. split.
    + unfold leaves. rewrite length_alter, length_app. cbn [length].
      rewrite Nat.add_1_r. cbn [leavesOf].
      rewrite list_lookup_alter_eq, HNew. done.
    + unfold kindOf. by rewrite list_lookup_alter_eq, HNew.
  - pose proof Hpart as [-> _].
    destruct (foldChildren_run A (mkArrayRef 0 n) (length H)
                (H ++ [newTree K]) [] ((0, p) :: rest) [] (newTree K))
      as (H1 & Hrun & H1q); [done|done| | |].
    { destruct Hinv1 as [_ Hpart1].
      apply partitions_ptr_lt in Hpart1.
      eapply Forall_impl; [exact Hpart1|]. intros q Hq.
      by apply lookup_lt_is_Some_2. }
    { split_and!; [constructor|done| |constructor|by left].
      apply partitions_keys in Hpart.
      eapply Forall_impl; [exact Hpart|]. intros x Hx.
      unfold ArrayRef_end. simpl in *. lia. }
    rewrite app_nil_r in Hrun. cbn [app] in Hrun.
    eexists. split; [exact Hrun|].
    assert (Hlt : Forall (fun q => q < length H) ((0, p) :: rest).*2)
      by apply (partitions_ptr_lt _ _ _ _ Hpart).
    assert (Hb : ArrayRef_begin (mkArrayRef 0 n) ∈ ((0, p) :: rest).*1)
      by apply list_elem_of_here.
    destruct (heapInv_foldChildren _ _ _ _ _ _ _ _ Hinv1 Hlt Hb Hrun)
      as [[_ Hpart2] _].
    split.
    + destruct Hpart2 as [_ (e & _ & Hl & He)]. simpl in He. subst e.
      by rewrite Nat.sub_0_r in Hl.
    + unfold kindOf. rewrite list_lookup_alter_eq, H1q, HNew. done.
Qed.

Lemma finalize_Ok (A : Arena) (B : TreeBuilder) :
  kindAt A (length (expandedTokens A) - 1) = Ok tok_eof ->
  builderInv A B ->
  exists (Root : NodePtr) (H1 : Heap),
    finalize B = Ok (Root, withForest H1 [] B)
    /\ Root = length (TB_Heap B)
    /\ Forest_foldChildren A
         (mkArrayRef 0 (length (expandedTokens A) - 1)) Root
         (TB_Heap B ++ [newTree NK_TranslationUnit]) (Pending B)
       = Ok (H1, [(0, Root)])
    /\ kindOf H1 Root = Ok NK_TranslationUnit
    /\ leaves H1 Root = Some (seq 0 (length (expandedTokens A) - 1)).
Proof.
  intros Hk [HA Hinv]. pose proof (eof_nonempty A Hk) as Hne.
  destruct (final_fold A _ _ _ NK_TranslationUnit Hinv)
    as (H1 & Hfold & Hl & HK).
  exists (length (TB_Heap B)), H1. split_and!; try done.
  unfold finalize.
  rewrite (bind_run _ _ B B A) by (by unfold readB, liftR; rewrite HA).
  rewrite (bind_run _ _ B B tt)
    by (by unfold assertM, liftR, assertR; rewrite Hne).
  rewrite (bind_run _ _ B B tok_eof) by (by unfold liftR; rewrite Hk).
  rewrite (bind_run _ _ B B tt) by done.
  rewrite (bind_run _ _ B B
             (mkArrayRef 0 (length (expandedTokens A) - 1))).
  2:{ unfold liftR, ArrayRef_drop_back.
      cbn [ArrayRef_Length ArrayRef_Data].
      assert ((1 <=? length (expandedTokens A)) = true) as ->; [|done].
      apply Nat.leb_le. apply Nat.eqb_neq in Hne. lia. }
  rewrite (bind_run _ _ B
             (withHeap (TB_Heap B ++ [newTree NK_TranslationUnit]) B)
             (length (TB_Heap B))) by done.
  rewrite (bind_run _ _ _
             (withForest H1 [(0, length (TB_Heap B))] B) tt).
  2:{ unfold Pending_foldChildren.
      cbn [TB_Arena TB_Heap Pending withHeap withForest].
      by rewrite HA, Hfold. }
  rewrite (bind_run _ _ _ (withForest H1 [] B) (length (TB_Heap B)))
    by done.
  rewrite (bind_run _ _ _ (withForest H1 [] B) NK_TranslationUnit).
  2:{ unfold readB, liftR. cbn [TB_Heap withForest]. by rewrite HK. }
  by rewrite (bind_run _ _ _ (withForest H1 [] B) tt) by done.
Qed.

End Build.

(** C1: when the expanded tokens end in [eof], the builder is constructed,
    and after any run of visitor calls that does not abort and whose folds
    start at pending entries, [finalize] succeeds: its fold leaves exactly
    one entry in the forest, keyed at the first token, the returned root is
    that entry, it is a translation unit, and the tokens under it, from left
    to right, are all the expanded tokens but the final [eof]. *)
Theorem buildSyntaxTree_covers_tokens (A : Arena) :
  kindAt A (length (expandedTokens A) - 1) = Ok tok_eof ->
  exists B0 : TreeBuilder,
    TreeBuilder_new A = Ok B0 /\
    forall (Traversal : list BuilderCall) (B : TreeBuilder),
      foldsStartAtEntries Traversal B0 ->
      runCalls Traversal B0 = Ok (tt, B) ->
      exists (Root : NodePtr) (B' : TreeBuilder),
        buildSyntaxTree A Traversal = Ok (Root, B')
        /\ Forest_foldChildren A
             (mkArrayRef 0 (length (expandedTokens A) - 1)) Root
             (TB_Heap B ++ [newTree NK_TranslationUnit]) (Pending B)
           = Ok (TB_Heap B', [(0, Root)])
        /\ kindOf (TB_Heap B') Root = Ok NK_TranslationUnit
        /\ leaves (TB_Heap B') Root
           = Some (seq 0 (length (expandedTokens A) - 1)).
Proof.
  intros Hk. destruct (TreeBuilder_new_Ok A Hk) as (B0 & Hnew & Hinv0).
  exists B0. split; [done|]. intros Traversal B Hstart Hrun.
  pose proof (runCalls_builderInv A Traversal B0 B Hinv0 Hstart Hrun) as Hinv.
  destruct (finalize_Ok A B Hk Hinv) as (Root & H1 & Hfin & _ & Hfold & HK & Hl).
  exists Root, (withForest H1 [] B). split_and!; try done.
  unfold buildSyntaxTree. rewrite Hnew. cbn [mbind Result_bind].
  by rewrite Hrun.
Qed.

(** ** What the builder keeps *)

Section Grows.

Lemma grows_refl (B : TreeBuilder) : grows [] B B.
Proof.
  split_and!; try done.
  - by rewrite app_nil_r.
  - intros q Nd HN _. by rewrite HN.
Qed.

Lemma grows_trans (Ks1 Ks2 : list NodeKind) (B1 B2 B3 : TreeBuilder) :
  grows Ks1 B1 B2 -> grows Ks2 B2 B3 -> grows (Ks1 ++ Ks2) B1 B3.
Proof.
  intros (HA1 & HL1 & HK1 & HR1 & HM1 & HD1)
         (HA2 & HL2 & HK2 & HR2 & HM2 & HD2).
  split_and!; try congruence.
  - by rewrite HK2, HK1, app_assoc.
  - intros q Nd HN Hr. specialize (HR1 q Nd HN Hr).
    destruct (TB_Heap B2 !! q) as [Nd2|] eqn:E2; [|done].
    simpl in HR1. injection HR1 as HR1.
    rewrite (HR2 q Nd2 E2) by congruence. by rewrite HR1.
  - by etrans.
  - by etrans.
Qed.

Lemma grows_roleIs (Ks : list NodeKind) (B B' : TreeBuilder) (p : NodePtr)
    (R : NodeRole) :
  grows Ks B B' -> R ≠ Detached -> roleIs B p R -> roleIs B' p R.
Proof.
  intros (_ & _ & _ & HR & _) HRd Hrole. unfold roleIs in *.
  destruct (TB_Heap B !! p) as [Nd|] eqn:E; [|done].
  simpl in Hrole. injection Hrole as <-. by apply (HR p Nd).
Qed.

Lemma kinds_lookup (H : Heap) (p : NodePtr) :
  (Node_kind <$> H) !! p = Node_kind <$> H !! p.
Proof. apply list_lookup_fmap. Qed.

Lemma grows_kindIs (Ks : list NodeKind) (B B' : TreeBuilder) (p : NodePtr)
    (K : NodeKind) :
  grows Ks B B' -> kindIs B p K -> kindIs B' p K.
Proof.
  intros (_ & _ & HK & _) Hk. unfold kindIs in *.
  rewrite <- kinds_lookup in *. rewrite HK.
  by apply lookup_app_l_Some.
Qed.

Lemma grows_new_kind (Ks : list NodeKind) (B B' : TreeBuilder) (i : nat)
    (K : NodeKind) :
  grows Ks B B' -> Ks !! i = Some K ->
  kindIs B' (length (TB_Heap B) + i) K.
Proof.
  intros (_ & _ & HK & _) Hi. unfold kindIs.
  rewrite <- kinds_lookup, HK.
  rewrite lookup_app_r by (rewrite length_fmap; lia).
  rewrite length_fmap. by replace (length (TB_Heap B) + i - length (TB_Heap B)) with i by lia.
Qed.

Lemma grows_length (Ks : list NodeKind) (B B' : TreeBuilder) :
  grows Ks B B' ->
  length (TB_Heap B') = length (TB_Heap B) + length Ks.
Proof.
  intros (_ & _ & HK & _).
  apply (f_equal length) in HK.
  by rewrite length_app, !length_fmap in HK.
Qed.

Lemma grows_Mapping_find (Ks : list NodeKind) (B B' : TreeBuilder)
    (P : ASTPtr) (N : NodePtr) :
  grows Ks B B' -> Mapping_find B P = Some N -> Mapping_find B' P = Some N.
Proof.
  intros (_ & _ & _ & _ & HM & _). unfold Mapping_find.
  destruct P as [K|]; [|done]. intros HK.
  by eapply lookup_weaken.
Qed.

Lemma kinds_alter (f : Node -> Node) (N : NodePtr) (H : Heap) :
  (forall Nd, Node_kind (f Nd) = Node_kind Nd) ->
  Node_kind <$> alter f N H = Node_kind <$> H.
Proof.
  intros Hf. apply list_eq. intros q. rewrite !list_lookup_fmap.
  destruct (decide (N = q)) as [->|Hne].
  - rewrite list_lookup_alter_eq. destruct (H !! q); [|done].
    simpl. by rewrite Hf.
  - by rewrite list_lookup_alter_ne.
Qed.

(** Assigning a role to a detached node. *)
Lemma grows_alter_role (B : TreeBuilder) (N : NodePtr) (Nd : Node)
    (R : NodeRole) :
  TB_Heap B !! N = Some Nd -> Node_role Nd = Detached ->
  grows [] B (withHeap (alter (setRole_node R) N (TB_Heap B)) B)
  /\ roleIs (withHeap (alter (setRole_node R) N (TB_Heap B)) B) N R.
Proof.
  intros HN Hd. split.
  - split_and!; try done.
    + cbn [TB_Heap withHeap]. rewrite app_nil_r. by apply kinds_alter.
    + intros q Nq Hq Hr. cbn [TB_Heap withHeap].
      destruct (decide (N = q)) as [->|Hne].
      * congruence.
      * by rewrite list_lookup_alter_ne, Hq.
  - unfold roleIs. cbn [TB_Heap withHeap].
    by rewrite list_lookup_alter_eq, HN.
Qed.

Lemma setRole_grows (N : NodePtr) (R : NodeRole) (u : unit)
    (B B' : TreeBuilder) :
  setRole N R B = Ok (u, B') -> grows [] B B' /\ roleIs B' N R.
Proof.
  intros (Nd & HN & Hd & ->)%setRole_Ok. by eapply grows_alter_role.
Qed.

Lemma Pending_assignRole_grows (Range : ArrayRef) (R : NodeRole)
    (u : unit) (B B' : TreeBuilder) :
  Pending_assignRole Range R B = Ok (u, B') ->
  grows [] B B' /\ Pending B' = Pending B
  /\ exists N, (ArrayRef_begin Range, N) ∈ Pending B /\ roleIs B' N R.
Proof.
  intros (N & Nd & Hin & HN & Hd & ->)%Pending_assignRole_Ok.
  destruct (grows_alter_role B N Nd R HN Hd) as [Hg Hr].
  split_and!; [done|done|]. by exists N.
Qed.

Lemma allocate_grows (K : NodeKind) (p : NodePtr) (B B' : TreeBuilder) :
  allocate K B = Ok (p, B') ->
  grows [K] B B' /\ p = length (TB_Heap B) /\ Pending B' = Pending B.
Proof.
  intros [-> ->]%allocate_Ok. split; [|done].
  split_and!; try done.
  - cbn [TB_Heap withHeap]. by rewrite fmap_app.
  - intros q Nd Hq _. cbn [TB_Heap withHeap].
    by rewrite (lookup_app_l_Some _ _ _ _ Hq).
Qed.

Lemma Pending_foldChildren_grows (Tokens : ArrayRef) (New : NodePtr)
    (u : unit) (B B' : TreeBuilder) :
  Pending_foldChildren Tokens New B = Ok (u, B') -> grows [] B B'.
Proof.
  intros (H' & F' & Hfold & ->)%Pending_foldChildren_Ok.
  apply Forest_foldChildren_Ok in Hfold. cbv zeta in Hfold.
  destruct Hfold as (_ & _ & _ & _ & H1 & -> & H1q).
  assert (Hq : forall q,
             alter (setFlags_node true
                      (spelledForExpanded (TB_Arena B) Tokens)) New H1 !! q
             = (fun Nd =>
                  (if bool_decide (q = New)
                   then setFlags_node true
                          (spelledForExpanded (TB_Arena B) Tokens)
                   else id)
                    (afterAttach
                       (reverse
                          (map_range
                             (lower_bound (Pending B)
                                          (ArrayRef_begin Tokens))
                             (lower_bound (Pending B) (ArrayRef_end Tokens))
                             (Pending B)).*2) New q Nd))
               <$> TB_Heap B !! q).
  { intros q. destruct (decide (q = New)) as [->|Hne].
    - rewrite list_lookup_alter_eq, H1q.
      rewrite (bool_decide_eq_true_2 (New = New)) by done.
      by destruct (TB_Heap B !! New).
    - rewrite list_lookup_alter_ne, H1q by done.
      rewrite (bool_decide_eq_false_2 (q = New)) by done.
      by destruct (TB_Heap B !! q). }
  split_and!; try done; cbn [TB_Heap withForest].
  - rewrite app_nil_r. apply list_eq. intros q.
    rewrite !list_lookup_fmap, Hq.
    destruct (TB_Heap B !! q) as [Nd|]; [|done].
    cbn [fmap option_fmap option_map]. f_equal.
    by case_bool_decide.
  - intros q Nd HN Hr. rewrite Hq, HN.
    cbn [fmap option_fmap option_map]. f_equal.
    assert (Node_role (afterAttach
               (reverse
                  (map_range
                     (lower_bound (Pending B) (ArrayRef_begin Tokens))
                     (lower_bound (Pending B) (ArrayRef_end Tokens))
                     (Pending B)).*2) New q Nd) = Node_role Nd) as <-.
    { unfold afterAttach.
      cbn [Node_kind Node_role Node_Original Node_CanModify Node_body].
      case_bool_decide; [|done]. by apply unknownIfDetached_not. }
    by case_bool_decide.
Qed.

Lemma Mapping_add_grows (From : ASTPtr) (To : NodePtr) (u : unit)
    (B B' : TreeBuilder) :
  Mapping_add From To B = Ok (u, B') ->
  grows [] B B' /\ Pending B' = Pending B
  /\ Mapping_find B' From = Some To.
Proof.
  intros (K & -> & HK & ->)%Mapping_add_Ok. split_and!; try done.
  - split_and!; try done.
    + by rewrite app_nil_r.
    + intros q Nd HN _. cbn [TB_Heap withMapping]. by rewrite HN.
    + cbn [Mapping withMapping Nodes]. by apply insert_subseteq.
  - cbn [Mapping_find Mapping withMapping Nodes].
    by rewrite lookup_insert_eq.
Qed.

Lemma Mapping_addNNS_grows (From : NestedNameSpecifierLoc) (To : NodePtr)
    (u : unit) (B B' : TreeBuilder) :
  Mapping_addNNS From To B = Ok (u, B') -> grows [] B B'.
Proof.
  intros ->%Mapping_addNNS_Ok. split_and!; try done.
  - by rewrite app_nil_r.
  - intros q Nd HN _. cbn [TB_Heap withMapping]. by rewrite HN.
Qed.

Lemma foldNode_grows (Range : ArrayRef) (New : NodePtr) (From : ASTPtr)
    (u : unit) (B B' : TreeBuilder) :
  foldNode Range New From B = Ok (u, B') ->
  grows [] B B'
  /\ (is_Some From -> Mapping_find B' From = Some New).
Proof.
  unfold foldNode. intros (u1 & B1 & Hfold & Hrun)%bind_Ok.
  apply Pending_foldChildren_grows in Hfold.
  destruct From as [K|].
  - apply Mapping_add_grows in Hrun as (Hg & _ & Hfind).
    split; [|done]. by apply (grows_trans [] [] B B1 B').
  - apply mret_Ok in Hrun as [_ ->]. split; [done|]. by intros [? ?].
Qed.

End Grows.
(** ** What a fold leaves behind *)

Section Folds.

Lemma getRange_input (B B' : TreeBuilder) (R : SourceRange) :
  TB_Arena B' = TB_Arena B -> LocationToToken B' = LocationToToken B ->
  getRange B' R = getRange B R.
Proof.
  intros HA HL. unfold getRange, getRange2, findToken. by rewrite HA, HL.
Qed.

Lemma getRange2_input (B B' : TreeBuilder) (First Last : SourceLocation) :
  TB_Arena B' = TB_Arena B -> LocationToToken B' = LocationToToken B ->
  getRange2 B' First Last = getRange2 B First Last.
Proof.
  intros HA HL. unfold getRange2, findToken. by rewrite HA, HL.
Qed.

Lemma grows_input (Ks : list NodeKind) (B B' : TreeBuilder) :
  grows Ks B B' ->
  TB_Arena B' = TB_Arena B /\ LocationToToken B' = LocationToToken B.
Proof. by intros (? & ? & _). Qed.

Lemma quiet_length (B B' : TreeBuilder) :
  quiet B B' -> length (TB_Heap B') = length (TB_Heap B).
Proof.
  intros (_ & _ & _ & Hq).
  destruct (Nat.lt_trichotomy (length (TB_Heap B')) (length (TB_Heap B)))
    as [Hlt|[Heq|Hgt]]; [|done|].
  - specialize (Hq (length (TB_Heap B'))).
    rewrite (lookup_ge_None_2 (TB_Heap B')) in Hq by lia.
    destruct (lookup_lt_is_Some_2 (TB_Heap B) _ Hlt) as [N HN].
    by rewrite HN in Hq.
  - specialize (Hq (length (TB_Heap B))).
    rewrite (lookup_ge_None_2 (TB_Heap B)) in Hq by lia.
    destruct (lookup_lt_is_Some_2 (TB_Heap B') _ Hgt) as [N HN].
    by rewrite HN in Hq.
Qed.

(** The new node of a fold has the covered entries as its children. *)
Lemma foldsInto_children (K : NodeKind) (Range : ArrayRef)
    (B1 B' : TreeBuilder) :
  foldsInto K Range B1 B' ->
  childrenAre B' (length (TB_Heap B1))
              (coveredEntries Range (Pending B1)).*2
  /\ Pending B' = forestAfterFold Range (length (TB_Heap B1)) (Pending B1).
Proof.
  unfold foldsInto, childrenAre. intros Hfold.
  apply Forest_foldChildren_Ok in Hfold
    as (_ & _ & _ & HP & H1 & HH & Hlook).
  split; [|exact HP]. rewrite HH, list_lookup_alter_eq, Hlook.
  rewrite lookup_app_r by lia. rewrite Nat.sub_diag.
  cbn [lookup list_lookup fmap option_fmap option_map newTree afterAttach
       setFlags_node Node_body].
  rewrite (bool_decide_eq_true_2 (length (TB_Heap B1) = length (TB_Heap B1)))
    by done.
  by rewrite reverse_involutive, app_nil_r.
Qed.

(** Allocating a node and folding a range into it. *)
Lemma allocate_foldNode_folds (K : NodeKind) (Range : ArrayRef)
    (From : ASTPtr) (New : NodePtr) (u : unit) (B1 B2 B' : TreeBuilder) :
  allocate K B1 = Ok (New, B2) ->
  foldNode Range New From B2 = Ok (u, B') ->
  foldsInto K Range B1 B'
  /\ childrenAre B' (length (TB_Heap B1))
                 (coveredEntries Range (Pending B1)).*2
  /\ Pending B' = forestAfterFold Range (length (TB_Heap B1)) (Pending B1)
  /\ TB_Arena B' = TB_Arena B1
  /\ LocationToToken B' = LocationToToken B1
  /\ DeclsWithoutSemicolons B' = DeclsWithoutSemicolons B1
  /\ (From = None -> Mapping B' = Mapping B1).
Proof.
  intros [-> ->]%allocate_Ok Hfold. unfold foldNode in Hfold.
  apply bind_Ok in Hfold as ([] & B3 & Hf & Hadd).
  apply Pending_foldChildren_Ok in Hf as (H' & F' & Hf & ->).
  cbn [TB_Arena TB_Heap Pending withHeap] in Hf.
  assert (foldsInto K Range B1 (withForest H' F' (withHeap
            (TB_Heap B1 ++ [newTree K]) B1))) as Hfolds by exact Hf.
  destruct (foldsInto_children _ _ _ _ Hfolds) as [Hch HP].
  destruct From as [k|].
  - apply Mapping_add_Ok in Hadd as (k' & _ & _ & ->).
    by split_and!.
  - apply mret_Ok in Hadd as [_ ->]. by split_and!.
Qed.

(** The same after steps that leave the forest and the shape of the nodes
    as they are. *)
Lemma quiet_foldNode_folds (K : NodeKind) (Range : ArrayRef)
    (From : ASTPtr) (New : NodePtr) (u : unit) (B B1 B2 B' : TreeBuilder) :
  quiet B B1 ->
  allocate K B1 = Ok (New, B2) ->
  foldNode Range New From B2 = Ok (u, B') ->
  foldsInto K Range B1 B'
  /\ childrenAre B' (length (TB_Heap B))
                 (coveredEntries Range (Pending B)).*2
  /\ Pending B' = forestAfterFold Range (length (TB_Heap B)) (Pending B).
Proof.
  intros Hq Halloc Hfold.
  destruct (allocate_foldNode_folds _ _ _ _ _ _ _ _ Halloc Hfold)
    as (Hf & Hch & HP & _).
  rewrite (quiet_length _ _ Hq) in Hch, HP.
  destruct Hq as (_ & _ & HPq & _). rewrite HPq in Hch, HP.
  by split_and!.
Qed.

(** The entry a role is assigned to is the one entry a fold of the same
    token takes. *)
Lemma lower_bound_next (Trees : Forest) (k : TokenPtr) (L : NodePtr) :
  Trees !! lower_bound Trees k = Some (k, L) ->
  atEndOrKey Trees (S (lower_bound Trees k)) (k + 1) = true ->
  lower_bound Trees (k + 1) = S (lower_bound Trees k).
Proof.
  unfold atEndOrKey.
  induction Trees as [|[k' v] rest IH]; [done|]. cbn [lower_bound].
  destruct (k' <? k) eqn:Hlt.
  - cbn [lookup list_lookup]. intros Hat Hnext.
    apply Nat.ltb_lt in Hlt.
    rewrite (proj2 (Nat.ltb_lt k' (k + 1))) by lia.
    f_equal. by apply IH.
  - cbn [lookup list_lookup]. intros [= -> ->] Hnext.
    rewrite (proj2 (Nat.ltb_lt k (k + 1))) by lia. f_equal.
    destruct rest as [|[k'' v'] rest']; [done|].
    cbn [lookup list_lookup] in Hnext. apply Nat.eqb_eq in Hnext as ->.
    cbn [lower_bound]. by rewrite Nat.ltb_irrefl.
Qed.

Lemma Forest_assignRole_covered (T : TokenPtr) (R : NodeRole)
    (H H' : Heap) (Trees : Forest) :
  Forest_assignRole (oneToken T) R H Trees = Ok H' ->
  exists L : NodePtr,
    (T, L) ∈ Trees
    /\ coveredEntries (oneToken T) Trees = [(T, L)]
    /\ Trees !! lower_bound Trees T = Some (T, L)
    /\ is_Some (H !! L)
    /\ H' = alter (setRole_node R) L H.
Proof.
  unfold Forest_assignRole.
  intros (_ & _ & Hrun)%bindR_Ok.
  change (ArrayRef_begin (oneToken T)) with T in Hrun.
  change (ArrayRef_end (oneToken T)) with (T + 1) in Hrun.
  destruct (Trees !! lower_bound Trees T) as [[k N]|] eqn:EIt; [|done].
  apply bindR_Ok in Hrun as (_ & Hk%assertR_Ok & Hrun).
  apply bindR_Ok in Hrun as (_ & Hat%assertR_Ok & Hrun).
  apply bindR_Ok in Hrun as (r & Hr & Hrun).
  apply bindR_Ok in Hrun as (_ & _ & Hrun).
  injection Hrun as <-. apply Nat.eqb_eq in Hk as ->.
  exists N. split_and!; [by eapply list_elem_of_lookup_2| |done| |done];
    [|unfold role in Hr; by destruct (H !! N)].
  unfold coveredEntries.
  change (ArrayRef_begin (oneToken T)) with T.
  change (ArrayRef_end (oneToken T)) with (T + 1).
  rewrite (lower_bound_next _ _ _ EIt Hat). unfold map_range.
  replace (S (lower_bound Trees T) - lower_bound Trees T) with 1 by lia.
  by rewrite (drop_S _ _ _ EIt).
Qed.

(** The token a role is assigned to, for a valid location. *)
Lemma markChildToken_Loc_covered (Loc : SourceLocation) (R : NodeRole)
    (u : unit) (B B' : TreeBuilder) :
  markChildToken_Loc Loc R B = Ok (u, B') ->
  Loc_isValid Loc = true ->
  exists (T : TokenPtr) (L : NodePtr),
    findToken B Loc = Ok (Some T)
    /\ (T, L) ∈ Pending B
    /\ coveredEntries (oneToken T) (Pending B) = [(T, L)]
    /\ pendingAt (Pending B) T L
    /\ roleIs B' L R
    /\ B' = withHeap (alter (setRole_node R) L (TB_Heap B)) B.
Proof.
  unfold markChildToken_Loc, Loc_isValid. intros Hrun Hv.
  apply negb_true_iff in Hv. unfold Loc_isInvalid in Hrun.
  rewrite Hv in Hrun.
  apply bind_Ok in Hrun as (T & B1 & [HT ->]%readB_Ok & Hrun).
  destruct T as [T|]; [|by apply liftR_Ok in Hrun as [? _]].
  unfold Pending_assignRole in Hrun.
  destruct (Forest_assignRole (oneToken T) R (TB_Heap B) (Pending B))
    as [H'|] eqn:E; [|done].
  injection Hrun as HB'. subst B'.
  apply Forest_assignRole_covered in E
    as (L & Hin & Hcov & Hat & [Nd HL] & ->).
  exists T, L. split_and!; [done..| |done].
  unfold roleIs. cbn [TB_Heap withHeap].
  by rewrite list_lookup_alter_eq, HL.
Qed.

(** *** Entries of the forest that a fold covers *)

Lemma lower_bound_take (Trees : Forest) (k : TokenPtr) :
  Forall (fun e => e.1 < k) (take (lower_bound Trees k) Trees).
Proof.
  induction Trees as [|[k' v] rest IH]; [constructor|]. cbn [lower_bound].
  destruct (Nat.ltb_spec k' k); [|constructor].
  cbn [take]. by constructor.
Qed.

Lemma lower_bound_head (Trees : Forest) (k : TokenPtr)
    (e : TokenPtr * NodePtr) :
  Trees !! lower_bound Trees k = Some e -> k <= e.1.
Proof.
  induction Trees as [|[k' v] rest IH]; [done|]. cbn [lower_bound].
  destruct (Nat.ltb_spec k' k); cbn [lookup list_lookup].
  - exact IH.
  - by intros [= <-].
Qed.

Lemma lower_bound_mono (Trees : Forest) (b k : TokenPtr) :
  b <= k -> lower_bound Trees b <= lower_bound Trees k.
Proof.
  intros Hle. induction Trees as [|[k' v] rest IH]; [done|].
  cbn [lower_bound].
  destruct (Nat.ltb_spec k' b); destruct (Nat.ltb_spec k' k); lia.
Qed.

Lemma pendingAt_lt (Trees : Forest) (k e : TokenPtr) (p : NodePtr) :
  pendingAt Trees k p -> k < e ->
  lower_bound Trees k < lower_bound Trees e.
Proof.
  unfold pendingAt. intros Hat Hlt.
  induction Trees as [|[k' v] rest IH]; [done|]. revert Hat.
  cbn [lower_bound].
  destruct (Nat.ltb_spec k' k); cbn [lookup list_lookup].
  - intros Hat. rewrite (proj2 (Nat.ltb_lt k' e)) by lia.
    apply IH in Hat. lia.
  - intros [= -> ->]. rewrite (proj2 (Nat.ltb_lt k e)) by lia. lia.
Qed.

Lemma covered_pendingAt (Range : ArrayRef) (Trees : Forest)
    (k : TokenPtr) (p : NodePtr) :
  pendingAt Trees k p ->
  ArrayRef_begin Range <= k < ArrayRef_end Range ->
  (k, p) ∈ coveredEntries Range Trees.
Proof.
  intros Hat [Hb He]. unfold coveredEntries, map_range.
  pose proof (lower_bound_mono Trees _ _ Hb) as Hlb.
  pose proof (pendingAt_lt _ _ _ _ Hat He) as Hle.
  apply (list_elem_of_lookup_2 _
           (lower_bound Trees k - lower_bound Trees (ArrayRef_begin Range))).
  rewrite lookup_take_lt by lia.
  rewrite lookup_drop.
  replace (lower_bound Trees (ArrayRef_begin Range)
           + (lower_bound Trees k
              - lower_bound Trees (ArrayRef_begin Range)))
    with (lower_bound Trees k) by lia.
  exact Hat.
Qed.

Lemma map_insert_head (k : TokenPtr) (v : NodePtr) (Trees : Forest) :
  (forall e, head Trees = Some e -> k < e.1) ->
  map_insert k v Trees = (k, v) :: Trees.
Proof.
  destruct Trees as [|[k' v'] rest]; [done|]. intros Hh.
  cbn [map_insert]. specialize (Hh (k', v') eq_refl). cbn in Hh.
  by rewrite (proj2 (Nat.ltb_lt k k')) by done.
Qed.

(** After a fold of a range that is not empty, the new node is the entry
    of the first token of the range. *)
Lemma forestAfterFold_pendingAt (Range : ArrayRef) (New : NodePtr)
    (Trees : Forest) :
  ArrayRef_begin Range < ArrayRef_end Range ->
  pendingAt (forestAfterFold Range New Trees) (ArrayRef_begin Range) New.
Proof.
  intros Hne. unfold forestAfterFold, pendingAt, map_erase.
  set (b := lower_bound Trees (ArrayRef_begin Range)).
  set (e := lower_bound Trees (ArrayRef_end Range)).
  pose proof (lower_bound_take Trees (ArrayRef_begin Range)) as Hpre.
  fold b in Hpre.
  rewrite map_insert_app by done.
  rewrite map_insert_head.
  - rewrite lower_bound_app by done. cbn [lower_bound].
    rewrite Nat.ltb_irrefl, Nat.add_0_r.
    rewrite lookup_app_r by done. by rewrite Nat.sub_diag.
  - intros x Hx. rewrite head_lookup, lookup_drop, Nat.add_0_r in Hx.
    apply lower_bound_head in Hx. lia.
Qed.

(** An entry of the forest within the range of a fold is a child of the
    new node. *)
Lemma foldsInto_child (K : NodeKind) (Range : ArrayRef)
    (B1 B' : TreeBuilder) (k : TokenPtr) (p : NodePtr) :
  foldsInto K Range B1 B' ->
  pendingAt (Pending B1) k p ->
  ArrayRef_begin Range <= k < ArrayRef_end Range ->
  exists Cs : list NodePtr,
    childrenAre B' (length (TB_Heap B1)) Cs /\ p ∈ Cs.
Proof.
  intros [Hch _]%foldsInto_children Hat Hin. eexists. split; [exact Hch|].
  apply (list_elem_of_fmap_2 snd _ (k, p)).
  by apply covered_pendingAt.
Qed.

(** A fold changes the children of no other node. *)
Lemma foldsInto_bodies (K : NodeKind) (Range : ArrayRef)
    (B1 B' : TreeBuilder) (q : NodePtr) :
  foldsInto K Range B1 B' ->
  q < length (TB_Heap B1) ->
  Node_body <$> TB_Heap B' !! q = Node_body <$> TB_Heap B1 !! q.
Proof.
  unfold foldsInto. intros Hfold Hq.
  apply Forest_foldChildren_Ok in Hfold
    as (_ & _ & _ & _ & H1 & HH & Hlook).
  rewrite HH, list_lookup_alter_ne, Hlook by lia.
  rewrite lookup_app_l by done.
  destruct (TB_Heap B1 !! q) as [[k r o c b]|]; [|done].
  cbn [fmap option_fmap option_map afterAttach Node_body].
  by rewrite (bool_decide_eq_false_2 (q = length (TB_Heap B1))) by lia.
Qed.

Lemma quiet_children (B B' : TreeBuilder) (p : NodePtr)
    (Cs : list NodePtr) :
  quiet B B' -> childrenAre B p Cs -> childrenAre B' p Cs.
Proof. intros (_ & _ & _ & Hq) Hch. unfold childrenAre. by rewrite Hq. Qed.

End Folds.

(** ** The handlers of the visitor *)

Section Marks.

Lemma findToken_input (B B' : TreeBuilder) (L : SourceLocation) :
  LocationToToken B' = LocationToToken B -> findToken B' L = findToken B L.
Proof. intros HL. unfold findToken. by rewrite HL. Qed.

Lemma markChildToken_Loc_grows (Loc : SourceLocation) (R : NodeRole)
    (u : unit) (B B' : TreeBuilder) :
  markChildToken_Loc Loc R B = Ok (u, B') ->
  grows [] B B' /\ Pending B' = Pending B
  /\ (Loc_isValid Loc = true ->
      exists (T : TokenPtr) (L : NodePtr),
        findToken B Loc = Ok (Some T)
        /\ (T, L) ∈ Pending B /\ roleIs B' L R).
Proof.
  unfold markChildToken_Loc, Loc_isValid.
  destruct (Loc_isInvalid Loc) eqn:Einv.
  - intros [_ ->]%mret_Ok. split_and!; [apply grows_refl|done|].
    unfold Loc_isInvalid in Einv. by rewrite Einv.
  - intros (T & B1 & [HT ->]%readB_Ok & Hrun)%bind_Ok.
    destruct T as [T|].
    + apply Pending_assignRole_grows in Hrun as (Hg & HP & L & Hin & Hr).
      split_and!; [done|done|]. intros _. by exists T, L.
    + by apply liftR_Ok in Hrun as [? _].
Qed.

Lemma markExprChild_grows (Child : Stmt) (R : NodeRole) (u : unit)
    (B B' : TreeBuilder) :
  markExprChild (Some Child) R B = Ok (u, B') ->
  grows [] B B' /\ Pending B' = Pending B
  /\ exists N : NodePtr,
       Mapping_find B (ofStmt (IgnoreImplicit Child)) = Some N
       /\ roleIs B' N R.
Proof.
  unfold markExprChild.
  intros (SN & B1 & [HSN ->]%readB_Ok & Hrun)%bind_Ok.
  injection HSN as HSN. destruct SN as [SN|].
  - pose proof (setRole_quiet _ _ _ _ _ Hrun) as (_ & _ & HP & _).
    apply setRole_grows in Hrun as [Hg Hr].
    split_and!; [done|done|]. by exists SN.
  - by apply liftR_Ok in Hrun as [? _].
Qed.

Lemma markChild_NNS_grows (N : NestedNameSpecifierLoc) (R : NodeRole)
    (u : unit) (B B' : TreeBuilder) :
  markChild_NNS N R B = Ok (u, B') -> grows [] B B'.
Proof.
  unfold markChild_NNS.
  intros (SN & B1 & [_ ->]%readB_Ok & Hrun)%bind_Ok.
  destruct SN as [SN|].
  - by apply setRole_grows in Hrun as [? _].
  - by apply liftR_Ok in Hrun as [? _].
Qed.

(** Allocating a node and folding a range into it. *)
Lemma allocate_foldNode_grows (K : NodeKind) (Range : ArrayRef)
    (From : ASTPtr) (New : NodePtr) (u : unit) (B B1 B' : TreeBuilder) :
  allocate K B = Ok (New, B1) ->
  foldNode Range New From B1 = Ok (u, B') ->
  grows [K] B B' /\ New = length (TB_Heap B)
  /\ (is_Some From -> Mapping_find B' From = Some New).
Proof.
  intros (Hg1 & -> & _)%allocate_grows [Hg2 HM]%foldNode_grows.
  split_and!; [|done|done]. by apply (grows_trans [K] [] B B1 B').
Qed.

Lemma buildIdExpression_grows (QualifierLoc : NestedNameSpecifierLoc)
    (TemplateKeywordLoc : SourceLocation) (UnqualifiedIdLoc : SourceRange)
    (From : ASTPtr) (Id : NodePtr) (B B' : TreeBuilder) :
  buildIdExpression QualifierLoc TemplateKeywordLoc UnqualifiedIdLoc From B
    = Ok (Id, B') ->
  grows [NK_UnqualifiedId; NK_IdExpression] B B'
  /\ Id = length (TB_Heap B) + 1
  /\ (is_Some From -> Mapping_find B' From = Some Id).
Proof.
  unfold buildIdExpression.
  intros (u0 & B0 & Hqual & Hrun)%bind_Ok.
  assert (Hg0 : grows [] B B0).
  { destruct (NNSLoc_hasQualifier QualifierLoc).
    - apply bind_Ok in Hqual as (u1 & B01 & Hq1 & Hq2).
      apply markChild_NNS_grows in Hq1.
      destruct (Loc_isValid TemplateKeywordLoc).
      + apply markChildToken_Loc_grows in Hq2 as [Hq2 _].
        by apply (grows_trans [] [] B B01 B0).
      + by apply mret_Ok in Hq2 as [_ ->].
    - apply mret_Ok in Hqual as [_ ->]. apply grows_refl. }
  apply bind_Ok in Hrun as (UId & B1 & Ha1 & Hrun).
  apply bind_Ok in Hrun as (R1 & B1' & [_ ->]%readB_Ok & Hrun).
  apply bind_Ok in Hrun as (u2 & B2 & Hf1 & Hrun).
  apply bind_Ok in Hrun as (u3 & B3 & Hm & Hrun).
  apply bind_Ok in Hrun as (Id' & B4 & Ha2 & Hrun).
  apply bind_Ok in Hrun as (R2 & B4' & [_ ->]%readB_Ok & Hrun).
  apply bind_Ok in Hrun as (u4 & B5 & Hf2 & Hrun).
  apply mret_Ok in Hrun as [-> ->].
  destruct (allocate_foldNode_grows _ _ _ _ _ _ _ _ Ha1 Hf1)
    as (Hg1 & -> & _).
  apply setRole_grows in Hm as [Hg2 _].
  destruct (allocate_foldNode_grows _ _ _ _ _ _ _ _ Ha2 Hf2)
    as (Hg3 & -> & HM).
  pose proof (grows_trans _ _ _ _ _ Hg0 Hg1) as Hg01.
  pose proof (grows_trans _ _ _ _ _ Hg01 Hg2) as Hg02.
  pose proof (grows_trans _ _ _ _ _ Hg02 Hg3) as Hg03.
  split_and!; [done| |done].
  rewrite (grows_length _ _ _ Hg02). simpl. lia.
Qed.

Lemma buildIdExpression_folds (QualifierLoc : NestedNameSpecifierLoc)
    (TemplateKeywordLoc : SourceLocation) (UnqualifiedIdLoc : SourceRange)
    (From : ASTPtr) (Id : NodePtr) (B B' : TreeBuilder) :
  buildIdExpression QualifierLoc TemplateKeywordLoc UnqualifiedIdLoc From B
    = Ok (Id, B') ->
  exists IdTokens Tokens : ArrayRef,
    idExpressionFolded QualifierLoc UnqualifiedIdLoc IdTokens Tokens B B'.
Proof.
  unfold buildIdExpression.
  intros (u0 & B0 & Hqual & Hrun)%bind_Ok.
  assert (Hq0 : quiet B B0).
  { destruct (NNSLoc_hasQualifier QualifierLoc).
    - apply bind_Ok in Hqual as (u1 & B01 & Hq1 & Hq2).
      apply markChild_NNS_quiet in Hq1.
      destruct (Loc_isValid TemplateKeywordLoc).
      + apply markChildToken_Loc_quiet in Hq2.
        by apply (quiet_trans B B01 B0).
      + by apply mret_Ok in Hq2 as [_ ->].
    - apply mret_Ok in Hqual as [_ ->]. apply quiet_refl. }
  apply bind_Ok in Hrun as (UId & B1 & Ha1 & Hrun).
  apply bind_Ok in Hrun as (R1 & B1' & [HR1 ->]%readB_Ok & Hrun).
  apply bind_Ok in Hrun as (u2 & B2 & Hf1 & Hrun).
  apply bind_Ok in Hrun as (u3 & B3 & Hm & Hrun).
  apply bind_Ok in Hrun as (Id' & B4 & Ha2 & Hrun).
  apply bind_Ok in Hrun as (R2 & B4' & [HR2 ->]%readB_Ok & Hrun).
  apply bind_Ok in Hrun as (u4 & B5 & Hf2 & Hrun).
  apply mret_Ok in Hrun as [-> ->].
  destruct (quiet_foldNode_folds _ _ _ _ _ _ _ _ _ Hq0 Ha1 Hf1)
    as (Hfolds1 & Hch1 & HP1).
  destruct (allocate_foldNode_grows _ _ _ _ _ _ _ _ Ha1 Hf1)
    as (Hg1 & HU & _).
  pose proof (setRole_quiet _ _ _ _ _ Hm) as Hq23.
  apply setRole_grows in Hm as [Hg2 Hrole].
  destruct (quiet_foldNode_folds _ _ _ _ _ _ _ _ _ Hq23 Ha2 Hf2)
    as (Hfolds2 & Hch2 & HP2).
  destruct (allocate_foldNode_grows _ _ _ _ _ _ _ _ Ha2 Hf2)
    as (Hg3 & HI & _).
  assert (length (TB_Heap B2) = length (TB_Heap B) + 1) as Hlen2.
  { rewrite (grows_length _ _ _ Hg1), (quiet_length _ _ Hq0). done. }
  assert (UId = length (TB_Heap B)) as HU'.
  { by rewrite HU, (quiet_length _ _ Hq0). }
  rewrite Hlen2, HP1 in Hch2, HP2.
  pose proof Hq0 as (HA0 & HL0 & _).
  destruct (grows_input _ _ _ Hg1) as [HA1 HL1].
  destruct (grows_input _ _ _ Hg2) as [HA2 HL2].
  apply allocate_Ok in Ha1 as [_ ->]. apply allocate_Ok in Ha2 as [_ ->].
  rewrite (getRange_input B) in HR1 by (cbn; congruence).
  rewrite (getRange2_input B) in HR2 by (cbn; congruence).
  exists R1, R2. unfold idExpressionFolded. cbv zeta.
  split_and!; [done|done| | |done|done|].
  - exists B0, B2, B3. rewrite HU' in Hrole. by split_and!.
  - apply (foldsInto_bodies _ _ _ _ (length (TB_Heap B))) in Hfolds2.
    + unfold childrenAre. rewrite Hfolds2.
      by apply (quiet_children B2 B3).
    + rewrite (quiet_length _ _ Hq23). lia.
  - intros Hne. rewrite HP2. by apply forestAfterFold_pendingAt.
Qed.

End Marks.

(** C10: for an implicit [this] the handler returns with the builder as it
    was: no node, no role, no fold.  For a written [this] a run that does
    not abort adds exactly one node, of the kind [ThisExpression], records
    it for the expression, and the entry pending at the [this] token gets
    the role [IntroducerKeyword]; the tokens of the source range of the
    expression are folded into the new node, whose children are the
    pending entries the range covers: where the range is the [this] token,
    the one child of the node is the entry of that token. *)
Theorem WalkUpFromCXXThisExpr_spec (S : CXXThisExpr) (B : TreeBuilder) :
  (TE_isImplicit S = true -> WalkUpFromCXXThisExpr S B = Ok (true, B))
  /\ (TE_isImplicit S = false ->
      forall (r : bool) (B' : TreeBuilder),
        WalkUpFromCXXThisExpr S B = Ok (r, B') ->
        grows [NK_ThisExpression] B B'
        /\ Mapping_find B' (ofStmt (TE_Stmt S)) = Some (length (TB_Heap B))
        /\ (Loc_isValid (TE_getLocation S) = true ->
            exists (T : TokenPtr) (L : NodePtr),
              findToken B (TE_getLocation S) = Ok (Some T)
              /\ (T, L) ∈ Pending B
              /\ roleIs B' L IntroducerKeyword
              /\ (getRange B (Stmt_getSourceRange (TE_Stmt S))
                    = Ok (oneToken T) ->
                  childrenAre B' (length (TB_Heap B)) [L]))
        /\ exists (Range : ArrayRef) (B1 : TreeBuilder),
             getRange B (Stmt_getSourceRange (TE_Stmt S)) = Ok Range
             /\ quiet B B1
             /\ foldsInto NK_ThisExpression Range B1 B'
             /\ childrenAre B' (length (TB_Heap B))
                            (coveredEntries Range (Pending B)).*2
             /\ Pending B'
                = forestAfterFold Range (length (TB_Heap B)) (Pending B)).
Proof.
  unfold WalkUpFromCXXThisExpr. split; intros Himp; rewrite Himp; [done|].
  cbn [negb]. intros r B' Hrun.
  apply bind_Ok in Hrun as (u1 & B1 & Hmark & Hrun).
  apply bind_Ok in Hrun as (R & B1' & [HR ->]%readB_Ok & Hrun).
  apply bind_Ok in Hrun as (N & B2 & Halloc & Hrun).
  apply bind_Ok in Hrun as (u2 & B3 & Hfold & Hrun).
  apply mret_Ok in Hrun as [-> ->].
  pose proof (markChildToken_Loc_quiet _ _ _ _ _ Hmark) as Hq.
  destruct (quiet_foldNode_folds _ _ _ _ _ _ _ _ _ Hq Halloc Hfold)
    as (Hfolds & Hch & HP).
  pose proof Hmark as Hcov.
  apply markChildToken_Loc_grows in Hmark as (Hg1 & HP1 & Htok).
  destruct (allocate_foldNode_grows _ _ _ _ _ _ _ _ Halloc Hfold)
    as (Hg2 & -> & HM).
  pose proof (grows_trans _ _ _ _ _ Hg1 Hg2) as Hg.
  unfold getExprRange in HR.
  rewrite (getRange_input B B1) in HR by (by destruct Hq as (? & ? & _)).
  split_and!; [done| | |].
  - rewrite HM by done. f_equal.
    by rewrite (grows_length _ _ _ Hg1), Nat.add_0_r.
  - intros Hv.
    destruct (markChildToken_Loc_covered _ _ _ _ _ Hcov Hv)
      as (T & L & HT & Hin & Hcovered & _ & Hr & _).
    exists T, L. split_and!; [done|done| |].
    + by apply (grows_roleIs _ _ _ _ _ Hg2).
    + intros HR'. rewrite HR in HR'. injection HR' as ->.
      by rewrite Hcovered in Hch.
  - by exists R, B1.
Qed.

(** C8: a run of the handler that does not abort, for a member expression
    with implicit access, is the run of [buildIdExpression] for the
    expression: it folds an unqualified id and an id-expression and records
    the id-expression for the expression.  Otherwise it folds an unqualified
    id and an id-expression, gives the id-expression the role
    [MemberExpression_member], the node recorded for the base expression
    the role [MemberExpression_object] and the entry pending at the
    operator token the role [MemberExpression_accessToken], and folds the
    tokens of the source range of the expression into a new member
    expression, which it records for the expression: the children of the
    member expression are the entries that range covers in the forest
    [buildIdExpression] has left, among them every entry that starts
    within the range. *)
Theorem WalkUpFromMemberExpr_spec (S : MemberExpr) (B B' : TreeBuilder)
    (r : bool) :
  WalkUpFromMemberExpr S B = Ok (r, B') ->
  let UnqualifiedIdLoc :=
    mkSourceRange (ME_getMemberLoc S)
                  (getEnd (Stmt_getSourceRange (ME_Stmt S))) in
  let Id := length (TB_Heap B) + 1 in
  if ME_isImplicitAccess S then
    buildIdExpression (ME_getQualifierLoc S) (ME_getTemplateKeywordLoc S)
                      UnqualifiedIdLoc (ofStmt (ME_Stmt S)) B
      = Ok (Id, B')
    /\ grows [NK_UnqualifiedId; NK_IdExpression] B B'
    /\ Mapping_find B' (ofStmt (ME_Stmt S)) = Some Id
    /\ exists IdTokens Tokens : ArrayRef,
         idExpressionFolded (ME_getQualifierLoc S) UnqualifiedIdLoc
                            IdTokens Tokens B B'
  else
    grows [NK_UnqualifiedId; NK_IdExpression; NK_MemberExpression] B B'
    /\ Mapping_find B' (ofStmt (ME_Stmt S)) = Some (length (TB_Heap B) + 2)
    /\ roleIs B' Id MemberExpression_member
    /\ (exists Base : NodePtr,
          Mapping_find B' (ofStmt (IgnoreImplicit (ME_getBase S)))
            = Some Base
          /\ roleIs B' Base MemberExpression_object)
    /\ (Loc_isValid (ME_getOperatorLoc S) = true ->
        exists (T : TokenPtr) (L : NodePtr) (Bid : TreeBuilder),
          findToken B (ME_getOperatorLoc S) = Ok (Some T)
          /\ buildIdExpression (ME_getQualifierLoc S)
               (ME_getTemplateKeywordLoc S) UnqualifiedIdLoc None B
             = Ok (Id, Bid)
          /\ (T, L) ∈ Pending Bid
          /\ pendingAt (Pending Bid) T L
          /\ roleIs B' L MemberExpression_accessToken)
    /\ exists (IdTokens Tokens Range : ArrayRef) (Bid B1 : TreeBuilder),
         buildIdExpression (ME_getQualifierLoc S)
           (ME_getTemplateKeywordLoc S) UnqualifiedIdLoc None B
         = Ok (Id, Bid)
         /\ idExpressionFolded (ME_getQualifierLoc S) UnqualifiedIdLoc
                               IdTokens Tokens B Bid
         /\ getRange B (Stmt_getSourceRange (ME_Stmt S)) = Ok Range
         /\ quiet Bid B1
         /\ foldsInto NK_MemberExpression Range B1 B'
         /\ childrenAre B' (length (TB_Heap B) + 2)
                        (coveredEntries Range (Pending Bid)).*2
         /\ Pending B'
            = forestAfterFold Range (length (TB_Heap B) + 2) (Pending Bid)
         /\ forall (k : TokenPtr) (p : NodePtr),
              pendingAt (Pending Bid) k p ->
              ArrayRef_begin Range <= k < ArrayRef_end Range ->
              p ∈ (coveredEntries Range (Pending Bid)).*2.
Proof.
  unfold WalkUpFromMemberExpr. intros Hrun. cbv zeta.
  destruct (ME_isImplicitAccess S).
  - apply bind_Ok in Hrun as (Id & B1 & Hid & Hrun).
    apply mret_Ok in Hrun as [-> ->].
    pose proof (buildIdExpression_folds _ _ _ _ _ _ _ Hid) as Hfolded.
    destruct (buildIdExpression_grows _ _ _ _ _ _ _ Hid) as (Hg & -> & HM).
    split_and!; [done|done| |done]. by apply HM.
  - apply bind_Ok in Hrun as (Id & B1 & Hid & Hrun).
    apply bind_Ok in Hrun as (u1 & B2 & Hm1 & Hrun).
    apply bind_Ok in Hrun as (u2 & B3 & Hm2 & Hrun).
    apply bind_Ok in Hrun as (u3 & B4 & Hm3 & Hrun).
    apply bind_Ok in Hrun as (R & B4' & [HR ->]%readB_Ok & Hrun).
    apply bind_Ok in Hrun as (N & B5 & Halloc & Hrun).
    apply bind_Ok in Hrun as (u4 & B6 & Hfold & Hrun).
    apply mret_Ok in Hrun as [-> ->].
    destruct (buildIdExpression_folds _ _ _ _ _ _ _ Hid)
      as (IdTokens & Tokens & Hfolded).
    destruct (buildIdExpression_grows _ _ _ _ _ _ _ Hid) as (Hg1 & -> & _).
    pose proof (setRole_quiet _ _ _ _ _ Hm1) as Hq12.
    pose proof (markExprChild_quiet _ _ _ _ _ Hm2) as Hq23.
    pose proof (markChildToken_Loc_quiet _ _ _ _ _ Hm3) as Hq34.
    pose proof (quiet_trans _ _ _ Hq12 Hq23) as Hq13.
    pose proof (quiet_trans _ _ _ Hq13 Hq34) as Hq14.
    destruct (quiet_foldNode_folds _ _ _ _ _ _ _ _ _ Hq14 Halloc Hfold)
      as (Hfolds & Hch & HP).
    assert (length (TB_Heap B1) = length (TB_Heap B) + 2) as Hlen1.
    { rewrite (grows_length _ _ _ Hg1). simpl. lia. }
    rewrite Hlen1 in Hch, HP.
    pose proof Hm3 as Hcov.
    pose proof (setRole_quiet _ _ _ _ _ Hm1) as (_ & HL2 & HP2 & _).
    apply setRole_grows in Hm1 as [Hg2 Hr2].
    apply markExprChild_grows in Hm2 as (Hg3 & HP3 & Base & HBase & Hr3).
    apply markChildToken_Loc_grows in Hm3 as (Hg4 & HP4 & Htok).
    destruct (allocate_foldNode_grows _ _ _ _ _ _ _ _ Halloc Hfold)
      as (Hg5 & -> & HM).
    pose proof (grows_trans _ _ _ _ _ Hg1 Hg2) as Hg12.
    pose proof (grows_trans _ _ _ _ _ Hg12 Hg3) as Hg13.
    pose proof (grows_trans _ _ _ _ _ Hg13 Hg4) as Hg14.
    pose proof (grows_trans _ _ _ _ _ Hg14 Hg5) as Hg15.
    pose proof (grows_trans _ _ _ _ _ Hg3 Hg4) as Hg34.
    pose proof (grows_trans _ _ _ _ _ Hg34 Hg5) as Hg35.
    unfold getExprRange in HR.
    rewrite (getRange_input B B4) in HR
      by (by destruct (grows_input _ _ _ Hg14)).
    split_and!; [done| | | | |].
    + rewrite HM by done. f_equal.
      rewrite (grows_length _ _ _ Hg14). simpl. lia.
    + by apply (grows_roleIs _ _ _ _ _ Hg35).
    + exists Base. split.
      * by apply (grows_Mapping_find _ _ _ _ _ Hg35).
      * apply (grows_roleIs _ _ _ _ _ (grows_trans _ _ _ _ _ Hg4 Hg5));
          done.
    + intros Hv.
      destruct (markChildToken_Loc_covered _ _ _ _ _ Hcov Hv)
        as (T & L & HT & Hin & _ & Hat & Hr & _).
      exists T, L, B1. split_and!; [|done| | |].
      * rewrite <- HT. symmetry.
        destruct Hg13 as (_ & HL & _). by apply findToken_input.
      * by rewrite <- HP2, <- HP3.
      * by rewrite <- HP2, <- HP3.
      * by apply (grows_roleIs _ _ _ _ _ Hg5).
    + exists IdTokens, Tokens, R, B1, B4. split_and!; try done.
      intros k p Hat Hin.
      apply (list_elem_of_fmap_2 snd _ (k, p)).
      by apply covered_pendingAt.
Qed.

(** ** Operator calls *)

Section OperatorCalls.

Lemma OCE_getArg_Ok (S : CXXOperatorCallExpr) (I : nat) (E : Stmt)
    (B B' : TreeBuilder) :
  OCE_getArg S I B = Ok (E, B') -> OCE_arguments S !! I = Some E /\ B' = B.
Proof.
  unfold OCE_getArg. destruct (OCE_arguments S !! I) as [E'|].
  - by intros [-> ->]%mret_Ok.
  - by intros [? _]%liftR_Ok.
Qed.

Lemma WalkUpFromExpr_grows (E : Stmt) (r : bool) (B B' : TreeBuilder) :
  WalkUpFromExpr E B = Ok (r, B') ->
  grows [NK_UnknownExpression] B B'
  /\ Mapping_find B' (ofStmt E) = Some (length (TB_Heap B)).
Proof.
  unfold WalkUpFromExpr.
  intros (u & B0 & [_ ->]%assertM_Ok & Hrun)%bind_Ok.
  apply bind_Ok in Hrun as (R & B0' & [_ ->]%readB_Ok & Hrun).
  apply bind_Ok in Hrun as (N & B1 & Halloc & Hrun).
  apply bind_Ok in Hrun as (u2 & B2 & Hfold & Hrun).
  apply mret_Ok in Hrun as [-> ->].
  destruct (allocate_foldNode_grows _ _ _ _ _ _ _ _ Halloc Hfold)
    as (Hg & -> & HM).
  split; [done|]. by apply HM.
Qed.

(** The three handled shapes end in the same way: after role assignments
    that add no node, a node of the kind is allocated and folded. *)
Lemma mark_then_fold (K : NodeKind) (Range : ArrayRef) (From : Stmt)
    (N : NodePtr) (u : unit) (B B0 B1 B' : TreeBuilder) :
  grows [] B B0 ->
  allocate K B0 = Ok (N, B1) ->
  foldNode Range N (ofStmt From) B1 = Ok (u, B') ->
  grows [K] B B'
  /\ Mapping_find B' (ofStmt From) = Some (length (TB_Heap B)).
Proof.
  intros Hg0 Halloc Hfold.
  destruct (allocate_foldNode_grows _ _ _ _ _ _ _ _ Halloc Hfold)
    as (Hg & -> & HM).
  split; [by apply (grows_trans [] [K] B B0 B')|].
  rewrite HM by done. f_equal.
  by rewrite (grows_length _ _ _ Hg0), Nat.add_0_r.
Qed.

Lemma WalkUpFromCXXOperatorCallExpr_grows (S : CXXOperatorCallExpr)
    (r : bool) (B B' : TreeBuilder) :
  WalkUpFromCXXOperatorCallExpr S B = Ok (r, B') ->
  exists K : NodeKind,
    getOperatorNodeKind_of S = Ok K
    /\ grows [K] B B'
    /\ Mapping_find B' (ofStmt (OCE_Stmt S)) = Some (length (TB_Heap B)).
Proof.
  unfold WalkUpFromCXXOperatorCallExpr.
  intros (K & B0 & [HK ->]%liftR_Ok & Hrun)%bind_Ok.
  exists K. split; [done|].
  destruct K; try (by apply liftR_Ok in Hrun as [? _]).
  - (* unknown *)
    by apply WalkUpFromExpr_grows in Hrun.
  - (* binary *)
    apply bind_Ok in Hrun as (A0 & B1 & [_ ->]%OCE_getArg_Ok & Hrun).
    apply bind_Ok in Hrun as (u1 & B2 & Hm1 & Hrun).
    apply bind_Ok in Hrun as (u2 & B3 & Hm2 & Hrun).
    apply bind_Ok in Hrun as (A1 & B4 & [_ ->]%OCE_getArg_Ok & Hrun).
    apply bind_Ok in Hrun as (u3 & B5 & Hm3 & Hrun).
    apply bind_Ok in Hrun as (R & B6 & [_ ->]%readB_Ok & Hrun).
    apply bind_Ok in Hrun as (N & B7 & Halloc & Hrun).
    apply bind_Ok in Hrun as (u4 & B8 & Hfold & Hrun).
    apply mret_Ok in Hrun as [-> ->].
    apply markExprChild_grows in Hm1 as (Hg1 & _).
    apply markChildToken_Loc_grows in Hm2 as (Hg2 & _).
    apply markExprChild_grows in Hm3 as (Hg3 & _).
    eapply mark_then_fold; [|done|done].
    apply (grows_trans [] [] B B3 B5); [|done].
    by apply (grows_trans [] [] B B2 B3).
  - (* prefix unary *)
    apply bind_Ok in Hrun as (u1 & B1 & Hm1 & Hrun).
    apply bind_Ok in Hrun as (A0 & B2 & [_ ->]%OCE_getArg_Ok & Hrun).
    apply bind_Ok in Hrun as (u2 & B3 & Hm2 & Hrun).
    apply bind_Ok in Hrun as (R & B4 & [_ ->]%readB_Ok & Hrun).
    apply bind_Ok in Hrun as (N & B5 & Halloc & Hrun).
    apply bind_Ok in Hrun as (u3 & B6 & Hfold & Hrun).
    apply mret_Ok in Hrun as [-> ->].
    apply markChildToken_Loc_grows in Hm1 as (Hg1 & _).
    apply markExprChild_grows in Hm2 as (Hg2 & _).
    eapply mark_then_fold; [|done|done].
    by apply (grows_trans [] [] B B1 B3).
  - (* postfix unary *)
    apply bind_Ok in Hrun as (u1 & B1 & Hm1 & Hrun).
    apply bind_Ok in Hrun as (A0 & B2 & [_ ->]%OCE_getArg_Ok & Hrun).
    apply bind_Ok in Hrun as (u2 & B3 & Hm2 & Hrun).
    apply bind_Ok in Hrun as (R & B4 & [_ ->]%readB_Ok & Hrun).
    apply bind_Ok in Hrun as (N & B5 & Halloc & Hrun).
    apply bind_Ok in Hrun as (u3 & B6 & Hfold & Hrun).
    apply mret_Ok in Hrun as [-> ->].
    apply markChildToken_Loc_grows in Hm1 as (Hg1 & _).
    apply markExprChild_grows in Hm2 as (Hg2 & _).
    eapply mark_then_fold; [|done|done].
    by apply (grows_trans [] [] B B1 B3).
Qed.

Lemma bind_ext {A A'} (m : M A) (k1 k2 : A -> M A') (B : TreeBuilder) :
  (forall a B1, k1 a B1 = k2 a B1) -> (m ≫= k1) B = (m ≫= k2) B.
Proof.
  intros Hk. unfold mbind, M_bind. by destruct (m B) as [[a B1]|].
Qed.

Lemma bind_assoc {A A' A''} (m : M A) (k : A -> M A') (k' : A' -> M A'')
    (B : TreeBuilder) :
  ((m ≫= k) ≫= k') B = (m ≫= (fun a => k a ≫= k')) B.
Proof. unfold mbind, M_bind. by destruct (m B) as [[a B1]|]. Qed.

Lemma bind_congr {A A'} (m1 m2 : M A) (k : A -> M A') (B : TreeBuilder) :
  m1 B = m2 B -> (m1 ≫= k) B = (m2 ≫= k) B.
Proof. unfold mbind, M_bind. by intros ->. Qed.

Lemma traverseArguments_written
    (RAV_TraverseStmt : option Stmt -> M bool) (S : CXXOperatorCallExpr)
    (Args : list Stmt) (B : TreeBuilder) :
  getOperatorNodeKind_of S = Ok NK_PostfixUnaryOperatorExpression
  \/ Forall (fun a => Range_isValid (Stmt_getSourceRange a) = true) Args ->
  traverseArguments RAV_TraverseStmt S Args B
    = traverseEach RAV_TraverseStmt (writtenArguments Args) B.
Proof.
  revert B. induction Args as [|child rest IH]; intros B Hpost; [done|].
  cbn [traverseArguments writtenArguments]. unfold Range_isInvalid.
  assert (Hrest : getOperatorNodeKind_of S
                    = Ok NK_PostfixUnaryOperatorExpression
                  \/ Forall (fun a => Range_isValid (Stmt_getSourceRange a)
                                      = true) rest).
  { destruct Hpost as [?|Hall]; [by left|].
    right. by apply Forall_cons in Hall as [_ ?]. }
  destruct (Range_isValid (Stmt_getSourceRange child)) eqn:Ev; cbn [negb].
  - cbn [traverseEach]. apply bind_ext. intros [] B1; [|done].
    by apply IH.
  - destruct Hpost as [HK|Hall].
    2:{ apply Forall_cons in Hall as [Hc _]. congruence. }
    rewrite HK.
    rewrite (bind_run _ _ B B NK_PostfixUnaryOperatorExpression) by done.
    rewrite (bind_run _ _ B B tt) by done.
    by apply IH.
Qed.

End OperatorCalls.

(** C2: for every operator and argument count, [getOperatorNodeKind]
    returns a node kind exactly where the classification table has an entry,
    and it is the kind the table gives; and a run of the handler of operator
    calls that does not abort adds exactly one node, of the kind the table
    gives for the operator and the number of arguments of the call, and
    records it for the call. *)
Theorem CXXOperatorCallExpr_kind_table :
  (forall (Op : OverloadedOperatorKind) (NumArgs : nat),
      toOption (getOperatorNodeKind Op NumArgs) = operatorTable Op NumArgs)
  /\ (forall (S : CXXOperatorCallExpr) (r : bool) (B B' : TreeBuilder),
        WalkUpFromCXXOperatorCallExpr S B = Ok (r, B') ->
        exists K : NodeKind,
          operatorTable (OCE_getOperator S) (OCE_getNumArgs S) = Some K
          /\ grows [K] B B'
          /\ kindIs B' (length (TB_Heap B)) K
          /\ Mapping_find B' (ofStmt (OCE_Stmt S))
             = Some (length (TB_Heap B))).
Proof.
  split; [apply getOperatorNodeKind_table|].
  intros S r B B' Hrun.
  apply WalkUpFromCXXOperatorCallExpr_grows in Hrun as (K & HK & Hg & HM).
  exists K. split_and!; [|done| |done].
  - rewrite <- getOperatorNodeKind_table.
    unfold getOperatorNodeKind_of in HK. by rewrite HK.
  - rewrite <- (Nat.add_0_r (length (TB_Heap B))).
    by apply (grows_new_kind [K] B B' 0 K).
Qed.

(** C7: the traversal of an operator call traverses the arguments of the
    call that have a valid source range, in order, and no other argument
    (an argument without one is only met in a postfix call); for a postfix
    [++] or [--] with a written operand and the placeholder second
    argument, the whole traversal is the traversal of the operand followed
    by the fold of the postfix expression, in which the placeholder takes no
    part. *)
Theorem TraverseCXXOperatorCallExpr_skips_placeholder
    (RAV_TraverseStmt : option Stmt -> M bool) (S : CXXOperatorCallExpr)
    (B : TreeBuilder) :
  (getOperatorNodeKind_of S = Ok NK_PostfixUnaryOperatorExpression
   \/ Forall (fun a => Range_isValid (Stmt_getSourceRange a) = true)
             (OCE_arguments S) ->
   traverseArguments RAV_TraverseStmt S (OCE_arguments S) B
     = traverseEach RAV_TraverseStmt (writtenArguments (OCE_arguments S)) B)
  /\ (forall Operand Placeholder : Stmt,
        OCE_arguments S = [Operand; Placeholder] ->
        OCE_getOperator S = OO_PlusPlus \/ OCE_getOperator S = OO_MinusMinus ->
        Range_isValid (Stmt_getSourceRange Operand) = true ->
        Range_isValid (Stmt_getSourceRange Placeholder) = false ->
        TraverseCXXOperatorCallExpr RAV_TraverseStmt S B
          = postfixOperatorCall RAV_TraverseStmt (OCE_Stmt S)
                                (OCE_getOperatorLoc S) Operand B).
Proof.
  split; [apply traverseArguments_written|].
  intros Operand Placeholder Hargs Hop Hvalid Hinvalid.
  assert (HK : getOperatorNodeKind_of S
               = Ok NK_PostfixUnaryOperatorExpression).
  { unfold getOperatorNodeKind_of, OCE_getNumArgs. rewrite Hargs.
    by destruct Hop as [-> | ->]. }
  unfold TraverseCXXOperatorCallExpr, postfixOperatorCall.
  etrans; [apply bind_congr, traverseArguments_written; by left|].
  rewrite Hargs. cbn [writtenArguments]. rewrite Hvalid, Hinvalid.
  cbn [traverseEach]. rewrite bind_assoc.
  apply bind_ext. intros [] B1; [|done].
  rewrite (bind_run _ _ B1 B1 true) by done.
  unfold WalkUpFromCXXOperatorCallExpr.
  rewrite (bind_run _ _ B1 B1 NK_PostfixUnaryOperatorExpression)
    by (by unfold liftR; rewrite HK).
  apply bind_ext. intros u1 B2.
  unfold OCE_getArg. rewrite Hargs. cbn [lookup list_lookup].
  by rewrite (bind_run _ _ B2 B2 Operand) by done.
Qed.

(** ** Declarators and declarations *)

Section Declarators.

Lemma isResponsible_iff (isa_T : DeclKind -> bool) (D : Decl) :
  isResponsibleForCreatingDeclaration isa_T D = true <->
  Decl_getNextDeclInContext D = None
  \/ exists Next : Decl,
       Decl_getNextDeclInContext D = Some Next
       /\ (isa_T (Decl_kind Next) = false
           \/ Decl_getBeginLoc Next ≠ Decl_getBeginLoc D).
Proof.
  unfold isResponsibleForCreatingDeclaration.
  destruct (Decl_getNextDeclInContext D) as [Next|]; [|by split; [left|]].
  destruct (isa_T (Decl_kind Next)) eqn:Eisa; cbn [negb].
  - destruct (Nat.eqb_spec (Decl_getBeginLoc Next) (Decl_getBeginLoc D))
      as [Heq|Hne]; cbn [negb].
    + split; [done|]. intros [?|(N & [= <-] & [?|?])]; congruence.
    + split; [|done]. intros _. right. exists Next. by split; [|right].
  - split; [|done]. intros _. right. exists Next. by split; [|left].
Qed.

Lemma declaratorChain_last (isa_T : DeclKind -> bool) :
  forall D : Decl,
    exists (Ds : list Decl) (Last : Decl),
      declaratorChain isa_T D = Ds ++ [Last]
      /\ Forall (fun d => isResponsibleForCreatingDeclaration isa_T d
                          = false) Ds
      /\ isResponsibleForCreatingDeclaration isa_T Last = true.
Proof.
  fix IH 1. intros D.
  destruct D as [ptr k R [Next|] tb tl an ql loc ini fr].
  - cbn [declaratorChain].
    destruct (isa_T (Decl_kind Next)
              && (Decl_getBeginLoc Next =? getBegin R)) eqn:E.
    + destruct (IH Next) as (Ds & Last & HC & HF & HL).
      exists (mkDecl ptr k R (Some Next) tb tl an ql loc ini fr :: Ds),
             Last.
      rewrite HC. split_and!; [done| |done].
      constructor; [|done].
      apply andb_true_iff in E as [E1 E2].
      unfold isResponsibleForCreatingDeclaration, Decl_getBeginLoc at 2.
      cbn [Decl_getNextDeclInContext Decl_getSourceRange].
      by rewrite E1, E2.
    + exists [], (mkDecl ptr k R (Some Next) tb tl an ql loc ini fr).
      split_and!; [done|constructor|].
      unfold isResponsibleForCreatingDeclaration, Decl_getBeginLoc at 2.
      cbn [Decl_getNextDeclInContext Decl_getSourceRange].
      apply andb_false_iff in E as [-> | ->]; [done|].
      by destruct (isa_T (Decl_kind Next)).
  - exists [], (mkDecl ptr k R None tb tl an ql loc ini fr).
    by split_and!; [|constructor|].
Qed.

Lemma processDeclaratorAndDeclaration_grows (isa_T : DeclKind -> bool)
    (D : Decl) (r : bool) (B B' : TreeBuilder) :
  processDeclaratorAndDeclaration isa_T D B = Ok (r, B') ->
  exists Range : SourceRange,
    getDeclaratorRange (TB_Arena B) (Decl_TypeLoc D)
                       (getQualifiedNameStart D) (getInitializerRange D)
      = Ok Range
    /\ grows (declaratorKinds
                (Loc_isValid (getBegin Range))
                (isResponsibleForCreatingDeclaration isa_T D)) B B'
    /\ (Loc_isValid (getBegin Range) = true ->
        roleIs B' (length (TB_Heap B)) SimpleDeclaration_declarator)
    /\ (isResponsibleForCreatingDeclaration isa_T D = true ->
        Mapping_find B' (ofDecl D)
          = Some (length (TB_Heap B)
                  + if Loc_isValid (getBegin Range) then 1 else 0)).
Proof.
  unfold processDeclaratorAndDeclaration.
  intros (Range & B0 & [HR ->]%readB_Ok & Hrun)%bind_Ok.
  exists Range. split; [done|].
  apply bind_Ok in Hrun as (u1 & B1 & Hdeclarator & Hrun).
  apply bind_Ok in Hrun as (u2 & B2 & Hdeclaration & Hrun).
  apply mret_Ok in Hrun as [-> ->].
  assert (H1 : grows (if Loc_isValid (getBegin Range)
                      then [NK_SimpleDeclarator] else []) B B1
               /\ (Loc_isValid (getBegin Range) = true ->
                   roleIs B1 (length (TB_Heap B))
                          SimpleDeclaration_declarator)).
  { destruct (Loc_isValid (getBegin Range)).
    - apply bind_Ok in Hdeclarator as (N & B01 & Halloc & Hrun).
      apply bind_Ok in Hrun as (T & B02 & [_ ->]%readB_Ok & Hrun).
      apply bind_Ok in Hrun as (u3 & B03 & Hfold & Hmark).
      destruct (allocate_foldNode_grows _ _ _ _ _ _ _ _ Halloc Hfold)
        as (Hg & -> & _).
      apply setRole_grows in Hmark as [Hg' Hr].
      split; [|done].
      by apply (grows_trans [NK_SimpleDeclarator] [] B B03 B1).
    - apply mret_Ok in Hdeclarator as [_ ->].
      split; [apply grows_refl|done]. }
  destruct H1 as [Hg1 Hr1].
  assert (H2 : grows (if isResponsibleForCreatingDeclaration isa_T D
                      then [NK_SimpleDeclaration] else []) B1 B2
               /\ (isResponsibleForCreatingDeclaration isa_T D = true ->
                   Mapping_find B2 (ofDecl D)
                     = Some (length (TB_Heap B1)))).
  { destruct (isResponsibleForCreatingDeclaration isa_T D).
    - apply bind_Ok in Hdeclaration as (T & B11 & [_ ->]%readB_Ok & Hrun).
      apply bind_Ok in Hrun as (N & B12 & Halloc & Hfold).
      destruct (allocate_foldNode_grows _ _ _ _ _ _ _ _ Halloc Hfold)
        as (Hg & -> & HM).
      split; [done|]. intros _. by apply HM.
    - apply mret_Ok in Hdeclaration as [_ ->].
      split; [apply grows_refl|done]. }
  destruct H2 as [Hg2 HM2].
  split_and!.
  - by apply (grows_trans _ _ B B1 B2).
  - intros Hv. by apply (grows_roleIs _ _ _ _ _ Hg2); [|apply Hr1].
  - intros Hresp. rewrite (HM2 Hresp). f_equal.
    rewrite (grows_length _ _ _ Hg1).
    by destruct (Loc_isValid (getBegin Range)).
Qed.

Lemma processDeclaratorAndDeclaration_folds (isa_T : DeclKind -> bool)
    (D : Decl) (r : bool) (B B' : TreeBuilder) (Range : SourceRange) :
  processDeclaratorAndDeclaration isa_T D B = Ok (r, B') ->
  getDeclaratorRange (TB_Arena B) (Decl_TypeLoc D)
                     (getQualifiedNameStart D) (getInitializerRange D)
    = Ok Range ->
  exists B1 : TreeBuilder,
    (if Loc_isValid (getBegin Range) then
       exists (Tokens : ArrayRef) (B0 : TreeBuilder),
         getRange B Range = Ok Tokens
         /\ foldsInto NK_SimpleDeclarator Tokens B B0
         /\ childrenAre B' (length (TB_Heap B))
                        (coveredEntries Tokens (Pending B)).*2
         /\ Pending B1
            = forestAfterFold Tokens (length (TB_Heap B)) (Pending B)
         /\ quiet B0 B1
         /\ roleIs B1 (length (TB_Heap B)) SimpleDeclaration_declarator
         /\ (ArrayRef_begin Tokens < ArrayRef_end Tokens ->
             pendingAt (Pending B1) (ArrayRef_begin Tokens)
                       (length (TB_Heap B)))
     else B1 = B)
    /\ (if isResponsibleForCreatingDeclaration isa_T D then
          exists Tokens Declaration : ArrayRef,
            (if isa_TagDecl (Decl_kind D)
             then getRange2 B (Decl_TypeDecl_getBeginLoc D)
                            (Decl_getEndLoc D)
             else getRange B (Decl_getSourceRange D)) = Ok Tokens
            /\ maybeAppendSemicolon B Tokens D = Ok Declaration
            /\ foldsInto NK_SimpleDeclaration Declaration B1 B'
            /\ childrenAre B'
                 (length (TB_Heap B)
                  + if Loc_isValid (getBegin Range) then 1 else 0)
                 (coveredEntries Declaration (Pending B1)).*2
            /\ Pending B'
               = forestAfterFold Declaration
                   (length (TB_Heap B)
                    + if Loc_isValid (getBegin Range) then 1 else 0)
                   (Pending B1)
            /\ forall (k : TokenPtr) (p : NodePtr),
                 pendingAt (Pending B1) k p ->
                 ArrayRef_begin Declaration <= k < ArrayRef_end Declaration ->
                 p ∈ (coveredEntries Declaration (Pending B1)).*2
        else B' = B1).
Proof.
  unfold processDeclaratorAndDeclaration.
  intros (Range' & B0 & [HR ->]%readB_Ok & Hrun)%bind_Ok HRange.
  rewrite HRange in HR. injection HR as <-.
  apply bind_Ok in Hrun as (u1 & B1 & Hdeclarator & Hrun).
  apply bind_Ok in Hrun as (u2 & B2 & Hdeclaration & Hrun).
  apply mret_Ok in Hrun as [-> ->].
  exists B1.
  assert (TB_Arena B1 = TB_Arena B
          /\ LocationToToken B1 = LocationToToken B
          /\ DeclsWithoutSemicolons B1 = DeclsWithoutSemicolons B
          /\ length (TB_Heap B1)
             = length (TB_Heap B)
               + if Loc_isValid (getBegin Range) then 1 else 0)
    as (HA & HL & HD & Hlen).
  { destruct (Loc_isValid (getBegin Range)).
    - apply bind_Ok in Hdeclarator as (N & B01 & Halloc & Hrun).
      apply bind_Ok in Hrun as (T & B02 & [_ ->]%readB_Ok & Hrun).
      apply bind_Ok in Hrun as (u3 & B03 & Hfold & Hmark).
      destruct (allocate_foldNode_folds _ _ _ _ _ _ _ _ Halloc Hfold)
        as (_ & _ & _ & HA & HL & HD & _).
      destruct (allocate_foldNode_grows _ _ _ _ _ _ _ _ Halloc Hfold)
        as (Hg & _ & _).
      apply grows_length in Hg.
      apply setRole_Ok in Hmark as (Nd & _ & _ & ->).
      cbn [TB_Arena TB_Heap LocationToToken DeclsWithoutSemicolons
           withHeap].
      rewrite length_alter. done.
    - apply mret_Ok in Hdeclarator as [_ ->].
      split_and!; [done..|lia]. }
  assert (forall q : NodePtr,
            q < length (TB_Heap B1) ->
            Node_body <$> TB_Heap B2 !! q = Node_body <$> TB_Heap B1 !! q)
    as Hbodies.
  { intros q Hq. destruct (isResponsibleForCreatingDeclaration isa_T D).
    - apply bind_Ok in Hdeclaration as (T & B11 & [_ ->]%readB_Ok & Hrun).
      apply bind_Ok in Hrun as (N & B12 & Halloc & Hfold).
      destruct (allocate_foldNode_folds _ _ _ _ _ _ _ _ Halloc Hfold)
        as (Hfolds & _).
      by apply (foldsInto_bodies _ _ _ _ _ Hfolds).
    - by apply mret_Ok in Hdeclaration as [_ ->]. }
  split.
  - destruct (Loc_isValid (getBegin Range)).
    + apply bind_Ok in Hdeclarator as (N & B01 & Halloc & Hrun).
      apply bind_Ok in Hrun as (T & B02 & [HT ->]%readB_Ok & Hrun).
      apply bind_Ok in Hrun as (u3 & B03 & Hfold & Hmark).
      destruct (allocate_foldNode_folds _ _ _ _ _ _ _ _ Halloc Hfold)
        as (Hfolds & Hch & HP & _).
      pose proof (setRole_quiet _ _ _ _ _ Hmark) as Hq.
      apply allocate_Ok in Halloc as [-> ->].
      apply setRole_grows in Hmark as [_ Hrole].
      rewrite (getRange_input B) in HT by done.
      exists T, B03.
      assert (Pending B1
              = forestAfterFold T (length (TB_Heap B)) (Pending B)) as HP1.
      { destruct Hq as (_ & _ & -> & _). done. }
      split_and!; [done|done| |done|done|done|].
      * unfold childrenAre. rewrite Hbodies by lia.
        by apply (quiet_children B03 B1).
      * intros Hne. rewrite HP1. by apply forestAfterFold_pendingAt.
    + by apply mret_Ok in Hdeclarator as [_ ->].
  - destruct (isResponsibleForCreatingDeclaration isa_T D).
    + apply bind_Ok in Hdeclaration as (T & B11 & [HT ->]%readB_Ok & Hrun).
      apply bind_Ok in Hrun as (N & B12 & Halloc & Hfold).
      destruct (allocate_foldNode_folds _ _ _ _ _ _ _ _ Halloc Hfold)
        as (Hfolds & Hch & HP & _).
      rewrite Hlen in Hch, HP.
      unfold getDeclarationRange in HT.
      apply bindR_Ok in HT as (Tokens & HTokens & HT).
      rewrite (getRange_input B B1), (getRange2_input B B1) in HTokens
        by done.
      assert (maybeAppendSemicolon B Tokens D = Ok T) as HT'.
      { rewrite <- HT. unfold maybeAppendSemicolon, withTrailingSemicolon.
        by rewrite HA, HD. }
      exists Tokens, T. split_and!; try done.
      intros k p Hat Hin.
      apply (list_elem_of_fmap_2 snd _ (k, p)).
      by apply covered_pendingAt.
    + by apply mret_Ok in Hdeclaration as [_ ->].
Qed.

End Declarators.

(** C5: a declarator is responsible for the declaration exactly when its
    next sibling in the context is absent, is not of the same class, or
    begins at another location; in the chain of the declarators that share
    one declaration, the last one is responsible and no other is; and a run
    of the handler of a declarator that does not abort folds the tokens of
    the declarator range into a new simple declarator, which gets the role
    [SimpleDeclaration_declarator], exactly when the declarator range has a
    valid begin, then folds the tokens of the declaration, with its
    semicolon, into a new simple declaration, recorded for the
    declaration, exactly when the declarator is responsible, and does
    nothing else.  The children of each new node are the pending entries
    its range covers; the simple declarator is the entry of its first
    token, and every entry that starts within the range of the declaration
    becomes a child of the simple declaration. *)
Theorem declaratorChain_one_declaration (isa_T : DeclKind -> bool)
    (D : Decl) :
  (isResponsibleForCreatingDeclaration isa_T D = true <->
     Decl_getNextDeclInContext D = None
     \/ exists Next : Decl,
          Decl_getNextDeclInContext D = Some Next
          /\ (isa_T (Decl_kind Next) = false
              \/ Decl_getBeginLoc Next ≠ Decl_getBeginLoc D))
  /\ (exists (Ds : list Decl) (Last : Decl),
        declaratorChain isa_T D = Ds ++ [Last]
        /\ Forall (fun d => isResponsibleForCreatingDeclaration isa_T d
                            = false) Ds
        /\ isResponsibleForCreatingDeclaration isa_T Last = true)
  /\ (forall (r : bool) (B B' : TreeBuilder),
        processDeclaratorAndDeclaration isa_T D B = Ok (r, B') ->
        exists Range : SourceRange,
          getDeclaratorRange (TB_Arena B) (Decl_TypeLoc D)
                             (getQualifiedNameStart D)
                             (getInitializerRange D)
            = Ok Range
          /\ grows (declaratorKinds
                      (Loc_isValid (getBegin Range))
                      (isResponsibleForCreatingDeclaration isa_T D)) B B'
          /\ (Loc_isValid (getBegin Range) = true ->
              kindIs B' (length (TB_Heap B)) NK_SimpleDeclarator
              /\ roleIs B' (length (TB_Heap B)) SimpleDeclaration_declarator)
          /\ (isResponsibleForCreatingDeclaration isa_T D = true ->
              exists N : NodePtr,
                Mapping_find B' (ofDecl D) = Some N
                /\ kindIs B' N NK_SimpleDeclaration)
          /\ exists B1 : TreeBuilder,
               (if Loc_isValid (getBegin Range) then
                  exists (Tokens : ArrayRef) (B0 : TreeBuilder),
                    getRange B Range = Ok Tokens
                    /\ foldsInto NK_SimpleDeclarator Tokens B B0
                    /\ childrenAre B' (length (TB_Heap B))
                                   (coveredEntries Tokens (Pending B)).*2
                    /\ Pending B1
                       = forestAfterFold Tokens (length (TB_Heap B))
                                         (Pending B)
                    /\ quiet B0 B1
                    /\ roleIs B1 (length (TB_Heap B))
                              SimpleDeclaration_declarator
                    /\ (ArrayRef_begin Tokens < ArrayRef_end Tokens ->
                        pendingAt (Pending B1) (ArrayRef_begin Tokens)
                                  (length (TB_Heap B)))
                else B1 = B)
               /\ (if isResponsibleForCreatingDeclaration isa_T D then
                     exists Tokens Declaration : ArrayRef,
                       (if isa_TagDecl (Decl_kind D)
                        then getRange2 B (Decl_TypeDecl_getBeginLoc D)
                                       (Decl_getEndLoc D)
                        else getRange B (Decl_getSourceRange D))
                       = Ok Tokens
                       /\ maybeAppendSemicolon B Tokens D = Ok Declaration
                       /\ foldsInto NK_SimpleDeclaration Declaration B1 B'
                       /\ childrenAre B'
                            (length (TB_Heap B)
                             + if Loc_isValid (getBegin Range)
                               then 1 else 0)
                            (coveredEntries Declaration (Pending B1)).*2
                       /\ Pending B'
                          = forestAfterFold Declaration
                              (length (TB_Heap B)
                               + if Loc_isValid (getBegin Range)
                                 then 1 else 0)
                              (Pending B1)
                       /\ forall (k : TokenPtr) (p : NodePtr),
                            pendingAt (Pending B1) k p ->
                            ArrayRef_begin Declaration <= k
                              < ArrayRef_end Declaration ->
                            p ∈ (coveredEntries Declaration
                                   (Pending B1)).*2
                   else B' = B1)).
Proof.
  split_and!.
  - apply isResponsible_iff.
  - apply declaratorChain_last.
  - intros r B B' Hrun.
    destruct (processDeclaratorAndDeclaration_grows isa_T D r B B' Hrun)
      as (Range & HR & Hg & Hrole & HM).
    exists Range. split_and!; [done|done| | |].
    + intros Hv. split; [|by apply Hrole].
      rewrite <- (Nat.add_0_r (length (TB_Heap B))).
      apply (grows_new_kind _ B B' 0 _ Hg). by rewrite Hv.
    + intros Hresp. eexists. split; [by apply HM|].
      apply (grows_new_kind _ B B' _ _ Hg). rewrite Hresp.
      by destruct (Loc_isValid (getBegin Range)).
    + by apply (processDeclaratorAndDeclaration_folds isa_T D r).
Qed.

(** ** The theorems on concrete inputs *)

Lemma foldsStartAtEntries_check_sound (cs : list BuilderCall)
    (B : TreeBuilder) :
  foldsStartAtEntries_check cs B = true -> foldsStartAtEntries cs B.
Proof.
  revert B. induction cs as [|c rest IH]; intros B Hc; [done|].
  cbn [foldsStartAtEntries_check] in Hc.
  apply andb_true_iff in Hc as [H1 H2]. split.
  - unfold startsAtEntry, startsAtEntry_check in *.
    destruct (foldedRange c B); [|done]. by apply bool_decide_eq_true in H1.
  - intros B' HB'. rewrite HB' in H2. by apply IH.
Qed.

(** [int a, b;]: the tree built from the calls of the two declarator
    handlers covers the five tokens before [eof]. *)
Lemma buildSyntaxTree_covers_tokens_witness :
  exists (Root : NodePtr) (B' : TreeBuilder),
    buildSyntaxTree (exampleArena declTokens) declTraversal = Ok (Root, B')
    /\ leaves (TB_Heap B') Root = Some [0; 1; 2; 3; 4].
Proof.
  destruct (buildSyntaxTree_covers_tokens (exampleArena declTokens) eq_refl)
    as (B0 & Hnew & Hall).
  assert (B0 = exampleBuilder declTokens) as ->.
  { unfold exampleBuilder. by rewrite Hnew. }
  destruct (Hall declTraversal
              (stateAfter (runCalls declTraversal)
                          (exampleBuilder declTokens)))
    as (Root & B' & Hb & _ & _ & Hl).
  - apply foldsStartAtEntries_check_sound. vm_compute. reflexivity.
  - vm_compute. reflexivity.
  - exists Root, B'. split; [exact Hb|exact Hl].
Defined.

(** [a + b;]: folding the first three tokens into a fresh node. *)
Lemma foldChildren_spec_witness :
  exists H' : Heap,
    Forest_foldChildren (exampleArena sumTokens) (mkArrayRef 0 3) 4
      (TB_Heap (exampleBuilder sumTokens)
       ++ [newTree NK_BinaryOperatorExpression])
      [(0, 0); (1, 1); (2, 2); (3, 3)]
    = Ok (H', [(0, 4); (3, 3)])
    /\ H' !! 4 = Some (mkNode NK_BinaryOperatorExpression Detached true true
                              (TreeBody [0; 1; 2])).
Proof.
  destruct (foldChildren_spec (exampleArena sumTokens) (mkArrayRef 0 3) 4
              (TB_Heap (exampleBuilder sumTokens)
               ++ [newTree NK_BinaryOperatorExpression])
              [] [(0, 0); (1, 1); (2, 2)] [(3, 3)]
              (newTree NK_BinaryOperatorExpression))
    as (H' & Hrun & HNew & _).
  - reflexivity.
  - reflexivity.
  - simpl. rewrite !elem_of_cons, elem_of_nil. lia.
  - simpl. repeat constructor; by eexists.
  - unfold coincides, ArrayRef_begin, ArrayRef_end. simpl.
    split_and!; [constructor|reflexivity|repeat constructor; simpl; lia
                |repeat constructor; simpl; lia|by right].
  - exists H'. split; [exact Hrun|exact HNew].
Defined.

(** [a + b;]: the call of the overloaded [+] with two arguments becomes a
    binary operator expression. *)
Lemma CXXOperatorCallExpr_kind_table_witness :
  exists B' : TreeBuilder,
    WalkUpFromCXXOperatorCallExpr sumCall sumBuilder = Ok (true, B')
    /\ kindIs B' 8 NK_BinaryOperatorExpression.
Proof.
  destruct CXXOperatorCallExpr_kind_table as [_ Hwalk].
  destruct (Hwalk sumCall true sumBuilder
              (stateAfter (WalkUpFromCXXOperatorCallExpr sumCall) sumBuilder))
    as (K & HK & _ & Hkind & _).
  { vm_compute. reflexivity. }
  vm_compute in HK. injection HK as <-.
  exists (stateAfter (WalkUpFromCXXOperatorCallExpr sumCall) sumBuilder).
  split; [vm_compute; reflexivity|exact Hkind].
Defined.

(** [a++;]: the traversal is the traversal of [a] and the fold of the
    postfix expression, whose children are the id-expression of [a] and the
    [++] token. *)
Lemma TraverseCXXOperatorCallExpr_skips_placeholder_witness :
  TraverseCXXOperatorCallExpr traverseDeclRef incCall
                              (exampleBuilder incTokens)
    = postfixOperatorCall traverseDeclRef (OCE_Stmt incCall) 20 incOperand
                          (exampleBuilder incTokens)
  /\ exists B' : TreeBuilder,
       TraverseCXXOperatorCallExpr traverseDeclRef incCall
                                   (exampleBuilder incTokens)
         = Ok (true, B')
       /\ TB_Heap B' !! 5
          = Some (mkNode NK_PostfixUnaryOperatorExpression Detached true true
                         (TreeBody [4; 1])).
Proof.
  destruct (TraverseCXXOperatorCallExpr_skips_placeholder
              traverseDeclRef incCall (exampleBuilder incTokens))
    as [_ Hpost].
  split.
  - apply (Hpost incOperand incPlaceholder);
      [reflexivity|by left|reflexivity|reflexivity].
  - exists (stateAfter (TraverseCXXOperatorCallExpr traverseDeclRef incCall)
                       (exampleBuilder incTokens)).
    split; vm_compute; reflexivity.
Defined.

(** [a.b;] gets a member expression whose children are the id-expression
    of [a], the token [.] and the id-expression of [b], and which takes
    their place in the forest; the member [b] with implicit access gets an
    id-expression only. *)
Lemma WalkUpFromMemberExpr_spec_witness :
  (exists B' : TreeBuilder,
      WalkUpFromMemberExpr memberExpr memberBuilder = Ok (true, B')
      /\ Mapping_find B' (ofStmt (ME_Stmt memberExpr)) = Some 8
      /\ roleIs B' 7 MemberExpression_member
      /\ childrenAre B' 8 [5; 1; 7]
      /\ Pending B' = [(0, 8); (3, 3)])
  /\ (exists B' : TreeBuilder,
        WalkUpFromMemberExpr implicitMemberExpr
                             (exampleBuilder [tok_identifier; tok_semi; tok_eof])
          = Ok (true, B')
        /\ Mapping_find B' (ofStmt (ME_Stmt implicitMemberExpr)) = Some 3
        /\ childrenAre B' 3 [2]
        /\ Pending B' = [(0, 3); (1, 1)]).
Proof.
  split.
  - exists (stateAfter (WalkUpFromMemberExpr memberExpr) memberBuilder).
    assert (Hrun : WalkUpFromMemberExpr memberExpr memberBuilder
                   = Ok (true, stateAfter (WalkUpFromMemberExpr memberExpr)
                                          memberBuilder)).
    { vm_compute. reflexivity. }
    destruct (WalkUpFromMemberExpr_spec memberExpr memberBuilder _ true Hrun)
      as (_ & HM & Hr & _ & _ & IdTokens & Tokens & Range & Bid & B1
          & Hid & _ & HR & _ & _ & Hch & HP & _).
    vm_compute in HR. injection HR as <-.
    vm_compute in Hid. injection Hid as <-.
    split; [exact Hrun|]. split; [exact HM|]. split; [exact Hr|].
    split; [exact Hch|exact HP].
  - exists (stateAfter (WalkUpFromMemberExpr implicitMemberExpr)
                       (exampleBuilder [tok_identifier; tok_semi; tok_eof])).
    assert (Hrun : WalkUpFromMemberExpr implicitMemberExpr
                     (exampleBuilder [tok_identifier; tok_semi; tok_eof])
                   = Ok (true,
                         stateAfter (WalkUpFromMemberExpr implicitMemberExpr)
                           (exampleBuilder
                              [tok_identifier; tok_semi; tok_eof]))).
    { vm_compute. reflexivity. }
    destruct (WalkUpFromMemberExpr_spec implicitMemberExpr _ _ true Hrun)
      as (_ & _ & HM & IdTokens & Tokens & HR1 & HR2 & _ & _ & Hch & HP & _).
    vm_compute in HR1. injection HR1 as <-.
    vm_compute in HR2. injection HR2 as <-.
    split; [exact Hrun|]. split; [exact HM|].
    split; [exact Hch|exact HP].
Defined.

(** [this;]: the written [this] gets a node whose one child is the entry
    of the token, which has its role, and the node takes the place of the
    token in the forest; an implicit [this] leaves the builder as it
    is. *)
Lemma WalkUpFromCXXThisExpr_spec_witness :
  WalkUpFromCXXThisExpr implicitThisExpr (exampleBuilder thisTokens)
    = Ok (true, exampleBuilder thisTokens)
  /\ exists B' : TreeBuilder,
       WalkUpFromCXXThisExpr thisExpr (exampleBuilder thisTokens)
         = Ok (true, B')
       /\ Mapping_find B' (ofStmt (TE_Stmt thisExpr)) = Some 2
       /\ Pending B' = [(0, 2); (1, 1)]
       /\ exists (T : TokenPtr) (L : NodePtr),
            (T, L) ∈ Pending (exampleBuilder thisTokens)
            /\ roleIs B' L IntroducerKeyword
            /\ childrenAre B' 2 [L].
Proof.
  split.
  - destruct (WalkUpFromCXXThisExpr_spec implicitThisExpr
                (exampleBuilder thisTokens)) as [Himplicit _].
    apply Himplicit. reflexivity.
  - destruct (WalkUpFromCXXThisExpr_spec thisExpr
                (exampleBuilder thisTokens)) as [_ Hwritten].
    exists (stateAfter (WalkUpFromCXXThisExpr thisExpr)
                       (exampleBuilder thisTokens)).
    assert (Hrun : WalkUpFromCXXThisExpr thisExpr (exampleBuilder thisTokens)
                   = Ok (true, stateAfter (WalkUpFromCXXThisExpr thisExpr)
                                          (exampleBuilder thisTokens))).
    { vm_compute. reflexivity. }
    destruct (Hwritten eq_refl true _ Hrun)
      as (_ & HM & Htok & Range & B1 & HR & _ & _ & _ & HP).
    destruct (Htok eq_refl) as (T & L & HT & Hin & Hr & Hch).
    vm_compute in HR. injection HR as <-.
    vm_compute in HT. injection HT as <-.
    split; [exact Hrun|]. split; [exact HM|]. split; [exact HP|].
    exists 0, L. split; [exact Hin|]. split; [exact Hr|].
    apply Hch. vm_compute. reflexivity.
Defined.

(** Takes the branch of a property stated by cases that holds of the
    concrete input. *)
Ltac then_branch H :=
  lazymatch type of H with
  | (if _ then ?P else _) => change P in H
  end.
Ltac else_branch H :=
  lazymatch type of H with
  | (if _ then _ else ?Q) => change Q in H
  end.

(** [int a, b;]: the declarator [b] is responsible for the declaration.
    The handler of [a] folds the declarator [a] only; the handler of [b]
    then folds the declarator [b] and the declaration, whose children are
    [int], the declarator [a], the comma, the declarator [b] and the
    semicolon, and which is the one entry left in the forest. *)
Lemma declaratorChain_one_declaration_witness :
  isResponsibleForCreatingDeclaration isa_DeclaratorDecl declB = true
  /\ declaratorChain isa_DeclaratorDecl declA = [declA; declB]
  /\ exists B1 B2 : TreeBuilder,
       WalkUpFromDeclaratorDecl declA (exampleBuilder declTokens)
         = Ok (true, B1)
       /\ grows [NK_SimpleDeclarator] (exampleBuilder declTokens) B1
       /\ roleIs B1 5 SimpleDeclaration_declarator
       /\ childrenAre B1 5 [1]
       /\ WalkUpFromDeclaratorDecl declB B1 = Ok (true, B2)
       /\ childrenAre B2 6 [3]
       /\ childrenAre B2 7 [0; 5; 2; 6; 4]
       /\ Pending B2 = [(0, 7)].
Proof.
  split; [|split; [reflexivity|]].
  - destruct (declaratorChain_one_declaration isa_DeclaratorDecl declB)
      as (Hiff & _ & _).
    apply Hiff. by left.
  - set (B1 := stateAfter (WalkUpFromDeclaratorDecl declA)
                          (exampleBuilder declTokens)).
    set (B2 := stateAfter (WalkUpFromDeclaratorDecl declB) B1).
    exists B1, B2.
    assert (HokA : processDeclaratorAndDeclaration isa_DeclaratorDecl declA
                     (exampleBuilder declTokens) = Ok (true, B1)).
    { vm_compute. reflexivity. }
    assert (HokB : processDeclaratorAndDeclaration isa_DeclaratorDecl declB
                     B1 = Ok (true, B2)).
    { vm_compute. reflexivity. }
    destruct (declaratorChain_one_declaration isa_DeclaratorDecl declA)
      as (_ & _ & HrunA).
    destruct (HrunA true _ _ HokA)
      as (Range & HR & Hg & Hrole & _ & B1' & HdeclaratorA & HdeclarationA).
    vm_compute in HR. injection HR as <-.
    then_branch HdeclaratorA. else_branch HdeclarationA.
    destruct HdeclaratorA as (Tokens & B0 & HT & _ & HchA & _).
    vm_compute in HT. injection HT as <-.
    destruct (declaratorChain_one_declaration isa_DeclaratorDecl declB)
      as (_ & _ & HrunB).
    destruct (HrunB true _ _ HokB)
      as (Range & HR & _ & _ & _ & B1'' & HdeclaratorB & HdeclarationB).
    vm_compute in HR. injection HR as <-.
    then_branch HdeclaratorB. then_branch HdeclarationB.
    destruct HdeclaratorB as (Tokens & B0' & HT & HfB & HchB & HPB & _).
    vm_compute in HT. injection HT as <-.
    destruct HdeclarationB
      as (Tokens & Declaration & HT & HD & Hfolds & Hch & HP & _).
    vm_compute in HT. injection HT as <-.
    vm_compute in HD. injection HD as <-.
    rewrite HPB in Hch, HP.
    split; [exact HokA|]. split; [exact Hg|].
    split; [by apply Hrole|]. split; [exact HchA|].
    split; [exact HokB|]. split; [exact HchB|].
    split; [exact Hch|exact HP].
Defined.

(** * The builder's view of the tokens *)

Lemma buildLocationToToken_lookup (Ts : list Token) (first : TokenPtr)
    (m : gmap nat TokenPtr) (L : SourceLocation) :
  buildLocationToToken Ts first m !! L =
    match m !! L with
    | Some t => Some t
    | None => (fun r => first + r.1)
                <$> list_find (fun T => Token_location T = L) Ts
    end.
Proof.
  revert first m. induction Ts as [|T rest IH]; intros first m.
  - simpl. by destruct (m !! L).
  - cbn [buildLocationToToken list_find]. rewrite IH.
    destruct (decide (Token_location T = L)) as [HL|HL].
    + destruct (m !! Token_location T) eqn:Hm.
      * rewrite <- HL, Hm. done.
      * rewrite <- HL, lookup_insert_eq, Hm. simpl. by rewrite Nat.add_0_r.
    + assert (match m !! Token_location T with
              | Some _ => m
              | None => <[Token_location T := first]> m
              end !! L = m !! L) as ->.
      { destruct (m !! Token_location T); [done|].
        by rewrite lookup_insert_ne. }
      destruct (m !! L); [done|].
      destruct (list_find _ rest) as [[i x]|]; simpl; [|done].
      f_equal. lia.
Qed.

Lemma TreeBuilder_new_inv (A : Arena) (B : TreeBuilder) :
  TreeBuilder_new A = Ok B ->
  kindAt A (length (expandedTokens A) - 1) = Ok tok_eof
  /\ B = mkTreeBuilder A
           (Forest_leaves A 0 (length (expandedTokens A) - 1))
           (buildLocationToToken (expandedTokens A) 0 ∅)
           ((fun i => (i, i)) <$> seq 0 (length (expandedTokens A) - 1))
           ∅ (mkMapping ∅ ∅).
Proof.
  unfold TreeBuilder_new, Forest_new. intros Hnew.
  destruct (negb (length (expandedTokens A) =? 0)); [|done].
  cbn [assertR mbind Result_bind] in Hnew.
  destruct (kindAt A (length (expandedTokens A) - 1)) as [k|] eqn:Hk; [|done].
  cbn [mbind Result_bind] in Hnew.
  case_bool_decide as Heof; [|done]. subst k.
  cbn [assertR mbind Result_bind fst snd] in Hnew.
  split; [done|]. by injection Hnew as <-.
Qed.

(** X1: the constructor of the builder succeeds exactly on a token stream
    that ends in [eof]; the builder then holds one pending leaf per token
    before [eof], keyed at its token, detached, original, and modifiable
    when the token is spelled in the source; nothing is mapped or recorded
    yet. *)
Theorem TreeBuilder_new_spec (A : Arena) :
  (isOk (TreeBuilder_new A) = true
   <-> kindAt A (length (expandedTokens A) - 1) = Ok tok_eof)
  /\ forall B : TreeBuilder,
       TreeBuilder_new A = Ok B ->
       TB_Arena B = A
       /\ Pending B
          = (fun i => (i, i)) <$> seq 0 (length (expandedTokens A) - 1)
       /\ length (TB_Heap B) = length (expandedTokens A) - 1
       /\ (forall i : nat,
             i < length (expandedTokens A) - 1 ->
             TB_Heap B !! i
               = Some (mkNode NK_Leaf Detached true
                              (spelledForExpanded A (oneToken i))
                              (LeafBody i)))
       /\ Mapping B = mkMapping ∅ ∅
       /\ DeclsWithoutSemicolons B = ∅.
Proof.
  split.
  - split.
    + destruct (TreeBuilder_new A) as [B|] eqn:Hnew; [|done].
      intros _. by apply TreeBuilder_new_inv in Hnew as [? _].
    + intros Heof. destruct (TreeBuilder_new_Ok A Heof) as (B0 & -> & _).
      done.
  - intros B Hnew. apply TreeBuilder_new_inv in Hnew as [_ ->].
    cbn [TB_Arena Pending TB_Heap Mapping DeclsWithoutSemicolons].
    split_and!; try done.
    + apply Forest_leaves_length.
    + intros i Hi. by rewrite Forest_leaves_lookup.
Qed.

(** X2: in a builder made by the constructor, [findToken] returns the first
    token of the stream that starts at the location; it returns the null
    pointer for the invalid location and fails its assertion when no token
    starts there. *)
Theorem findToken_first_token (A : Arena) (B : TreeBuilder)
    (L : SourceLocation) :
  TreeBuilder_new A = Ok B ->
  findToken B L =
    if Loc_isInvalid L then Ok None
    else match list_find (fun T => Token_location T = L) (expandedTokens A)
         with
         | Some (i, _) => Ok (Some i)
         | None => Abort (AssertionFailure "It != LocationToToken.end()")
         end.
Proof.
  intros Hnew. apply TreeBuilder_new_inv in Hnew as [_ ->].
  unfold findToken. cbn [LocationToToken].
  destruct (Loc_isInvalid L); [done|].
  rewrite buildLocationToToken_lookup, lookup_empty.
  by destruct (list_find _ _) as [[i x]|].
Qed.

Lemma findToken_Some_valid (B : TreeBuilder) (L : SourceLocation) :
  Loc_isValid L = true ->
  findToken B L =
    match LocationToToken B !! L with
    | Some T => Ok (Some T)
    | None => Abort (AssertionFailure "It != LocationToToken.end()")
    end.
Proof.
  unfold findToken, Loc_isValid, Loc_isInvalid. intros HL.
  by destruct (L =? 0).
Qed.

Lemma getRange2_Ok (B : TreeBuilder) (First Last : SourceLocation)
    (Tokens : ArrayRef) :
  getRange2 B First Last = Ok Tokens <->
  Loc_isValid First = true /\ Loc_isValid Last = true
  /\ (First = Last
      \/ isBeforeInTranslationUnit (TB_Arena B) First Last = true)
  /\ exists f l : TokenPtr,
       LocationToToken B !! First = Some f
       /\ LocationToToken B !! Last = Some l
       /\ Tokens = makeArrayRef f (S l).
Proof.
  unfold getRange2. split.
  - intros H.
    destruct (Loc_isValid First) eqn:HF; [|done].
    destruct (Loc_isValid Last) eqn:HL; [|done].
    cbn [assertR mbind Result_bind] in H.
    destruct ((First =? Last) || _) eqn:Hord; [|done].
    cbn [assertR mbind Result_bind] in H.
    rewrite !findToken_Some_valid in H by done.
    destruct (LocationToToken B !! First) as [f|]; [|done].
    destruct (LocationToToken B !! Last) as [l|]; [|done].
    cbn [mbind Result_bind] in H. injection H as <-.
    split_and!; try done.
    + apply orb_true_iff in Hord as [Heq|Hlt]; [left|by right].
      by apply Nat.eqb_eq.
    + by exists f, l.
  - intros (HF & HL & Hord & f & l & Hf & Hl & ->).
    rewrite HF, HL. cbn [assertR mbind Result_bind].
    assert ((First =? Last)
            || isBeforeInTranslationUnit (TB_Arena B) First Last = true)
      as ->.
    { apply orb_true_iff. destruct Hord as [->|Hlt]; [left|by right].
      apply Nat.eqb_refl. }
    cbn [assertR mbind Result_bind].
    rewrite !findToken_Some_valid by done. rewrite Hf, Hl. done.
Qed.

(** X3: in a builder made by the constructor, [getRange(First, Last)]
    succeeds exactly when both locations are valid, equal or in the order
    of the translation unit, and each is the start of a token; the range is
    then made from the first token at [First] and the token after the first
    token at [Last].  It is that one token when the locations are equal,
    and it runs from the token at [First] up to and including the token at
    [Last] when the token at [First] is not after the one that follows the
    token at [Last].  Nothing in [getRange] checks this: the order of the
    locations is the source manager's, and where the token at [First] comes
    later, the size of the range wraps around. *)
Theorem getRange2_spec (A : Arena) (B : TreeBuilder)
    (First Last : SourceLocation) (Tokens : ArrayRef) :
  TreeBuilder_new A = Ok B ->
  (getRange2 B First Last = Ok Tokens <->
   First ≠ InvalidLoc /\ Last ≠ InvalidLoc
   /\ (First = Last \/ isBeforeInTranslationUnit A First Last = true)
   /\ exists (f l : TokenPtr) (Tf Tl : Token),
        list_find (fun T => Token_location T = First) (expandedTokens A)
          = Some (f, Tf)
        /\ list_find (fun T => Token_location T = Last) (expandedTokens A)
           = Some (l, Tl)
        /\ Tokens = makeArrayRef f (S l))
  /\ (getRange2 B First Last = Ok Tokens -> First = Last ->
      exists f : TokenPtr,
        Tokens = oneToken f /\ f < length (expandedTokens A))
  /\ (forall (f l : TokenPtr) (Tf Tl : Token),
        getRange2 B First Last = Ok Tokens ->
        list_find (fun T => Token_location T = First) (expandedTokens A)
          = Some (f, Tf) ->
        list_find (fun T => Token_location T = Last) (expandedTokens A)
          = Some (l, Tl) ->
        ArrayRef_begin Tokens = f
        /\ (f <= S l ->
            ArrayRef_end Tokens = S l /\ ArrayRef_size Tokens = S l - f)
        /\ (S l < f -> ArrayRef_size Tokens = 2 ^ 64 - (f - S l))).
Proof.
  intros Hnew. apply TreeBuilder_new_inv in Hnew as [_ ->].
  assert (forall L t,
            buildLocationToToken (expandedTokens A) 0 ∅ !! L = Some t
            <-> exists T, list_find (fun T => Token_location T = L)
                            (expandedTokens A) = Some (t, T)) as Hfind.
  { intros L t. rewrite buildLocationToToken_lookup, lookup_empty.
    destruct (list_find _ _) as [[i x]|]; simpl.
    - split; [intros [= <-]; by exists x|intros (T & [= <- <-]); done].
    - split; [done|by intros (T & ?)]. }
  assert (forall L, Loc_isValid L = true <-> L ≠ InvalidLoc) as Hvalid.
  { intros L. unfold Loc_isValid, InvalidLoc.
    rewrite negb_true_iff, Nat.eqb_neq. done. }
  split_and!.
  - rewrite getRange2_Ok. cbn [TB_Arena LocationToToken].
    rewrite !Hvalid. split.
    + intros (HF & HL & Hord & f & l & Hf & Hl & ->).
      apply Hfind in Hf as (Tf & Hf). apply Hfind in Hl as (Tl & Hl).
      split_and!; try done. by exists f, l, Tf, Tl.
    + intros (HF & HL & Hord & f & l & Tf & Tl & Hf & Hl & ->).
      split_and!; try done. exists f, l. split_and!; [| |done].
      * apply Hfind. by exists Tf.
      * apply Hfind. by exists Tl.
  - intros Hrange <-. apply getRange2_Ok in Hrange
      as (_ & _ & _ & f & l & Hf & Hl & ->).
    cbn [LocationToToken] in Hf, Hl. rewrite Hf in Hl. injection Hl as <-.
    exists f. split.
    + rewrite makeArrayRef_le by lia. unfold oneToken. f_equal. lia.
    + apply Hfind in Hf as (Tf & Hf).
      apply list_find_Some in Hf as (Hf & _). by apply lookup_lt_Some in Hf.
  - intros f l Tf Tl Hrange Hf Hl. apply getRange2_Ok in Hrange
      as (_ & _ & _ & f' & l' & Hf' & Hl' & ->).
    cbn [LocationToToken] in Hf', Hl'.
    apply Hfind in Hf' as (Tf' & Hf'). apply Hfind in Hl' as (Tl' & Hl').
    rewrite Hf in Hf'. rewrite Hl in Hl'.
    injection Hf' as <- <-. injection Hl' as <- <-.
    split_and!; [done| |].
    + intros Hle. rewrite makeArrayRef_le by done.
      unfold ArrayRef_end, ArrayRef_size.
      cbn [ArrayRef_Data ArrayRef_Length]. lia.
    + intros Hlt. unfold makeArrayRef, ArrayRef_size.
      cbn [ArrayRef_Length]. by rewrite (proj2 (Nat.ltb_lt (S l) f) Hlt).
Qed.

(** ** Ranges of statements *)

Lemma withTrailingSemicolon_Ok (B : TreeBuilder) (Tokens R : ArrayRef) :
  withTrailingSemicolon B Tokens = Ok R ->
  exists back : TokenKind,
    ArrayRef_empty Tokens = false
    /\ kindAt (TB_Arena B) (ArrayRef_end Tokens - 1) = Ok back
    /\ back ≠ tok_eof
    /\ (back = tok_semi /\ R = Tokens
        \/ back ≠ tok_semi
           /\ exists next : TokenKind,
                kindAt (TB_Arena B) (ArrayRef_end Tokens) = Ok next
                /\ (next = tok_semi /\ R = appendOne Tokens
                    \/ next ≠ tok_semi /\ R = Tokens)).
Proof.
  unfold withTrailingSemicolon, backKind. intros H.
  destruct (ArrayRef_empty Tokens) eqn:He; [done|].
  cbn [negb assertR mbind Result_bind] in H.
  destruct (kindAt (TB_Arena B) (ArrayRef_end Tokens - 1)) as [back|];
    [|done].
  cbn [mbind Result_bind] in H.
  destruct (decide (back = tok_eof)) as [Heof|Heof].
  { by rewrite (bool_decide_eq_true_2 (back = tok_eof)) in H. }
  rewrite (bool_decide_eq_false_2 (back = tok_eof)) in H by done.
  cbn [negb assertR mbind Result_bind] in H.
  exists back. split_and!; try done.
  case_bool_decide as Hsemi.
  - left. by injection H as <-.
  - right. split; [done|].
    destruct (kindAt (TB_Arena B) (ArrayRef_end Tokens)) as [next|]; [|done].
    cbn [mbind Result_bind] in H. exists next. split; [done|].
    case_bool_decide as Hnext; injection H as <-; [left|by right].
    split; [done|]. apply makeArrayRef_appendOne.
Qed.

(** X4: the range of a statement that is not a compound statement is the
    range of its source locations, with the next token appended exactly
    when that token is a semicolon and the statement does not end in one
    already.  The range never ends in [eof]: it ends in a semicolon, or the
    token after it is not a semicolon. *)
Theorem getStmtRange_ends (B : TreeBuilder) (S : Stmt) (R : ArrayRef) :
  isa_CompoundStmt S = false ->
  getStmtRange B S = Ok R ->
  exists (Tokens : ArrayRef) (back : TokenKind),
    getRange B (Stmt_getSourceRange S) = Ok Tokens
    /\ (R = Tokens \/ R = appendOne Tokens)
    /\ backKind (TB_Arena B) R = Ok back
    /\ back ≠ tok_eof
    /\ (back = tok_semi
        \/ exists next : TokenKind,
             kindAt (TB_Arena B) (ArrayRef_end R) = Ok next
             /\ next ≠ tok_semi /\ R = Tokens).
Proof.
  unfold getStmtRange. intros Hc H. rewrite Hc in H.
  destruct (getRange B (Stmt_getSourceRange S)) as [Tokens|]; [|done].
  cbn [mbind Result_bind] in H.
  destruct (backKind (TB_Arena B) Tokens) as [back|] eqn:Hback; [|done].
  cbn [mbind Result_bind] in H. exists Tokens.
  case_bool_decide as Hsemi.
  - injection H as <-. exists back. subst back.
    split_and!; try done; by left.
  - apply withTrailingSemicolon_Ok in H
      as (back' & He & Hk & Heof & Hcases).
    unfold backKind in Hback. rewrite He, Hk in Hback.
    injection Hback as ->.
    destruct Hcases as [[? _]|(_ & next & Hn & [[-> ->]|[Hns ->]])];
      [done| |].
    + exists tok_semi. split_and!; try done; [by right| |by left].
      unfold backKind, appendOne, ArrayRef_empty, ArrayRef_end.
      cbn [ArrayRef_Length ArrayRef_Data].
      replace (ArrayRef_Length Tokens + 1 =? 0) with false
        by (symmetry; apply Nat.eqb_neq; lia).
      replace (ArrayRef_Data Tokens + (ArrayRef_Length Tokens + 1) - 1)
        with (ArrayRef_end Tokens) by (unfold ArrayRef_end; lia).
      done.
    + exists back. split_and!; try done; [by left| |].
      * unfold backKind. by rewrite He, Hk.
      * right. by exists next.
Qed.

(** * What every call of the visitor keeps *)

Lemma markStmtChild_grows (Child : Stmt) (R : NodeRole) (u : unit)
    (B B' : TreeBuilder) :
  markStmtChild (Some Child) R B = Ok (u, B') ->
  if isa_Expr Child then
    exists (E : NodePtr) (Range : ArrayRef) (B1 B2 B3 : TreeBuilder),
      Mapping_find B (ofStmt (IgnoreImplicit Child)) = Some E
      /\ markExprChild (Some Child) ExpressionStatement_expression B
         = Ok (tt, B1)
      /\ allocate NK_ExpressionStatement B1 = Ok (length (TB_Heap B), B2)
      /\ getStmtRange B Child = Ok Range
      /\ Pending_foldChildren Range (length (TB_Heap B)) B2 = Ok (tt, B3)
      /\ setRole (length (TB_Heap B)) R B3 = Ok (tt, B')
      /\ grows [NK_ExpressionStatement] B B'
      /\ roleIs B' E ExpressionStatement_expression
      /\ roleIs B' (length (TB_Heap B)) R
      /\ Mapping B' = Mapping B
  else
    exists N : NodePtr,
      Mapping_find B (ofStmt Child) = Some N
      /\ grows [] B B' /\ roleIs B' N R /\ Pending B' = Pending B
      /\ Mapping B' = Mapping B.
Proof.
  unfold markStmtChild. intros H.
  destruct (isa_Expr Child) eqn:HE.
  - apply bind_Ok in H as (CN & B4 & H & Hset).
    apply bind_Ok in H as ([] & B1 & Hmark & H).
    apply bind_Ok in H as (New & B2 & Halloc & H).
    apply bind_Ok in H as (Range & B2' & Hrange & H).
    apply readB_Ok in Hrange as [Hrange ->].
    apply bind_Ok in H as ([] & B3 & Hfold & H).
    apply mret_Ok in H as [-> ->].
    destruct (markExprChild_grows _ _ _ _ _ Hmark) as (G1 & HP1 & E & HfE & HrE).
    destruct (allocate_grows _ _ _ _ Halloc) as (G2 & -> & HP2).
    pose proof (Pending_foldChildren_grows _ _ _ _ _ Hfold) as G3.
    destruct u. destruct (setRole_grows _ _ _ _ _ Hset) as [G4 Hrole].
    assert (length (TB_Heap B1) = length (TB_Heap B)) as Hlen.
    { apply grows_length in G1. simpl in G1. lia. }
    rewrite Hlen in *.
    exists E, Range, B1, B2, B3.
    assert (getStmtRange B2 Child = getStmtRange B Child) as HR.
    { destruct G1 as (Ha1 & Hl1 & _), G2 as (Ha2 & Hl2 & _).
      apply getStmtRange_input; congruence. }
    rewrite HR in Hrange.
    split_and!; try done.
    + pose proof (grows_trans _ _ _ _ _ G1 G2) as G12.
      pose proof (grows_trans _ _ _ _ _ G12 G3) as G123.
      pose proof (grows_trans _ _ _ _ _ G123 G4) as G. exact G.
    + pose proof (grows_trans _ _ _ _ _ G2 G3) as G23.
      pose proof (grows_trans _ _ _ _ _ G23 G4) as G.
      by eapply grows_roleIs.
    + apply setRole_Ok in Hset as (? & _ & _ & ->).
      apply Pending_foldChildren_Ok in Hfold as (? & ? & _ & ->).
      apply allocate_Ok in Halloc as [_ ->].
      unfold markExprChild in Hmark.
      apply bind_Ok in Hmark as (SN & ? & Hr & Hs).
      apply readB_Ok in Hr as [_ ->].
      destruct SN; [|by apply liftR_Ok in Hs as [? _]].
      apply setRole_Ok in Hs as (? & _ & _ & ->). done.
  - apply bind_Ok in H as (CN & B1 & Hfind & Hset).
    apply readB_Ok in Hfind as [Hfind ->]. injection Hfind as HN.
    destruct CN as [N|]; [|by apply liftR_Ok in Hset as [? _]].
    destruct u. destruct (setRole_grows _ _ _ _ _ Hset) as [G Hrole].
    exists N. split_and!; try done.
    + apply setRole_quiet in Hset. by destruct Hset as (_ & _ & -> & _).
    + by apply setRole_Ok in Hset as (? & _ & _ & ->).
Qed.

Lemma foldNode_NNS_grows (Range : ArrayRef) (New : NodePtr)
    (From : NestedNameSpecifierLoc) (u : unit) (B B' : TreeBuilder) :
  foldNode_NNS Range New From B = Ok (u, B') -> grows [] B B'.
Proof.
  unfold foldNode_NNS. intros H.
  apply bind_Ok in H as ([] & B1 & Hfold & H).
  pose proof (Pending_foldChildren_grows _ _ _ _ _ Hfold) as G1.
  destruct (NNSLoc_hasQualifier From).
  - pose proof (Mapping_addNNS_grows _ _ _ _ _ H) as G2.
    exact (grows_trans _ _ _ _ _ G1 G2).
  - by apply mret_Ok in H as [_ ->].
Qed.

Lemma markChild_AST_grows (N : ASTPtr) (R : NodeRole) (u : unit)
    (B B' : TreeBuilder) :
  markChild_AST N R B = Ok (u, B') -> grows [] B B'.
Proof.
  unfold markChild_AST. intros H.
  apply bind_Ok in H as (SN & B1 & Hr & H).
  apply readB_Ok in Hr as [_ ->].
  destruct SN; [|by apply liftR_Ok in H as [? _]].
  by apply setRole_grows in H as [? _].
Qed.

Lemma noticeDeclWithoutSemicolon_grows (D : nat) (u : unit)
    (B B' : TreeBuilder) :
  noticeDeclWithoutSemicolon D B = Ok (u, B') -> grows [] B B'.
Proof.
  unfold noticeDeclWithoutSemicolon. intros [= ?]. subst B'.
  unfold grows, rolesPersist, withDeclsWithoutSemicolons.
  cbn [TB_Arena LocationToToken TB_Heap Mapping DeclsWithoutSemicolons].
  split_and!; [done|done|by rewrite app_nil_r| |done|set_solver].
  intros q Nd Hq _. by rewrite Hq.
Qed.

Lemma runCall_grows (c : BuilderCall) (B B' : TreeBuilder) :
  runCall c B = Ok (tt, B') -> grows (callKinds c) B B'.
Proof.
  destruct c as [Range K From|Range K From|K|T R|Loc R|N R|N R|N R|Child R
                |Child R|D]; cbn [runCall callKinds]; intros H.
  - apply bind_Ok in H as (New & B1 & Halloc & Hfold).
    by destruct (allocate_foldNode_grows _ _ _ _ _ _ _ _ Halloc Hfold)
      as [G _].
  - apply bind_Ok in H as (New & B1 & Halloc & Hfold).
    apply allocate_grows in Halloc as (G1 & _ & _).
    apply foldNode_NNS_grows in Hfold.
    exact (grows_trans _ _ _ _ _ G1 Hfold).
  - apply bind_Ok in H as (New & B1 & Halloc & H).
    apply mret_Ok in H as [_ ->].
    by apply allocate_grows in Halloc as (G1 & _ & _).
  - destruct T as [T|]; cbn [markChildToken] in H.
    + by apply Pending_assignRole_grows in H as [G _].
    + apply mret_Ok in H as [_ ->]. apply grows_refl.
  - by apply markChildToken_Loc_grows in H as [G _].
  - by apply setRole_grows in H as [G _].
  - by apply markChild_AST_grows in H.
  - by apply markChild_NNS_grows in H.
  - destruct Child as [Child|].
    + apply markStmtChild_grows in H. destruct (isa_Expr Child).
      * by destruct H as (E & Range & B1 & B2 & B3 & _ & _ & _ & _ & _ & _
                          & G & _).
      * by destruct H as (N & _ & G & _).
    + cbn [markStmtChild] in H. apply mret_Ok in H as [_ ->].
      apply grows_refl.
  - destruct Child as [Child|].
    + by apply markExprChild_grows in H as [G _].
    + cbn [markExprChild] in H. apply mret_Ok in H as [_ ->].
      apply grows_refl.
  - by apply noticeDeclWithoutSemicolon_grows in H.
Qed.

Lemma runCalls_grows_kinds (cs : list BuilderCall) (B B' : TreeBuilder) :
  runCalls cs B = Ok (tt, B') -> grows (concat (callKinds <$> cs)) B B'.
Proof.
  revert B. induction cs as [|c rest IH]; intros B H.
  - apply mret_Ok in H as [_ ->]. apply grows_refl.
  - cbn [runCalls] in H. apply bind_Ok in H as ([] & B1 & Hc & Hrest).
    apply runCall_grows in Hc. apply IH in Hrest.
    rewrite fmap_cons. cbn [concat].
    exact (grows_trans _ _ _ _ _ Hc Hrest).
Qed.

(** X6: an AST node is folded once.  After [foldNode] has folded a range
    for the AST node [K], the node it was folded into is the one the
    mapping returns for [K] in every later state of the builder, and a
    second [foldNode] for [K] never succeeds. *)
Theorem foldNode_maps_once (Range : ArrayRef) (New : NodePtr) (K : ASTKey)
    (cs : list BuilderCall) (B B1 B2 : TreeBuilder) :
  foldNode Range New (Some K) B = Ok (tt, B1) ->
  runCalls cs B1 = Ok (tt, B2) ->
  Mapping_find B (Some K) = None
  /\ Mapping_find B2 (Some K) = Some New
  /\ forall (Range' : ArrayRef) (New' : NodePtr),
       isOk (foldNode Range' New' (Some K) B2) = false.
Proof.
  intros Hfold Hcalls.
  destruct (foldNode_grows _ _ _ _ _ _ Hfold) as [_ Hfind].
  specialize (Hfind (ltac:(by eexists))).
  apply runCalls_grows_kinds in Hcalls as G.
  pose proof (grows_Mapping_find _ _ _ _ _ G Hfind) as Hfind2.
  split_and!; [|done|].
  - unfold foldNode in Hfold.
    apply bind_Ok in Hfold as ([] & B0 & Hf & Hadd).
    apply Mapping_add_Ok in Hadd as (K' & [= <-] & Hnone & _).
    apply Pending_foldChildren_Ok in Hf as (? & ? & _ & ->). done.
  - intros Range' New'. unfold foldNode.
    destruct (Pending_foldChildren Range' New' B2) as [[[] B3]|] eqn:Hf.
    + rewrite (bind_run _ _ _ _ _ Hf).
      apply Pending_foldChildren_Ok in Hf as (? & ? & _ & ->).
      unfold Mapping_add. cbn [Mapping withForest].
      cbn [Mapping_find] in Hfind2. by rewrite Hfind2.
    + unfold mbind, M_bind. by rewrite Hf.
Qed.

(** X7: a role is assigned once.  After [markChild] has given a node a
    role other than [Detached], the node has that role in every later state
    of the builder, and every further attempt to give it a role fails the
    assertion of [setRole]. *)
Theorem markChild_once (N : NodePtr) (R : NodeRole)
    (cs : list BuilderCall) (B B1 B2 : TreeBuilder) :
  R ≠ Detached ->
  markChild N R B = Ok (tt, B1) ->
  runCalls cs B1 = Ok (tt, B2) ->
  roleIs B N Detached
  /\ roleIs B2 N R
  /\ forall R' : NodeRole,
       markChild N R' B2
       = Abort (AssertionFailure "N->role() == NodeRole::Detached").
Proof.
  intros HR Hmark Hcalls. unfold markChild in *.
  destruct (setRole_grows _ _ _ _ _ Hmark) as [_ Hrole].
  apply runCalls_grows_kinds in Hcalls as G.
  pose proof (grows_roleIs _ _ _ _ _ G HR Hrole) as Hrole2.
  split_and!; [|done|].
  - apply setRole_Ok in Hmark as (Nd & HN & Hd & _).
    unfold roleIs. by rewrite HN, <- Hd.
  - intros R'. unfold setRole, role. unfold roleIs in Hrole2.
    destruct (TB_Heap B2 !! N) as [Nd|]; [|done].
    injection Hrole2 as ->. by rewrite bool_decide_eq_false_2.
Qed.

(** * Children are attached *)

Lemma preserves_ret {X} (I : TreeBuilder -> Prop) (x : X) :
  preserves I (mret x).
Proof. intros B x' B' HI H. by apply mret_Ok in H as [_ ->]. Qed.

Lemma preserves_bind {X Y} (I : TreeBuilder -> Prop) (m : M X)
    (k : X -> M Y) :
  preserves I m -> (forall x, preserves I (k x)) -> preserves I (m ≫= k).
Proof.
  intros Hm Hk B y B' HI H. apply bind_Ok in H as (x & B1 & H1 & H2).
  eapply Hk; [|exact H2]. eapply Hm; [exact HI|exact H1].
Qed.

Lemma preserves_liftR {X} (I : TreeBuilder -> Prop) (r : Result X) :
  preserves I (liftR r).
Proof. intros B x B' HI H. by apply liftR_Ok in H as [_ ->]. Qed.

Lemma preserves_readB {X} (I : TreeBuilder -> Prop)
    (f : TreeBuilder -> Result X) :
  preserves I (readB f).
Proof. intros B x B' HI H. by apply readB_Ok in H as [_ ->]. Qed.

Lemma preserves_assertM (I : TreeBuilder -> Prop) (c : bool) (msg : string) :
  preserves I (assertM c msg).
Proof. intros B x B' HI H. by apply assertM_Ok in H as [_ ->]. Qed.

Lemma elem_of_map_insert (k : TokenPtr) (v : NodePtr) (Trees : Forest)
    (x : TokenPtr * NodePtr) :
  x ∈ map_insert k v Trees -> x = (k, v) \/ x ∈ Trees.
Proof.
  induction Trees as [|[k' v'] rest IH]; cbn [map_insert].
  - rewrite list_elem_of_singleton. by left.
  - destruct (k <? k'); [|destruct (k =? k')].
    + rewrite elem_of_cons. intros [->|H]; [by left|by right].
    + by right.
    + rewrite !elem_of_cons. intros [->|H]; [right; by left|].
      destruct (IH H) as [->|Hr]; [by left|right; by right].
Qed.

Lemma elem_of_map_erase (b e : nat) (Trees : Forest)
    (x : TokenPtr * NodePtr) :
  x ∈ map_erase b e Trees -> x ∈ Trees.
Proof.
  unfold map_erase. rewrite elem_of_app. intros [H|H].
  - by apply (subseteq_take b Trees).
  - by apply (subseteq_drop e Trees).
Qed.

Lemma elem_of_map_range (b e : nat) (Trees : Forest)
    (x : TokenPtr * NodePtr) :
  x ∈ map_range b e Trees -> x ∈ Trees.
Proof.
  unfold map_range. intros H.
  apply (subseteq_drop b Trees). by apply (subseteq_take (e - b) _).
Qed.

Lemma attached_mono (H H' : Heap) (c : NodePtr) :
  (forall Nc, H !! c = Some Nc ->
     exists Nc', H' !! c = Some Nc'
       /\ (Node_role Nc ≠ Detached -> Node_role Nc' ≠ Detached)
       /\ (Node_Original Nc = true -> Node_Original Nc' = true)) ->
  attached H c -> attached H' c.
Proof.
  intros Hm (Nc & Hc & Hr & Ho). destruct (Hm Nc Hc) as (Nc' & Hc' & Hr' & Ho').
  exists Nc'. split_and!; [done|by apply Hr'|by apply Ho'].
Qed.

Lemma treeInv_allocate (H : Heap) (Trees : Forest) (K : NodeKind) :
  treeInv H Trees -> treeInv (H ++ [newTree K]) Trees.
Proof.
  intros [Hent Hch]. split.
  - intros k p Hp. destruct (Hent k p Hp) as (N & HN & Ho).
    exists N. split; [by apply lookup_app_l_Some|done].
  - intros p N Cs c Hp Hb Hc.
    apply lookup_app_Some in Hp as [Hp|[_ Hp]].
    + eapply attached_mono; [|by eapply Hch].
      intros Nc HNc. exists Nc. split_and!; [by apply lookup_app_l_Some|done..].
    + apply list_lookup_singleton_Some in Hp as [_ <-].
      cbn in Hb. injection Hb as <-. by apply elem_of_nil in Hc.
Qed.

Lemma treeInv_setRole (H : Heap) (Trees : Forest) (R : NodeRole)
    (N : NodePtr) (Nd : Node) :
  H !! N = Some Nd -> Node_role Nd = Detached ->
  treeInv H Trees -> treeInv (alter (setRole_node R) N H) Trees.
Proof.
  intros HN Hd [Hent Hch]. split.
  - intros k p Hp. destruct (Hent k p Hp) as (Np & HNp & Ho).
    rewrite list_lookup_alter. case_decide as Heq.
    + subst p. rewrite HN. rewrite HN in HNp. injection HNp as <-.
      eexists. split; [done|]. done.
    + by exists Np.
  - intros p Np Cs c Hp Hb Hc.
    assert (exists Np0, H !! p = Some Np0 /\ Node_body Np0 = TreeBody Cs)
      as (Np0 & Hp0 & Hb0).
    { rewrite list_lookup_alter in Hp. case_decide as Heq.
      - subst p. rewrite HN in Hp. injection Hp as <-. by exists Nd.
      - by exists Np. }
    destruct (Hch p Np0 Cs c Hp0 Hb0 Hc) as (Nc & HNc & Hr & Ho).
    exists Nc. split_and!; [|done..].
    rewrite list_lookup_alter_ne; [done|]. intros <-. congruence.
Qed.

Lemma unknownIfDetached_ne (R : NodeRole) : unknownIfDetached R ≠ Detached.
Proof. unfold unknownIfDetached. by case_bool_decide. Qed.

Lemma treeInv_foldChildren (A : Arena) (Tokens : ArrayRef) (New : NodePtr)
    (H H' : Heap) (Trees Trees' : Forest) :
  treeInv H Trees ->
  Forest_foldChildren A Tokens New H Trees = Ok (H', Trees') ->
  treeInv H' Trees'.
Proof.
  intros [Hent Hch] Hfold.
  apply Forest_foldChildren_Ok in Hfold
    as ((N0 & HN0 & Hb0) & _ & _ & -> & H1 & -> & Hlook).
  set (Cs := reverse (map_range (lower_bound Trees (ArrayRef_begin Tokens))
                                (lower_bound Trees (ArrayRef_end Tokens))
                                Trees).*2) in *.
  assert (forall q Nq, H !! q = Some Nq ->
            exists Nq',
              alter (setFlags_node true (spelledForExpanded A Tokens)) New H1
                !! q = Some Nq'
              /\ Node_role Nq'
                 = (if bool_decide (q ∈ Cs) then unknownIfDetached (Node_role Nq)
                    else Node_role Nq)
              /\ (Node_Original Nq = true \/ q = New -> Node_Original Nq' = true)
              /\ Node_body Nq'
                 = (if bool_decide (q = New)
                    then match Node_body Nq with
                         | TreeBody Ch => TreeBody (reverse Cs ++ Ch)
                         | LeafBody T => LeafBody T
                         end
                    else Node_body Nq)) as Hstep.
  { intros q Nq Hq. rewrite list_lookup_alter, !Hlook.
    case_decide as Heq.
    - subst q. rewrite Hq. eexists. split; [done|].
      cbn [setFlags_node afterAttach Node_role Node_Original Node_body].
      split_and!; done.
    - rewrite Hq. eexists. split; [done|].
      cbn [afterAttach Node_role Node_Original Node_body].
      split_and!; [done| |done]. intros [?|?]; [done|congruence]. }
  assert (forall q Nq',
            alter (setFlags_node true (spelledForExpanded A Tokens)) New H1
              !! q = Some Nq' -> exists Nq, H !! q = Some Nq) as Hback.
  { intros q Nq'. rewrite list_lookup_alter, !Hlook. intros Hq.
    destruct (H !! q) as [Nq|] eqn:E; [by exists Nq|].
    case_decide as Heq; [subst q|]; rewrite ?E, ?HN0 in Hq; try done. }
  assert (forall c, c ∈ Cs -> exists k, (k, c) ∈ Trees) as HCs.
  { intros c Hc. unfold Cs in Hc.
    apply elem_of_reverse, list_elem_of_fmap in Hc as ([k c'] & -> & Hin).
    exists k. by apply elem_of_map_range in Hin. }
  split.
  - intros k p Hp. apply elem_of_map_insert in Hp as [[= -> ->]|Hp].
    + destruct (Hstep New N0 HN0) as (N' & HN' & _ & Ho & _).
      exists N'. split; [done|]. apply Ho. by right.
    + apply elem_of_map_erase in Hp.
      destruct (Hent k p Hp) as (Np & HNp & HoNp).
      destruct (Hstep p Np HNp) as (N' & HN' & _ & Ho & _).
      exists N'. split; [done|]. apply Ho. by left.
  - intros p Np' Cs' c Hp Hb Hc.
    destruct (Hback p Np' Hp) as (Np & HNp).
    destruct (Hstep p Np HNp) as (Np'' & HNp'' & _ & _ & Hbody).
    rewrite Hp in HNp''. injection HNp'' as <-.
    rewrite Hb in Hbody.
    assert (attached H c /\ True \/ c ∈ Cs) as Hcase.
    { case_bool_decide as Heq.
      - subst p. rewrite HN0 in HNp. injection HNp as <-.
        rewrite Hb0 in Hbody. injection Hbody as ->.
        rewrite app_nil_r, elem_of_reverse in Hc. by right.
      - left. split; [|done]. eapply Hch; [exact HNp|by symmetry|exact Hc]. }
    destruct Hcase as [[(Nc & HNc & Hr & Ho) _]|HcCs].
    + destruct (Hstep c Nc HNc) as (Nc' & HNc' & Hr' & Ho' & _).
      exists Nc'. split_and!; [done| |by apply Ho'; left].
      rewrite Hr'. case_bool_decide; [apply unknownIfDetached_ne|done].
    + destruct (HCs c HcCs) as (k & Hk).
      destruct (Hent k c Hk) as (Nc & HNc & Ho).
      destruct (Hstep c Nc HNc) as (Nc' & HNc' & Hr' & Ho' & _).
      exists Nc'. split_and!; [done| |by apply Ho'; left].
      rewrite Hr', bool_decide_eq_true_2 by done. apply unknownIfDetached_ne.
Qed.

Lemma allocate_treeInv (K : NodeKind) : preserves builderTreeInv (allocate K).
Proof.
  intros B p B' HI H. apply allocate_Ok in H as [_ ->].
  by apply treeInv_allocate.
Qed.

Lemma setRole_treeInv (N : NodePtr) (R : NodeRole) :
  preserves builderTreeInv (setRole N R).
Proof.
  intros B [] B' HI H. apply setRole_Ok in H as (Nd & HN & Hd & ->).
  by eapply treeInv_setRole.
Qed.

Lemma Pending_assignRole_treeInv (Range : ArrayRef) (R : NodeRole) :
  preserves builderTreeInv (Pending_assignRole Range R).
Proof.
  intros B [] B' HI H.
  apply Pending_assignRole_Ok in H as (N & Nd & _ & HN & Hd & ->).
  by eapply treeInv_setRole.
Qed.

Lemma Pending_foldChildren_treeInv (Tokens : ArrayRef) (New : NodePtr) :
  preserves builderTreeInv (Pending_foldChildren Tokens New).
Proof.
  intros B [] B' HI H.
  apply Pending_foldChildren_Ok in H as (H' & F' & Hfold & ->).
  by eapply treeInv_foldChildren.
Qed.

Lemma Mapping_add_treeInv (From : ASTPtr) (To : NodePtr) :
  preserves builderTreeInv (Mapping_add From To).
Proof.
  intros B [] B' HI H. by apply Mapping_add_Ok in H as (K & _ & _ & ->).
Qed.

Lemma Mapping_addNNS_treeInv (From : NestedNameSpecifierLoc) (To : NodePtr) :
  preserves builderTreeInv (Mapping_addNNS From To).
Proof. intros B [] B' HI H. by apply Mapping_addNNS_Ok in H as ->. Qed.

Lemma noticeDeclWithoutSemicolon_treeInv (D : nat) :
  preserves builderTreeInv (noticeDeclWithoutSemicolon D).
Proof. intros B [] B' HI [= ?]. by subst B'. Qed.

Create HintDb treeInv discriminated.
#[local] Hint Resolve preserves_ret preserves_liftR preserves_readB
  preserves_assertM allocate_treeInv setRole_treeInv
  Pending_assignRole_treeInv Pending_foldChildren_treeInv
  Mapping_add_treeInv Mapping_addNNS_treeInv
  noticeDeclWithoutSemicolon_treeInv : treeInv.

(** Splits a computation at its binds and branches and closes the parts by
    the lemmas of the database. *)
Ltac preserves_step :=
  match goal with
  | |- preserves _ (mbind _ _) => apply preserves_bind; [|intros ?]
  | |- preserves _ (if ?b then _ else _) => destruct b
  | |- preserves _ (match ?x with Some _ => _ | None => _ end) => destruct x
  | |- preserves _ (match ?x with true => _ | false => _ end) => destruct x
  | |- preserves _ _ => solve [eauto with treeInv]
  end.
Ltac preserves_tac := repeat preserves_step.

Lemma foldNode_treeInv (Range : ArrayRef) (New : NodePtr) (From : ASTPtr) :
  preserves builderTreeInv (foldNode Range New From).
Proof. unfold foldNode. preserves_tac. Qed.

Lemma foldNode_NNS_treeInv (Range : ArrayRef) (New : NodePtr)
    (From : NestedNameSpecifierLoc) :
  preserves builderTreeInv (foldNode_NNS Range New From).
Proof. unfold foldNode_NNS. preserves_tac. Qed.

Lemma markChildToken_treeInv (T : option TokenPtr) (R : NodeRole) :
  preserves builderTreeInv (markChildToken T R).
Proof. unfold markChildToken. preserves_tac. Qed.

Lemma markChildToken_Loc_treeInv (Loc : SourceLocation) (R : NodeRole) :
  preserves builderTreeInv (markChildToken_Loc Loc R).
Proof. unfold markChildToken_Loc. preserves_tac. Qed.

Lemma markChild_AST_treeInv (N : ASTPtr) (R : NodeRole) :
  preserves builderTreeInv (markChild_AST N R).
Proof. unfold markChild_AST. preserves_tac. Qed.

Lemma markChild_NNS_treeInv (N : NestedNameSpecifierLoc) (R : NodeRole) :
  preserves builderTreeInv (markChild_NNS N R).
Proof. unfold markChild_NNS. preserves_tac. Qed.

Lemma markExprChild_treeInv (Child : option Stmt) (R : NodeRole) :
  preserves builderTreeInv (markExprChild Child R).
Proof. unfold markExprChild. preserves_tac. Qed.

#[local] Hint Resolve foldNode_treeInv foldNode_NNS_treeInv
  markChildToken_treeInv markChildToken_Loc_treeInv markChild_AST_treeInv
  markChild_NNS_treeInv markExprChild_treeInv : treeInv.

Lemma markStmtChild_treeInv (Child : option Stmt) (R : NodeRole) :
  preserves builderTreeInv (markStmtChild Child R).
Proof. unfold markStmtChild. preserves_tac. Qed.

#[local] Hint Resolve markStmtChild_treeInv : treeInv.

Lemma runCall_treeInv (c : BuilderCall) :
  preserves builderTreeInv (runCall c).
Proof. destruct c; cbn [runCall]; unfold markChild; preserves_tac. Qed.

Lemma runCalls_treeInv (cs : list BuilderCall) :
  preserves builderTreeInv (runCalls cs).
Proof.
  induction cs as [|c rest IH]; cbn [runCalls].
  - apply preserves_ret.
  - apply preserves_bind; [apply runCall_treeInv|intros _; exact IH].
Qed.

Lemma TreeBuilder_new_treeInv (A : Arena) (B : TreeBuilder) :
  TreeBuilder_new A = Ok B -> builderTreeInv B.
Proof.
  intros Hnew. apply TreeBuilder_new_inv in Hnew as [_ ->].
  unfold builderTreeInv. cbn [TB_Heap Pending]. split.
  - intros k p Hp. apply list_elem_of_fmap in Hp as (i & [= -> ->] & Hi).
    apply elem_of_seq in Hi. rewrite Forest_leaves_lookup by lia.
    eexists. split; [done|]. done.
  - intros p N Cs c Hp Hb.
    assert (p < length (expandedTokens A) - 1) as Hlt.
    { apply lookup_lt_Some in Hp. by rewrite Forest_leaves_length in Hp. }
    rewrite Forest_leaves_lookup in Hp by done. injection Hp as <-. done.
Qed.

Lemma finalize_treeInv (B B' : TreeBuilder) (Root : NodePtr) :
  builderTreeInv B -> finalize B = Ok (Root, B') ->
  treeInv (TB_Heap B') [] /\ kindIs B' Root NK_TranslationUnit.
Proof.
  intros HI H. unfold finalize in H.
  apply bind_Ok in H as (A & B1 & Hr & H). apply readB_Ok in Hr as [_ ->].
  apply bind_Ok in H as ([] & B1 & Hr & H). apply assertM_Ok in Hr as [_ ->].
  apply bind_Ok in H as (k & B1 & Hr & H). apply liftR_Ok in Hr as [_ ->].
  apply bind_Ok in H as ([] & B1 & Hr & H). apply assertM_Ok in Hr as [_ ->].
  apply bind_Ok in H as (Range & B1 & Hr & H). apply liftR_Ok in Hr as [_ ->].
  apply bind_Ok in H as (TU & B1 & Halloc & H).
  apply allocate_treeInv in Halloc; [|done].
  apply bind_Ok in H as ([] & B2 & Hfold & H).
  apply Pending_foldChildren_treeInv in Hfold; [|done].
  apply bind_Ok in H as (Root' & B3 & Hfin & H).
  destruct (Forest_finalize (Pending B2)) as [[Root'' F]|] eqn:HF; [|done].
  injection Hfin as -> <-.
  unfold Forest_finalize in HF.
  destruct (length (Pending B2) =? 1); [|done].
  cbn [assertR mbind Result_bind] in HF.
  destruct (Pending B2) as [|[k0 R0] rest] eqn:HP; [done|].
  injection HF as <- <-.
  apply bind_Ok in H as (K & B4 & Hk & H). apply readB_Ok in Hk as [Hk ->].
  apply bind_Ok in H as ([] & B4 & Ha & H). apply assertM_Ok in Ha as [Ha ->].
  apply mret_Ok in H as [-> ->].
  apply bool_decide_eq_true in Ha. subst K.
  cbn [TB_Heap withForest] in *. split.
  - destruct Hfold as [_ Hch]. split; [|exact Hch].
    intros k' p Hp. by apply elem_of_nil in Hp.
  - unfold kindIs, kindOf in *. cbn [TB_Heap withForest].
    destruct (TB_Heap B2 !! R0) as [N|]; [|done].
    injection Hk as Hk. cbn [fmap option_fmap option_map]. by rewrite Hk.
Qed.

(** X8: at every point of the traversal, whatever the calls of the visitor
    were, every child of a node of the heap has been given a role and is
    marked as original, and every pending entry points at an original node;
    this holds as well of the tree [finalize] returns, whose root is a
    translation unit. *)
Theorem children_are_attached (A : Arena) (cs : list BuilderCall)
    (B0 B : TreeBuilder) :
  TreeBuilder_new A = Ok B0 ->
  runCalls cs B0 = Ok (tt, B) ->
  treeInv (TB_Heap B) (Pending B)
  /\ forall (Root : NodePtr) (B' : TreeBuilder),
       finalize B = Ok (Root, B') ->
       kindIs B' Root NK_TranslationUnit
       /\ forall (p : NodePtr) (N : Node) (Cs : list NodePtr) (c : NodePtr),
            TB_Heap B' !! p = Some N -> Node_body N = TreeBody Cs ->
            c ∈ Cs ->
            exists Nc : Node,
              TB_Heap B' !! c = Some Nc /\ Node_role Nc ≠ Detached
              /\ Node_Original Nc = true.
Proof.
  intros Hnew Hcalls.
  assert (builderTreeInv B) as HI.
  { eapply runCalls_treeInv; [|exact Hcalls].
    by eapply TreeBuilder_new_treeInv. }
  split; [exact HI|]. intros Root B' Hfin.
  destruct (finalize_treeInv _ _ _ HI Hfin) as [[_ Hch] Hk].
  split; [done|]. intros p N Cs c Hp Hb Hc. by eapply Hch.
Qed.

(** ** The mapping of name specifiers *)

Lemma allocate_keepsNNS (B0 : TreeBuilder) (K : NodeKind) :
  preserves (keepsNNS B0) (allocate K).
Proof. intros B p B' HI H. by apply allocate_Ok in H as [_ ->]. Qed.

Lemma setRole_keepsNNS (B0 : TreeBuilder) (N : NodePtr) (R : NodeRole) :
  preserves (keepsNNS B0) (setRole N R).
Proof.
  intros B [] B' HI H. by apply setRole_Ok in H as (Nd & _ & _ & ->).
Qed.

Lemma Pending_assignRole_keepsNNS (B0 : TreeBuilder) (Range : ArrayRef)
    (R : NodeRole) :
  preserves (keepsNNS B0) (Pending_assignRole Range R).
Proof.
  intros B [] B' HI H.
  by apply Pending_assignRole_Ok in H as (N & Nd & _ & _ & _ & ->).
Qed.

Lemma Pending_foldChildren_keepsNNS (B0 : TreeBuilder) (Tokens : ArrayRef)
    (New : NodePtr) :
  preserves (keepsNNS B0) (Pending_foldChildren Tokens New).
Proof.
  intros B [] B' HI H.
  by apply Pending_foldChildren_Ok in H as (H' & F' & _ & ->).
Qed.

Lemma Mapping_add_keepsNNS (B0 : TreeBuilder) (From : ASTPtr)
    (To : NodePtr) :
  preserves (keepsNNS B0) (Mapping_add From To).
Proof.
  intros B [] B' HI H. by apply Mapping_add_Ok in H as (K & _ & _ & ->).
Qed.

Lemma Mapping_addNNS_keepsNNS (B0 : TreeBuilder)
    (From : NestedNameSpecifierLoc) (To : NodePtr) :
  preserves (keepsNNS B0) (Mapping_addNNS From To).
Proof.
  intros B [] B' HI H. pose proof H as H0.
  apply Mapping_addNNS_Ok in H as ->. unfold keepsNNS in *.
  cbn [Mapping withMapping NNSNodes]. etrans; [exact HI|].
  apply insert_subseteq. unfold Mapping_addNNS in H0.
  destruct (NNSLoc_hasQualifier From); [|done].
  by destruct (NNSNodes (Mapping B) !! NNSLoc_key From).
Qed.

Lemma noticeDeclWithoutSemicolon_keepsNNS (B0 : TreeBuilder) (D : nat) :
  preserves (keepsNNS B0) (noticeDeclWithoutSemicolon D).
Proof. intros B [] B' HI [= ?]. by subst B'. Qed.

#[local] Hint Resolve allocate_keepsNNS setRole_keepsNNS
  Pending_assignRole_keepsNNS Pending_foldChildren_keepsNNS
  Mapping_add_keepsNNS Mapping_addNNS_keepsNNS
  noticeDeclWithoutSemicolon_keepsNNS : treeInv.

Lemma runCall_keepsNNS (B0 : TreeBuilder) (c : BuilderCall) :
  preserves (keepsNNS B0) (runCall c).
Proof.
  destruct c; cbn [runCall];
    unfold markChild, foldNode, foldNode_NNS, markChildToken,
      markChildToken_Loc, markChild_AST, markChild_NNS, markExprChild,
      markStmtChild, markExprChild;
    preserves_tac.
Qed.

Lemma runCalls_keepsNNS (B0 : TreeBuilder) (cs : list BuilderCall) :
  preserves (keepsNNS B0) (runCalls cs).
Proof.
  induction cs as [|c rest IH]; cbn [runCalls].
  - apply preserves_ret.
  - apply preserves_bind; [apply runCall_keepsNNS|intros _; exact IH].
Qed.

(** X5: whatever the visitor calls, the builder only adds nodes: the kinds
    of the nodes of the heap are kept, the nodes the calls allocate are
    appended in the order of the calls, a role once assigned is kept, and
    no entry of the mapping, neither of an AST node nor of a name
    specifier, and no recorded declaration is lost; the token stream and
    the table of locations are never changed. *)
Theorem runCalls_grows (cs : list BuilderCall) (B B' : TreeBuilder) :
  runCalls cs B = Ok (tt, B') ->
  TB_Arena B' = TB_Arena B
  /\ LocationToToken B' = LocationToToken B
  /\ Node_kind <$> TB_Heap B'
     = (Node_kind <$> TB_Heap B) ++ concat (callKinds <$> cs)
  /\ (forall (q : NodePtr) (R : NodeRole),
        R ≠ Detached -> roleIs B q R -> roleIs B' q R)
  /\ (forall (P : ASTPtr) (N : NodePtr),
        Mapping_find B P = Some N -> Mapping_find B' P = Some N)
  /\ (forall (P : NestedNameSpecifierLoc) (N : NodePtr),
        Mapping_findNNS B P = Some N -> Mapping_findNNS B' P = Some N)
  /\ DeclsWithoutSemicolons B ⊆ DeclsWithoutSemicolons B'.
Proof.
  intros H. pose proof H as Hrun. apply runCalls_grows_kinds in H as G.
  pose proof G as (Ha & Hl & Hk & _ & _ & Hd).
  split_and!; try done.
  - intros q R HR Hq. by eapply grows_roleIs.
  - intros P N HP. by eapply grows_Mapping_find.
  - intros P N HP. unfold Mapping_findNNS in *.
    assert (keepsNNS B B') as Hkeeps.
    { apply (runCalls_keepsNNS B cs B tt B'); [|exact Hrun].
      unfold keepsNNS. done. }
    by apply (lookup_weaken _ _ _ _ HP Hkeeps).
Qed.


(** * Folds that do not start at a pending entry, and the flat tree *)

Lemma lower_bound_spec (Trees : Forest) (k : TokenPtr) :
  Forall (fun e => e.1 < k) (take (lower_bound Trees k) Trees)
  /\ match Trees !! lower_bound Trees k with
     | Some (k', _) => k <= k'
     | None => lower_bound Trees k = length Trees
     end.
Proof.
  induction Trees as [|[k' v] rest [IH1 IH2]]; cbn [lower_bound].
  - split; [constructor|done].
  - destruct (k' <? k) eqn:Hlt.
    + apply Nat.ltb_lt in Hlt. split.
      * cbn [take]. constructor; [done|exact IH1].
      * cbn [lookup list_lookup]. destruct (rest !! _) as [[k'' ?]|]; [done|].
        cbn [length]. by rewrite IH2.
    + apply Nat.ltb_ge in Hlt. split; [constructor|done].
Qed.

Lemma lower_bound_beyond (Trees : Forest) (x : TokenPtr) :
  x ∉ Trees.*1 -> (exists k, k ∈ Trees.*1 /\ x < k) ->
  atEndOrKey Trees (lower_bound Trees x) x = false.
Proof.
  intros Hnot (k & Hk & Hlt).
  destruct (lower_bound_spec Trees x) as [Hbefore Hat].
  unfold atEndOrKey.
  destruct (Trees !! lower_bound Trees x) as [[k' v]|] eqn:Hl.
  - apply Nat.eqb_neq. intros ->. apply Hnot.
    apply list_elem_of_fmap. exists (x, v). split; [done|].
    by eapply list_elem_of_lookup_2.
  - rewrite Hat, firstn_all in Hbefore.
    apply list_elem_of_fmap in Hk as ([k0 v0] & -> & Hin).
    rewrite Forall_forall in Hbefore. apply Hbefore in Hin. simpl in *. lia.
Qed.

Lemma firstChild_fresh (H : Heap) (New : NodePtr) (N0 : Node) :
  H !! New = Some N0 -> Node_body N0 = TreeBody [] ->
  firstChild H New = Ok None.
Proof. unfold firstChild. by intros -> ->. Qed.

(** X9: a fold whose first token, or whose end, is not the first token of a
    pending entry while a pending entry starts further to the right, does
    not succeed: it fails the assertion that a fold does not cross the
    boundaries of existing subtrees. *)
Theorem foldChildren_crossing (A : Arena) (Tokens : ArrayRef)
    (New : NodePtr) (H : Heap) (Trees : Forest) (N0 : Node)
    (x : TokenPtr) :
  H !! New = Some N0 ->
  Node_body N0 = TreeBody [] ->
  x = ArrayRef_begin Tokens \/ x = ArrayRef_end Tokens ->
  x ∉ Trees.*1 ->
  (exists k : TokenPtr, k ∈ Trees.*1 /\ x < k) ->
  Forest_foldChildren A Tokens New H Trees
    = Abort (AssertionFailure
               "fold crosses boundaries of existing subtrees").
Proof.
  intros HN Hb Hx Hnot Hlater. unfold Forest_foldChildren.
  rewrite (firstChild_fresh _ _ _ HN Hb).
  cbn [mbind Result_bind]. rewrite bool_decide_eq_true_2 by done.
  cbn [assertR mbind Result_bind].
  pose proof (lower_bound_beyond Trees x Hnot Hlater) as Hfalse.
  destruct Hx as [->| ->].
  - by rewrite Hfalse.
  - destruct (atEndOrKey Trees _ (ArrayRef_begin Tokens)); [|done].
    cbn [assertR mbind Result_bind]. by rewrite Hfalse.
Qed.


(** X11: without any call of the visitor the tree is flat: the root is the
    translation unit, allocated after the leaves, detached and original,
    and its children are the leaves of the tokens before [eof], in order,
    each with the role [Unknown].  For a stream that holds only [eof] the
    root has no children. *)
Theorem buildSyntaxTree_no_calls (A : Arena) :
  kindAt A (length (expandedTokens A) - 1) = Ok tok_eof ->
  exists B' : TreeBuilder,
    buildSyntaxTree A [] = Ok (length (expandedTokens A) - 1, B')
    /\ Pending B' = []
    /\ length (TB_Heap B') = S (length (expandedTokens A) - 1)
    /\ TB_Heap B' !! (length (expandedTokens A) - 1)
       = Some (mkNode NK_TranslationUnit Detached true
                 (spelledForExpanded A
                    (mkArrayRef 0 (length (expandedTokens A) - 1)))
                 (TreeBody (seq 0 (length (expandedTokens A) - 1))))
    /\ forall i : nat,
         i < length (expandedTokens A) - 1 ->
         TB_Heap B' !! i
           = Some (mkNode NK_Leaf Unknown true
                          (spelledForExpanded A (oneToken i)) (LeafBody i)).
Proof.
  intros Heof. set (n := length (expandedTokens A) - 1).
  destruct (TreeBuilder_new_Ok A Heof) as (B0 & Hnew & Hinv).
  destruct (finalize_Ok A B0 Heof Hinv) as (Root & H1 & Hfin & HRoot & Hfold & _).
  apply TreeBuilder_new_inv in Hnew as Hshape. destruct Hshape as [_ HB0].
  fold n in HB0, Hfold.
  assert (TB_Heap B0 = Forest_leaves A 0 n) as HH by (by rewrite HB0).
  assert (Pending B0 = (fun i => (i, i)) <$> seq 0 n) as HP by (by rewrite HB0).
  assert (length (TB_Heap B0) = n) as Hlen.
  { rewrite HH. apply Forest_leaves_length. }
  rewrite Hlen in HRoot. subst Root.
  exists (withForest H1 [] B0). unfold buildSyntaxTree.
  rewrite Hnew. cbn [mbind Result_bind runCalls mret M_ret].
  split; [exact Hfin|]. cbn [Pending TB_Heap withForest]. split; [done|].
  apply Forest_foldChildren_Ok in Hfold
    as (_ & _ & _ & _ & H1' & -> & Hlook).
  rewrite HP in Hlook.
  assert (lower_bound ((fun i => (i, i)) <$> seq 0 n) 0 = 0) as Hb.
  { apply lower_bound_ge. apply Forall_forall. intros e _. lia. }
  assert (Forall (fun e : nat * nat => e.1 < n) ((fun i => (i, i)) <$> seq 0 n))
    as Hkeys.
  { apply Forall_forall. intros e He.
    apply list_elem_of_fmap in He as (i & -> & Hi).
    apply elem_of_seq in Hi. simpl. lia. }
  assert (lower_bound ((fun i => (i, i)) <$> seq 0 n) n = n) as He.
  { rewrite (lower_bound_all _ _ Hkeys). by rewrite length_fmap, length_seq. }
  unfold ArrayRef_begin, ArrayRef_end in Hlook.
  cbn [ArrayRef_Data ArrayRef_Length] in Hlook.
  rewrite Nat.add_0_l, Hb, He in Hlook.
  assert ((map_range 0 n ((fun i => (i, i)) <$> seq 0 n)).*2 = seq 0 n)
    as Hrange.
  { unfold map_range. rewrite Nat.sub_0_r, drop_0.
    rewrite take_ge by (by rewrite length_fmap, length_seq).
    generalize (seq 0 n). intros l.
    induction l as [|a l IH]; [done|]. rewrite !fmap_cons, IH. done. }
  rewrite Hrange in Hlook.
  assert (forall q, H1' !! q
                    = afterAttach (reverse (seq 0 n)) n q
                        <$> (Forest_leaves A 0 n ++ [newTree NK_TranslationUnit])
                              !! q) as Hlook'.
  { intros q. rewrite Hlook, HH. done. }
  split_and!.
  - rewrite length_alter.
    rewrite (length_eq_lookup
               (Forest_leaves A 0 n ++ [newTree NK_TranslationUnit]) H1').
    + rewrite length_app, Forest_leaves_length. simpl. lia.
    + intros q. rewrite Hlook'. by rewrite fmap_is_Some.
  - rewrite list_lookup_alter_eq, Hlook'.
    rewrite lookup_app_r by (by rewrite Forest_leaves_length).
    rewrite Forest_leaves_length, Nat.sub_diag. cbn [lookup list_lookup].
    cbn [fmap option_fmap option_map]. unfold afterAttach, newTree.
    cbn [Node_kind Node_role Node_Original Node_CanModify Node_body
         setFlags_node].
    rewrite (bool_decide_eq_false_2 (n ∈ reverse (seq 0 n))).
    2:{ rewrite elem_of_reverse, elem_of_seq. lia. }
    rewrite (bool_decide_eq_true_2 (n = n)) by done.
    by rewrite reverse_involutive, app_nil_r.
  - intros i Hi. rewrite list_lookup_alter_ne by lia. rewrite Hlook'.
    rewrite lookup_app_l by (by rewrite Forest_leaves_length).
    rewrite Forest_leaves_lookup by done.
    cbn [fmap option_fmap option_map]. unfold afterAttach, newLeaf.
    cbn [Node_kind Node_role Node_Original Node_CanModify Node_body
         setFlags_node].
    rewrite (bool_decide_eq_true_2 (i ∈ reverse (seq 0 n))).
    2:{ rewrite elem_of_reverse, elem_of_seq. lia. }
    rewrite (bool_decide_eq_false_2 (i = n)) by lia.
    done.
Qed.

(** * More handlers of the visitor *)

(** X12: an expression in a statement position is wrapped.  For an
    expression, [markStmtChild] gives the node of the expression (implicit
    nodes looked through) the role of the expression of an expression
    statement, folds the range of the statement into a new expression
    statement node, and gives that node the role asked for; for any other
    statement it gives the role to the node the statement is mapped to and
    leaves the forest alone.  The mapping is not changed: the expression
    statement is not recorded for the expression.  A null child changes
    nothing. *)
Theorem markStmtChild_wraps_expression (Child : Stmt) (Role : NodeRole)
    (B B' : TreeBuilder) :
  markStmtChild (Some Child) Role B = Ok (tt, B') ->
  markStmtChild None Role B = Ok (tt, B)
  /\ Mapping B' = Mapping B
  /\ if isa_Expr Child then
       exists (E : NodePtr) (Range : ArrayRef) (H' : Heap),
         Mapping_find B (ofStmt (IgnoreImplicit Child)) = Some E
         /\ getStmtRange B Child = Ok Range
         /\ Forest_foldChildren (TB_Arena B) Range (length (TB_Heap B))
              (alter (setRole_node ExpressionStatement_expression) E
                     (TB_Heap B) ++ [newTree NK_ExpressionStatement])
              (Pending B)
            = Ok (H', Pending B')
         /\ grows [NK_ExpressionStatement] B B'
         /\ roleIs B' E ExpressionStatement_expression
         /\ roleIs B' (length (TB_Heap B)) Role
     else
       exists N : NodePtr,
         Mapping_find B (ofStmt Child) = Some N
         /\ grows [] B B' /\ roleIs B' N Role /\ Pending B' = Pending B.
Proof.
  intros H. split; [done|]. apply markStmtChild_grows in H.
  destruct (isa_Expr Child).
  - destruct H as (E & Range & B1 & B2 & B3 & HE & Hmark & Halloc & HR
                   & Hfold & Hset & G & HrE & HrN & HM).
    split; [done|]. exists E, Range.
    apply Pending_foldChildren_Ok in Hfold as (H' & F' & Hfold & ->).
    apply allocate_Ok in Halloc as [_ ->].
    unfold markExprChild in Hmark.
    apply bind_Ok in Hmark as (SN & ? & Hr & Hs).
    apply readB_Ok in Hr as [Hr ->]. injection Hr as Hr.
    change (Mapping_find B (ofStmt (IgnoreImplicit Child)) = SN) in Hr.
    rewrite HE in Hr. subst SN.
    apply setRole_Ok in Hs as (? & _ & _ & ->).
    apply setRole_Ok in Hset as (? & _ & _ & ->).
    cbn [TB_Arena TB_Heap Pending withHeap withForest] in *.
    exists H'. split_and!; done.
  - destruct H as (N & HN & G & Hr & HP & HM). split; [done|].
    by exists N.
Qed.

Lemma IgnoreImplicit_idemp :
  forall E : Stmt, IgnoreImplicit (IgnoreImplicit E) = IgnoreImplicit E.
Proof.
  fix IH 1. intros [p c r [Sub|] ds]; cbn [IgnoreImplicit].
  - apply IH.
  - done.
Qed.

(** X13: implicit nodes are transparent.  [IgnoreImplicit] is idempotent
    and its result is never implicit, so the expression [TraverseStmt]
    hands to the traversal of the base class passes the assertion of
    [WalkUpFromExpr], which fails on every implicit expression; and after
    [WalkUpFromExpr] has folded the expression under an implicit node,
    [markExprChild] on the implicit node gives the role to the node that
    was folded. *)
Theorem implicit_nodes_are_transparent :
  (forall E : Stmt,
      IgnoreImplicit (IgnoreImplicit E) = IgnoreImplicit E
      /\ isImplicitExpr (IgnoreImplicit E) = false)
  /\ (forall (RAV_TraverseStmt : option Stmt -> M bool) (S : Stmt)
             (B : TreeBuilder),
        isa_Expr S = true ->
        TraverseStmt RAV_TraverseStmt (Some S) B
          = RAV_TraverseStmt (Some (IgnoreImplicit S)) B)
  /\ (forall (E : Stmt) (B : TreeBuilder),
        isImplicitExpr E = true ->
        WalkUpFromExpr E B
          = Abort (AssertionFailure "should be handled by TraverseStmt"))
  /\ (forall (E : Stmt) (R : NodeRole) (r : bool) (B B1 B2 : TreeBuilder),
        WalkUpFromExpr (IgnoreImplicit E) B = Ok (r, B1) ->
        markExprChild (Some E) R B1 = Ok (tt, B2) ->
        kindIs B2 (length (TB_Heap B)) NK_UnknownExpression
        /\ roleIs B2 (length (TB_Heap B)) R).
Proof.
  split_and!.
  - intros E. split; [apply IgnoreImplicit_idemp|].
    unfold isImplicitExpr. rewrite IgnoreImplicit_idemp.
    by rewrite Nat.eqb_refl.
  - intros RAV S B HE. unfold TraverseStmt.
    unfold isa_Expr, isa_DeclStmt in *. apply bool_decide_eq_true in HE.
    rewrite HE. by rewrite bool_decide_eq_false_2.
  - intros E B HE. unfold WalkUpFromExpr. rewrite HE. done.
  - intros E R r B B1 B2 Hwalk Hmark.
    apply WalkUpFromExpr_grows in Hwalk as [G1 Hfind].
    apply markExprChild_grows in Hmark as (G2 & _ & N & HN & Hrole).
    rewrite Hfind in HN. injection HN as <-. split; [|done].
    pose proof (grows_trans _ _ _ _ _ G1 G2) as G.
    apply (grows_new_kind _ _ _ 0 NK_UnknownExpression) in G; [|done].
    by rewrite Nat.add_0_r in G.
Qed.

Lemma getDeclarationRange_namespace (B : TreeBuilder) (S : Decl) :
  Decl_kind S = DK_Namespace ->
  getDeclarationRange B S = getRange B (Decl_getSourceRange S).
Proof.
  unfold getDeclarationRange, maybeAppendSemicolon. intros ->.
  cbn [isa_TagDecl isa_NamespaceDecl].
  by destruct (getRange B (Decl_getSourceRange S)).
Qed.

(** X14: a namespace.  The range of a namespace declaration is the range of
    its source locations, with no semicolon appended.  When the range
    starts at [::], the declaration is the inner part of a nested namespace
    definition and the handler leaves the builder as it is; otherwise it
    folds exactly that range into one new namespace definition, to which
    the declaration is then mapped. *)
Theorem WalkUpFromNamespaceDecl_spec (S : Decl) (B : TreeBuilder)
    (Tokens : ArrayRef) (front : TokenKind) :
  Decl_kind S = DK_Namespace ->
  getRange B (Decl_getSourceRange S) = Ok Tokens ->
  frontKind (TB_Arena B) Tokens = Ok front ->
  getDeclarationRange B S = Ok Tokens
  /\ (front = tok_coloncolon -> WalkUpFromNamespaceDecl S B = Ok (true, B))
  /\ (front ≠ tok_coloncolon ->
      forall (r : bool) (B' : TreeBuilder),
        WalkUpFromNamespaceDecl S B = Ok (r, B') ->
        r = true
        /\ grows [NK_NamespaceDefinition] B B'
        /\ Mapping_find B' (ofDecl S) = Some (length (TB_Heap B))
        /\ exists H' : Heap,
             Forest_foldChildren (TB_Arena B) Tokens (length (TB_Heap B))
               (TB_Heap B ++ [newTree NK_NamespaceDefinition]) (Pending B)
             = Ok (H', Pending B')).
Proof.
  intros HK HR HF.
  assert (getDeclarationRange B S = Ok Tokens) as HD.
  { by rewrite getDeclarationRange_namespace. }
  assert (WalkUpFromNamespaceDecl S B
          = (if bool_decide (front = tok_coloncolon) then mret true
             else N ← allocate NK_NamespaceDefinition;
                  _ ← foldNode Tokens N (ofDecl S);
                  mret true) B) as Hrun.
  { unfold WalkUpFromNamespaceDecl.
    rewrite (bind_run _ _ B B Tokens); [|unfold readB; by rewrite HD].
    rewrite (bind_run _ _ B B front); [|unfold readB; by rewrite HF].
    done. }
  split_and!; [done| |].
  - intros ->. rewrite Hrun. by rewrite bool_decide_eq_true_2.
  - intros Hne r B' Hwalk. rewrite Hrun in Hwalk.
    rewrite bool_decide_eq_false_2 in Hwalk by done.
    apply bind_Ok in Hwalk as (N & B1 & Halloc & H).
    apply bind_Ok in H as ([] & B2 & Hfold & H).
    apply mret_Ok in H as [-> ->].
    destruct (allocate_foldNode_grows _ _ _ _ _ _ _ _ Halloc Hfold)
      as (G & -> & Hfind).
    split_and!; [done|done|by apply Hfind|].
    unfold foldNode in Hfold.
    apply bind_Ok in Hfold as ([] & B3 & Hf & Hadd).
    apply Pending_foldChildren_Ok in Hf as (H' & F' & Hf & ->).
    apply Mapping_add_Ok in Hadd as (K & _ & _ & ->).
    apply allocate_Ok in Halloc as [_ ->].
    cbn [TB_Arena TB_Heap Pending withHeap withForest withMapping] in *.
    by exists H'.
Qed.

(** X15: calls of overloaded operators get the shape of built-in
    operators.  Where the operator of a call is classified as a binary, a
    prefix or a postfix operator, the handler of the call does what the
    handler of the built-in operator does on the same expression, operator
    location and operands. *)
Theorem operator_call_same_shape (S : CXXOperatorCallExpr)
    (B : TreeBuilder) :
  (forall Lhs Rhs : Stmt,
      getOperatorNodeKind_of S = Ok NK_BinaryOperatorExpression ->
      OCE_arguments S !! 0 = Some Lhs ->
      OCE_arguments S !! 1 = Some Rhs ->
      WalkUpFromCXXOperatorCallExpr S B
        = WalkUpFromBinaryOperator (asBinaryOperator S Lhs Rhs) B)
  /\ (forall Operand : Stmt,
        getOperatorNodeKind_of S = Ok NK_PrefixUnaryOperatorExpression ->
        OCE_arguments S !! 0 = Some Operand ->
        WalkUpFromCXXOperatorCallExpr S B
          = WalkUpFromUnaryOperator (asUnaryOperator S Operand false) B)
  /\ (forall Operand : Stmt,
        getOperatorNodeKind_of S = Ok NK_PostfixUnaryOperatorExpression ->
        OCE_arguments S !! 0 = Some Operand ->
        WalkUpFromCXXOperatorCallExpr S B
          = WalkUpFromUnaryOperator (asUnaryOperator S Operand true) B).
Proof.
  split_and!.
  - intros Lhs Rhs HK H0 H1.
    unfold WalkUpFromCXXOperatorCallExpr, WalkUpFromBinaryOperator,
      asBinaryOperator, OCE_getArg.
    rewrite HK, H0, H1.
    cbn [BO_Stmt BO_getLHS BO_getRHS BO_getOperatorLoc].
    unfold mbind at 1, M_bind at 1. cbn [liftR].
    unfold mbind at 1, M_bind at 1, mret at 1, M_ret at 1.
    apply bind_ext. intros [] B1. apply bind_ext. intros [] B2.
    unfold mbind at 1, M_bind at 1, mret at 1, M_ret at 1. done.
  - intros Operand HK H0.
    unfold WalkUpFromCXXOperatorCallExpr, WalkUpFromUnaryOperator,
      asUnaryOperator, OCE_getArg.
    rewrite HK, H0.
    cbn [UO_Stmt UO_getOperatorLoc UO_getSubExpr UO_isPostfix].
    unfold mbind at 1, M_bind at 1. cbn [liftR].
    apply bind_ext. intros [] B1.
    unfold mbind at 1, M_bind at 1, mret at 1, M_ret at 1. done.
  - intros Operand HK H0.
    unfold WalkUpFromCXXOperatorCallExpr, WalkUpFromUnaryOperator,
      asUnaryOperator, OCE_getArg.
    rewrite HK, H0.
    cbn [UO_Stmt UO_getOperatorLoc UO_getSubExpr UO_isPostfix].
    unfold mbind at 1, M_bind at 1. cbn [liftR].
    apply bind_ext. intros [] B1.
    unfold mbind at 1, M_bind at 1, mret at 1, M_ret at 1. done.
Qed.

Lemma fold_after_marks (Ks : list NodeKind) (K : NodeKind)
    (Range : ArrayRef) (From : ASTPtr) (N : NodePtr) (u : unit)
    (B B0 B1 B' : TreeBuilder) :
  grows Ks B B0 ->
  allocate K B0 = Ok (N, B1) ->
  foldNode Range N From B1 = Ok (u, B') ->
  grows (Ks ++ [K]) B B'
  /\ grows [K] B0 B'
  /\ N = length (TB_Heap B) + length Ks
  /\ (is_Some From -> Mapping_find B' From = Some N).
Proof.
  intros G Halloc Hfold.
  destruct (allocate_foldNode_grows _ _ _ _ _ _ _ _ Halloc Hfold)
    as (G' & -> & Hfind).
  split_and!; [exact (grows_trans _ _ _ _ _ G G')|done| |done].
  by apply grows_length in G.
Qed.

(** A handler that assigns roles, allocates a node and folds a range into
    it. *)
Lemma handler_folds (K : NodeKind) (Range : ArrayRef) (From : ASTPtr)
    (New : NodePtr) (u : unit) (B B1 B2 B' : TreeBuilder) :
  quiet B B1 ->
  allocate K B1 = Ok (New, B2) ->
  foldNode Range New From B2 = Ok (u, B') ->
  foldedByHandler K Range B B'.
Proof.
  intros Hq Halloc Hfold.
  destruct (quiet_foldNode_folds _ _ _ _ _ _ _ _ _ Hq Halloc Hfold)
    as (Hfolds & Hch & HP).
  destruct (allocate_foldNode_grows _ _ _ _ _ _ _ _ Halloc Hfold)
    as (G & _ & _).
  split_and!; [|  |done|done|].
  - exists B1, B'. split_and!; [done|done|apply quiet_refl].
  - apply (grows_new_kind _ _ _ 0 K) in G; [|done].
    by rewrite Nat.add_0_r, (quiet_length _ _ Hq) in G.
  - intros k p Hat Hin. apply (list_elem_of_fmap_2 snd _ (k, p)).
    by apply covered_pendingAt.
Qed.

Lemma foldedByHandler_quiet (K : NodeKind) (Range : ArrayRef)
    (B B2 B' : TreeBuilder) :
  foldedByHandler K Range B B2 -> quiet B2 B' ->
  kindIs B' (length (TB_Heap B)) K ->
  foldedByHandler K Range B B'.
Proof.
  intros ((B0 & B1 & Hq0 & Hf & Hq1) & Hk & Hch & HP & Hin) Hq Hk'.
  split_and!; [| done | |  |done].
  - exists B0, B1. split_and!; [done|done|by eapply quiet_trans].
  - by apply (quiet_children B2 B').
  - destruct Hq as (_ & _ & -> & _). done.
Qed.

(** X16: the built-in operators.  The handler of a binary operator gives
    the nodes of the two operands (implicit nodes looked through) the roles
    of the left-hand and the right-hand side and the token at the operator
    location the role of the operator token, and folds the tokens of the
    source range of the expression into one new binary operator
    expression, to which the expression is then mapped; the handler of a
    unary operator does the same with the one operand, into a postfix
    unary operator expression for a postfix operator and a prefix one
    otherwise.  The children of the new node are the entries of the forest
    the range covers, among them the operator token when it lies within
    the range, and the new node takes their place in the forest. *)
Theorem builtin_operators_spec :
  (forall (S : BinaryOperator) (r : bool) (B B' : TreeBuilder),
      WalkUpFromBinaryOperator S B = Ok (r, B') ->
      r = true
      /\ grows [NK_BinaryOperatorExpression] B B'
      /\ Mapping_find B' (ofStmt (BO_Stmt S)) = Some (length (TB_Heap B))
      /\ (exists L : NodePtr,
            Mapping_find B (ofStmt (IgnoreImplicit (BO_getLHS S))) = Some L
            /\ roleIs B' L BinaryOperatorExpression_leftHandSide)
      /\ (exists R : NodePtr,
            Mapping_find B' (ofStmt (IgnoreImplicit (BO_getRHS S))) = Some R
            /\ roleIs B' R BinaryOperatorExpression_rightHandSide)
      /\ (Loc_isValid (BO_getOperatorLoc S) = true ->
          exists (T : TokenPtr) (L : NodePtr),
            findToken B (BO_getOperatorLoc S) = Ok (Some T)
            /\ (T, L) ∈ Pending B
            /\ pendingAt (Pending B) T L
            /\ roleIs B' L OperatorExpression_operatorToken)
      /\ exists Range : ArrayRef,
           getRange B (Stmt_getSourceRange (BO_Stmt S)) = Ok Range
           /\ foldedByHandler NK_BinaryOperatorExpression Range B B')
  /\ (forall (S : UnaryOperator) (r : bool) (B B' : TreeBuilder),
        WalkUpFromUnaryOperator S B = Ok (r, B') ->
        r = true
        /\ grows [if UO_isPostfix S then NK_PostfixUnaryOperatorExpression
                  else NK_PrefixUnaryOperatorExpression] B B'
        /\ Mapping_find B' (ofStmt (UO_Stmt S)) = Some (length (TB_Heap B))
        /\ (exists N : NodePtr,
              Mapping_find B' (ofStmt (IgnoreImplicit (UO_getSubExpr S)))
                = Some N
              /\ roleIs B' N UnaryOperatorExpression_operand)
        /\ (Loc_isValid (UO_getOperatorLoc S) = true ->
            exists (T : TokenPtr) (L : NodePtr),
              findToken B (UO_getOperatorLoc S) = Ok (Some T)
              /\ (T, L) ∈ Pending B
              /\ pendingAt (Pending B) T L
              /\ roleIs B' L OperatorExpression_operatorToken)
        /\ exists Range : ArrayRef,
             getRange B (Stmt_getSourceRange (UO_Stmt S)) = Ok Range
             /\ foldedByHandler
                  (if UO_isPostfix S then NK_PostfixUnaryOperatorExpression
                   else NK_PrefixUnaryOperatorExpression) Range B B').
Proof.
  split.
  - intros S r B B' H. unfold WalkUpFromBinaryOperator in H.
    apply bind_Ok in H as ([] & B1 & Hl & H).
    apply bind_Ok in H as ([] & B2 & Ht & H).
    apply bind_Ok in H as ([] & B3 & Hr & H).
    apply bind_Ok in H as (Range & B3' & HR & H).
    apply readB_Ok in HR as [HR ->].
    apply bind_Ok in H as (N & B4 & Halloc & H).
    apply bind_Ok in H as ([] & B5 & Hfold & H).
    apply mret_Ok in H as [-> ->].
    pose proof (markExprChild_quiet _ _ _ _ _ Hl) as Hq1.
    pose proof (markChildToken_Loc_quiet _ _ _ _ _ Ht) as Hq2.
    pose proof (markExprChild_quiet _ _ _ _ _ Hr) as Hq3.
    pose proof (quiet_trans _ _ _ (quiet_trans _ _ _ Hq1 Hq2) Hq3) as Hq.
    pose proof (handler_folds _ _ _ _ _ _ _ _ _ Hq Halloc Hfold) as Hfolded.
    pose proof Ht as Hcov.
    apply markExprChild_grows in Hl as (G1 & HP1 & L & HL & HrL).
    apply markChildToken_Loc_grows in Ht as (G2 & HP2 & Htok).
    apply markExprChild_grows in Hr as (G3 & HP3 & R & HRm & HrR).
    pose proof (grows_trans _ _ _ _ _ G1 G2) as G12.
    pose proof (grows_trans _ _ _ _ _ G12 G3) as G123.
    destruct (fold_after_marks [] _ _ _ _ _ _ _ _ _ G123 Halloc Hfold)
      as (G & G4 & -> & Hfind).
    pose proof (grows_trans _ _ _ _ _ G3 G4) as G34.
    pose proof (grows_trans _ _ _ _ _ G2 G34) as G234.
    unfold getExprRange in HR.
    rewrite (getRange_input B B3) in HR
      by (by destruct (grows_input _ _ _ G123)).
    split_and!; [done|exact G| | | | |by exists Range].
    + rewrite Hfind by (by eexists). simpl. by rewrite Nat.add_0_r.
    + exists L. split; [done|].
      by apply (grows_roleIs _ _ _ _ _ G234).
    + exists R. split; [by apply (grows_Mapping_find _ _ _ _ _ G34)|].
      by apply (grows_roleIs _ _ _ _ _ G4).
    + intros Hv.
      destruct (markChildToken_Loc_covered _ _ _ _ _ Hcov Hv)
        as (T & Lf & HT & Hin & _ & Hat & Hrole & _).
      exists T, Lf. split_and!.
      * rewrite <- HT. symmetry. apply findToken_input.
        by destruct G1 as (_ & ? & _).
      * by rewrite <- HP1.
      * by rewrite <- HP1.
      * by apply (grows_roleIs _ _ _ _ _ G34).
  - intros S r B B' H. unfold WalkUpFromUnaryOperator in H.
    apply bind_Ok in H as ([] & B1 & Ht & H).
    apply bind_Ok in H as ([] & B2 & Ho & H).
    pose proof (markChildToken_Loc_quiet _ _ _ _ _ Ht) as Hq1.
    pose proof (markExprChild_quiet _ _ _ _ _ Ho) as Hq2.
    pose proof (quiet_trans _ _ _ Hq1 Hq2) as Hq.
    pose proof Ht as Hcov.
    apply markChildToken_Loc_grows in Ht as (G1 & HP1 & Htok).
    apply markExprChild_grows in Ho as (G2 & HP2 & N & HN & HrN).
    pose proof (grows_trans _ _ _ _ _ G1 G2) as G12.
    assert (exists (K : NodeKind) (Range : ArrayRef) (New : NodePtr)
                   (B3 : TreeBuilder),
              K = (if UO_isPostfix S then NK_PostfixUnaryOperatorExpression
                   else NK_PrefixUnaryOperatorExpression)
              /\ r = true
              /\ getExprRange B2 (UO_Stmt S) = Ok Range
              /\ allocate K B2 = Ok (New, B3)
              /\ foldNode Range New (ofStmt (UO_Stmt S)) B3 = Ok (tt, B'))
      as (K & Range & New & B3 & HK & -> & HR & Halloc & Hfold).
    { destruct (UO_isPostfix S).
      - apply bind_Ok in H as (Range & B2' & HR & H).
        apply readB_Ok in HR as [HR ->].
        apply bind_Ok in H as (New & B3 & Halloc & H).
        apply bind_Ok in H as ([] & B4 & Hfold & H).
        apply mret_Ok in H as [-> ->]. by eexists _, Range, New, B3.
      - apply bind_Ok in H as (Range & B2' & HR & H).
        apply readB_Ok in HR as [HR ->].
        apply bind_Ok in H as (New & B3 & Halloc & H).
        apply bind_Ok in H as ([] & B4 & Hfold & H).
        apply mret_Ok in H as [-> ->]. by eexists _, Range, New, B3. }
    rewrite <- HK.
    pose proof (handler_folds _ _ _ _ _ _ _ _ _ Hq Halloc Hfold) as Hfolded.
    destruct (fold_after_marks [] _ _ _ _ _ _ _ _ _ G12 Halloc Hfold)
      as (G & G3 & -> & Hfind).
    pose proof (grows_trans _ _ _ _ _ G2 G3) as G23.
    unfold getExprRange in HR.
    rewrite (getRange_input B B2) in HR
      by (by destruct (grows_input _ _ _ G12)).
    split_and!; [done|exact G| | | |by exists Range].
    + rewrite Hfind by (by eexists). simpl. by rewrite Nat.add_0_r.
    + exists N. split; [by apply (grows_Mapping_find _ _ _ _ _ G23)|].
      by apply (grows_roleIs _ _ _ _ _ G3).
    + intros Hv.
      destruct (markChildToken_Loc_covered _ _ _ _ _ Hcov Hv)
        as (T & Lf & HT & Hin & _ & Hat & Hrole & _).
      exists T, Lf.
      split_and!; [done|done|done|by apply (grows_roleIs _ _ _ _ _ G23)].
Qed.

Lemma markChildToken_Loc_Mapping (Loc : SourceLocation) (R : NodeRole)
    (u : unit) (B B' : TreeBuilder) :
  markChildToken_Loc Loc R B = Ok (u, B') -> Mapping B' = Mapping B.
Proof.
  unfold markChildToken_Loc. intros H. destruct (Loc_isInvalid Loc).
  - by apply mret_Ok in H as [_ ->].
  - apply bind_Ok in H as (T & B1 & Hr & H).
    apply readB_Ok in Hr as [_ ->].
    destruct T; [|by apply liftR_Ok in H as [? _]].
    by apply Pending_assignRole_Ok in H as (? & ? & _ & _ & _ & ->).
Qed.

Lemma Mapping_find_same (B B' : TreeBuilder) (P : ASTPtr) :
  Mapping B' = Mapping B -> Mapping_find B' P = Mapping_find B P.
Proof. unfold Mapping_find. by intros ->. Qed.

Lemma markStmtChild_opt_grows (Child : option Stmt) (Role : NodeRole)
    (u : unit) (B B' : TreeBuilder) :
  markStmtChild Child Role B = Ok (u, B') ->
  grows (wrappedKinds (option_list Child)) B B'
  /\ Mapping B' = Mapping B
  /\ forall C : Stmt,
       Child = Some C ->
       exists N : NodePtr, stmtNode B C = Some N /\ roleIs B' N Role.
Proof.
  destruct Child as [C|]; intros H.
  - destruct u. apply markStmtChild_grows in H.
    unfold wrappedKinds, stmtNode. simpl. rewrite app_nil_r.
    destruct (isa_Expr C) eqn:HE.
    + destruct H as (E & Range & B1 & B2 & B3 & _ & _ & _ & _ & _ & _ & G
                     & _ & Hr & HM).
      split_and!; [done|done|]. intros ? [= <-]. rewrite HE. by eexists.
    + destruct H as (N & HN & G & Hr & _ & HM).
      split_and!; [done|done|]. intros ? [= <-]. rewrite HE. by exists N.
  - cbn [markStmtChild] in H. apply mret_Ok in H as [_ ->].
    split_and!; [apply grows_refl|done|done].
Qed.

Lemma wrappedKinds_cons (C : Stmt) (rest : list Stmt) :
  wrappedKinds (C :: rest) = wrappedKinds [C] ++ wrappedKinds rest.
Proof.
  unfold wrappedKinds. rewrite !fmap_cons. cbn [fmap list_fmap concat].
  by rewrite app_nil_r.
Qed.

Lemma wrappedKinds_elem (K : NodeKind) (Cs : list Stmt) :
  K ∈ wrappedKinds Cs -> K = NK_ExpressionStatement.
Proof.
  induction Cs as [|C rest IH]; [by intros ?%elem_of_nil|].
  rewrite wrappedKinds_cons, elem_of_app. intros [H|H]; [|by apply IH].
  unfold wrappedKinds in H. simpl in H. rewrite app_nil_r in H.
  destruct (isa_Expr C); [|by apply elem_of_nil in H].
  by apply list_elem_of_singleton in H.
Qed.

Lemma markStmtChildren_grows (Cs : list Stmt) (Role : NodeRole) (u : unit)
    (B B' : TreeBuilder) :
  Role ≠ Detached ->
  markStmtChildren Cs Role B = Ok (u, B') ->
  grows (wrappedKinds Cs) B B'
  /\ Mapping B' = Mapping B
  /\ (forall i : nat,
        i < length (wrappedKinds Cs) ->
        roleIs B' (length (TB_Heap B) + i) Role)
  /\ (forall C : Stmt,
        C ∈ Cs -> isa_Expr C = false ->
        exists N : NodePtr,
          Mapping_find B (ofStmt C) = Some N /\ roleIs B' N Role).
Proof.
  intros HRole. revert B. induction Cs as [|C rest IH]; intros B H.
  - cbn [markStmtChildren] in H. apply mret_Ok in H as [_ ->].
    split_and!; [apply grows_refl|done| |].
    + intros i Hi. cbn in Hi. lia.
    + intros C HC. by apply elem_of_nil in HC.
  - cbn [markStmtChildren] in H.
    apply bind_Ok in H as ([] & B1 & Hc & Hrest).
    apply markStmtChild_opt_grows in Hc as (G1 & HM1 & Hnode).
    destruct (IH _ Hrest) as (G2 & HM2 & Hnew & Hold).
    destruct (Hnode C eq_refl) as (N & HN & HrN).
    rewrite wrappedKinds_cons.
    change (option_list (Some C)) with [C] in G1.
    assert (wrappedKinds [C]
            = if isa_Expr C then [NK_ExpressionStatement] else []) as HwC.
    { unfold wrappedKinds. simpl. by rewrite app_nil_r. }
    pose proof (grows_length _ _ _ G1) as Hlen.
    split_and!.
    + exact (grows_trans _ _ _ _ _ G1 G2).
    + congruence.
    + intros i Hi. rewrite length_app in Hi.
      unfold stmtNode in HN. rewrite HwC in Hlen, Hi.
      destruct (isa_Expr C).
      * injection HN as <-. cbn [length] in Hlen, Hi.
        destruct i as [|j].
        -- rewrite Nat.add_0_r.
           by apply (grows_roleIs _ _ _ _ _ G2).
        -- replace (length (TB_Heap B) + S j)
             with (length (TB_Heap B1) + j) by lia.
           apply Hnew. lia.
      * cbn [length] in Hlen, Hi. rewrite Nat.add_0_r in Hlen.
        rewrite <- Hlen. apply Hnew. lia.
    + intros C' HC' HE. apply elem_of_cons in HC' as [->|HC'].
      * unfold stmtNode in HN. rewrite HE in HN. exists N.
        split; [done|]. by apply (grows_roleIs _ _ _ _ _ G2).
      * destruct (Hold C' HC' HE) as (N' & HN' & HrN').
        exists N'. split; [|done].
        by rewrite <- (Mapping_find_same B B1).
Qed.

(** X17: a compound statement.  The handler wraps every expression among
    the statements of the body in a new expression statement, in the order
    of the body, and folds the range of the compound statement into one new
    compound statement node, allocated after them, to which the statement
    is then mapped; the expression statements and the nodes of the other
    statements of the body have the role of a statement of the compound
    statement, and the tokens at the two brace locations the roles of the
    opening and the closing paren.  The children of the compound statement
    are the entries its range covers in the forest the marking of the body
    has left, and the new node takes their place. *)
Theorem WalkUpFromCompoundStmt_spec (S : CompoundStmt) (r : bool)
    (B B' : TreeBuilder) :
  WalkUpFromCompoundStmt S B = Ok (r, B') ->
  r = true
  /\ grows (wrappedKinds (CS_body S) ++ [NK_CompoundStatement]) B B'
  /\ Mapping_find B' (ofStmt (CS_Stmt S))
     = Some (length (TB_Heap B) + length (wrappedKinds (CS_body S)))
  /\ (forall i : nat,
        i < length (wrappedKinds (CS_body S)) ->
        kindIs B' (length (TB_Heap B) + i) NK_ExpressionStatement
        /\ roleIs B' (length (TB_Heap B) + i) CompoundStatement_statement)
  /\ (forall C : Stmt,
        C ∈ CS_body S -> isa_Expr C = false ->
        exists N : NodePtr,
          Mapping_find B (ofStmt C) = Some N
          /\ roleIs B' N CompoundStatement_statement)
  /\ (Loc_isValid (CS_getLBracLoc S) = true ->
      exists (T : TokenPtr) (L : NodePtr),
        findToken B (CS_getLBracLoc S) = Ok (Some T)
        /\ (T, L) ∈ Pending B
        /\ pendingAt (Pending B) T L
        /\ roleIs B' L OpenParen)
  /\ (Loc_isValid (CS_getRBracLoc S) = true ->
      exists (T : TokenPtr) (L : NodePtr) (B2 : TreeBuilder),
        findToken B (CS_getRBracLoc S) = Ok (Some T)
        /\ (_ ← markChildToken_Loc (CS_getLBracLoc S) OpenParen;
            markStmtChildren (CS_body S) CompoundStatement_statement) B
           = Ok (tt, B2)
        /\ (T, L) ∈ Pending B2
        /\ pendingAt (Pending B2) T L
        /\ roleIs B' L CloseParen)
  /\ exists (Range : ArrayRef) (Bm : TreeBuilder),
       getStmtRange B (CS_Stmt S) = Ok Range
       /\ (_ ← markChildToken_Loc (CS_getLBracLoc S) OpenParen;
           _ ← markStmtChildren (CS_body S) CompoundStatement_statement;
           markChildToken_Loc (CS_getRBracLoc S) CloseParen) B
          = Ok (tt, Bm)
       /\ grows (wrappedKinds (CS_body S)) B Bm
       /\ foldedByHandler NK_CompoundStatement Range Bm B'.
Proof.
  intros H. unfold WalkUpFromCompoundStmt in H.
  apply bind_Ok in H as ([] & B1 & Hl & H).
  apply bind_Ok in H as ([] & B2 & Hc & H).
  apply bind_Ok in H as ([] & B3 & Hr & H).
  apply bind_Ok in H as (Range & B3' & HR & H).
  apply readB_Ok in HR as [HR ->].
  apply bind_Ok in H as (N & B4 & Halloc & H).
  apply bind_Ok in H as ([] & B5 & Hfold & H).
  apply mret_Ok in H as [-> ->].
  pose proof (markChildToken_Loc_Mapping _ _ _ _ _ Hl) as HM1.
  assert ((_ ← markChildToken_Loc (CS_getLBracLoc S) OpenParen;
           markStmtChildren (CS_body S) CompoundStatement_statement) B
          = Ok (tt, B2)) as Hrun.
  { by rewrite (bind_run _ _ _ _ _ Hl). }
  assert ((_ ← markChildToken_Loc (CS_getLBracLoc S) OpenParen;
           _ ← markStmtChildren (CS_body S) CompoundStatement_statement;
           markChildToken_Loc (CS_getRBracLoc S) CloseParen) B
          = Ok (tt, B3)) as Hrun3.
  { rewrite (bind_run _ _ _ _ _ Hl). by rewrite (bind_run _ _ _ _ _ Hc). }
  pose proof (handler_folds _ _ _ _ _ _ _ _ _ (quiet_refl B3) Halloc Hfold)
    as Hfolded.
  pose proof Hr as Hcov3. pose proof Hl as Hcov1.
  apply markChildToken_Loc_grows in Hl as (G1 & HP1 & Htok1).
  apply markStmtChildren_grows in Hc as (G2 & HM2 & Hnew & Hold); [|done].
  apply markChildToken_Loc_grows in Hr as (G3 & HP3 & Htok3).
  pose proof (grows_trans _ _ _ _ _ G1 G2) as G12.
  pose proof (grows_trans _ _ _ _ _ G12 G3) as G123.
  cbn [app] in G12, G123. rewrite app_nil_r in G123.
  destruct (fold_after_marks _ _ _ _ _ _ _ _ _ _ G123 Halloc Hfold)
    as (G & G4 & -> & Hfind).
  pose proof (grows_trans _ _ _ _ _ G3 G4) as G34.
  pose proof (grows_length _ _ _ G1) as Hlen1. cbn in Hlen1.
  rewrite Nat.add_0_r in Hlen1.
  assert (forall P, Mapping_find B1 P = Mapping_find B P) as Hmap1.
  { intros P. by apply Mapping_find_same. }
  rewrite (getStmtRange_input B B3) in HR
    by (by destruct (grows_input _ _ _ G123)).
  split_and!; [done|exact G|by apply Hfind; eexists| | | | |
               by exists Range, B3].
  - intros i Hi. split.
    + apply (grows_new_kind _ _ _ i NK_ExpressionStatement) in G; [done|].
      rewrite lookup_app_l by done.
      destruct (lookup_lt_is_Some_2 _ _ Hi) as [K HK]. rewrite HK.
      f_equal. by apply list_elem_of_lookup_2, wrappedKinds_elem in HK.
    + rewrite <- Hlen1. eapply grows_roleIs; [exact G34|done|].
      by apply Hnew.
  - intros C HC HE. destruct (Hold C HC HE) as (N & HN & HrN).
    exists N. split; [by rewrite <- Hmap1|].
    by apply (grows_roleIs _ _ _ _ _ G34).
  - intros Hv.
    destruct (markChildToken_Loc_covered _ _ _ _ _ Hcov1 Hv)
      as (T & L & HT & Hin & _ & Hat & Hrole & _).
    exists T, L. split_and!; [done|done|done|].
    pose proof (grows_trans _ _ _ _ _ G2 G34) as G234.
    by apply (grows_roleIs _ _ _ _ _ G234).
  - intros Hv.
    destruct (markChildToken_Loc_covered _ _ _ _ _ Hcov3 Hv)
      as (T & L & HT & Hin & _ & Hat & Hrole & _).
    exists T, L, B2. split_and!; [|done|done|done|].
    + rewrite <- HT. symmetry. apply findToken_input.
      destruct G12 as (_ & ? & _). done.
    + by apply (grows_roleIs _ _ _ _ _ G4).
Qed.

Lemma stmtNode_same (B B' : TreeBuilder) (C : Stmt) :
  length (TB_Heap B') = length (TB_Heap B) -> Mapping B' = Mapping B ->
  stmtNode B' C = stmtNode B C.
Proof.
  unfold stmtNode. intros -> HM. by rewrite (Mapping_find_same B B').
Qed.





(** * Template declarations, trailing return types, if statements *)

Lemma assertTemplateKW_Ok (TemplateKW : option TokenPtr) (u : unit)
    (B B' : TreeBuilder) :
  assertTemplateKW TemplateKW B = Ok (u, B') ->
  B' = B
  /\ exists T : TokenPtr,
       TemplateKW = Some T /\ kindAt (TB_Arena B) T = Ok tok_kw_template.
Proof.
  unfold assertTemplateKW. intros H.
  destruct TemplateKW as [T|]; [|by apply liftR_Ok in H as [? _]].
  apply bind_Ok in H as (k & B1 & Hk & H).
  apply readB_Ok in Hk as [Hk ->].
  apply assertM_Ok in H as [Hc ->]. apply bool_decide_eq_true in Hc.
  subst k. split; [done|]. by exists T.
Qed.

Lemma markChildToken_Some_grows (T : TokenPtr) (R : NodeRole) (u : unit)
    (B B' : TreeBuilder) :
  markChildToken (Some T) R B = Ok (u, B') ->
  grows [] B B' /\ Pending B' = Pending B /\ Mapping B' = Mapping B
  /\ exists L : NodePtr, (T, L) ∈ Pending B /\ roleIs B' L R.
Proof.
  cbn [markChildToken]. intros H.
  pose proof H as H0.
  apply Pending_assignRole_grows in H as (G & HP & L & Hin & Hr).
  split_and!; [done|done| |by exists L].
  by apply Pending_assignRole_Ok in H0 as (? & ? & _ & _ & _ & ->).
Qed.

Lemma markChildToken_Some_covered (T : TokenPtr) (R : NodeRole) (u : unit)
    (B B' : TreeBuilder) :
  markChildToken (Some T) R B = Ok (u, B') ->
  exists L : NodePtr,
    (T, L) ∈ Pending B /\ pendingAt (Pending B) T L /\ roleIs B' L R.
Proof.
  cbn [markChildToken]. unfold Pending_assignRole. intros H.
  destruct (Forest_assignRole (oneToken T) R (TB_Heap B) (Pending B))
    as [H'|] eqn:E; [|done].
  injection H as HB'. subst B'.
  apply Forest_assignRole_covered in E
    as (L & Hin & _ & Hat & [Nd HL] & ->).
  exists L. split_and!; [done|done|].
  unfold roleIs. cbn [TB_Heap withHeap].
  by rewrite list_lookup_alter_eq, HL.
Qed.

(** X20: a template declaration.  [foldTemplateDeclaration] needs a
    template keyword token; it gives that token the role of the introducer
    keyword, folds the range into one new template declaration node, to
    which the declaration it is given is then mapped, and gives the role of
    the declaration of a template declaration to the new node itself, which
    it returns; no later call can give that node another role.  The
    children of the new node are the entries of the forest the range
    covers, among them the keyword token when it lies within the range,
    and the new node takes their place.  The range of the templated
    declaration is not read. *)
Theorem foldTemplateDeclaration_spec (Range : ArrayRef)
    (TemplateKW : option TokenPtr) (TemplatedDeclaration : ArrayRef)
    (From : ASTPtr) (N : NodePtr) (B B' : TreeBuilder) :
  foldTemplateDeclaration Range TemplateKW TemplatedDeclaration From B
    = Ok (N, B') ->
  N = length (TB_Heap B)
  /\ grows [NK_TemplateDeclaration] B B'
  /\ roleIs B' N TemplateDeclaration_declaration
  /\ (forall R : NodeRole,
        markChild N R B'
        = Abort (AssertionFailure "N->role() == NodeRole::Detached"))
  /\ (is_Some From -> Mapping_find B' From = Some N)
  /\ (exists (T : TokenPtr) (L : NodePtr),
        TemplateKW = Some T
        /\ kindAt (TB_Arena B) T = Ok tok_kw_template
        /\ (T, L) ∈ Pending B
        /\ pendingAt (Pending B) T L
        /\ roleIs B' L IntroducerKeyword)
  /\ (forall Other : ArrayRef,
        foldTemplateDeclaration Range TemplateKW Other From B = Ok (N, B'))
  /\ foldedByHandler NK_TemplateDeclaration Range B B'.
Proof.
  intros H. pose proof H as H0. unfold foldTemplateDeclaration in H.
  apply bind_Ok in H as ([] & B1 & Ha & H).
  apply assertTemplateKW_Ok in Ha as (-> & T & -> & Hk).
  apply bind_Ok in H as ([] & B2 & Ht & H).
  pose proof (markChildToken_quiet _ _ _ _ _ Ht) as Hq1.
  destruct (markChildToken_Some_covered _ _ _ _ _ Ht)
    as (L & Hin & Hat & HrL).
  apply markChildToken_Some_grows in Ht as (G1 & HP1 & _ & _).
  apply bind_Ok in H as (New & B3 & Halloc & H).
  apply bind_Ok in H as ([] & B4 & Hfold & H).
  apply bind_Ok in H as ([] & B5 & Hmark & H).
  apply mret_Ok in H as [-> <-].
  pose proof (handler_folds _ _ _ _ _ _ _ _ _ Hq1 Halloc Hfold) as Hfolded.
  destruct (fold_after_marks _ _ _ _ _ _ _ _ _ _ G1 Halloc Hfold)
    as (G & G2 & -> & Hfind).
  unfold markChild in Hmark.
  pose proof (setRole_quiet _ _ _ _ _ Hmark) as Hq3.
  apply setRole_grows in Hmark as (G3 & HrN).
  pose proof (grows_trans _ _ _ _ _ G G3) as G'.
  pose proof (grows_trans _ _ _ _ _ G2 G3) as G23.
  cbn [length app] in *. rewrite Nat.add_0_r in *.
  split_and!; [done|exact G'|done| | | |done|].
  - intros R. unfold markChild, setRole, role. unfold roleIs in HrN.
    destruct (TB_Heap B' !! length (TB_Heap B)) as [Nd|]; [|done].
    injection HrN as ->. done.
  - intros HF. apply (grows_Mapping_find _ _ _ _ _ G3). by apply Hfind.
  - exists T, L. split_and!; [done|done|done|done|].
    by apply (grows_roleIs _ _ _ _ _ G23).
  - apply (foldedByHandler_quiet _ _ _ _ _ Hfolded Hq3).
    apply (grows_new_kind _ _ _ 0 NK_TemplateDeclaration) in G'; [|done].
    by rewrite Nat.add_0_r in G'.
Qed.

(** X21: an explicit template instantiation.
    [foldExplicitTemplateInstantiation] needs a template keyword token, and
    an extern keyword token when it is given one; it gives the tokens the
    roles of the extern and the introducer keyword and the inner
    declaration the role of the declaration of the instantiation, which the
    inner declaration must not have a role for, and folds the range into
    one new explicit template instantiation node, to which the declaration
    is then mapped.  The children of the new node are the entries of the
    forest the range covers, among them the keyword tokens that lie within
    the range, and the new node takes their place. *)
Theorem foldExplicitTemplateInstantiation_spec (Range : ArrayRef)
    (ExternKW TemplateKW : option TokenPtr) (InnerDeclaration : NodePtr)
    (From : ASTPtr) (B B' : TreeBuilder) :
  foldExplicitTemplateInstantiation Range ExternKW TemplateKW
    InnerDeclaration From B = Ok (tt, B') ->
  grows [NK_ExplicitTemplateInstantiation] B B'
  /\ (is_Some From -> Mapping_find B' From = Some (length (TB_Heap B)))
  /\ roleIs B InnerDeclaration Detached
  /\ roleIs B' InnerDeclaration ExplicitTemplateInstantiation_declaration
  /\ (exists (T : TokenPtr) (L : NodePtr),
        TemplateKW = Some T
        /\ kindAt (TB_Arena B) T = Ok tok_kw_template
        /\ (T, L) ∈ Pending B
        /\ pendingAt (Pending B) T L
        /\ roleIs B' L IntroducerKeyword)
  /\ (forall E : TokenPtr,
        ExternKW = Some E ->
        kindAt (TB_Arena B) E = Ok tok_kw_extern
        /\ exists L : NodePtr,
             (E, L) ∈ Pending B /\ pendingAt (Pending B) E L
             /\ roleIs B' L ExternKeyword)
  /\ foldedByHandler NK_ExplicitTemplateInstantiation Range B B'.
Proof.
  intros H. unfold foldExplicitTemplateInstantiation in H.
  apply bind_Ok in H as ([] & B0 & He & H).
  assert (B0 = B
          /\ forall E, ExternKW = Some E ->
                       kindAt (TB_Arena B) E = Ok tok_kw_extern)
    as [-> Hextern].
  { destruct ExternKW as [E|].
    - apply bind_Ok in He as (k & B1 & Hk & He).
      apply readB_Ok in Hk as [Hk ->].
      apply assertM_Ok in He as [Hc ->]. apply bool_decide_eq_true in Hc.
      subst k. split; [done|]. by intros ? [= <-].
    - apply mret_Ok in He as [_ ->]. by split. }
  apply bind_Ok in H as ([] & B1 & Ha & H).
  apply assertTemplateKW_Ok in Ha as (-> & T & -> & Hk).
  apply bind_Ok in H as ([] & B2 & Hx & H).
  pose proof (markChildToken_quiet _ _ _ _ _ Hx) as Hq1.
  assert (grows [] B B2 /\ Pending B2 = Pending B
          /\ forall E, ExternKW = Some E ->
                       exists L, (E, L) ∈ Pending B
                                 /\ pendingAt (Pending B) E L
                                 /\ roleIs B2 L ExternKeyword)
    as (G1 & HP1 & HxL).
  { destruct ExternKW as [E|].
    - destruct (markChildToken_Some_covered _ _ _ _ _ Hx)
        as (L & Hin & Hat & Hr).
      apply markChildToken_Some_grows in Hx as (G & HP & _ & _).
      split_and!; [done|done|]. intros ? [= <-]. by exists L.
    - cbn [markChildToken] in Hx. apply mret_Ok in Hx as [_ ->].
      split_and!; [apply grows_refl|done|done]. }
  apply bind_Ok in H as ([] & B3 & Ht & H).
  pose proof (markChildToken_quiet _ _ _ _ _ Ht) as Hq2.
  destruct (markChildToken_Some_covered _ _ _ _ _ Ht)
    as (L & Hin & Hat & HrL).
  apply markChildToken_Some_grows in Ht as (G2 & HP2 & _ & _).
  apply bind_Ok in H as ([] & B4 & Hm & H).
  unfold markChild in Hm. pose proof Hm as Hm0.
  pose proof (setRole_quiet _ _ _ _ _ Hm) as Hq3.
  apply setRole_grows in Hm as (G3 & HrI).
  apply bind_Ok in H as (N & B5 & Halloc & Hfold).
  pose proof (quiet_trans _ _ _ (quiet_trans _ _ _ Hq1 Hq2) Hq3) as Hq.
  pose proof (handler_folds _ _ _ _ _ _ _ _ _ Hq Halloc Hfold) as Hfolded.
  pose proof (grows_trans _ _ _ _ _ G1 G2) as G12.
  pose proof (grows_trans _ _ _ _ _ G12 G3) as G123.
  destruct (fold_after_marks _ _ _ _ _ _ _ _ _ _ G123 Halloc Hfold)
    as (G & G4 & -> & Hfind).
  pose proof (grows_trans _ _ _ _ _ G3 G4) as G34.
  pose proof (grows_trans _ _ _ _ _ G2 G34) as G234.
  cbn [length app] in *. rewrite Nat.add_0_r in *.
  split_and!; [exact G|done| | | | |done].
  - apply setRole_Ok in Hm0 as (Nd & HN & Hd & _).
    unfold roleIs.
    destruct (TB_Heap B !! InnerDeclaration) as [Nd0|] eqn:HN0.
    + destruct G12 as (_ & _ & _ & Hpers & _).
      destruct (decide (Node_role Nd0 = Detached)) as [Hd0|Hd0].
      * cbn [fmap option_fmap option_map]. by rewrite Hd0.
      * specialize (Hpers _ _ HN0 Hd0). rewrite HN in Hpers.
        cbn [fmap option_fmap option_map] in Hpers. congruence.
    + destruct G12 as (_ & _ & Hkinds & _).
      apply (f_equal length) in Hkinds.
      rewrite app_nil_r, !length_fmap in Hkinds.
      apply lookup_lt_Some in HN. apply lookup_ge_None in HN0. lia.
  - by apply (grows_roleIs _ _ _ _ _ G4).
  - exists T, L.
    split_and!; [done|done|by rewrite <- HP1|by rewrite <- HP1|].
    by apply (grows_roleIs _ _ _ _ _ G34).
  - intros E HE. split; [by apply Hextern|].
    destruct (HxL E HE) as (Lx & Hinx & Hatx & Hrx). exists Lx.
    split_and!; [done|done|].
    by apply (grows_roleIs _ _ _ _ _ G234).
Qed.

Lemma getDeclaratorRange_noname (A : Arena) (T : TypeLoc) (R : SourceRange) :
  getDeclaratorRange A T InvalidLoc InvalidRange = Ok R ->
  R = mkSourceRange (GetStartLoc_Visit T) (TypeLoc_getEnd T)
  /\ Loc_isValid (TypeLoc_getEnd T) = true.
Proof.
  unfold getDeclaratorRange. intros H.
  destruct (Loc_isValid (TypeLoc_getEnd T)); [|done].
  cbn in H. by injection H as <-.
Qed.

Lemma allocate_Mapping (K : NodeKind) (p : NodePtr) (B B' : TreeBuilder) :
  allocate K B = Ok (p, B') -> Mapping B' = Mapping B.
Proof. intros H. by apply allocate_Ok in H as [_ ->]. Qed.

Lemma foldNode_None_Mapping (Range : ArrayRef) (New : NodePtr) (u : unit)
    (B B' : TreeBuilder) :
  foldNode Range New None B = Ok (u, B') -> Mapping B' = Mapping B.
Proof.
  unfold foldNode. intros H. apply bind_Ok in H as ([] & B1 & Hf & H).
  apply mret_Ok in H as [_ ->].
  by apply Pending_foldChildren_Ok in Hf as (? & ? & _ & ->).
Qed.

Lemma setRole_Mapping (N : NodePtr) (R : NodeRole) (u : unit)
    (B B' : TreeBuilder) :
  setRole N R B = Ok (u, B') -> Mapping B' = Mapping B.
Proof. intros H. by apply setRole_Ok in H as (? & _ & _ & ->). Qed.

(** X22: a trailing return type.  [BuildTrailingReturn] needs a function
    type with a trailing return type whose returned type is preceded by an
    arrow token.  When the returned type has a paren or pointer location it
    folds the tokens of the declarator into a new simple declarator first,
    which gets the role of the declarator of the trailing return type; it
    then gives the arrow token its role and folds the arrow and the
    returned type into one new trailing return type node, which it
    returns.  The children of each new node are the entries of the forest
    its range covers, and the node takes their place.  Neither node is
    recorded in the mapping. *)
Theorem BuildTrailingReturn_spec (L : FunctionProtoTypeLocInfo)
    (R : NodePtr) (B B' : TreeBuilder) :
  BuildTrailingReturn L B = Ok (R, B') ->
  let hasDeclarator :=
    Loc_isValid (GetStartLoc_Visit (FPT_getReturnLoc L)) in
  FPT_hasTrailingReturn L = true
  /\ grows ((if hasDeclarator then [NK_SimpleDeclarator] else [])
            ++ [NK_TrailingReturnType]) B B'
  /\ R = length (TB_Heap B) + (if hasDeclarator then 1 else 0)
  /\ Mapping B' = Mapping B
  /\ (hasDeclarator = true ->
      roleIs B' (length (TB_Heap B)) TrailingReturnType_declarator)
  /\ exists (Return : ArrayRef) (Arrow : TokenPtr) (Bd : TreeBuilder),
       getRange B (mkSourceRange (FPT_ReturnBeginLoc L)
                                 (TypeLoc_getEnd (FPT_getReturnLoc L)))
         = Ok Return
       /\ ArrayRef_begin Return = S Arrow
       /\ kindAt (TB_Arena B) Arrow = Ok tok_arrow
       /\ (if hasDeclarator then
             exists Declarator : ArrayRef,
               getRange B (mkSourceRange
                             (GetStartLoc_Visit (FPT_getReturnLoc L))
                             (TypeLoc_getEnd (FPT_getReturnLoc L)))
                 = Ok Declarator
               /\ foldedByHandler NK_SimpleDeclarator Declarator B Bd
           else Bd = B)
       /\ (exists La : NodePtr,
             pendingAt (Pending Bd) Arrow La /\ roleIs B' La ArrowToken)
       /\ foldedByHandler NK_TrailingReturnType
            (makeArrayRef Arrow (ArrayRef_end Return)) Bd B'.
Proof.
  intros H hasDeclarator. unfold BuildTrailingReturn in H.
  apply bind_Ok in H as ([] & B0 & Ha & H).
  apply assertM_Ok in Ha as [Htr ->].
  apply bind_Ok in H as (RDR & B0 & Hd & H).
  apply readB_Ok in Hd as [Hd ->].
  apply getDeclaratorRange_noname in Hd as [-> HEnd].
  apply bind_Ok in H as (RD & B1 & Hdecl & H).
  assert (Range_isValid
            (mkSourceRange (GetStartLoc_Visit (FPT_getReturnLoc L))
                           (TypeLoc_getEnd (FPT_getReturnLoc L)))
          = hasDeclarator) as Hvalid.
  { unfold Range_isValid. cbn [getBegin getEnd]. rewrite HEnd.
    by rewrite andb_true_r. }
  rewrite Hvalid in Hdecl.
  assert (grows (if hasDeclarator then [NK_SimpleDeclarator] else []) B B1
          /\ Mapping B1 = Mapping B
          /\ RD = (if hasDeclarator then Some (length (TB_Heap B)) else None)
          /\ (if hasDeclarator then
                exists Declarator : ArrayRef,
                  getRange B (mkSourceRange
                                (GetStartLoc_Visit (FPT_getReturnLoc L))
                                (TypeLoc_getEnd (FPT_getReturnLoc L)))
                    = Ok Declarator
                  /\ foldedByHandler NK_SimpleDeclarator Declarator B B1
              else B1 = B))
    as (G1 & HM1 & HRD & Hdeclarator).
  { destruct hasDeclarator.
    - apply bind_Ok in Hdecl as (N & B2 & Halloc & Hdecl).
      apply bind_Ok in Hdecl as (Range & B2' & HR & Hdecl).
      apply readB_Ok in HR as [HR ->].
      apply bind_Ok in Hdecl as ([] & B3 & Hfold & Hdecl).
      apply mret_Ok in Hdecl as [-> ->].
      pose proof (allocate_Mapping _ _ _ _ Halloc) as HMa.
      pose proof (foldNode_None_Mapping _ _ _ _ _ Hfold) as HMf.
      pose proof (handler_folds _ _ _ _ _ _ _ _ _ (quiet_refl B)
                    Halloc Hfold) as Hfolded.
      destruct (allocate_foldNode_grows _ _ _ _ _ _ _ _ Halloc Hfold)
        as (G & -> & _).
      apply allocate_Ok in Halloc as [_ ->].
      rewrite (getRange_input B) in HR by done.
      split_and!; [done|congruence|done|]. by exists Range.
    - apply mret_Ok in Hdecl as [-> ->].
      split_and!; [apply grows_refl|done|done|done]. }
  apply bind_Ok in H as (Return & B1' & HRet & H).
  apply readB_Ok in HRet as [HRet ->].
  destruct (grows_input _ _ _ G1) as [HA1 HL1].
  rewrite (getRange_input B B1) in HRet by done.
  apply bind_Ok in H as ([] & B1' & Hnz & H).
  apply liftR_Ok in Hnz as [Hnz ->].
  destruct (ArrayRef_begin Return =? 0) eqn:Hz; [done|].
  apply Nat.eqb_neq in Hz.
  apply bind_Ok in H as (k & B1' & Hk & H).
  apply readB_Ok in Hk as [Hk ->]. rewrite HA1 in Hk.
  apply bind_Ok in H as ([] & B1' & Hc & H).
  apply assertM_Ok in Hc as [Hc ->]. apply bool_decide_eq_true in Hc.
  subst k.
  apply bind_Ok in H as ([] & B2 & Ht & H).
  pose proof (markChildToken_quiet _ _ _ _ _ Ht) as Hq2.
  destruct (markChildToken_Some_covered _ _ _ _ _ Ht)
    as (La & Hin & Hat & HrLa).
  apply markChildToken_Some_grows in Ht as (G2 & HP2 & HM2 & _).
  apply bind_Ok in H as ([] & B3 & Hm & H).
  assert (grows [] B2 B3 /\ Mapping B3 = Mapping B2
          /\ (hasDeclarator = true ->
              roleIs B3 (length (TB_Heap B)) TrailingReturnType_declarator)
          /\ quiet B2 B3)
    as (G3 & HM3 & HrD & Hq3).
  { rewrite HRD in Hm. destruct hasDeclarator.
    - unfold markChild in Hm.
      pose proof (setRole_Mapping _ _ _ _ _ Hm) as HM.
      pose proof (setRole_quiet _ _ _ _ _ Hm) as Hq.
      apply setRole_grows in Hm as [G Hr]. by split_and!.
    - apply mret_Ok in Hm as [_ ->].
      split_and!; [apply grows_refl|done|done|apply quiet_refl]. }
  apply bind_Ok in H as (N & B4 & Halloc & H).
  apply bind_Ok in H as ([] & B5 & Hfold & H).
  apply mret_Ok in H as [-> <-]. unfold foldNode_TypeLoc in Hfold.
  pose proof (handler_folds _ _ _ _ _ _ _ _ _ (quiet_trans _ _ _ Hq2 Hq3)
                Halloc Hfold) as Hfolded.
  pose proof (allocate_Mapping _ _ _ _ Halloc) as HMa.
  pose proof (foldNode_None_Mapping _ _ _ _ _ Hfold) as HMf.
  pose proof (grows_trans _ _ _ _ _ G1 G2) as G12.
  pose proof (grows_trans _ _ _ _ _ G12 G3) as G123.
  rewrite !app_nil_r in G123.
  destruct (fold_after_marks _ _ _ _ _ _ _ _ _ _ G123 Halloc Hfold)
    as (G & G4 & -> & _).
  split_and!; [done|exact G| |congruence| |].
  - f_equal. by destruct hasDeclarator.
  - intros Hh. apply (grows_roleIs _ _ _ _ _ G4); [done|]. by apply HrD.
  - exists Return, (ArrayRef_begin Return - 1), B1.
    split_and!; [done|lia|done|done| |done].
    exists La. split; [done|].
    by apply (grows_roleIs _ _ _ _ _ (grows_trans _ _ _ _ _ G3 G4)).
Qed.

(** X23: an if statement.  The handler gives the tokens at the locations of
    [if] and [else] their roles, where the locations are valid, and the
    then and the else statement theirs, where they exist, wrapping each
    that is an expression in a new expression statement; it then folds the
    range of the statement into one new if statement node, allocated after
    these, to which the statement is mapped.  The children of the if
    statement are the entries its range covers in the forest the marking
    has left, and the new node takes their place.  For an if statement
    without [else] nothing is marked for the else branch. *)
Theorem WalkUpFromIfStmt_spec (S : IfStmt) (r : bool) (B B' : TreeBuilder) :
  WalkUpFromIfStmt S B = Ok (r, B') ->
  let thenKinds := wrappedKinds (option_list (If_getThen S)) in
  let elseKinds := wrappedKinds (option_list (If_getElse S)) in
  r = true
  /\ grows (thenKinds ++ elseKinds ++ [NK_IfStatement]) B B'
  /\ Mapping_find B' (ofStmt (If_Stmt S))
     = Some (length (TB_Heap B) + length thenKinds + length elseKinds)
  /\ (forall Then : Stmt,
        If_getThen S = Some Then ->
        exists N : NodePtr,
          stmtNode B Then = Some N
          /\ roleIs B' N IfStatement_thenStatement)
  /\ (forall Else : Stmt,
        If_getElse S = Some Else ->
        exists N : NodePtr,
          (if isa_Expr Else
           then Some (length (TB_Heap B) + length thenKinds)
           else Mapping_find B (ofStmt Else)) = Some N
          /\ roleIs B' N IfStatement_elseStatement)
  /\ (Loc_isValid (If_getIfLoc S) = true ->
      exists (T : TokenPtr) (L : NodePtr),
        findToken B (If_getIfLoc S) = Ok (Some T)
        /\ (T, L) ∈ Pending B
        /\ pendingAt (Pending B) T L
        /\ roleIs B' L IntroducerKeyword)
  /\ exists (Range : ArrayRef) (Bm : TreeBuilder),
       getStmtRange B (If_Stmt S) = Ok Range
       /\ (_ ← markChildToken_Loc (If_getIfLoc S) IntroducerKeyword;
           _ ← markStmtChild (If_getThen S) IfStatement_thenStatement;
           _ ← markChildToken_Loc (If_getElseLoc S) IfStatement_elseKeyword;
           markStmtChild (If_getElse S) IfStatement_elseStatement) B
          = Ok (tt, Bm)
       /\ grows (thenKinds ++ elseKinds) B Bm
       /\ foldedByHandler NK_IfStatement Range Bm B'.
Proof.
  intros H thenKinds elseKinds. unfold WalkUpFromIfStmt in H.
  apply bind_Ok in H as ([] & B1 & Ht1 & H).
  apply bind_Ok in H as ([] & B2 & Hthen & H).
  apply bind_Ok in H as ([] & B3 & Ht2 & H).
  apply bind_Ok in H as ([] & B4 & Helse & H).
  apply bind_Ok in H as (Range & B4' & HR & H).
  apply readB_Ok in HR as [HR ->].
  apply bind_Ok in H as (N & B5 & Halloc & H).
  apply bind_Ok in H as ([] & B6 & Hfold & H).
  apply mret_Ok in H as [-> <-].
  assert ((_ ← markChildToken_Loc (If_getIfLoc S) IntroducerKeyword;
           _ ← markStmtChild (If_getThen S) IfStatement_thenStatement;
           _ ← markChildToken_Loc (If_getElseLoc S) IfStatement_elseKeyword;
           markStmtChild (If_getElse S) IfStatement_elseStatement) B
          = Ok (tt, B4)) as Hrun.
  { rewrite (bind_run _ _ _ _ _ Ht1). rewrite (bind_run _ _ _ _ _ Hthen).
    by rewrite (bind_run _ _ _ _ _ Ht2). }
  pose proof (handler_folds _ _ _ _ _ _ _ _ _ (quiet_refl B4) Halloc Hfold)
    as Hfolded.
  pose proof Ht1 as Hcov1.
  pose proof (markChildToken_Loc_Mapping _ _ _ _ _ Ht1) as HM1.
  apply markChildToken_Loc_grows in Ht1 as (G1 & HP1 & Htok1).
  apply markStmtChild_opt_grows in Hthen as (G2 & HM2 & Hnode2).
  pose proof (markChildToken_Loc_Mapping _ _ _ _ _ Ht2) as HM3.
  apply markChildToken_Loc_grows in Ht2 as (G3 & HP3 & Htok3).
  apply markStmtChild_opt_grows in Helse as (G4 & HM4 & Hnode4).
  fold thenKinds in G2. fold elseKinds in G4.
  pose proof (grows_trans _ _ _ _ _ G1 G2) as G12.
  pose proof (grows_trans _ _ _ _ _ G12 G3) as G123.
  pose proof (grows_trans _ _ _ _ _ G123 G4) as G1234.
  cbn [app] in G12, G123, G1234. rewrite app_nil_r in G123, G1234.
  destruct (fold_after_marks _ _ _ _ _ _ _ _ _ _ G1234 Halloc Hfold)
    as (G & G5 & -> & Hfind).
  pose proof (grows_trans _ _ _ _ _ G4 G5) as G45.
  pose proof (grows_trans _ _ _ _ _ G3 G45) as G345.
  pose proof (grows_trans _ _ _ _ _ G2 G345) as G2345.
  pose proof (grows_length _ _ _ G1) as Hlen1.
  pose proof (grows_length _ _ _ G12) as Hlen2.
  pose proof (grows_length _ _ _ G123) as Hlen3.
  cbn [length] in Hlen1. rewrite Nat.add_0_r in Hlen1.
  rewrite (getStmtRange_input B B4) in HR
    by (by destruct (grows_input _ _ _ G1234)).
  split_and!; [done| | | | | |by exists Range, B4].
  - by rewrite <- app_assoc in G.
  - rewrite Hfind by (by eexists). f_equal. rewrite length_app. lia.
  - intros Then HT. destruct (Hnode2 Then HT) as (Nt & HNt & Hr).
    exists Nt. split; [by rewrite <- (stmtNode_same B B1)|].
    by apply (grows_roleIs _ _ _ _ _ G345).
  - intros Else HE. destruct (Hnode4 Else HE) as (Ne & HNe & Hr).
    exists Ne. split; [|by apply (grows_roleIs _ _ _ _ _ G5)].
    unfold stmtNode in HNe. rewrite Hlen3 in HNe.
    destruct (isa_Expr Else); [done|].
    rewrite <- HNe. symmetry. apply Mapping_find_same. congruence.
  - intros Hv.
    destruct (markChildToken_Loc_covered _ _ _ _ _ Hcov1 Hv)
      as (T & L & HT & Hin & _ & Hat & Hrole & _).
    exists T, L. split_and!; [done|done|done|].
    by apply (grows_roleIs _ _ _ _ _ G2345).
Qed.

(** * The parser of range selectors: characters, names and node ids *)

Lemma take_drop_while (F : ascii -> bool) (S : StringRef) :
  take_while F S ++ drop_while F S = S.
Proof.
  induction S as [|c rest IH]; [done|]. cbn [take_while drop_while].
  destruct (F c); [|done]. cbn [app]. by rewrite IH.
Qed.

Lemma take_while_forallb (F : ascii -> bool) (S : StringRef) :
  forallb F (take_while F S) = true.
Proof.
  induction S as [|c rest IH]; [done|]. cbn [take_while].
  destruct (F c) eqn:HF; [|done]. cbn [forallb]. by rewrite HF, IH.
Qed.

Lemma drop_while_app (F : ascii -> bool) (w r : StringRef) :
  forallb F w = true -> drop_while F (w ++ r) = drop_while F r.
Proof.
  induction w as [|c w IH]; [done|]. cbn [forallb app drop_while].
  intros [-> Hw]%andb_true_iff. by apply IH.
Qed.

Lemma take_while_app (F : ascii -> bool) (w r : StringRef) :
  forallb F w = true -> take_while F (w ++ r) = w ++ take_while F r.
Proof.
  induction w as [|c w IH]; [done|]. cbn [forallb app take_while].
  intros [-> Hw]%andb_true_iff. by rewrite IH.
Qed.

Section Lexing.

Context {CI : CharInfo}.

Lemma drop_while_head (F : ascii -> bool) (S : StringRef) :
  startsWithout F (drop_while F S) = true.
Proof.
  induction S as [|c rest IH]; [done|]. cbn [drop_while].
  destruct (F c) eqn:HF; [done|]. cbn [startsWithout]. by rewrite HF.
Qed.

Lemma drop_while_startsWithout (F : ascii -> bool) (r : StringRef) :
  startsWithout F r = true -> drop_while F r = r.
Proof.
  destruct r as [|c r]; [done|]. cbn [startsWithout drop_while].
  by intros ->%negb_true_iff.
Qed.

Lemma take_while_startsWithout (F : ascii -> bool) (r : StringRef) :
  startsWithout F r = true -> take_while F r = [].
Proof.
  destruct r as [|c r]; [done|]. cbn [startsWithout take_while].
  by intros ->%negb_true_iff.
Qed.

Lemma consumeWhitespace_skipped (S : StringRef) :
  consumeWhitespace S = drop_while skipped S.
Proof. reflexivity. Qed.

Lemma consumeWhitespace_at (w r : StringRef) :
  whitespaceOnly w = true -> startsWithout skipped r = true ->
  consumeWhitespace (w ++ r) = r.
Proof.
  intros Hw Hr. rewrite consumeWhitespace_skipped.
  rewrite (drop_while_app _ w r Hw).
  by apply (drop_while_startsWithout skipped).
Qed.

Lemma consumeWhitespace_split (S : StringRef) :
  exists w : StringRef,
    S = w ++ consumeWhitespace S /\ whitespaceOnly w = true
    /\ startsWithout skipped (consumeWhitespace S) = true.
Proof.
  exists (take_while skipped S). rewrite consumeWhitespace_skipped.
  split_and!.
  - symmetry. apply take_drop_while.
  - apply take_while_forallb.
  - apply (drop_while_head skipped).
Qed.

(** X24: [consumeWhitespace] drops exactly the leading whitespace: its
    result is the one rest of the input that is preceded by 7-bit
    whitespace characters only and does not start with one.  So it is
    idempotent, and a character outside the 7-bit range is never
    dropped. *)
Theorem consumeWhitespace_spec (S r : StringRef) :
  (consumeWhitespace S = r <->
   exists w : StringRef,
     S = w ++ r /\ whitespaceOnly w = true
     /\ startsWithout skipped r = true)
  /\ consumeWhitespace (consumeWhitespace S) = consumeWhitespace S
  /\ (forall (c : ascii) (rest : StringRef),
        nonNegative c = false -> consumeWhitespace (c :: rest) = c :: rest).
Proof.
  split_and!.
  - split.
    + intros <-. apply consumeWhitespace_split.
    + intros (w & -> & Hw & Hr). by apply consumeWhitespace_at.
  - destruct (consumeWhitespace_split S) as (w & _ & _ & Hr).
    by apply (consumeWhitespace_at []).
  - intros c rest Hc. rewrite consumeWhitespace_skipped.
    cbn [drop_while]. unfold skipped. by rewrite Hc.
Qed.

Lemma errorAt_split (State : ParseState) (w r : StringRef) (Msg : string) :
  wellPositioned State -> ParseState_Input State = w ++ r ->
  errorAt (ParseState_OriginalInput State)
          (length (ParseState_OriginalInput State) - length r) Msg
  = mkParseError (positionOf State + length w) Msg (str (take 20 r)).
Proof.
  intros [k Hk] Hsplit.
  assert (length (ParseState_OriginalInput State) - length r
          = positionOf State + length w) as Hpos.
  { unfold positionOf. rewrite Hk, Hsplit, !length_app. lia. }
  unfold errorAt. rewrite Hpos. do 2 f_equal.
  rewrite <- Hpos, Hk, Hsplit, !length_app.
  replace (length k + (length w + length r) - length r)
    with (length (k ++ w)) by (rewrite length_app; lia).
  by rewrite app_assoc, drop_app_length.
Qed.

Lemma parseChar_at (c : ascii) (w rest Original : StringRef) :
  whitespaceOnly w = true -> skipped c = false ->
  parseChar c (mkParseState (w ++ c :: rest) Original)
  = HasValue (mkParseProgress (mkParseState rest Original) tt).
Proof.
  intros Hw Hc. unfold parseChar. cbn [ParseState_Input].
  rewrite consumeWhitespace_at; [|done|by cbn; rewrite Hc].
  by rewrite Ascii.eqb_refl.
Qed.

Lemma parseChar_cases (c : ascii) (State : ParseState) :
  (exists rest : StringRef,
      consumeWhitespace (ParseState_Input State) = c :: rest
      /\ parseChar c State
         = HasValue (mkParseProgress
                       (mkParseState rest (ParseState_OriginalInput State))
                       tt))
  \/ ((forall rest : StringRef,
          consumeWhitespace (ParseState_Input State) ≠ c :: rest)
      /\ parseChar c State
         = HasError
             (errorAt (ParseState_OriginalInput State)
                (length (ParseState_OriginalInput State)
                 - length (consumeWhitespace (ParseState_Input State)))
                ("expected char not found: " +:+ String c EmptyString))).
Proof.
  unfold parseChar. cbn [ParseState_Input ParseState_OriginalInput].
  destruct (consumeWhitespace (ParseState_Input State)) as [|front rest]
    eqn:HS.
  - right. split; [done|]. done.
  - destruct (Ascii.eqb_spec front c) as [->|Hne]; cbn [negb].
    + left. exists rest. split; [done|].
      unfold advance, drop_front. cbn. by rewrite drop_0.
    + right. split; [congruence|]. done.
Qed.

(** X25: [parseChar] succeeds exactly when the input is the expected
    character after 7-bit whitespace; it then leaves the rest after that
    character, and the original input as it was.  Otherwise (also when the
    expected character is itself whitespace) it reports that the character
    was not found, at the position of the first character that is not
    whitespace, with the input from there on as the excerpt. *)
Theorem parseChar_spec (c : ascii) (State : ParseState) :
  (forall P : ParseProgress unit,
      parseChar c State = HasValue P <->
      exists w rest : StringRef,
        ParseState_Input State = w ++ c :: rest
        /\ whitespaceOnly w = true /\ skipped c = false
        /\ P = mkParseProgress
                 (mkParseState rest (ParseState_OriginalInput State)) tt)
  /\ (forall e : ParseError,
        parseChar c State = HasError e ->
        wellPositioned State ->
        exists w rest : StringRef,
          ParseState_Input State = w ++ rest
          /\ whitespaceOnly w = true
          /\ startsWithout skipped rest = true
          /\ startsWithout (fun c' => Ascii.eqb c' c) rest = true
          /\ ParseError_Pos e = positionOf State + length w
          /\ e = mkParseError (positionOf State + length w)
                   ("expected char not found: " +:+ String c EmptyString)
                   (str (take 20 rest))).
Proof.
  split.
  - intros P. split.
    + intros HP.
      destruct (parseChar_cases c State)
        as [(rest & HS & Hrun)|[_ Hrun]]; rewrite Hrun in HP; [|done].
      injection HP as <-.
      destruct (consumeWhitespace_split (ParseState_Input State))
        as (w & Hsplit & Hw & Hhead).
      rewrite HS in Hsplit, Hhead. exists w, rest.
      split_and!; [done|done| |done].
      cbn [startsWithout] in Hhead. by apply negb_true_iff.
    + intros (w & rest & HS & Hw & Hc & ->).
      destruct State as [Input Original]. cbn in HS. subst Input.
      by apply parseChar_at.
  - intros e He Hpos.
    destruct (parseChar_cases c State)
      as [(rest & HS & Hrun)|[Hnot Hrun]]; rewrite Hrun in He; [done|].
    injection He as <-.
    destruct (consumeWhitespace_split (ParseState_Input State))
      as (w & Hsplit & Hw & Hhead).
    set (r := consumeWhitespace (ParseState_Input State)) in *.
    exists w, r.
    split_and!; [done|done|done| | |].
    + destruct r as [|c' r']; [done|]. cbn [startsWithout].
      apply negb_true_iff, Ascii.eqb_neq. intros ->. by eapply Hnot.
    + by rewrite (errorAt_split State w r).
    + by apply errorAt_split.
Qed.

Lemma parseId_identifierChar (S : StringRef) :
  take_while (fun c => nonNegative c && isIdentifierBody c) S
  = take_while identifierChar S.
Proof. reflexivity. Qed.

Lemma drop_take_while (F : ascii -> bool) (S : StringRef) :
  drop (length (take_while F S)) S = drop_while F S.
Proof.
  rewrite <- (take_drop_while F S) at 2. by rewrite drop_app_length.
Qed.

Lemma parseId_cases (State : ParseState) :
  let r := consumeWhitespace (ParseState_Input State) in
  let Id := take_while identifierChar r in
  (Id ≠ []
   /\ parseId State
      = HasValue (mkParseProgress
                    (mkParseState (drop_while identifierChar r)
                                  (ParseState_OriginalInput State))
                    (str Id)))
  \/ (Id = []
      /\ parseId State
         = HasError
             (errorAt (ParseState_OriginalInput State)
                (length (ParseState_OriginalInput State) - length r)
                "failed to parse name")).
Proof.
  cbv zeta. unfold parseId.
  cbn [ParseState_Input ParseState_OriginalInput].
  change (fun c : ascii => nonNegative c && isIdentifierBody c)
    with identifierChar.
  set (r := consumeWhitespace (ParseState_Input State)).
  destruct (take_while identifierChar r) as [|c Id'] eqn:HId.
  - right. split; [done|]. done.
  - left. split; [done|].
    change (length (c :: Id') =? 0) with false. cbv iota.
    unfold advance, drop_front, makeParseProgress.
    cbn [ParseState_Input ParseState_OriginalInput].
    do 3 f_equal. rewrite <- HId. apply drop_take_while.
Qed.

Lemma parseId_at (w Id rest Original : StringRef) :
  whitespaceOnly w = true -> Id ≠ [] -> identifierOnly Id = true ->
  startsWithout skipped Id = true ->
  startsWithout identifierChar rest = true ->
  parseId (mkParseState (w ++ Id ++ rest) Original)
  = HasValue (mkParseProgress (mkParseState rest Original) (str Id)).
Proof.
  intros Hw Hne HId Hhead Hrest.
  destruct (parseId_cases (mkParseState (w ++ Id ++ rest) Original))
    as [[_ Hrun]|[Hnil _]];
    cbn [ParseState_Input ParseState_OriginalInput] in *.
  - rewrite Hrun. rewrite consumeWhitespace_at; [|done|].
    2:{ destruct Id; [done|]. done. }
    rewrite (take_while_app _ Id rest HId), (drop_while_app _ Id rest HId).
    rewrite (take_while_startsWithout _ _ Hrest), app_nil_r.
    by rewrite (drop_while_startsWithout _ _ Hrest).
  - rewrite consumeWhitespace_at in Hnil; [|done|].
    2:{ destruct Id; [done|]. done. }
    rewrite (take_while_app _ Id rest HId) in Hnil.
    by destruct Id.
Qed.

(** X26: [parseId] succeeds exactly when the input is, after 7-bit
    whitespace, a run of identifier characters that is not empty; it takes
    the longest such run as the name and leaves the rest, which does not
    start with an identifier character.  Otherwise it reports that it
    failed to parse a name, at the position of the first character that is
    not whitespace. *)
Theorem parseId_spec (State : ParseState) :
  (forall P : ParseProgress string,
      parseId State = HasValue P <->
      exists w Id rest : StringRef,
        ParseState_Input State = w ++ Id ++ rest
        /\ whitespaceOnly w = true
        /\ Id ≠ [] /\ identifierOnly Id = true
        /\ startsWithout skipped Id = true
        /\ startsWithout identifierChar rest = true
        /\ P = mkParseProgress
                 (mkParseState rest (ParseState_OriginalInput State))
                 (str Id))
  /\ (forall e : ParseError,
        parseId State = HasError e ->
        wellPositioned State ->
        exists w rest : StringRef,
          ParseState_Input State = w ++ rest
          /\ whitespaceOnly w = true
          /\ startsWithout skipped rest = true
          /\ startsWithout identifierChar rest = true
          /\ e = mkParseError (positionOf State + length w)
                   "failed to parse name" (str (take 20 rest))).
Proof.
  destruct (consumeWhitespace_split (ParseState_Input State))
    as (w & Hsplit & Hw & Hhead).
  set (r := consumeWhitespace (ParseState_Input State)) in *.
  split.
  - intros P. split.
    + intros HP.
      destruct (parseId_cases State) as [[Hne Hrun]|[_ Hrun]];
        rewrite Hrun in HP; [|done].
      injection HP as <-. fold r in Hne |- *.
      exists w, (take_while identifierChar r),
        (drop_while identifierChar r).
      split_and!; try done.
      * by rewrite take_drop_while.
      * apply take_while_forallb.
      * destruct r as [|c r']; [done|]. cbn [take_while] in Hne |- *.
        destruct (identifierChar c); [|done]. done.
      * apply (drop_while_head identifierChar).
    + intros (w' & Id & rest & HS & Hw' & Hne & HId & Hh & Hrest & ->).
      destruct State as [Input Original]. cbn in HS. subst Input.
      by apply parseId_at.
  - intros e He Hpos.
    destruct (parseId_cases State) as [[_ Hrun]|[Hnil Hrun]];
      rewrite Hrun in He; [done|].
    injection He as <-. fold r in Hnil |- *. exists w, r.
    split_and!; [done|done|done| |by apply errorAt_split].
    destruct r as [|c r']; [done|]. cbn [take_while startsWithout] in *.
    by destruct (identifierChar c).
Qed.

Lemma take_while_length_all (F : ascii -> bool) (S : StringRef) :
  length S = length (take_while F S) -> forallb F S = true.
Proof.
  intros Hlen. rewrite <- (take_drop_while F S) in Hlen at 1.
  rewrite length_app in Hlen.
  assert (drop_while F S = []) as Hnil.
  { apply length_zero_iff_nil. lia. }
  rewrite <- (take_drop_while F S), Hnil, app_nil_r.
  apply take_while_forallb.
Qed.

Lemma parseStringId_at (w Id rest Original : StringRef) :
  whitespaceOnly w = true -> skipped quoteChar = false ->
  forallb (fun c => negb (Ascii.eqb c quoteChar)) Id = true ->
  parseStringId
    (mkParseState (w ++ quoteChar :: Id ++ quoteChar :: rest) Original)
  = HasValue (mkParseProgress (mkParseState rest Original) (str Id)).
Proof.
  intros Hw Hq HId. unfold parseStringId.
  cbn [ParseState_Input ParseState_OriginalInput].
  rewrite consumeWhitespace_at; [|done|by cbn; rewrite Hq].
  rewrite Ascii.eqb_refl. cbn [negb]. unfold take_until.
  rewrite (take_while_app _ Id _ HId).
  cbn [take_while]. rewrite Ascii.eqb_refl. cbn [negb].
  rewrite app_nil_r, length_app. cbn [length].
  replace (length Id + S (length rest) =? length Id) with false
    by (symmetry; apply Nat.eqb_neq; lia).
  unfold advance, drop_front, makeParseProgress.
  cbn [ParseState_Input ParseState_OriginalInput].
  do 3 f_equal.
  replace (length Id + 1) with (length (Id ++ [quoteChar]))
    by (rewrite length_app; cbn; lia).
  rewrite (cons_middle quoteChar Id rest), app_assoc.
  by rewrite drop_app_length.
Qed.

(** X27: [parseStringId] succeeds exactly when the input is, after 7-bit
    whitespace, a double quote, a text without double quotes, and a double
    quote; the text is the node id, with no escaping, and the rest after
    the closing quote is left.  Otherwise it reports an unexpected end of
    input or a character that is no string at the position of the first
    character that is not whitespace, or an unterminated string at the
    position after the opening quote. *)
Theorem parseStringId_spec (State : ParseState) :
  (forall P : ParseProgress string,
      parseStringId State = HasValue P <->
      exists w Id rest : StringRef,
        ParseState_Input State = w ++ quoteChar :: Id ++ quoteChar :: rest
        /\ whitespaceOnly w = true /\ skipped quoteChar = false
        /\ forallb (fun c => negb (Ascii.eqb c quoteChar)) Id = true
        /\ P = mkParseProgress
                 (mkParseState rest (ParseState_OriginalInput State))
                 (str Id))
  /\ (forall e : ParseError,
        parseStringId State = HasError e ->
        wellPositioned State ->
        exists w rest : StringRef,
          ParseState_Input State = w ++ rest
          /\ whitespaceOnly w = true
          /\ startsWithout skipped rest = true
          /\ (rest = []
               /\ e = mkParseError (positionOf State + length w)
                        "unexpected end of input" EmptyString
              \/ (exists (c : ascii) (r : StringRef),
                     rest = c :: r /\ c ≠ quoteChar
                     /\ e = mkParseError (positionOf State + length w)
                              "expecting string, but encountered other character or end of input"
                              (str (take 20 rest)))
              \/ (exists r : StringRef,
                     rest = quoteChar :: r
                     /\ forallb (fun c => negb (Ascii.eqb c quoteChar)) r
                        = true
                     /\ e = mkParseError (positionOf State + length w + 1)
                              "unterminated string" (str (take 20 r))))).
Proof.
  destruct (consumeWhitespace_split (ParseState_Input State))
    as (w & Hsplit & Hw & Hhead).
  split.
  - intros P. split.
    + intros HP. unfold parseStringId in HP.
      cbn [ParseState_Input ParseState_OriginalInput] in HP.
      destruct (consumeWhitespace (ParseState_Input State))
        as [|front rest] eqn:HS; [done|].
      destruct (Ascii.eqb_spec front quoteChar) as [->|Hne];
        cbn [negb] in HP; [|done].
      destruct (length rest
                =? length (take_until (fun c => Ascii.eqb c quoteChar) rest))
        eqn:Hlen; [done|].
      injection HP as <-. apply Nat.eqb_neq in Hlen. unfold take_until in *.
      set (F := fun c : ascii => negb (Ascii.eqb c quoteChar)) in *.
      pose proof (take_drop_while F rest) as Hrest.
      pose proof (drop_while_head F rest) as Hh.
      destruct (drop_while F rest) as [|q rest'] eqn:Hdrop.
      { rewrite app_nil_r in Hrest. by rewrite Hrest in Hlen. }
      cbn [startsWithout] in Hh. unfold F in Hh.
      rewrite negb_involutive in Hh. apply Ascii.eqb_eq in Hh. subst q.
      exists w, (take_while F rest), rest'.
      split_and!.
      * by rewrite Hsplit, Hrest.
      * done.
      * cbn [startsWithout] in Hhead. by apply negb_true_iff.
      * apply take_while_forallb.
      * unfold advance, drop_front, makeParseProgress.
        cbn [ParseState_Input ParseState_OriginalInput]. do 3 f_equal.
        rewrite <- Hrest at 2.
        replace (length (take_while F rest) + 1)
          with (length (take_while F rest ++ [quoteChar]))
          by (rewrite length_app; cbn; lia).
        rewrite (cons_middle quoteChar _ rest'), app_assoc.
        by rewrite drop_app_length.
    + intros (w' & Id & rest & HS & Hw' & Hq & HId & ->).
      destruct State as [Input Original]. cbn in HS. subst Input.
      by apply parseStringId_at.
  - intros e He Hpos. unfold parseStringId in He.
    cbn [ParseState_Input ParseState_OriginalInput] in He.
    set (r := consumeWhitespace (ParseState_Input State)) in *.
    exists w, r. split_and!; [done|done|done|].
    destruct r as [|front rest] eqn:Hr.
    + left. split; [done|]. injection He as <-.
      unfold makeParseError. cbn [ParseState_Input ParseState_OriginalInput].
      apply (errorAt_split State w []); done.
    + destruct (Ascii.eqb_spec front quoteChar) as [->|Hne];
        cbn [negb] in He.
      * right. right. exists rest. split; [done|].
        destruct (length rest
                  =? length (take_until (fun c => Ascii.eqb c quoteChar)
                                        rest)) eqn:Hlen; [|done].
        apply Nat.eqb_eq in Hlen. split.
        -- by apply take_while_length_all.
        -- injection He as <-.
           transitivity
             (mkParseError (positionOf State + length (w ++ [quoteChar]))
                           "unterminated string" (str (take 20 rest))).
           ++ apply (errorAt_split State (w ++ [quoteChar]) rest);
                [done|by rewrite <- app_assoc].
           ++ rewrite length_app. cbn [length]. f_equal. lia.
      * right. left. exists front, rest. split_and!; [done|done|].
        injection He as <-. unfold makeParseError.
        cbn [ParseState_Input ParseState_OriginalInput].
        by apply (errorAt_split State w (front :: rest)).
Qed.

End Lexing.

(** * The further theorems on concrete inputs *)

(** [a + b;]: the builder starts with the four tokens before [eof]
    pending. *)
Lemma TreeBuilder_new_spec_witness :
  Pending (exampleBuilder sumTokens) = [(0, 0); (1, 1); (2, 2); (3, 3)].
Proof.
  destruct (TreeBuilder_new_spec (exampleArena sumTokens)) as [_ H].
  destruct (H (exampleBuilder sumTokens)) as (_ & HP & _).
  { vm_compute. reflexivity. }
  exact HP.
Defined.

(** [a + b;]: the token at the location 20 is the second token. *)
Lemma findToken_first_token_witness :
  findToken (exampleBuilder sumTokens) 20 = Ok (Some 1).
Proof.
  rewrite (findToken_first_token (exampleArena sumTokens)).
  - vm_compute. reflexivity.
  - vm_compute. reflexivity.
Defined.

(** [a + b;]: the range from the location of [a] to the location of [b]
    holds the first three tokens. *)
Lemma getRange2_spec_witness :
  getRange2 (exampleBuilder sumTokens) 10 30 = Ok (mkArrayRef 0 3).
Proof.
  destruct (getRange2_spec (exampleArena sumTokens)
              (exampleBuilder sumTokens) 10 30 (mkArrayRef 0 3))
    as ([_ H] & _ & _).
  { vm_compute. reflexivity. }
  apply H. split_and!; [done|done|by right|].
  exists 0, 2, (mkToken tok_identifier 10), (mkToken tok_identifier 30).
  split_and!; vm_compute; reflexivity.
Defined.

(** [return;]: the range of the statement holds the semicolon and does not
    end in [eof]. *)
Lemma getStmtRange_ends_witness :
  exists back : TokenKind,
    backKind (exampleArena [tok_kw_return; tok_semi; tok_eof])
             (mkArrayRef 0 2) = Ok back
    /\ back ≠ tok_eof.
Proof.
  destruct (getStmtRange_ends
              (exampleBuilder [tok_kw_return; tok_semi; tok_eof])
              (exampleStmt 1 SC_OtherStmt (mkSourceRange 10 10))
              (mkArrayRef 0 2))
    as (Tokens & back & _ & _ & Hback & Heof & _).
  { reflexivity. }
  { vm_compute. reflexivity. }
  exists back. split; [exact Hback|exact Heof].
Defined.

(** [int a, b;]: the calls of the two declarator handlers add two
    declarators and one declaration; a name specifier recorded before
    later calls is still found after them. *)
Lemma runCalls_grows_witness :
  Node_kind <$> TB_Heap (stateAfter (runCalls declTraversal)
                                    (exampleBuilder declTokens))
  = (Node_kind <$> TB_Heap (exampleBuilder declTokens))
    ++ [NK_SimpleDeclarator; NK_SimpleDeclarator; NK_SimpleDeclaration]
  /\ Mapping_findNNS
       (stateAfter (runCalls [CallNoticeDeclWithoutSemicolon 1;
                              CallAllocate NK_UnknownExpression])
                   (stateAfter (runCalls
                                  [CallFoldNodeNNS (mkArrayRef 0 1)
                                     NK_NestedNameSpecifier
                                     (mkNestedNameSpecifierLoc 1 0 10)])
                               (exampleBuilder declTokens)))
       (mkNestedNameSpecifierLoc 1 0 10) = Some 5.
Proof.
  split.
  - destruct (runCalls_grows declTraversal (exampleBuilder declTokens)
                (stateAfter (runCalls declTraversal)
                            (exampleBuilder declTokens)))
      as (_ & _ & Hk & _).
    { vm_compute. reflexivity. }
    exact Hk.
  - destruct (runCalls_grows
                [CallNoticeDeclWithoutSemicolon 1;
                 CallAllocate NK_UnknownExpression]
                (stateAfter (runCalls
                               [CallFoldNodeNNS (mkArrayRef 0 1)
                                  NK_NestedNameSpecifier
                                  (mkNestedNameSpecifierLoc 1 0 10)])
                            (exampleBuilder declTokens))
                (stateAfter (runCalls [CallNoticeDeclWithoutSemicolon 1;
                                       CallAllocate NK_UnknownExpression])
                   (stateAfter (runCalls
                                  [CallFoldNodeNNS (mkArrayRef 0 1)
                                     NK_NestedNameSpecifier
                                     (mkNestedNameSpecifierLoc 1 0 10)])
                               (exampleBuilder declTokens))))
      as (_ & _ & _ & _ & _ & Hnns & _).
    { vm_compute. reflexivity. }
    apply Hnns. vm_compute. reflexivity.
Defined.

(** [a + b;]: once [a] is folded, folding it again does not succeed. *)
Lemma foldNode_maps_once_witness :
  isOk (foldNode (mkArrayRef 0 1) 5 (Some (StmtKey 1))
          (stateAfter (_ ← foldNode (mkArrayRef 0 1) 4 (Some (StmtKey 1));
                       runCalls [CallAllocate NK_UnknownExpression])
                      allocatedBuilder))
  = false.
Proof.
  destruct (foldNode_maps_once (mkArrayRef 0 1) 4 (StmtKey 1)
              [CallAllocate NK_UnknownExpression] allocatedBuilder
              (stateAfter (foldNode (mkArrayRef 0 1) 4 (Some (StmtKey 1)))
                          allocatedBuilder)
              (stateAfter (_ ← foldNode (mkArrayRef 0 1) 4
                                 (Some (StmtKey 1));
                           runCalls [CallAllocate NK_UnknownExpression])
                          allocatedBuilder))
    as (_ & _ & H).
  { vm_compute. reflexivity. }
  { vm_compute. reflexivity. }
  exact (H (mkArrayRef 0 1) 5).
Defined.

(** [a + b;]: a node that has a role cannot be given another one. *)
Lemma markChild_once_witness :
  markChild 4 IdExpression_qualifier
    (stateAfter (_ ← markChild 4 IdExpression_id;
                 runCalls [CallAllocate NK_UnknownExpression])
                allocatedBuilder)
  = Abort (AssertionFailure "N->role() == NodeRole::Detached").
Proof.
  destruct (markChild_once 4 IdExpression_id
              [CallAllocate NK_UnknownExpression] allocatedBuilder
              (stateAfter (markChild 4 IdExpression_id) allocatedBuilder)
              (stateAfter (_ ← markChild 4 IdExpression_id;
                           runCalls [CallAllocate NK_UnknownExpression])
                          allocatedBuilder))
    as (_ & _ & H).
  { done. }
  { vm_compute. reflexivity. }
  { vm_compute. reflexivity. }
  exact (H IdExpression_qualifier).
Defined.

(** [int a, b;]: in the tree built from the calls of the two declarator
    handlers every child has a role. *)
Lemma children_are_attached_witness :
  exists (Root : NodePtr) (B' : TreeBuilder),
    buildSyntaxTree (exampleArena declTokens) declTraversal = Ok (Root, B')
    /\ kindIs B' Root NK_TranslationUnit
    /\ forall (p : NodePtr) (N : Node) (Cs : list NodePtr) (c : NodePtr),
         TB_Heap B' !! p = Some N -> Node_body N = TreeBody Cs -> c ∈ Cs ->
         exists Nc : Node,
           TB_Heap B' !! c = Some Nc /\ Node_role Nc ≠ Detached
           /\ Node_Original Nc = true.
Proof.
  destruct (children_are_attached (exampleArena declTokens) declTraversal
              (exampleBuilder declTokens)
              (stateAfter (runCalls declTraversal)
                          (exampleBuilder declTokens)))
    as [_ H].
  { vm_compute. reflexivity. }
  { vm_compute. reflexivity. }
  exists 8, (stateAfter finalize
               (stateAfter (runCalls declTraversal)
                           (exampleBuilder declTokens))).
  split; [vm_compute; reflexivity|].
  apply H. vm_compute. reflexivity.
Defined.

(** [a + b;] with the sum folded: a fold that starts at [+], inside the
    folded sum, is refused. *)
Lemma foldChildren_crossing_witness :
  Forest_foldChildren (exampleArena sumTokens) (mkArrayRef 1 3) 5
    (TB_Heap foldedSumBuilder ++ [newTree NK_UnknownExpression])
    (Pending foldedSumBuilder)
  = Abort (AssertionFailure "fold crosses boundaries of existing subtrees").
Proof.
  apply (foldChildren_crossing _ _ _ _ _ (newTree NK_UnknownExpression) 1).
  - vm_compute. reflexivity.
  - reflexivity.
  - by left.
  - replace ((Pending foldedSumBuilder).*1) with [0; 3]
      by (vm_compute; reflexivity).
    rewrite !elem_of_cons, elem_of_nil. lia.
  - exists 3. split; [|lia].
    replace ((Pending foldedSumBuilder).*1) with [0; 3]
      by (vm_compute; reflexivity).
    rewrite !elem_of_cons. auto.
Defined.


(** The file that holds no token: the translation unit has no child. *)
Lemma buildSyntaxTree_no_calls_witness :
  exists B' : TreeBuilder,
    buildSyntaxTree (exampleArena [tok_eof]) [] = Ok (0, B')
    /\ TB_Heap B' !! 0
       = Some (mkNode NK_TranslationUnit Detached true true (TreeBody [])).
Proof.
  destruct (buildSyntaxTree_no_calls (exampleArena [tok_eof]))
    as (B' & Hb & _ & _ & Hroot & _).
  { reflexivity. }
  exists B'. split; [exact Hb|exact Hroot].
Defined.

(** [a + b;] with both operands folded: [a] in a statement position is
    wrapped in an expression statement, which the mapping does not
    record. *)
Lemma markStmtChild_wraps_expression_witness :
  roleIs (stateAfter (markStmtChild (Some sumLeft) BodyStatement) sumBuilder)
         8 BodyStatement
  /\ kindIs (stateAfter (markStmtChild (Some sumLeft) BodyStatement)
                        sumBuilder)
            8 NK_ExpressionStatement
  /\ Mapping (stateAfter (markStmtChild (Some sumLeft) BodyStatement)
                         sumBuilder)
     = Mapping sumBuilder.
Proof.
  destruct (markStmtChild_wraps_expression sumLeft BodyStatement sumBuilder
              (stateAfter (markStmtChild (Some sumLeft) BodyStatement)
                          sumBuilder))
    as (_ & HM & E & Range & H' & _ & _ & _ & G & _ & Hr).
  { vm_compute. reflexivity. }
  split_and!; [exact Hr| |exact HM].
  vm_compute. reflexivity.
Defined.

(** [a + b;]: the node folded for [a] gets the role that is asked for the
    implicit cast around [a]. *)
Lemma implicit_nodes_are_transparent_witness :
  isImplicitExpr implicitCast = true
  /\ roleIs (stateAfter (_ ← WalkUpFromExpr (IgnoreImplicit implicitCast);
                         markExprChild (Some implicitCast) BodyStatement)
                        (exampleBuilder sumTokens))
            4 BodyStatement.
Proof.
  destruct implicit_nodes_are_transparent as (_ & _ & _ & H).
  split; [reflexivity|].
  refine (proj2 (H implicitCast BodyStatement true
                   (exampleBuilder sumTokens)
                   (stateAfter (WalkUpFromExpr (IgnoreImplicit implicitCast))
                               (exampleBuilder sumTokens))
                   (stateAfter
                      (_ ← WalkUpFromExpr (IgnoreImplicit implicitCast);
                       markExprChild (Some implicitCast) BodyStatement)
                      (exampleBuilder sumTokens)) _ _)).
  - vm_compute. reflexivity.
  - vm_compute. reflexivity.
Defined.

(** [namespace a::b {}]: the declaration of [a] is folded into a namespace
    definition, the declaration of [b], whose range starts at [::], is
    not. *)
Lemma WalkUpFromNamespaceDecl_spec_witness :
  WalkUpFromNamespaceDecl (namespaceDecl 30) (exampleBuilder namespaceTokens)
    = Ok (true, exampleBuilder namespaceTokens)
  /\ Mapping_find
       (stateAfter (WalkUpFromNamespaceDecl (namespaceDecl 10))
                   (exampleBuilder namespaceTokens))
       (ofDecl (namespaceDecl 10))
     = Some 6.
Proof.
  split.
  - destruct (WalkUpFromNamespaceDecl_spec (namespaceDecl 30)
                (exampleBuilder namespaceTokens) (mkArrayRef 2 4)
                tok_coloncolon) as (_ & H & _).
    + reflexivity.
    + vm_compute. reflexivity.
    + vm_compute. reflexivity.
    + by apply H.
  - destruct (WalkUpFromNamespaceDecl_spec (namespaceDecl 10)
                (exampleBuilder namespaceTokens) (mkArrayRef 0 6)
                tok_unknown) as (_ & _ & H).
    + reflexivity.
    + vm_compute. reflexivity.
    + vm_compute. reflexivity.
    + destruct (H ltac:(done) true
                  (stateAfter (WalkUpFromNamespaceDecl (namespaceDecl 10))
                              (exampleBuilder namespaceTokens)))
        as (_ & _ & Hfind & _).
      * vm_compute. reflexivity.
      * exact Hfind.
Defined.

(** [a + b;]: the call of the overloaded [+] is handled as the built-in
    [+] is. *)
Lemma operator_call_same_shape_witness :
  WalkUpFromCXXOperatorCallExpr sumCall sumBuilder
  = WalkUpFromBinaryOperator (asBinaryOperator sumCall sumLeft sumRight)
                             sumBuilder.
Proof.
  destruct (operator_call_same_shape sumCall sumBuilder) as (H & _ & _).
  apply H; reflexivity.
Defined.

(** [a + b;]: the built-in [+] becomes a binary operator expression to
    which the expression is mapped; its children are the id-expression of
    [a], the token [+] and the id-expression of [b], and it takes their
    place in the forest. *)
Lemma builtin_operators_spec_witness :
  exists B' : TreeBuilder,
    WalkUpFromBinaryOperator (asBinaryOperator sumCall sumLeft sumRight)
                             sumBuilder = Ok (true, B')
    /\ Mapping_find B' (ofStmt (OCE_Stmt sumCall)) = Some 8
    /\ childrenAre B' 8 [5; 1; 7]
    /\ Pending B' = [(0, 8); (3, 3)].
Proof.
  destruct builtin_operators_spec as [H _].
  exists (stateAfter (WalkUpFromBinaryOperator
                        (asBinaryOperator sumCall sumLeft sumRight))
                     sumBuilder).
  assert (Hrun : WalkUpFromBinaryOperator
                   (asBinaryOperator sumCall sumLeft sumRight) sumBuilder
                 = Ok (true,
                       stateAfter (WalkUpFromBinaryOperator
                                     (asBinaryOperator sumCall sumLeft
                                                       sumRight))
                                  sumBuilder)).
  { vm_compute. reflexivity. }
  destruct (H _ _ _ _ Hrun)
    as (_ & _ & Hfind & _ & _ & _ & Range & HR & _ & _ & Hch & HP & _).
  vm_compute in HR. injection HR as <-.
  split; [exact Hrun|]. split; [exact Hfind|]. split; [exact Hch|exact HP].
Defined.

(** [{ a; }]: the expression is wrapped in an expression statement, which
    is a statement of the compound statement; the children of the compound
    statement are the two braces and the expression statement between
    them. *)
Lemma WalkUpFromCompoundStmt_spec_witness :
  exists B' : TreeBuilder,
    WalkUpFromCompoundStmt compoundStmt compoundBuilder = Ok (true, B')
    /\ Mapping_find B' (ofStmt (CS_Stmt compoundStmt)) = Some 7
    /\ roleIs B' 6 CompoundStatement_statement
    /\ childrenAre B' 7 [0; 6; 3]
    /\ Pending B' = [(0, 7)].
Proof.
  exists (stateAfter (WalkUpFromCompoundStmt compoundStmt) compoundBuilder).
  assert (Hrun : WalkUpFromCompoundStmt compoundStmt compoundBuilder
                 = Ok (true, stateAfter (WalkUpFromCompoundStmt compoundStmt)
                                        compoundBuilder)).
  { vm_compute. reflexivity. }
  destruct (WalkUpFromCompoundStmt_spec compoundStmt true compoundBuilder
              _ Hrun)
    as (_ & _ & Hfind & Hnew & _ & _ & _ & Range & Bm & HR & Hm & _
        & _ & _ & Hch & HP & _).
  vm_compute in HR. injection HR as <-.
  vm_compute in Hm. injection Hm as <-.
  split; [exact Hrun|]. split; [exact Hfind|].
  split; [|split; [exact Hch|exact HP]].
  destruct (Hnew 0) as [_ Hr]; [vm_compute; lia|exact Hr].
Defined.



(** [template <> int a;]: the template declaration node has the role of
    the declaration of a template declaration; its children are the six
    tokens. *)
Lemma foldTemplateDeclaration_spec_witness :
  exists B' : TreeBuilder,
    foldTemplateDeclaration (mkArrayRef 0 6) (Some 0) (mkArrayRef 3 3)
      (Some (DeclKey 1)) (exampleBuilder templateTokens) = Ok (6, B')
    /\ roleIs B' 6 TemplateDeclaration_declaration
    /\ childrenAre B' 6 [0; 1; 2; 3; 4; 5]
    /\ Pending B' = [(0, 6)].
Proof.
  exists (stateAfter (foldTemplateDeclaration (mkArrayRef 0 6) (Some 0)
                        (mkArrayRef 3 3) (Some (DeclKey 1)))
                     (exampleBuilder templateTokens)).
  assert (Hrun : foldTemplateDeclaration (mkArrayRef 0 6) (Some 0)
                   (mkArrayRef 3 3) (Some (DeclKey 1))
                   (exampleBuilder templateTokens)
                 = Ok (6, stateAfter
                            (foldTemplateDeclaration (mkArrayRef 0 6)
                               (Some 0) (mkArrayRef 3 3) (Some (DeclKey 1)))
                            (exampleBuilder templateTokens))).
  { vm_compute. reflexivity. }
  destruct (foldTemplateDeclaration_spec _ _ _ _ _ _ _ Hrun)
    as (_ & _ & Hr & _ & _ & _ & _ & _ & _ & Hch & HP & _).
  split; [exact Hrun|]. split; [exact Hr|]. split; [exact Hch|exact HP].
Defined.

(** [extern template int a;]: the inner declaration has the role of the
    declaration of the instantiation; the children of the instantiation
    are the two keywords and the inner declaration. *)
Lemma foldExplicitTemplateInstantiation_spec_witness :
  exists B' : TreeBuilder,
    foldExplicitTemplateInstantiation (mkArrayRef 0 5) (Some 0) (Some 1) 5
      (Some (DeclKey 1)) instantiationBuilder = Ok (tt, B')
    /\ roleIs B' 5 ExplicitTemplateInstantiation_declaration
    /\ childrenAre B' 6 [0; 1; 5]
    /\ Pending B' = [(0, 6)].
Proof.
  exists (stateAfter (foldExplicitTemplateInstantiation (mkArrayRef 0 5)
                        (Some 0) (Some 1) 5 (Some (DeclKey 1)))
                     instantiationBuilder).
  assert (Hrun : foldExplicitTemplateInstantiation (mkArrayRef 0 5)
                   (Some 0) (Some 1) 5 (Some (DeclKey 1))
                   instantiationBuilder
                 = Ok (tt, stateAfter
                             (foldExplicitTemplateInstantiation
                                (mkArrayRef 0 5) (Some 0) (Some 1) 5
                                (Some (DeclKey 1)))
                             instantiationBuilder)).
  { vm_compute. reflexivity. }
  destruct (foldExplicitTemplateInstantiation_spec _ _ _ _ _ _ _ Hrun)
    as (_ & _ & _ & Hr & _ & _ & _ & _ & Hch & HP & _).
  split; [exact Hrun|]. split; [exact Hr|]. split; [exact Hch|exact HP].
Defined.

(** [auto f() -> int;]: the returned type has no declarator; the token
    before it is the arrow, and the arrow and [int] are the children of
    the trailing return type. *)
Lemma BuildTrailingReturn_spec_witness :
  exists B' : TreeBuilder,
    BuildTrailingReturn trailingReturn (exampleBuilder trailingTokens)
      = Ok (7, B')
    /\ kindAt (exampleArena trailingTokens) 4 = Ok tok_arrow
    /\ Mapping B' = Mapping (exampleBuilder trailingTokens)
    /\ childrenAre B' 7 [4; 5]
    /\ Pending B' = [(0, 0); (1, 1); (2, 2); (3, 3); (4, 7); (6, 6)].
Proof.
  exists (stateAfter (BuildTrailingReturn trailingReturn)
                     (exampleBuilder trailingTokens)).
  assert (Hrun : BuildTrailingReturn trailingReturn
                   (exampleBuilder trailingTokens)
                 = Ok (7, stateAfter (BuildTrailingReturn trailingReturn)
                                     (exampleBuilder trailingTokens))).
  { vm_compute. reflexivity. }
  destruct (BuildTrailingReturn_spec _ _ _ _ Hrun)
    as (_ & _ & _ & HM & _ & Return & Arrow & Bd & HR & HA & Hk & Hd & _
        & _ & _ & Hch & HP & _).
  vm_compute in HR. injection HR as <-.
  injection HA as <-.
  else_branch Hd. subst Bd.
  split; [exact Hrun|]. split; [exact Hk|]. split; [exact HM|].
  split; [exact Hch|exact HP].
Defined.

(** [if (x) ;]: the statement is folded into an if statement, whose
    children are the four tokens and the body; nothing is allocated for
    the missing else branch. *)
Lemma WalkUpFromIfStmt_spec_witness :
  exists B' : TreeBuilder,
    WalkUpFromIfStmt ifStmt loopBuilder = Ok (true, B')
    /\ Mapping_find B' (ofStmt (If_Stmt ifStmt)) = Some 6
    /\ childrenAre B' 6 [0; 1; 2; 3; 5]
    /\ Pending B' = [(0, 6)].
Proof.
  exists (stateAfter (WalkUpFromIfStmt ifStmt) loopBuilder).
  assert (Hrun : WalkUpFromIfStmt ifStmt loopBuilder
                 = Ok (true, stateAfter (WalkUpFromIfStmt ifStmt)
                                        loopBuilder)).
  { vm_compute. reflexivity. }
  destruct (WalkUpFromIfStmt_spec ifStmt true loopBuilder _ Hrun)
    as (_ & _ & Hfind & _ & _ & _ & Range & Bm & HR & Hm & _
        & _ & _ & Hch & HP & _).
  vm_compute in HR. injection HR as <-.
  vm_compute in Hm. injection Hm as <-.
  split; [exact Hrun|]. split; [exact Hfind|]. split; [exact Hch|exact HP].
Defined.

(** * The parser of range selectors: termination, errors, round trip *)

Lemma advances_trans (S1 S2 S3 : ParseState) :
  advances S1 S2 -> advances S2 S3 -> advances S1 S3.
Proof.
  intros [HO1 (c1 & Hc1 & HI1)] [HO2 (c2 & Hc2 & HI2)]. split; [congruence|].
  exists (c1 ++ c2). split.
  - destruct c1; [done|]. done.
  - by rewrite HI1, HI2, app_assoc.
Qed.

Lemma advances_length (S1 S2 : ParseState) :
  advances S1 S2 ->
  length (ParseState_Input S2) < length (ParseState_Input S1).
Proof.
  intros [_ (c & Hc & ->)]. rewrite length_app.
  destruct c; [done|]. cbn [length]. lia.
Qed.

Lemma advances_wellPositioned (S1 S2 : ParseState) :
  advances S1 S2 -> wellPositioned S1 -> wellPositioned S2.
Proof.
  intros [HO (c & _ & HI)] [k Hk]. unfold wellPositioned.
  rewrite HO, Hk, HI. exists (k ++ c). by rewrite app_assoc.
Qed.

Section ParserTheory.

Context {CI : CharInfo}.
Context {RangeSelector : Type} {RS : RangeSelectors RangeSelector}.

Lemma parseChar_advances (c : ascii) (State : ParseState)
    (P : ParseProgress unit) :
  parseChar c State = HasValue P -> advances State (Progress_State P).
Proof.
  intros HP.
  destruct (parseChar_cases c State) as [(rest & HS & Hrun)|[_ Hrun]];
    rewrite Hrun in HP; [|done].
  injection HP as <-. split; [done|].
  destruct (consumeWhitespace_split (ParseState_Input State))
    as (w & Hsplit & _).
  rewrite HS in Hsplit. exists (w ++ [c]). split.
  - by destruct w.
  - cbn. by rewrite Hsplit, <- app_assoc.
Qed.

Lemma parseId_advances (State : ParseState) (P : ParseProgress string) :
  parseId State = HasValue P -> advances State (Progress_State P).
Proof.
  intros HP.
  destruct (parseId_cases State) as [[Hne Hrun]|[_ Hrun]];
    rewrite Hrun in HP; [|done].
  injection HP as <-. split; [done|].
  destruct (consumeWhitespace_split (ParseState_Input State))
    as (w & Hsplit & _).
  set (r := consumeWhitespace (ParseState_Input State)) in *.
  exists (w ++ take_while identifierChar r). split.
  - destruct (take_while identifierChar r); [done|]. by destruct w.
  - cbn. by rewrite <- app_assoc, take_drop_while.
Qed.

Lemma parseStringId_advances (State : ParseState)
    (P : ParseProgress string) :
  parseStringId State = HasValue P -> advances State (Progress_State P).
Proof.
  intros HP. unfold parseStringId in HP.
  cbn [ParseState_Input ParseState_OriginalInput] in HP.
  destruct (consumeWhitespace_split (ParseState_Input State))
    as (w & Hsplit & _).
  destruct (consumeWhitespace (ParseState_Input State))
    as [|front rest] eqn:HS; [done|].
  destruct (negb (Ascii.eqb front quoteChar)); [done|].
  destruct (length rest =? _); [done|].
  injection HP as <-. split; [done|].
  unfold advance, drop_front. cbn [ParseState_Input].
  set (n := length _ + 1).
  exists (w ++ front :: take n rest). split.
  - by destruct w.
  - rewrite <- app_assoc.
    cbn [app makeParseProgress Progress_State ParseState_Input].
    by rewrite take_drop.
Qed.

Lemma parseSingle_total {T} (ParseElement : ParseFunction T)
    (Op : T -> RangeSelector) (State : ParseState) :
  (forall S' : ParseState,
      advances State S' ->
      exists r, ParseElement S' = Some r
                /\ forall E, r = HasValue E ->
                             advances S' (Progress_State E)) ->
  exists r, parseSingle ParseElement Op State = Some r
            /\ forall P, r = HasValue P ->
                         advances State (Progress_State P).
Proof.
  intros HE. unfold parseSingle.
  destruct (parseChar "("%char State) as [P1|e] eqn:H1; [|by eexists].
  apply parseChar_advances in H1.
  destruct (HE _ H1) as (r & -> & Hr).
  destruct r as [E|e]; [|by eexists].
  specialize (Hr E eq_refl).
  destruct (parseChar ")"%char (Progress_State E)) as [P2|e] eqn:H2;
    [|by eexists].
  apply parseChar_advances in H2.
  eexists. split; [done|]. intros P [= <-]. cbn.
  exact (advances_trans _ _ _ H1 (advances_trans _ _ _ Hr H2)).
Qed.

Lemma parsePair_total {T} (ParseElement : ParseFunction T)
    (Op : T -> T -> RangeSelector) (State : ParseState) :
  (forall S' : ParseState,
      advances State S' ->
      exists r, ParseElement S' = Some r
                /\ forall E, r = HasValue E ->
                             advances S' (Progress_State E)) ->
  exists r, parsePair ParseElement Op State = Some r
            /\ forall P, r = HasValue P ->
                         advances State (Progress_State P).
Proof.
  intros HE. unfold parsePair.
  destruct (parseChar "("%char State) as [P1|e] eqn:H1; [|by eexists].
  apply parseChar_advances in H1.
  destruct (HE _ H1) as (r & -> & Hr).
  destruct r as [L|e]; [|by eexists].
  specialize (Hr L eq_refl).
  pose proof (advances_trans _ _ _ H1 Hr) as H1L.
  destruct (parseChar ","%char (Progress_State L)) as [P2|e] eqn:H2;
    [|by eexists].
  apply parseChar_advances in H2.
  pose proof (advances_trans _ _ _ H1L H2) as H12.
  destruct (HE _ H12) as (r & -> & Hr2).
  destruct r as [R|e]; [|by eexists].
  specialize (Hr2 R eq_refl).
  pose proof (advances_trans _ _ _ H12 Hr2) as H12R.
  destruct (parseChar ")"%char (Progress_State R)) as [P3|e] eqn:H3;
    [|by eexists].
  apply parseChar_advances in H3.
  eexists. split; [done|]. intros P [= <-]. cbn.
  exact (advances_trans _ _ _ H12R H3).
Qed.

Lemma parseRangeSelectorImpl_total (depth : nat) :
  forall State : ParseState,
    length (ParseState_Input State) < depth ->
    exists r, parseRangeSelectorImpl depth State = Some r
              /\ forall P, r = HasValue P ->
                           advances State (Progress_State P).
Proof.
  induction depth as [|d IH]; intros State Hlen; [lia|].
  cbn [parseRangeSelectorImpl].
  destruct (parseId State) as [Id|e] eqn:HId; [|by eexists].
  apply parseId_advances in HId.
  pose proof (advances_length _ _ HId) as HlenId.
  assert (forall S' : ParseState,
            advances (Progress_State Id) S' ->
            exists r, parseRangeSelectorImpl d S' = Some r
                      /\ forall E, r = HasValue E ->
                                   advances S' (Progress_State E)) as Hrec.
  { intros S' HS'. apply IH. apply advances_length in HS'. lia. }
  assert (forall S' : ParseState,
            advances (Progress_State Id) S' ->
            exists r, (fun S => Some (parseStringId S)) S' = Some r
                      /\ forall E, r = HasValue E ->
                                   advances S' (Progress_State E)) as Hstr.
  { intros S' _. eexists. split; [done|].
    intros E HE. by apply parseStringId_advances. }
  assert (forall r : option (ExpectedProgress RangeSelector),
            (exists r', r = Some r'
                        /\ forall P, r' = HasValue P ->
                                     advances (Progress_State Id)
                                              (Progress_State P)) ->
            exists r', r = Some r'
                       /\ forall P, r' = HasValue P ->
                                    advances State (Progress_State P))
    as Hlift.
  { intros r (r' & -> & Hr'). exists r'. split; [done|].
    intros P HP. exact (advances_trans _ _ _ HId (Hr' P HP)). }
  destruct (findOptional getUnaryStringSelectors (Progress_Value Id)).
  { by apply Hlift, parseSingle_total. }
  destruct (findOptional getUnaryRangeSelectors (Progress_Value Id)).
  { by apply Hlift, parseSingle_total. }
  destruct (findOptional getBinaryStringSelectors (Progress_Value Id)).
  { by apply Hlift, parsePair_total. }
  destruct (findOptional getBinaryRangeSelectors (Progress_Value Id)).
  { by apply Hlift, parsePair_total. }
  by eexists.
Qed.

Lemma parseSingle_mono {T} (PE PE' : ParseFunction T)
    (Op : T -> RangeSelector) (State : ParseState)
    (r : ExpectedProgress RangeSelector) :
  (forall S' r', PE S' = Some r' -> PE' S' = Some r') ->
  parseSingle PE Op State = Some r -> parseSingle PE' Op State = Some r.
Proof.
  intros Hm. unfold parseSingle.
  destruct (parseChar "("%char State) as [P1|e]; [|done].
  destruct (PE (Progress_State P1)) as [r1|] eqn:H1; [|done].
  by rewrite (Hm _ _ H1).
Qed.

Lemma parsePair_mono {T} (PE PE' : ParseFunction T)
    (Op : T -> T -> RangeSelector) (State : ParseState)
    (r : ExpectedProgress RangeSelector) :
  (forall S' r', PE S' = Some r' -> PE' S' = Some r') ->
  parsePair PE Op State = Some r -> parsePair PE' Op State = Some r.
Proof.
  intros Hm. unfold parsePair.
  destruct (parseChar "("%char State) as [P1|e]; [|done].
  destruct (PE (Progress_State P1)) as [r1|] eqn:H1; [|done].
  rewrite (Hm _ _ H1). destruct r1 as [L|e]; [|done].
  destruct (parseChar ","%char (Progress_State L)) as [P2|e]; [|done].
  destruct (PE (Progress_State P2)) as [r2|] eqn:H2; [|done].
  by rewrite (Hm _ _ H2).
Qed.

Lemma parseRangeSelectorImpl_mono (d : nat) :
  forall (d' : nat) (State : ParseState)
         (r : ExpectedProgress RangeSelector),
    d <= d' ->
    parseRangeSelectorImpl d State = Some r ->
    parseRangeSelectorImpl d' State = Some r.
Proof.
  induction d as [|d IH]; intros d' State r Hle H; [done|].
  destruct d' as [|d']; [lia|]. cbn [parseRangeSelectorImpl] in *.
  destruct (parseId State) as [Id|e]; [|done].
  assert (forall S' r', parseRangeSelectorImpl d S' = Some r' ->
                        parseRangeSelectorImpl d' S' = Some r') as Hm.
  { intros S' r'. apply IH. lia. }
  destruct (findOptional getUnaryStringSelectors _); [done|].
  destruct (findOptional getUnaryRangeSelectors _).
  { by eapply parseSingle_mono. }
  destruct (findOptional getBinaryStringSelectors _); [done|].
  destruct (findOptional getBinaryRangeSelectors _).
  { by eapply parsePair_mono. }
  done.
Qed.

(** X28: the parser terminates.  [parseRangeSelectorImpl] consumes a
    character before every call of itself, so a bound on the depth of its
    calls that exceeds the length of the remaining input is never reached:
    the call answers, and when it succeeds it has consumed a part of the
    input that is not empty and has kept the original input; a larger
    bound gives the same answer.  So [parseRangeSelector] answers on every
    input, with a selector or a parse error. *)
Theorem parseRangeSelector_terminates :
  (forall Input : StringRef,
      exists r : Expected RangeSelector,
        parseRangeSelector Input = Some r)
  /\ (forall (depth : nat) (State : ParseState),
        length (ParseState_Input State) < depth ->
        exists r : ExpectedProgress RangeSelector,
          parseRangeSelectorImpl depth State = Some r
          /\ forall P : ParseProgress RangeSelector,
               r = HasValue P -> advances State (Progress_State P))
  /\ (forall (d d' : nat) (State : ParseState)
             (r : ExpectedProgress RangeSelector),
        d <= d' ->
        parseRangeSelectorImpl d State = Some r ->
        parseRangeSelectorImpl d' State = Some r).
Proof.
  split_and!.
  - intros Input. unfold parseRangeSelector.
    destruct (parseRangeSelectorImpl_total (S (length Input))
                (mkParseState Input Input)) as (r & -> & _).
    { cbn. lia. }
    destruct r as [P|e]; [|by eexists].
    cbn zeta. destruct (consumeWhitespace _); by eexists.
  - intros depth State. apply parseRangeSelectorImpl_total.
  - intros d d' State r. apply parseRangeSelectorImpl_mono.
Qed.

Lemma selectorNames_None (Name : string) :
  Name ∉ selectorNames ->
  findOptional getUnaryStringSelectors Name = None
  /\ findOptional getUnaryRangeSelectors Name = None
  /\ findOptional getBinaryStringSelectors Name = None
  /\ findOptional getBinaryRangeSelectors Name = None.
Proof.
  intros Hnot. unfold findOptional, getUnaryStringSelectors,
    getUnaryRangeSelectors, getBinaryStringSelectors,
    getBinaryRangeSelectors.
  unfold selectorNames in Hnot. rewrite !not_elem_of_cons in Hnot.
  split_and!; apply not_elem_of_list_to_map_1; cbn [fmap list_fmap fst];
    rewrite !not_elem_of_cons; naive_solver.
Qed.

(** X29: an unknown selector.  When the input is, after whitespace, a name
    that none of the four tables holds, the parser reports an unknown
    selector name; unlike the other errors, this one is reported at the
    position where the parsing of the selector started, in front of the
    whitespace: at the top level that is the start of the input. *)
Theorem parseRangeSelector_unknown_name (w Name rest : StringRef) :
  whitespaceOnly w = true ->
  Name ≠ [] ->
  identifierOnly Name = true ->
  startsWithout skipped Name = true ->
  startsWithout identifierChar rest = true ->
  str Name ∉ selectorNames ->
  (forall (depth : nat) (State : ParseState),
      wellPositioned State ->
      ParseState_Input State = w ++ Name ++ rest ->
      parseRangeSelectorImpl (S depth) State
      = Some (HasError
                (mkParseError (positionOf State)
                   ("unknown selector name: " +:+ str Name)
                   (str (take 20 (ParseState_Input State))))))
  /\ parseRangeSelector (w ++ Name ++ rest)
     = Some (HasError
               (mkParseError 0 ("unknown selector name: " +:+ str Name)
                  (str (take 20 (w ++ Name ++ rest))))).
Proof.
  intros Hw Hne HId Hhead Hrest Hnot.
  assert (forall (depth : nat) (State : ParseState),
            wellPositioned State ->
            ParseState_Input State = w ++ Name ++ rest ->
            parseRangeSelectorImpl (S depth) State
            = Some (HasError
                      (mkParseError (positionOf State)
                         ("unknown selector name: " +:+ str Name)
                         (str (take 20 (ParseState_Input State))))))
    as Himpl.
  { intros depth State Hpos HS. cbn [parseRangeSelectorImpl].
    destruct State as [Input Original]. cbn in HS. subst Input.
    rewrite parseId_at by done. cbn [Progress_Value Progress_State].
    destruct (selectorNames_None _ Hnot) as (-> & -> & -> & ->).
    f_equal. unfold makeParseError. f_equal.
    transitivity
      (mkParseError
         (positionOf (mkParseState (w ++ Name ++ rest) Original)
          + length (@nil ascii))
         ("unknown selector name: " +:+ str Name)
         (str (take 20 (w ++ Name ++ rest)))).
    - by apply (errorAt_split (mkParseState (w ++ Name ++ rest) Original)
                  [] (w ++ Name ++ rest)).
    - cbn [length]. by rewrite Nat.add_0_r. }
  split; [exact Himpl|].
  unfold parseRangeSelector. rewrite Himpl; [|by exists []|done].
  unfold positionOf. cbn. by rewrite Nat.sub_diag.
Qed.

End ParserTheory.

Lemma str_chars (s : string) : str (chars s) = s.
Proof. apply String.string_of_list_ascii_of_string. Qed.

Lemma forallb_mono {X} (F G : X -> bool) (l : list X) :
  (forall x, F x = true -> G x = true) ->
  forallb F l = true -> forallb G l = true.
Proof.
  intros HFG. induction l as [|x l IH]; [done|]. cbn [forallb].
  intros [HF Hl]%andb_true_iff. by rewrite (HFG x HF), IH.
Qed.

Lemma selectorNames_letters (Op : string) :
  Op ∈ selectorNames ->
  chars Op ≠ [] /\ forallb isLetter (chars Op) = true.
Proof.
  unfold selectorNames. rewrite !elem_of_cons, elem_of_nil.
  intros H. repeat (destruct H as [->|H]; [by vm_compute|]). done.
Qed.

Section RoundTrip.

Context {CI : CharInfo}.
Context {RangeSelector : Type} {RS : RangeSelectors RangeSelector}.
Hypothesis Hagree : CharInfoAgrees CI.
Variable w : StringRef.
Hypothesis Hw : whitespaceOnly w = true.

Lemma letter_identifierChar (c : ascii) :
  isLetter c = true -> identifierChar c = true.
Proof using Hagree.
  intros Hl. unfold identifierChar.
  rewrite (letters_identifier CI Hagree c Hl), andb_true_r.
  unfold nonNegative, isLetter in *. apply Nat.ltb_lt.
  apply orb_true_iff in Hl as [H|H]; apply andb_true_iff in H as [_ H];
    apply Nat.leb_le in H; lia.
Qed.

Lemma selector_name_chars (Op : string) :
  Op ∈ selectorNames ->
  chars Op ≠ [] /\ identifierOnly (chars Op) = true
  /\ startsWithout skipped (chars Op) = true.
Proof using Hagree.
  intros HOp. destruct (selectorNames_letters Op HOp) as [Hne Hl].
  destruct (chars Op) as [|c cs]; [done|]. split_and!; [done| |].
  - by apply (forallb_mono isLetter), Hl; apply letter_identifierChar.
  - cbn [startsWithout forallb] in *. apply andb_true_iff in Hl as [Hc _].
    apply negb_true_iff, (identifier_not_whitespace CI Hagree).
    by apply letter_identifierChar.
Qed.

Lemma punctuation_skipped (c : ascii) :
  c ∈ ["("%char; ")"%char; ","%char; quoteChar] -> skipped c = false.
Proof using Hagree. apply (punctuation_not_whitespace CI Hagree). Qed.

Lemma after_name (rest : StringRef) :
  startsWithout identifierChar (w ++ "("%char :: rest) = true.
Proof using Hagree Hw.
  destruct w as [|c w'] eqn:Hw'; cbn [app startsWithout].
  - by rewrite (paren_not_identifier CI Hagree).
  - cbn [whitespaceOnly forallb] in Hw.
    apply andb_true_iff in Hw as [Hc _].
    destruct (identifierChar c) eqn:Hi; [|done].
    apply (identifier_not_whitespace CI Hagree) in Hi. congruence.
Qed.

Lemma unaryString_names (Op : string) (f : string -> RangeSelector) :
  getUnaryStringSelectors !! Op = Some f -> Op ∈ selectorNames.
Proof.
  intros H. apply elem_of_list_to_map_2 in H.
  apply (list_elem_of_fmap_2 fst) in H. cbn in H.
  unfold selectorNames. rewrite !elem_of_cons, elem_of_nil in *.
  naive_solver.
Qed.

Lemma unaryRange_names (Op : string) (f : RangeSelector -> RangeSelector) :
  getUnaryRangeSelectors !! Op = Some f ->
  Op ∈ selectorNames /\ getUnaryStringSelectors !! Op = None.
Proof.
  intros H. apply elem_of_list_to_map_2 in H.
  apply (list_elem_of_fmap_2 fst) in H. cbn in H.
  rewrite !elem_of_cons, elem_of_nil in H.
  destruct H as [->|[->|[->|[]]]];
    (split; [unfold selectorNames; rewrite !elem_of_cons; naive_solver
            |by vm_compute]).
Qed.

Lemma binaryString_names (Op : string)
    (f : string -> string -> RangeSelector) :
  getBinaryStringSelectors !! Op = Some f ->
  Op ∈ selectorNames /\ getUnaryStringSelectors !! Op = None
  /\ getUnaryRangeSelectors !! Op = None.
Proof.
  intros H. apply elem_of_list_to_map_2 in H.
  apply (list_elem_of_fmap_2 fst) in H. cbn in H.
  rewrite !elem_of_cons, elem_of_nil in H.
  destruct H as [->|[]].
  split_and!; [unfold selectorNames; rewrite !elem_of_cons; naive_solver
              |by vm_compute..].
Qed.

Lemma binaryRange_names (Op : string)
    (f : RangeSelector -> RangeSelector -> RangeSelector) :
  getBinaryRangeSelectors !! Op = Some f ->
  Op ∈ selectorNames /\ getUnaryStringSelectors !! Op = None
  /\ getUnaryRangeSelectors !! Op = None
  /\ getBinaryStringSelectors !! Op = None.
Proof.
  intros H. apply elem_of_list_to_map_2 in H.
  apply (list_elem_of_fmap_2 fst) in H. cbn in H.
  rewrite !elem_of_cons, elem_of_nil in H.
  destruct H as [->|[->|[]]];
    (split_and!; [unfold selectorNames; rewrite !elem_of_cons; naive_solver
                 |by vm_compute..]).
Qed.

(** Brings an input that is a text followed by a rest into the form of a
    list of tokens. *)
Ltac flatten_input :=
  unfold quoted;
  repeat (rewrite <- app_assoc || rewrite <- app_comm_cons);
  cbn [app].

(** Compares the lengths of two inputs given by their tokens. *)
Ltac length_app_tac :=
  repeat (rewrite length_app || cbn [length]); lia.

Lemma parseName_at (Op : string) (rest Original : StringRef) :
  Op ∈ selectorNames ->
  parseId (mkParseState (w ++ chars Op ++ w ++ "("%char :: rest) Original)
  = HasValue (mkParseProgress
                (mkParseState (w ++ "("%char :: rest) Original) Op).
Proof using Hagree Hw.
  intros HOp. destruct (selector_name_chars Op HOp) as (Hne & HId & Hh).
  rewrite parseId_at; [by rewrite str_chars|done..|apply after_name].
Qed.

Lemma parseQuoted_at (Id : string) (rest Original : StringRef) :
  forallb (fun c => negb (Ascii.eqb c quoteChar)) (chars Id) = true ->
  parseStringId
    (mkParseState (w ++ quoteChar :: chars Id ++ quoteChar :: rest) Original)
  = HasValue (mkParseProgress (mkParseState rest Original) Id).
Proof using Hagree Hw.
  intros HId. rewrite parseStringId_at; [by rewrite str_chars|done| |done].
  apply punctuation_skipped. rewrite !elem_of_cons. auto.
Qed.

Lemma parsePunctuation_at (c : ascii) (rest Original : StringRef) :
  c ∈ ["("%char; ")"%char; ","%char; quoteChar] ->
  parseChar c (mkParseState (w ++ c :: rest) Original)
  = HasValue (mkParseProgress (mkParseState rest Original) tt).
Proof using Hagree Hw. intros Hc. apply parseChar_at; [done|by apply punctuation_skipped]. Qed.

Lemma parseRangeSelectorImpl_print (e : SelectorExpr) :
  forall (depth : nat) (rest Original : StringRef) (v : RangeSelector),
    unquotedIds e = true ->
    denote e = Some v ->
    length (print w e ++ rest) < depth ->
    parseRangeSelectorImpl depth
      (mkParseState (print w e ++ rest) Original)
    = Some (HasValue (mkParseProgress (mkParseState rest Original) v)).
Proof using Hagree Hw.
  induction e as [Op Id|Op Arg IH|Op L R|Op L IHL R IHR];
    intros depth rest Original v Hq Hden Hlen;
    (destruct depth as [|d]; [lia|]);
    cbn [print unquotedIds denote] in *.
  - destruct (getUnaryStringSelectors !! Op) as [f|] eqn:Hf; [|done].
    cbn in Hden. injection Hden as <-.
    pose proof (unaryString_names _ _ Hf) as HOp.
    flatten_input. cbn [parseRangeSelectorImpl].
    rewrite parseName_at by done. cbn [Progress_Value Progress_State].
    unfold findOptional. rewrite Hf. unfold parseSingle.
    rewrite parsePunctuation_at by (rewrite !elem_of_cons; auto).
    cbn [Progress_State].
    rewrite parseQuoted_at by done. cbn [Progress_State Progress_Value].
    rewrite parsePunctuation_at by (rewrite !elem_of_cons; auto).
    done.
  - destruct (getUnaryRangeSelectors !! Op) as [f|] eqn:Hf; [|done].
    cbn in Hden. destruct (denote Arg) as [a|] eqn:Ha; [|done].
    cbn in Hden. injection Hden as <-.
    destruct (unaryRange_names _ _ Hf) as (HOp & Hn1).
    revert Hlen. flatten_input. intros Hlen. cbn [parseRangeSelectorImpl].
    rewrite parseName_at by done. cbn [Progress_Value Progress_State].
    unfold findOptional. rewrite Hn1, Hf. unfold parseSingle.
    rewrite parsePunctuation_at by (rewrite !elem_of_cons; auto).
    cbn [Progress_State].
    rewrite (IH d (w ++ ")"%char :: rest) Original a); [|done|done|].
    2:{ revert Hlen. length_app_tac. }
    cbn [Progress_State Progress_Value].
    rewrite parsePunctuation_at by (rewrite !elem_of_cons; auto).
    done.
  - destruct (getBinaryStringSelectors !! Op) as [f|] eqn:Hf; [|done].
    cbn in Hden. injection Hden as <-.
    destruct (binaryString_names _ _ Hf) as (HOp & Hn1 & Hn2).
    apply andb_true_iff in Hq as [HqL HqR].
    flatten_input. cbn [parseRangeSelectorImpl].
    rewrite parseName_at by done. cbn [Progress_Value Progress_State].
    unfold findOptional. rewrite Hn1, Hn2, Hf. unfold parsePair.
    rewrite parsePunctuation_at by (rewrite !elem_of_cons; auto).
    cbn [Progress_State].
    rewrite parseQuoted_at by done. cbn [Progress_State Progress_Value].
    rewrite parsePunctuation_at by (rewrite !elem_of_cons; auto).
    cbn [Progress_State].
    rewrite parseQuoted_at by done. cbn [Progress_State Progress_Value].
    rewrite parsePunctuation_at by (rewrite !elem_of_cons; auto).
    done.
  - destruct (getBinaryRangeSelectors !! Op) as [f|] eqn:Hf; [|done].
    cbn in Hden. destruct (denote L) as [l|] eqn:Hl; [|done].
    cbn in Hden. destruct (denote R) as [r|] eqn:Hr; [|done].
    cbn in Hden. injection Hden as <-.
    destruct (binaryRange_names _ _ Hf) as (HOp & Hn1 & Hn2 & Hn3).
    apply andb_true_iff in Hq as [HqL HqR].
    revert Hlen. flatten_input. intros Hlen. cbn [parseRangeSelectorImpl].
    rewrite parseName_at by done. cbn [Progress_Value Progress_State].
    unfold findOptional. rewrite Hn1, Hn2, Hn3, Hf. unfold parsePair.
    rewrite parsePunctuation_at by (rewrite !elem_of_cons; auto).
    cbn [Progress_State].
    rewrite (IHL d (w ++ ","%char :: print w R ++ w ++ ")"%char :: rest)
               Original l); [|done|done|].
    2:{ revert Hlen. length_app_tac. }
    cbn [Progress_State Progress_Value].
    rewrite parsePunctuation_at by (rewrite !elem_of_cons; auto).
    cbn [Progress_State].
    rewrite (IHR d (w ++ ")"%char :: rest) Original r); [|done|done|].
    2:{ revert Hlen. length_app_tac. }
    cbn [Progress_State Progress_Value].
    rewrite parsePunctuation_at by (rewrite !elem_of_cons; auto).
    done.
Qed.

(** X30: printing and parsing.  Let the character classes meet the
    requirements of the parser, and let a selector expression over the
    names of the tables, with node ids that hold no double quote, be
    written with any whitespace in front of every token.  Parsing the text,
    also with whitespace after it, gives the selector the expression stands
    for; with anything else after it, parsing reports unexpected input
    after the selector, at the position of the first character that is not
    whitespace. *)
Theorem parseRangeSelector_print (e : SelectorExpr) (v : RangeSelector) :
  unquotedIds e = true ->
  denote e = Some v ->
  parseRangeSelector (print w e) = Some (HasValue v)
  /\ parseRangeSelector (print w e ++ w) = Some (HasValue v)
  /\ forall junk : StringRef,
       junk ≠ [] -> startsWithout skipped junk = true ->
       parseRangeSelector (print w e ++ w ++ junk)
       = Some (HasError
                 (mkParseError (length (print w e ++ w))
                    "unexpected input after selector"
                    (str (take 20 junk)))).
Proof using Hagree Hw.
  intros Hq Hden.
  assert (forall trailing : StringRef,
            parseRangeSelector (print w e ++ trailing)
            = match consumeWhitespace trailing with
              | [] => Some (HasValue v)
              | _ :: _ =>
                  Some (makeParseError
                          (mkParseState (consumeWhitespace trailing)
                                        (print w e ++ trailing))
                          "unexpected input after selector")
              end) as Hrun.
  { intros trailing. unfold parseRangeSelector.
    rewrite (parseRangeSelectorImpl_print e _ trailing _ v Hq Hden)
      by (cbn; lia).
    cbn [Progress_State Progress_Value ParseState_Input
         ParseState_OriginalInput].
    by destruct (consumeWhitespace trailing). }
  split_and!.
  - rewrite <- (app_nil_r (print w e)) at 1. rewrite Hrun. done.
  - rewrite Hrun. rewrite <- (app_nil_r w) at 1.
    by rewrite consumeWhitespace_at.
  - intros junk Hne Hj. rewrite Hrun, consumeWhitespace_at by done.
    destruct junk as [|c junk']; [done|]. f_equal.
    unfold makeParseError. f_equal.
    cbn [ParseState_Input ParseState_OriginalInput].
    transitivity
      (mkParseError
         (positionOf (mkParseState (c :: junk')
                                   (print w e ++ w ++ c :: junk'))
          + length (@nil ascii))
         "unexpected input after selector" (str (take 20 (c :: junk')))).
    + apply (errorAt_split
               (mkParseState (c :: junk') (print w e ++ w ++ c :: junk'))
               [] (c :: junk')); [|done].
      exists (print w e ++ w). by rewrite <- app_assoc.
    + unfold positionOf.
      cbn [ParseState_Input ParseState_OriginalInput length].
      f_equal. rewrite !length_app. cbn [length]. lia.
Qed.

End RoundTrip.

(** * The parser on concrete inputs *)

Lemma exampleCharInfo_agrees : CharInfoAgrees exampleCharInfo.
Proof.
  split.
  - intros [[] [] [] [] [] [] [] []]; by vm_compute.
  - intros [[] [] [] [] [] [] [] []]; by vm_compute.
  - intros c. rewrite !elem_of_cons, elem_of_nil.
    intros [->|[->|[->|[->|[]]]]]; by vm_compute.
  - by vm_compute.
Qed.

Lemma consumeWhitespace_spec_witness :
  consumeWhitespace (CI := exampleCharInfo) (chars "  a b") = chars "a b".
Proof.
  destruct (consumeWhitespace_spec (CI := exampleCharInfo)
              (chars "  a b") (chars "a b")) as [[_ H] _].
  apply H. exists (chars "  "). split_and!; vm_compute; reflexivity.
Defined.

Lemma parseChar_spec_witness :
  parseChar (CI := exampleCharInfo) "("%char
    (mkParseState (chars " (x") (chars "f (x"))
  = HasValue (mkParseProgress (mkParseState (chars "x") (chars "f (x")) tt).
Proof.
  destruct (parseChar_spec (CI := exampleCharInfo) "("%char
              (mkParseState (chars " (x") (chars "f (x"))) as [H _].
  apply H. exists (chars " "), (chars "x").
  split_and!; vm_compute; reflexivity.
Defined.

Lemma parseId_spec_witness :
  parseId (CI := exampleCharInfo)
    (mkParseState (chars "  name(x)") (chars "  name(x)"))
  = HasValue (mkParseProgress
                (mkParseState (chars "(x)") (chars "  name(x)")) "name").
Proof.
  destruct (parseId_spec (CI := exampleCharInfo)
              (mkParseState (chars "  name(x)") (chars "  name(x)")))
    as [H _].
  apply H. exists (chars "  "), (chars "name"), (chars "(x)").
  split_and!; try (vm_compute; reflexivity). discriminate.
Defined.

Lemma parseStringId_spec_witness :
  parseStringId (CI := exampleCharInfo)
    (mkParseState (chars " " ++ quoted "id" ++ chars ")")
                  (chars "node(" ++ chars " " ++ quoted "id" ++ chars ")"))
  = HasValue
      (mkParseProgress
         (mkParseState (chars ")")
            (chars "node(" ++ chars " " ++ quoted "id" ++ chars ")"))
         "id").
Proof.
  destruct (parseStringId_spec (CI := exampleCharInfo)
              (mkParseState (chars " " ++ quoted "id" ++ chars ")")
                 (chars "node(" ++ chars " " ++ quoted "id" ++ chars ")")))
    as [H _].
  apply H. exists (chars " "), (chars "id"), (chars ")").
  split_and!; vm_compute; reflexivity.
Defined.

Lemma parseRangeSelector_terminates_witness :
  exists r : Expected SelectorExpr,
    parseRangeSelector (CI := exampleCharInfo) (RS := exampleSelectors)
      (chars "before(node(x") = Some r.
Proof.
  destruct (parseRangeSelector_terminates (CI := exampleCharInfo)
              (RS := exampleSelectors)) as [H _].
  apply H.
Defined.

Lemma parseRangeSelector_unknown_name_witness :
  parseRangeSelector (CI := exampleCharInfo) (RS := exampleSelectors)
    (chars "  " ++ chars "parent" ++ chars "(x)")
  = Some (HasError
            (mkParseError 0 "unknown selector name: parent" "  parent(x)")).
Proof.
  destruct (parseRangeSelector_unknown_name (CI := exampleCharInfo)
              (RS := exampleSelectors)
              (chars "  ") (chars "parent") (chars "(x)")) as [_ H].
  - vm_compute; reflexivity.
  - discriminate.
  - vm_compute; reflexivity.
  - vm_compute; reflexivity.
  - vm_compute; reflexivity.
  - apply (bool_decide_unpack _). vm_compute. exact I.
  - exact H.
Defined.

Lemma parseRangeSelector_print_witness :
  parseRangeSelector (CI := exampleCharInfo) (RS := exampleSelectors)
    (print (chars " ")
       (BinaryRange "between" (UnaryRange "after" (UnaryString "node" "a"))
                    (BinaryString "encloseNodes" "b" "c")))
  = Some (HasValue
            (BinaryRange "between"
               (UnaryRange "after" (UnaryString "node" "a"))
               (BinaryString "encloseNodes" "b" "c"))).
Proof.
  destruct (parseRangeSelector_print (CI := exampleCharInfo)
              (RS := exampleSelectors) exampleCharInfo_agrees (chars " ")
              eq_refl
              (BinaryRange "between"
                 (UnaryRange "after" (UnaryString "node" "a"))
                 (BinaryString "encloseNodes" "b" "c"))
              (BinaryRange "between"
                 (UnaryRange "after" (UnaryString "node" "a"))
                 (BinaryString "encloseNodes" "b" "c")))
    as [H _].
  - vm_compute; reflexivity.
  - vm_compute; reflexivity.
  - exact H.
Defined.
